(** * Share Your Files: a shallow embedding of the transfer core

    The development follows the C++ sources of Share Your Files (SYF):
    the transactional file reader and writer ([fileintransfer.cpp]), the file
    descriptor and its stream operators ([fileinfo.cpp]), the receiving side of
    the SYFFT protocol ([syfftprotocolcommon.cpp], [syfftprotocolreceiver.cpp]),
    the discovery protocol ([syfdprotocol.cpp]) and the peer registry
    ([user.cpp], [users.cpp]); then the datagram of the discovery protocol
    ([syfddatagram.cpp]), the picker protocol ([SYFPicker/main.cpp],
    [syfpprotocol.cpp]), the icon protocol ([syfitprotocol.cpp],
    [usericon.cpp]) and the progress of a transfer ([transferinfo.cpp]).

    Fixed-width integers are kept in [Z] with the wrap-around written out,
    byte arrays are [list byte], strings are [string] (a [QString] is
    represented by its UTF-8 bytes; the names of a datagram, whose length
    matters on the wire, by their UTF-16 code units), [QHash] and
    [QJsonObject] are [gmap]s.
    Every call into the operating system (file open, write, commit, directory
    listing) is an explicit oracle argument of the operation that makes it. *)

From Stdlib Require Import ZArith Lia Bool List String Ascii Strings.Byte.
From stdpp Require Import base tactics option list gmap strings.
Import ListNotations.

Local Open Scope Z_scope.

(** ** Machine integers *)

Definition wrap8 (x : Z) : Z := x mod 2 ^ 8.
Definition wrap32 (x : Z) : Z := x mod 2 ^ 32.
Definition wrap64 (x : Z) : Z := x mod 2 ^ 64.

Definition zlen {A : Type} (l : list A) : Z := Z.of_nat (length l).

(** ** fileintransfer.hpp / fileintransfer.cpp *)

Module FileInTransfer.

(** [FileInTransfer::MAX_CHUNK_SIZE]. *)
Definition MAX_CHUNK_SIZE : Z := 8192.

(** The members of the abstract base class [FileInTransfer], followed by the
    state of the file object of the derived class: [file_open] is
    [m_file.isOpen()], [file_tmp] the bytes handed so far to the temporary file
    of the [QSaveFile] (unused by the reader) and [file_dest] what the
    [QSaveFile] has moved to the destination name ([None] while nothing has
    been committed). *)
Record t : Type := mk {
  info_valid : bool;
  info_size : Z;
  m_error : bool;
  m_exists : bool;
  m_remainingBytes : Z;
  m_transferStarted : bool;
  m_committed : bool;
  m_rollbacked : bool;
  file_open : bool;
  file_tmp : list byte;
  file_dest : option (list byte)
}.

Definition set_error (b : bool) (f : t) : t :=
  mk (info_valid f) (info_size f) b (m_exists f) (m_remainingBytes f)
     (m_transferStarted f) (m_committed f) (m_rollbacked f)
     (file_open f) (file_tmp f) (file_dest f).

Definition set_remainingBytes (r : Z) (f : t) : t :=
  mk (info_valid f) (info_size f) (m_error f) (m_exists f) r
     (m_transferStarted f) (m_committed f) (m_rollbacked f)
     (file_open f) (file_tmp f) (file_dest f).

Definition set_transferStarted (b : bool) (f : t) : t :=
  mk (info_valid f) (info_size f) (m_error f) (m_exists f) (m_remainingBytes f)
     b (m_committed f) (m_rollbacked f)
     (file_open f) (file_tmp f) (file_dest f).

Definition set_committed (b : bool) (f : t) : t :=
  mk (info_valid f) (info_size f) (m_error f) (m_exists f) (m_remainingBytes f)
     (m_transferStarted f) b (m_rollbacked f)
     (file_open f) (file_tmp f) (file_dest f).

Definition set_rollbacked (b : bool) (f : t) : t :=
  mk (info_valid f) (info_size f) (m_error f) (m_exists f) (m_remainingBytes f)
     (m_transferStarted f) (m_committed f) b
     (file_open f) (file_tmp f) (file_dest f).

Definition set_open (b : bool) (f : t) : t :=
  mk (info_valid f) (info_size f) (m_error f) (m_exists f) (m_remainingBytes f)
     (m_transferStarted f) (m_committed f) (m_rollbacked f)
     b (file_tmp f) (file_dest f).

Definition set_tmp (d : list byte) (f : t) : t :=
  mk (info_valid f) (info_size f) (m_error f) (m_exists f) (m_remainingBytes f)
     (m_transferStarted f) (m_committed f) (m_rollbacked f)
     (file_open f) d (file_dest f).

Definition set_dest (d : option (list byte)) (f : t) : t :=
  mk (info_valid f) (info_size f) (m_error f) (m_exists f) (m_remainingBytes f)
     (m_transferStarted f) (m_committed f) (m_rollbacked f)
     (file_open f) (file_tmp f) d.

(** [FileInTransfer::FileInTransfer]: [valid] and [size] come from the
    [FileInfo], [exists_] is [basePath.exists(fileInfo.filePath())]. *)
Definition init (valid : bool) (size : Z) (exists_ : bool) : t :=
  mk valid size (negb valid) exists_ size false false false false [] None.

(** [transferCompleted()]. *)
Definition transferCompleted (f : t) : bool := m_committed f || m_rollbacked f.

(** The three virtual operations and the results of the system calls each of
    them makes.  [OpChunk buffer io]: [buffer] is the argument of
    [processNextDataChunk] and [io] what [m_file.write] (writer) or
    [m_file.read] (reader) returns.  [OpCommit a b]: for the writer [a] is the
    result of [QSaveFile::commit()]; for the reader [a] is [m_file.atEnd()]
    and [b] is [updated()]. *)
Inductive Op : Type :=
  | OpChunk (buffer : list byte) (io : Z)
  | OpCommit (a b : bool)
  | OpRollback.

(** The interface of the abstract class: one implementation per derived
    class. *)
Class Impl : Type := {
  processNextDataChunk : list byte -> Z -> t -> bool * t;
  commit : bool -> bool -> t -> bool * t;
  rollback : t -> bool * t
}.

Definition apply `{Impl} (o : Op) (f : t) : bool * t :=
  match o with
  | OpChunk buffer io => processNextDataChunk buffer io f
  | OpCommit a b => commit a b f
  | OpRollback => rollback f
  end.

Definition run `{Impl} (ops : list Op) (f : t) : t :=
  fold_left (fun g o => snd (apply o g)) ops f.

End FileInTransfer.

Module Writer.
Import FileInTransfer.

(** [FileInTransferWriter::FileInTransferWriter]: [mkpathOk] is the result of
    [basePath.mkpath], [openOk] of [m_file.open(QFile::WriteOnly)].  A failed
    [mkpath] does not return: the open is attempted all the same. *)
Definition create (valid : bool) (size : Z) (exists_ mkpathOk openOk : bool) : t :=
  let f := init valid size exists_ in
  if m_error f then f
  else
    let f := if negb mkpathOk then set_error true f else f in
    if negb openOk then set_error true f else set_open true f.

(** [FileInTransferWriter::rollback]. *)
Definition rollback (f : t) : bool * t :=
  if m_committed f then (false, f)
  else (true, set_error true (set_rollbacked true f)).

(** [FileInTransferWriter::processNextDataChunk]; [wr] is the value returned
    by [m_file.write(buffer.data(), buffer.length())]: the temporary file
    receives the first [wr] bytes of the buffer. *)
Definition processNextDataChunk (buffer : list byte) (wr : Z) (f : t) : bool * t :=
  let f := set_transferStarted true f in
  if m_error f || negb (file_open f) || (m_remainingBytes f <? zlen buffer)
  then (false, set_error true f)
  else
    let f := set_tmp (file_tmp f ++ firstn (Z.to_nat wr) buffer) f in
    if negb (wr =? zlen buffer) then (false, set_error true f)
    else (true, set_remainingBytes (m_remainingBytes f - zlen buffer) f).

(** [FileInTransferWriter::commit]; [commitOk] is the result of
    [m_file.commit()], which closes the file and, on success, moves the
    temporary file to the destination name. *)
Definition commit (commitOk : bool) (_ : bool) (f : t) : bool * t :=
  let f := set_transferStarted true f in
  if m_committed f then (m_committed f, f)
  else if negb (file_open f) || m_error f || negb (m_remainingBytes f =? 0)
  then (false, snd (rollback f))
  else
    let f := set_open false f in
    if commitOk
    then (true, set_committed true (set_dest (Some (file_tmp f)) f))
    else (false, snd (rollback f)).

#[export] Instance impl : Impl :=
  {| FileInTransfer.processNextDataChunk := processNextDataChunk;
     FileInTransfer.commit := commit;
     FileInTransfer.rollback := rollback |}.

End Writer.

Module Reader.
Import FileInTransfer.

(** [FileInTransferReader::FileInTransferReader]: [updated] is the result of
    the first [updated()] call, [openOk] of [m_file.open(QFile::ReadOnly)]. *)
Definition create (valid : bool) (size : Z) (exists_ updated openOk : bool) : t :=
  let f := init valid size exists_ in
  if m_error f || updated then set_error true f
  else if negb openOk then set_error true f else set_open true f.

(** [FileInTransferReader::rollback]. *)
Definition rollback (f : t) : bool * t :=
  if m_committed f then (false, f)
  else (true, set_error true (set_rollbacked true (set_open false f))).

(** [FileInTransferReader::processNextDataChunk]; [rd] is the value returned
    by [m_file.read(buffer.data(), toReadInt)]. *)
Definition processNextDataChunk (_ : list byte) (rd : Z) (f : t) : bool * t :=
  let f := set_transferStarted true f in
  if m_error f || (m_remainingBytes f =? 0) || negb (file_open f)
  then (false, set_error true f)
  else
    let toRead :=
      if m_remainingBytes f >? MAX_CHUNK_SIZE then MAX_CHUNK_SIZE
      else m_remainingBytes f in
    if negb (rd =? toRead) then (false, set_error true f)
    else (true, set_remainingBytes (m_remainingBytes f - toRead) f).

(** [FileInTransferReader::commit]; [atEnd] is [m_file.atEnd()] and
    [updated] the result of [updated()]. *)
Definition commit (atEnd updated : bool) (f : t) : bool * t :=
  let f := set_transferStarted true f in
  if m_committed f then (m_committed f, f)
  else if m_error f || negb (m_remainingBytes f =? 0) || negb atEnd || updated
  then (false, snd (rollback f))
  else (true, set_committed true (set_open false f)).

#[export] Instance impl : Impl :=
  {| FileInTransfer.processNextDataChunk := processNextDataChunk;
     FileInTransfer.commit := commit;
     FileInTransfer.rollback := rollback |}.

End Reader.

(** ** The parts of Qt the sources rely on

    Paths are POSIX paths ([QDir::separator()] is ['/']). *)

Module Qt.

Definition slash : ascii := "/"%char.
Definition dot : ascii := "."%char.

(** Splitting at every ['/']: ["a//b"] has the segments ["a"], [""], ["b"]. *)
Fixpoint split_slash (s : list ascii) : list (list ascii) :=
  match s with
  | [] => [[]]
  | c :: r =>
      if Ascii.eqb c slash then [] :: split_slash r
      else match split_slash r with
           | [] => [[c]]
           | seg :: segs => (c :: seg) :: segs
           end
  end.

Fixpoint join_slash (segs : list (list ascii)) : list ascii :=
  match segs with
  | [] => []
  | [seg] => seg
  | seg :: rest => seg ++ slash :: join_slash rest
  end.

Definition seg_eqb (a b : list ascii) : bool :=
  bool_decide (a = b).

(** One step of the segment normalisation of [qt_normalizePathSegments]:
    [stack] holds the segments kept so far, last one first. *)
Definition norm_step (absolute : bool) (stack : list (list ascii))
    (seg : list ascii) : list (list ascii) :=
  if seg_eqb seg [] || seg_eqb seg [dot] then stack
  else if seg_eqb seg [dot; dot] then
    match stack with
    | top :: rest => if seg_eqb top [dot; dot] then seg :: stack else rest
    | [] => if absolute then [] else [seg]
    end
  else seg :: stack.

Definition is_absolute_chars (s : list ascii) : bool :=
  match s with
  | c :: _ => Ascii.eqb c slash
  | [] => false
  end.

(** [QDir::cleanPath]: empty segments and ["."] are dropped, [".."] removes
    the segment before it (a leading [".."] of a relative path stays, one at
    the root of an absolute path is dropped), a trailing separator is removed,
    and a path that normalises to nothing becomes ["."].  The empty path is
    returned as it is. *)
Definition cleanPath_chars (s : list ascii) : list ascii :=
  match s with
  | [] => []
  | _ =>
      let absolute := is_absolute_chars s in
      let segs := rev (fold_left (norm_step absolute) (split_slash s) []) in
      if absolute then slash :: join_slash segs
      else match segs with
           | [] => [dot]
           | _ => join_slash segs
           end
  end.

Definition cleanPath (s : string) : string :=
  string_of_list_ascii (cleanPath_chars (list_ascii_of_string s)).

(** [QString::startsWith]. *)
Fixpoint starts_with_chars (p s : list ascii) : bool :=
  match p, s with
  | [], _ => true
  | a :: p', b :: s' => Ascii.eqb a b && starts_with_chars p' s'
  | _ :: _, [] => false
  end.

Definition startsWith (p s : string) : bool :=
  starts_with_chars (list_ascii_of_string p) (list_ascii_of_string s).

(** [QFileInfo::isRelative]: an empty [QFileInfo] is relative; otherwise the
    path is absolute when it starts with ['/'], or with [':'] (a path into the
    Qt resource system, whose file engine reports every path as absolute). *)
Definition isRelative (s : string) : bool :=
  match list_ascii_of_string s with
  | [] => true
  | c :: _ => negb (Ascii.eqb c slash) && negb (Ascii.eqb c ":"%char)
  end.

(** The characters after the last ['/'] ([QFileInfo::fileName]), and the
    characters before it ([QFileInfo::path]: ["."] when there is no separator,
    ["/"] when the only one is the first character, empty for an empty
    [QFileInfo]). *)
Definition last_segment (s : list ascii) : list ascii :=
  List.last (split_slash s) [].

Definition fileName (s : string) : string :=
  string_of_list_ascii (last_segment (list_ascii_of_string s)).

Definition path_chars (s : list ascii) : list ascii :=
  match s with
  | [] => []
  | _ =>
      match rev (split_slash s) with
      | [] | [_] => [dot]
      | _ :: before =>
          match join_slash (rev before) with
          | [] => [slash]
          | p => p
          end
      end
  end.

Definition path (s : string) : string :=
  string_of_list_ascii (path_chars (list_ascii_of_string s)).

(** [QFileInfo::baseName]: the file name up to the first ['.'];
    [QFileInfo::completeSuffix]: what follows the first ['.']. *)
Fixpoint before_dot (s : list ascii) : list ascii :=
  match s with
  | [] => []
  | c :: r => if Ascii.eqb c dot then [] else c :: before_dot r
  end.

Fixpoint after_dot (s : list ascii) : list ascii :=
  match s with
  | [] => []
  | c :: r => if Ascii.eqb c dot then r else after_dot r
  end.

Definition baseName (s : string) : string :=
  string_of_list_ascii (before_dot (last_segment (list_ascii_of_string s))).

Definition completeSuffix (s : string) : string :=
  string_of_list_ascii (after_dot (last_segment (list_ascii_of_string s))).

(** *** [QString::arg]

    [findArgEscapes] scans the string for place markers: a ['%'], an optional
    ['L'], one or two decimal digits.  [arg] replaces every marker carrying
    the lowest number found; a string without marker is returned unchanged. *)

Definition digitValue (c : ascii) : option nat :=
  let n := nat_of_ascii c in
  if (48 <=? n)%nat && (n <=? 57)%nat then Some (n - 48)%nat else None.

Inductive Token : Type :=
  | Lit (c : ascii)
  | Escape (number : nat) (text : list ascii).

Fixpoint findArgEscapes (s : list ascii) : list Token :=
  match s with
  | [] => []
  | c :: r =>
      if negb (Ascii.eqb c "%"%char) then Lit c :: findArgEscapes r
      else
        match r with
        | [] => [Lit c]
        | c1 :: r1 =>
            if Ascii.eqb c1 "L"%char then
              match r1 with
              | [] => [Lit c; Lit c1]
              | c2 :: r2 =>
                  match digitValue c2 with
                  | None => Lit c :: Lit c1 :: findArgEscapes r1
                  | Some d =>
                      match r2 with
                      | [] => [Escape d [c; c1; c2]]
                      | c3 :: r3 =>
                          match digitValue c3 with
                          | Some d' =>
                              Escape (10 * d + d') [c; c1; c2; c3]
                              :: findArgEscapes r3
                          | None => Escape d [c; c1; c2] :: findArgEscapes r2
                          end
                      end
                  end
              end
            else
              match digitValue c1 with
              | None => Lit c :: findArgEscapes r
              | Some d =>
                  match r1 with
                  | [] => [Escape d [c; c1]]
                  | c2 :: r2 =>
                      match digitValue c2 with
                      | Some d' =>
                          Escape (10 * d + d') [c; c1; c2] :: findArgEscapes r2
                      | None => Escape d [c; c1] :: findArgEscapes r1
                      end
                  end
              end
        end
  end.

Fixpoint min_escape (ts : list Token) : option nat :=
  match ts with
  | [] => None
  | Lit _ :: r => min_escape r
  | Escape n _ :: r =>
      match min_escape r with
      | None => Some n
      | Some m => Some (Nat.min n m)
      end
  end.

Fixpoint replaceArgEscapes (m : nat) (a : list ascii) (ts : list Token)
    : list ascii :=
  match ts with
  | [] => []
  | Lit c :: r => c :: replaceArgEscapes m a r
  | Escape n text :: r =>
      (if Nat.eqb n m then a else text) ++ replaceArgEscapes m a r
  end.

Definition arg_chars (a s : list ascii) : list ascii :=
  let ts := findArgEscapes s in
  match min_escape ts with
  | None => s
  | Some m => replaceArgEscapes m a ts
  end.

(** [fmt.arg(a)], written [arg a fmt] so that a chain of [.arg] calls reads
    as a composition. *)
Definition arg (a fmt : string) : string :=
  string_of_list_ascii
    (arg_chars (list_ascii_of_string a) (list_ascii_of_string fmt)).

(** The decimal digits of a [quint8], as [QString::arg(int)] prints it. *)
Definition digit (d : Z) : ascii := ascii_of_nat (48 + Z.to_nat d).

Definition number (n : Z) : string :=
  string_of_list_ascii
    (if n <? 10 then [digit n]
     else if n <? 100 then [digit (n / 10); digit (n mod 10)]
     else [digit (n / 100); digit (n / 10 mod 10); digit (n mod 10)]).

End Qt.


(** ** [QDataStream] in little-endian byte order *)

Module QDataStream.

Definition byte_of_Z (x : Z) : byte :=
  match Byte.of_N (Z.to_N (x mod 256)) with
  | Some b => b
  | None => x00
  end.

Definition Z_of_byte (b : byte) : Z := Z.of_N (Byte.to_N b).

(** An unsigned integer of [n] bytes, least significant byte first. *)
Fixpoint put_le (n : nat) (x : Z) : list byte :=
  match n with
  | O => []
  | S n' => byte_of_Z x :: put_le n' (x / 256)
  end.

Fixpoint get_le (n : nat) (bs : list byte) : option (Z * list byte) :=
  match n with
  | O => Some (0, bs)
  | S n' =>
      match bs with
      | [] => None
      | b :: bs' =>
          match get_le n' bs' with
          | None => None
          | Some (x, rest) => Some (Z_of_byte b + 256 * x, rest)
          end
      end
  end.

(** A reader over the received bytes: [None] is a stream whose status is no
    longer [Ok] (the data read so far is incomplete). *)
Definition Get (A : Type) : Type := list byte -> option (A * list byte).

Definition ret {A : Type} (a : A) : Get A := fun bs => Some (a, bs).

Definition bind {A B : Type} (g : Get A) (k : A -> Get B) : Get B :=
  fun bs =>
    match g bs with
    | None => None
    | Some (a, rest) => k a rest
    end.

Declare Scope get_scope.
Delimit Scope get_scope with get.
Notation "x <- g ;; k" := (bind g (fun x => k))
  (at level 100, g at next level, right associativity) : get_scope.

(** [operator<<] and [operator>>] for [QByteArray]: the length as a
    [quint32], then the bytes; the length [0xFFFFFFFF] stands for a null
    array. *)
Definition put_bytearray (d : list byte) : list byte :=
  put_le 4 (zlen d) ++ d.

Definition get_bytearray : Get (list byte) :=
  (len <- get_le 4 ;;
   fun bs =>
     if len =? 4294967295 then Some ([], bs)
     else if zlen bs <? len then None
     else Some (firstn (Z.to_nat len) bs, skipn (Z.to_nat len) bs))%get.

End QDataStream.

(** ** fileinfo.hpp / fileinfo.cpp *)

Module FileInfo.
Import QDataStream.

(** [FileInfo::Status]. *)
Inductive Status : Type :=
  | Scheduled
  | InTransfer
  | Transferred
  | TransferRejected
  | TransferFailed.

#[export] Instance Status_eq_dec : EqDecision Status.
Proof. solve_decision. Defined.

(** A [QDateTime] is kept as what its stream operators exchange in the
    [Qt_5_0] format selected by the protocol: the Julian day and the
    milliseconds since midnight of the instant in UTC, and the time spec (0 is
    [Qt::LocalTime], 1 is [Qt::UTC]). *)
Record QDateTime : Type := mkDateTime {
  julianDay : Z;
  msecs : Z;
  timeSpec : Z
}.

Definition put_datetime (d : QDateTime) : list byte :=
  put_le 8 (julianDay d) ++ put_le 4 (msecs d) ++ put_le 1 (timeSpec d).

Definition get_datetime : Get QDateTime :=
  (jd <- get_le 8 ;;
   ms <- get_le 4 ;;
   ts <- get_le 1 ;;
   ret (mkDateTime jd ms ts))%get.

Record t : Type := mk {
  m_valid : bool;
  m_filePath : string;
  m_name : string;
  m_path : string;
  m_size : Z;
  m_lastModified : QDateTime;
  m_status : Status
}.

Definition setStatus (st : Status) (f : t) : t :=
  mk (m_valid f) (m_filePath f) (m_name f) (m_path f) (m_size f)
     (m_lastModified f) st.

(** The test both the constructor and [operator>>] apply to the path:
    "if the file name looks strange, just return". *)
Definition looks_strange (filePath : string) : bool :=
  negb (String.eqb filePath (Qt.cleanPath filePath))
  || Qt.startsWith "../" filePath
  || negb (Qt.isRelative filePath).

(** [FileInfo::FileInfo(filePath, size, lastModified)]. *)
Definition make (filePath : string) (size : Z) (lastModified : QDateTime) : t :=
  if looks_strange filePath
  then mk false filePath "" "" size lastModified Scheduled
  else mk true filePath (Qt.fileName filePath) (Qt.path filePath) size
          lastModified Scheduled.

(** [FileInfo::FileInfo()] initialises [m_valid] only: [m_size] and
    [m_status] hold whatever the memory of the object held, here [size] and
    [status]. *)
Definition make_default (size : Z) (status : Status) : t :=
  mk false "" "" "" size (mkDateTime 0 0 0) status.

(** [operator<<]: nothing is written for an instance that is not valid or
    not scheduled. *)
Definition encode (f : t) : list byte :=
  if negb (m_valid f) || negb (bool_decide (m_status f = Scheduled)) then []
  else put_bytearray (list_byte_of_string (m_filePath f))
       ++ put_le 8 (m_size f)
       ++ put_datetime (m_lastModified f).

(** The three reads of [operator>>]. *)
Definition get_fields : Get (string * Z * QDateTime) :=
  (fileName <- get_bytearray ;;
   size <- get_le 8 ;;
   lastModified <- get_datetime ;;
   ret (string_of_list_byte fileName, size, lastModified))%get.

(** [operator>>], reading into the object [f]: the result is the object after
    the call and, when the stream status is still [Ok], the bytes left in the
    stream.  No statement of the operator assigns [m_status].  After a failed
    read only [m_valid] is looked at by the callers, and the other members are
    left as they were. *)
Definition decode (bs : list byte) (f : t) : t * option (list byte) :=
  let f := mk false (m_filePath f) (m_name f) (m_path f) (m_size f)
              (m_lastModified f) (m_status f) in
  match get_fields bs with
  | None => (f, None)
  | Some ((filePath, size, lastModified), rest) =>
      let f := mk false filePath (m_name f) (m_path f) size lastModified
                  (m_status f) in
      if looks_strange filePath then (f, Some rest)
      else (mk true filePath (Qt.fileName filePath) (Qt.path filePath) size
               lastModified (m_status f), Some rest)
  end.

End FileInfo.


(** ** syfftprotocolcommon.cpp / syfftprotocolreceiver.cpp

    The receiving side of a SYFFT session.  The socket, the timers and the
    transfer speed are left out; the commands written to the peer are not
    recorded. *)

Module Syfft.

(** [SyfftProtocolCommon::Status]. *)
Inductive Status : Type :=
  | New
  | Connecting
  | Connected
  | InTransfer
  | TransferCompleted
  | Closing
  | Closed
  | Aborted
  | PausedByUser
  | PausedByPeer.

#[export] Instance Status_eq_dec : EqDecision Status.
Proof. solve_decision. Defined.

(** [SyfftProtocolReceiver::DuplicatedFileAction]. *)
Inductive DuplicatedFileAction : Type :=
  | Replace
  | Keep
  | KeepBoth
  | Ask.

#[export] Instance DuplicatedFileAction_eq_dec : EqDecision DuplicatedFileAction.
Proof. solve_decision. Defined.

(** The request object handed to the user interface and still waiting for
    its decision: a [SyfftProtocolSharingRequest] or a
    [SyfftProtocolDuplicatedFile]. *)
Inductive Request : Type :=
  | SharingRequest
  | DuplicatedFile.

#[export] Instance Request_eq_dec : EqDecision Request.
Proof. solve_decision. Defined.

(** The counters of [TransferInfo] ([quint32] for files, [quint64] for
    bytes). *)
Record TransferInfo : Type := mkTransferInfo {
  m_totalFiles : Z;
  m_transferredFiles : Z;
  m_skippedFiles : Z;
  m_totalBytes : Z;
  m_transferredBytes : Z;
  m_skippedBytes : Z
}.

Definition remainingFiles (ti : TransferInfo) : Z :=
  wrap32 (m_totalFiles ti - m_transferredFiles ti - m_skippedFiles ti).

Definition remainingBytes (ti : TransferInfo) : Z :=
  wrap64 (m_totalBytes ti - m_transferredBytes ti - m_skippedBytes ti).

Definition set_totalFiles (x : Z) (ti : TransferInfo) : TransferInfo :=
  mkTransferInfo x (m_transferredFiles ti) (m_skippedFiles ti)
    (m_totalBytes ti) (m_transferredBytes ti) (m_skippedBytes ti).

Definition set_transferredFiles (x : Z) (ti : TransferInfo) : TransferInfo :=
  mkTransferInfo (m_totalFiles ti) x (m_skippedFiles ti)
    (m_totalBytes ti) (m_transferredBytes ti) (m_skippedBytes ti).

Definition set_skippedFiles (x : Z) (ti : TransferInfo) : TransferInfo :=
  mkTransferInfo (m_totalFiles ti) (m_transferredFiles ti) x
    (m_totalBytes ti) (m_transferredBytes ti) (m_skippedBytes ti).

Definition set_totalBytes (x : Z) (ti : TransferInfo) : TransferInfo :=
  mkTransferInfo (m_totalFiles ti) (m_transferredFiles ti) (m_skippedFiles ti)
    x (m_transferredBytes ti) (m_skippedBytes ti).

Definition set_transferredBytes (x : Z) (ti : TransferInfo) : TransferInfo :=
  mkTransferInfo (m_totalFiles ti) (m_transferredFiles ti) (m_skippedFiles ti)
    (m_totalBytes ti) x (m_skippedBytes ti).

Definition set_skippedBytes (x : Z) (ti : TransferInfo) : TransferInfo :=
  mkTransferInfo (m_totalFiles ti) (m_transferredFiles ti) (m_skippedFiles ti)
    (m_totalBytes ti) (m_transferredBytes ti) x.

(** What the file system answers about a path relative to the base path:
    [basePath.exists(p)], [basePath.mkpath] of its directory and
    [QSaveFile::open] of the file. *)
Record FsAnswer : Type := mkFsAnswer {
  fs_exists : bool;
  fs_mkpath : bool;
  fs_open : bool
}.

Definition Fs : Type := string -> FsAnswer.

(** The members of [SyfftProtocolCommon] and [SyfftProtocolReceiver].
    [m_peerUuidKnown] is [peerUuid() != UNKNOWN_UUID], [m_shareMsgNull] is
    [m_shareMsg.isNull()], [pendingRequests] the request objects handed to
    the user interface that have not emitted their decision yet, the last
    created first, [socketUnconnected] is
    [m_socket->state() == UnconnectedState].  The head of [m_oldStatusStack]
    is the top of the stack. *)
Record Session : Type := mkSession {
  m_status : Status;
  m_oldStatusStack : list Status;
  m_peerUuidKnown : bool;
  m_transferInfo : TransferInfo;
  m_files : list FileInfo.t;
  m_currentFile : Z;
  m_fileInTransfer : option FileInTransfer.t;
  m_shareMsgNull : bool;
  m_defaultDFAction : DuplicatedFileAction;
  m_preventUserTogglePause : bool;
  pendingRequests : list Request;
  socketUnconnected : bool
}.

Definition set_m_status (x : Status) (s : Session) : Session :=
  mkSession x (m_oldStatusStack s) (m_peerUuidKnown s) (m_transferInfo s)
    (m_files s) (m_currentFile s) (m_fileInTransfer s) (m_shareMsgNull s)
    (m_defaultDFAction s) (m_preventUserTogglePause s) (pendingRequests s)
    (socketUnconnected s).

Definition set_m_oldStatusStack (x : list Status) (s : Session) : Session :=
  mkSession (m_status s) x (m_peerUuidKnown s) (m_transferInfo s) (m_files s)
    (m_currentFile s) (m_fileInTransfer s) (m_shareMsgNull s)
    (m_defaultDFAction s) (m_preventUserTogglePause s) (pendingRequests s)
    (socketUnconnected s).

Definition set_m_peerUuidKnown (x : bool) (s : Session) : Session :=
  mkSession (m_status s) (m_oldStatusStack s) x (m_transferInfo s)
    (m_files s) (m_currentFile s) (m_fileInTransfer s) (m_shareMsgNull s)
    (m_defaultDFAction s) (m_preventUserTogglePause s) (pendingRequests s)
    (socketUnconnected s).

Definition set_m_transferInfo (x : TransferInfo) (s : Session) : Session :=
  mkSession (m_status s) (m_oldStatusStack s) (m_peerUuidKnown s) x
    (m_files s) (m_currentFile s) (m_fileInTransfer s) (m_shareMsgNull s)
    (m_defaultDFAction s) (m_preventUserTogglePause s) (pendingRequests s)
    (socketUnconnected s).

Definition set_m_files (x : list FileInfo.t) (s : Session) : Session :=
  mkSession (m_status s) (m_oldStatusStack s) (m_peerUuidKnown s)
    (m_transferInfo s) x (m_currentFile s) (m_fileInTransfer s)
    (m_shareMsgNull s) (m_defaultDFAction s) (m_preventUserTogglePause s)
    (pendingRequests s) (socketUnconnected s).

Definition set_m_currentFile (x : Z) (s : Session) : Session :=
  mkSession (m_status s) (m_oldStatusStack s) (m_peerUuidKnown s)
    (m_transferInfo s) (m_files s) x (m_fileInTransfer s) (m_shareMsgNull s)
    (m_defaultDFAction s) (m_preventUserTogglePause s) (pendingRequests s)
    (socketUnconnected s).

Definition set_m_fileInTransfer (x : option FileInTransfer.t) (s : Session) : Session :=
  mkSession (m_status s) (m_oldStatusStack s) (m_peerUuidKnown s)
    (m_transferInfo s) (m_files s) (m_currentFile s) x (m_shareMsgNull s)
    (m_defaultDFAction s) (m_preventUserTogglePause s) (pendingRequests s)
    (socketUnconnected s).

Definition set_m_shareMsgNull (x : bool) (s : Session) : Session :=
  mkSession (m_status s) (m_oldStatusStack s) (m_peerUuidKnown s)
    (m_transferInfo s) (m_files s) (m_currentFile s) (m_fileInTransfer s) x
    (m_defaultDFAction s) (m_preventUserTogglePause s) (pendingRequests s)
    (socketUnconnected s).

Definition set_m_defaultDFAction (x : DuplicatedFileAction) (s : Session) : Session :=
  mkSession (m_status s) (m_oldStatusStack s) (m_peerUuidKnown s)
    (m_transferInfo s) (m_files s) (m_currentFile s) (m_fileInTransfer s)
    (m_shareMsgNull s) x (m_preventUserTogglePause s) (pendingRequests s)
    (socketUnconnected s).

Definition set_m_preventUserTogglePause (x : bool) (s : Session) : Session :=
  mkSession (m_status s) (m_oldStatusStack s) (m_peerUuidKnown s)
    (m_transferInfo s) (m_files s) (m_currentFile s) (m_fileInTransfer s)
    (m_shareMsgNull s) (m_defaultDFAction s) x (pendingRequests s)
    (socketUnconnected s).

Definition set_pendingRequests (x : list Request) (s : Session) : Session :=
  mkSession (m_status s) (m_oldStatusStack s) (m_peerUuidKnown s)
    (m_transferInfo s) (m_files s) (m_currentFile s) (m_fileInTransfer s)
    (m_shareMsgNull s) (m_defaultDFAction s) (m_preventUserTogglePause s) x
    (socketUnconnected s).

Definition set_socketUnconnected (x : bool) (s : Session) : Session :=
  mkSession (m_status s) (m_oldStatusStack s) (m_peerUuidKnown s)
    (m_transferInfo s) (m_files s) (m_currentFile s) (m_fileInTransfer s)
    (m_shareMsgNull s) (m_defaultDFAction s) (m_preventUserTogglePause s)
    (pendingRequests s) x.

(** [SyfftProtocolCommon::SyfftProtocolCommon] followed by
    [SyfftProtocolReceiver::SyfftProtocolReceiver]. *)
Definition create : Session :=
  mkSession New [] false (mkTransferInfo 0 0 0 0 0 0) [] 4294967295 None true
    Ask false [] false.

Definition setStatus (st : Status) (s : Session) : Session := set_m_status st s.

Definition update_info (f : TransferInfo -> TransferInfo) (s : Session) : Session :=
  set_m_transferInfo (f (m_transferInfo s)) s.

Definition totalFiles (s : Session) : Z := m_totalFiles (m_transferInfo s).

(** [m_files.at(m_currentFile)]; [None] when the index is out of range. *)
Definition currentFileInfo (s : Session) : option FileInfo.t :=
  m_files s !! Z.to_nat (m_currentFile s).

(** [m_files[m_currentFile].setStatus(st)]; [None] when the index is out of
    range. *)
Definition setCurrentFileStatus (st : FileInfo.Status) (s : Session)
    : option Session :=
  f ← currentFileInfo s;
  Some (set_m_files
          (<[Z.to_nat (m_currentFile s) := FileInfo.setStatus st f]> (m_files s)) s).

(** The slot connected to [QTcpSocket::disconnected]. *)
Definition onDisconnected (s : Session) : Session :=
  if bool_decide (m_status s = Closing) then setStatus Closed s else s.

(** [SyfftProtocolCommon::closeConnection]. *)
Definition closeConnection (s : Session) : Session :=
  if bool_decide (m_status s = New) || bool_decide (m_status s = Closing)
     || bool_decide (m_status s = Closed) || bool_decide (m_status s = Aborted)
  then s
  else
    let s := setStatus Closing s in
    if socketUnconnected s then onDisconnected s else s.

(** [SyfftProtocolCommon::abortConnection]. *)
Definition abortConnection (s : Session) : option Session :=
  if bool_decide (m_status s = New) || bool_decide (m_status s = Closed)
     || bool_decide (m_status s = Aborted)
  then Some s
  else
    let s := setStatus Aborted s in
    let s := update_info (fun ti =>
               set_skippedFiles
                 (wrap32 (m_skippedFiles ti + remainingFiles ti)) ti) s in
    let s := update_info (fun ti =>
               set_skippedBytes
                 (wrap64 (m_skippedBytes ti + remainingBytes ti)) ti) s in
    s ← (if m_currentFile s <? totalFiles s
         then setCurrentFileStatus FileInfo.TransferFailed s
         else Some s);
    Some (set_socketUnconnected true (set_m_fileInTransfer None s)).

(** [SyfftProtocolCommon::manageError]. *)
Definition manageError (s : Session) : option Session := abortConnection s.

(** [SyfftProtocolCommon::togglePauseMode]; [None] when the assertion on the
    stack fails. *)
Definition togglePauseMode (userRequested : bool) (s : Session) : option Session :=
  if bool_decide (m_status s = New) || bool_decide (m_status s = Aborted)
     || bool_decide (m_status s = Closing) || bool_decide (m_status s = Closed)
  then Some s
  else if userRequested && m_preventUserTogglePause s then Some s
  else
    let pauseStatus := if userRequested then PausedByUser else PausedByPeer in
    if bool_decide (m_status s = pauseStatus) then
      match m_oldStatusStack s with
      | [] => None
      | oldStatus :: rest => Some (setStatus oldStatus (set_m_oldStatusStack rest s))
      end
    else
      Some (setStatus pauseStatus
              (set_m_oldStatusStack (m_status s :: m_oldStatusStack s) s)).

(** [SyfftProtocolCommon::moveToNextFile]. *)
Definition moveToNextFile (s : Session) : option (bool * Session) :=
  let s := set_m_currentFile (wrap32 (m_currentFile s + 1)) s in
  if m_currentFile s =? totalFiles s
  then Some (false, closeConnection (setStatus TransferCompleted s))
  else _ ← currentFileInfo s; Some (true, s).

(** [SyfftProtocolReceiver::acceptFileTransfer]. *)
Definition acceptFileTransfer (s : Session) : option Session :=
  _ ← m_fileInTransfer s;
  setCurrentFileStatus FileInfo.InTransfer s.

(** [SyfftProtocolReceiver::rejectFileTransfer]. *)
Definition rejectFileTransfer (s : Session) : option Session :=
  _ ← m_fileInTransfer s;
  let s := set_m_fileInTransfer None s in
  s ← setCurrentFileStatus FileInfo.TransferRejected s;
  f ← currentFileInfo s;
  let s := update_info (fun ti =>
             set_skippedBytes (wrap64 (m_skippedBytes ti + FileInfo.m_size f))
               (set_skippedFiles (wrap32 (m_skippedFiles ti + 1)) ti)) s in
  r ← moveToNextFile s;
  Some (snd r).

(** The relative path tried by the KeepBoth loop for the value [counter] of
    its counter. *)
Definition newPath (path name ext : string) (counter : Z) : string :=
  if String.eqb name "" then
    Qt.arg (Qt.number counter) (Qt.arg ext (Qt.arg path "%1/.%2_%3"))
  else if String.eqb ext "" then
    Qt.arg (Qt.number counter) (Qt.arg name (Qt.arg path "%1/%2_%3"))
  else
    Qt.arg ext (Qt.arg (Qt.number counter)
                  (Qt.arg name (Qt.arg path "%1/%2_%3.%4"))).

(** [new FileInTransferWriter(m_basePath, fileInfo)]. *)
Definition newWriter (fs : Fs) (fileInfo : FileInfo.t) : FileInTransfer.t :=
  let a := fs (FileInfo.m_filePath fileInfo) in
  Writer.create (FileInfo.m_valid fileInfo) (FileInfo.m_size fileInfo)
    (fs_exists a) (fs_mkpath a) (fs_open a).

(** The loop of [performDFAction]: [counter] is a [quint8] that starts at 1
    and ends the loop when it wraps to 0; [n] is the number of values it has
    yet to take.  The result is the descriptor and the writer of the accepted
    name, or [None] when the file is to be rejected. *)
Fixpoint keepBothLoop (fs : Fs) (currentFile : FileInfo.t) (path name ext : string)
    (n : nat) (counter : Z) : option (FileInfo.t * FileInTransfer.t) :=
  match n with
  | O => None
  | S n' =>
      let newFile :=
        FileInfo.make (Qt.cleanPath (newPath path name ext counter))
          (FileInfo.m_size currentFile) (FileInfo.m_lastModified currentFile) in
      let newFileWriter := newWriter fs newFile in
      if FileInTransfer.m_error newFileWriter then None
      else if negb (FileInTransfer.m_exists newFileWriter)
      then Some (newFile, newFileWriter)
      else keepBothLoop fs currentFile path name ext n' (counter + 1)
  end.

Definition keepBoth (fs : Fs) (currentFile : FileInfo.t)
    : option (FileInfo.t * FileInTransfer.t) :=
  let name := FileInfo.m_name currentFile in
  keepBothLoop fs currentFile (FileInfo.m_path currentFile)
    (Qt.baseName name) (Qt.completeSuffix name) 255 1.

(** [SyfftProtocolReceiver::performDFAction]; [None] when the assertion on
    the action fails. *)
Definition performDFAction (fs : Fs) (action : DuplicatedFileAction)
    (s : Session) : option Session :=
  match action with
  | Ask => None
  | Replace => acceptFileTransfer s
  | Keep => rejectFileTransfer s
  | KeepBoth =>
      currentFile ← currentFileInfo s;
      match keepBoth fs currentFile with
      | Some (newFile, newFileWriter) =>
          let s := set_m_files
                     (<[Z.to_nat (m_currentFile s) := newFile]> (m_files s)) s in
          acceptFileTransfer (set_m_fileInTransfer (Some newFileWriter) s)
      | None => rejectFileTransfer s
      end
  end.

(** The commands of the protocol as [readData] meets them, each with the
    operands that follow it on the wire and the answers of the system calls
    its handler makes. *)
Inductive Command : Type :=
  | HELLO (writeOk : bool)
  | ACK
  | SHARE (totalFiles totalBytes : Z)
  | ITEM (payload : list byte) (junkSize : Z) (junkStatus : FileInfo.Status)
  | START (fs : Fs)
  | SKIP
  | CHUNK (length : Z) (payload : list byte) (wr : Z)
  | COMMIT (commitOk : bool)
  | ROLLBK
  | CLOSE
  | PAUSE
  | ABORT
  | Unrecognized.

Definition INT_MAX : Z := 2147483647.

(** A handler that ends in [manageError(...); return false]. *)
Definition fail (s : Session) : option (bool * Session) :=
  s ← manageError s; Some (false, s).

(** [SyfftProtocolReceiver::helloCommand]. *)
Definition helloCommand (writeOk : bool) (s : Session) : option (bool * Session) :=
  if negb (bool_decide (m_status s = Connecting)) || m_peerUuidKnown s
  then fail s
  else
    let s := set_m_peerUuidKnown true s in
    if negb writeOk then fail s else Some (true, s).

(** [SyfftProtocolReceiver::ackCommand]. *)
Definition ackCommand (s : Session) : option (bool * Session) :=
  if negb (bool_decide (m_status s = Connecting)) || negb (m_peerUuidKnown s)
  then fail s
  else Some (true, setStatus Connected s).

(** The sum computed by the loop over [m_files] in [shareCommand]. *)
Definition sumSizes (files : list FileInfo.t) : Z :=
  fold_left (fun acc f => wrap64 (acc + FileInfo.m_size f)) files 0.

(** [SyfftProtocolReceiver::shareCommand]. *)
Definition shareCommand (nFiles nBytes : Z) (s : Session) : option (bool * Session) :=
  if bool_decide (m_status s = Connected) && (totalFiles s =? 0)
     && m_shareMsgNull s
  then
    let nFiles := wrap32 nFiles in
    let nBytes := wrap64 nBytes in
    if nFiles >=? INT_MAX then fail s
    else
      let s := update_info (fun ti =>
                 set_totalBytes nBytes (set_totalFiles nFiles ti)) s in
      Some (true, set_m_shareMsgNull false s)
  else if bool_decide (m_status s = Connected)
          && (wrap32 (zlen (m_files s)) =? totalFiles s)
          && negb (m_shareMsgNull s)
  then
    if negb (sumSizes (m_files s) =? m_totalBytes (m_transferInfo s))
    then fail (set_m_files [] s)
    else
      s ← togglePauseMode true s;
      Some (true, set_pendingRequests (SharingRequest :: pendingRequests s)
                    (set_m_preventUserTogglePause true s))
  else fail s.

(** [SyfftProtocolReceiver::itemCommand]. *)
Definition itemCommand (payload : list byte) (junkSize : Z)
    (junkStatus : FileInfo.Status) (s : Session) : option (bool * Session) :=
  if negb (bool_decide (m_status s = Connected))
     || (wrap32 (zlen (m_files s)) >=? totalFiles s)
  then fail s
  else
    match FileInfo.decode payload (FileInfo.make_default junkSize junkStatus) with
    | (_, None) => Some (false, s)
    | (file, Some _) =>
        if negb (FileInfo.m_valid file) then fail s
        else Some (true, set_m_files (m_files s ++ [file]) s)
    end.

(** [SyfftProtocolReceiver::startCommand]. *)
Definition startCommand (fs : Fs) (s : Session) : option (bool * Session) :=
  if negb (bool_decide (m_status s = InTransfer))
     || bool_decide (is_Some (m_fileInTransfer s))
  then fail s
  else
    file ← currentFileInfo s;
    let w := newWriter fs file in
    let s := set_m_fileInTransfer (Some w) s in
    if FileInTransfer.m_error w then
      s ← rejectFileTransfer s; Some (true, s)
    else if negb (FileInTransfer.m_exists w) then
      s ← acceptFileTransfer s; Some (true, s)
    else if negb (bool_decide (m_defaultDFAction s = Ask)) then
      s ← performDFAction fs (m_defaultDFAction s) s; Some (true, s)
    else
      s ← togglePauseMode true s;
      Some (true, set_pendingRequests (DuplicatedFile :: pendingRequests s)
                    (set_m_preventUserTogglePause true s)).

(** [SyfftProtocolReceiver::skipCommand]. *)
Definition skipCommand (s : Session) : option (bool * Session) :=
  if negb (bool_decide (m_status s = InTransfer))
     || bool_decide (is_Some (m_fileInTransfer s))
  then fail s
  else
    f ← currentFileInfo s;
    let s := update_info (fun ti =>
               set_skippedBytes (wrap64 (m_skippedBytes ti + FileInfo.m_size f))
                 (set_skippedFiles (wrap32 (m_skippedFiles ti + 1)) ti)) s in
    s ← setCurrentFileStatus FileInfo.TransferFailed s;
    r ← moveToNextFile s;
    Some (true, snd r).

(** [SyfftProtocolReceiver::chunkCommand]: [length] is the length field of
    the frame, [payload] the bytes that follow it in the stream and [wr] the
    answer of [QSaveFile::write]. *)
Definition chunkCommand (length : Z) (payload : list byte) (wr : Z)
    (s : Session) : option (bool * Session) :=
  match m_fileInTransfer s with
  | None => fail s
  | Some w =>
      if negb (bool_decide (m_status s = InTransfer)) then fail s
      else
        let length := wrap32 length in
        if length >? FileInTransfer.MAX_CHUNK_SIZE then fail s
        else if zlen payload <? length then Some (false, s)
        else
          let buffer := firstn (Z.to_nat length) payload in
          let '(ok, w) := Writer.processNextDataChunk buffer wr w in
          if ok then
            Some (true,
                  update_info (fun ti =>
                    set_transferredBytes
                      (wrap64 (m_transferredBytes ti + length)) ti)
                    (set_m_fileInTransfer (Some w) s))
          else if negb (FileInTransfer.m_rollbacked w) then
            Some (true, set_m_fileInTransfer (Some (snd (Writer.rollback w))) s)
          else Some (true, set_m_fileInTransfer (Some w) s)
  end.

(** [SyfftProtocolReceiver::commitCommand]. *)
Definition commitCommand (commitOk : bool) (s : Session) : option (bool * Session) :=
  match m_fileInTransfer s with
  | None => fail s
  | Some w =>
      if negb (bool_decide (m_status s = InTransfer)) then fail s
      else
        let '(ok, w) := Writer.commit commitOk false w in
        s ← (if ok then
               s ← setCurrentFileStatus FileInfo.Transferred s;
               Some (update_info (fun ti =>
                       set_transferredFiles
                         (wrap32 (m_transferredFiles ti + 1)) ti) s)
             else
               let w := snd (Writer.rollback w) in
               s ← setCurrentFileStatus FileInfo.TransferFailed s;
               Some (update_info (fun ti =>
                       set_skippedBytes
                         (wrap64 (m_skippedBytes ti
                                  + FileInTransfer.m_remainingBytes w))
                         (set_skippedFiles
                            (wrap32 (m_skippedFiles ti + 1)) ti)) s));
        r ← moveToNextFile (set_m_fileInTransfer None s);
        Some (true, snd r)
  end.

(** [SyfftProtocolReceiver::rollbkCommand]. *)
Definition rollbkCommand (s : Session) : option (bool * Session) :=
  match m_fileInTransfer s with
  | None => fail s
  | Some w =>
      if negb (bool_decide (m_status s = InTransfer)) then fail s
      else
        let w := snd (Writer.rollback w) in
        s ← setCurrentFileStatus FileInfo.TransferFailed s;
        let s := update_info (fun ti =>
                   set_skippedBytes
                     (wrap64 (m_skippedBytes ti
                              + FileInTransfer.m_remainingBytes w))
                     (set_skippedFiles (wrap32 (m_skippedFiles ti + 1)) ti)) s in
        r ← moveToNextFile (set_m_fileInTransfer None s);
        Some (true, snd r)
  end.

(** [SyfftProtocolReceiver::closeCommand]. *)
Definition closeCommand (s : Session) : option (bool * Session) :=
  if bool_decide (m_status s = Closed) then Some (false, s)
  else if negb (bool_decide (m_status s = TransferCompleted))
          && negb (bool_decide (m_status s = Closing))
  then fail s
  else Some (true, closeConnection s).

(** The [switch] of [SyfftProtocolReceiver::readData]. *)
Definition command (c : Command) (s : Session) : option (bool * Session) :=
  match c with
  | HELLO writeOk => helloCommand writeOk s
  | ACK => ackCommand s
  | SHARE nFiles nBytes => shareCommand nFiles nBytes s
  | ITEM payload junkSize junkStatus => itemCommand payload junkSize junkStatus s
  | START fs => startCommand fs s
  | SKIP => skipCommand s
  | CHUNK length payload wr => chunkCommand length payload wr s
  | COMMIT commitOk => commitCommand commitOk s
  | ROLLBK => rollbkCommand s
  | CLOSE => closeCommand s
  | PAUSE => s ← togglePauseMode false s; Some (true, s)
  | ABORT => fail s
  | Unrecognized => fail s
  end.

(** The [while] loop of [readData] over the commands that are complete in
    the socket buffer: it goes on as long as the handlers return true. *)
Fixpoint processCommands (cmds : list Command) (s : Session) : option Session :=
  match cmds with
  | [] => Some s
  | c :: rest =>
      match command c s with
      | None => None
      | Some (true, s') => processCommands rest s'
      | Some (false, s') => Some s'
      end
  end.

(** [SyfftProtocolReceiver::readData]. *)
Definition readData (cmds : list Command) (s : Session) : option Session :=
  if bool_decide (m_status s = PausedByUser) then Some s
  else processCommands cmds s.

(** [SyfftProtocolReceiver::acceptSharingRequest]; [pathOk] is
    [directory.mkpath(".") && directory.isReadable()]. *)
Definition acceptSharingRequest (pathOk : bool) (s : Session) : option Session :=
  let s := set_m_preventUserTogglePause false s in
  s ← togglePauseMode true s;
  if bool_decide (m_status s = Aborted) then Some s
  else if negb pathOk then manageError s
  else
    r ← moveToNextFile (setStatus InTransfer s);
    Some (snd r).

(** [SyfftProtocolReceiver::rejectSharingRequest]. *)
Definition rejectSharingRequest (s : Session) : option Session :=
  let s := set_m_preventUserTogglePause false s in
  s ← togglePauseMode true s;
  if bool_decide (m_status s = Aborted) then Some s
  else
    let s := update_info (fun ti =>
               set_skippedBytes (m_totalBytes ti)
                 (set_skippedFiles (m_totalFiles ti) ti)) s in
    Some (closeConnection s).

(** The slot connected to [SyfftProtocolDuplicatedFile::chosen] in
    [startCommand]. *)
Definition chosen (fs : Fs) (action : DuplicatedFileAction) (all : bool)
    (s : Session) : option Session :=
  let s := set_m_preventUserTogglePause false s in
  s ← togglePauseMode true s;
  if bool_decide (m_status s = Aborted) then Some s
  else
    let s := if all then set_m_defaultDFAction action s else s in
    performDFAction fs action s.

(** The slot connected to [QTcpSocket::error]; [remoteHostClosed] tells
    whether the error is [RemoteHostClosedError]. *)
Definition onSocketError (remoteHostClosed : bool) (s : Session) : option Session :=
  if bool_decide (m_status s = PausedByUser) && remoteHostClosed
  then togglePauseMode true (set_m_preventUserTogglePause false s)
  else if negb (bool_decide (m_status s = Aborted))
          && negb (bool_decide (m_status s = Closed))
  then manageError s
  else Some s.

(** The task posted by [SyfftProtocolCommon::changePauseMode]. *)
Definition changePauseMode (enterPauseMode : bool) (s : Session) : option Session :=
  if (enterPauseMode && bool_decide (m_status s = PausedByUser))
     || (negb enterPauseMode && negb (bool_decide (m_status s = PausedByUser)))
  then Some s
  else togglePauseMode true s.

(** What happens to a session: the tasks and signals delivered by the event
    loop of the thread that owns it. *)
Inductive Event : Type :=
  | AcceptConnection
  | ReadData (cmds : list Command)
  | AcceptSharingRequest (pathOk : bool)
  | RejectSharingRequest
  | Chosen (fs : Fs) (action : DuplicatedFileAction) (all : bool)
  | ChangePauseMode (enterPauseMode : bool)
  | TerminateConnection
  | SocketError (remoteHostClosed : bool)
  | Disconnected.

(** The requests left once one request of the kind [r] has emitted its
    decision. *)
Fixpoint remove_request (r : Request) (l : list Request) : list Request :=
  match l with
  | [] => []
  | x :: rest => if bool_decide (x = r) then rest else x :: remove_request r rest
  end.

(** A request object of the kind [r] emits its decision: it sets its
    [m_chosen], so that it emits no other one.  [None] when no request of the
    kind is left to decide. *)
Definition request_decided (r : Request) (s : Session) : option Session :=
  if bool_decide (r ∈ pendingRequests s)
  then Some (set_pendingRequests (remove_request r (pendingRequests s)) s)
  else None.

(** One event.  [None] stands for an event that cannot occur in the state
    (the task of [acceptConnection] outside [New], a decision when every
    request object has emitted its own, [chosen] with the action [Ask], which
    no method of [SyfftProtocolDuplicatedFile] emits) and for undefined
    behaviour (a failed assertion, an index out of range, a null
    [m_fileInTransfer] dereferenced).  A decision reaches its slot whatever
    the state of the session is by then. *)
Definition step (s : Session) (e : Event) : option Session :=
  match e with
  | AcceptConnection =>
      if bool_decide (m_status s = New) then Some (setStatus Connecting s)
      else None
  | ReadData cmds => readData cmds s
  | AcceptSharingRequest pathOk =>
      s ← request_decided SharingRequest s; acceptSharingRequest pathOk s
  | RejectSharingRequest =>
      s ← request_decided SharingRequest s; rejectSharingRequest s
  | Chosen fs action all =>
      if bool_decide (action = Ask) then None
      else s ← request_decided DuplicatedFile s; chosen fs action all s
  | ChangePauseMode enterPauseMode => changePauseMode enterPauseMode s
  | TerminateConnection => abortConnection s
  | SocketError remoteHostClosed => onSocketError remoteHostClosed s
  | Disconnected => Some (onDisconnected (set_socketUnconnected true s))
  end.

Fixpoint run (s : Session) (events : list Event) : option Session :=
  match events with
  | [] => Some s
  | e :: rest => s' ← step s e; run s' rest
  end.

End Syfft.

(** ** transferlist.cpp / syfftprotocolsender.cpp

    The sending side of a SYFFT session.  It shares the members and the
    methods of [SyfftProtocolCommon] with the receiving side; the members of
    [SyfftProtocolReceiver] keep the values [create] gives them. *)

Module TransferList.

(** [m_files] and [m_totalBytes]. *)
Record t : Type := mk {
  m_files : list FileInfo.t;
  m_totalBytes : Z
}.

(** [TransferList::addToFileList] for a regular file that exists and can be
    read: [size] is [item.size()], cast to [quint64]. *)
Definition addToFileList (relativePath : string) (size : Z)
    (lastModified : FileInfo.QDateTime) (l : t) : t :=
  let size := wrap64 size in
  let fileInfo := FileInfo.make relativePath size lastModified in
  if negb (FileInfo.m_valid fileInfo) then l
  else mk (m_files l ++ [fileInfo]) (wrap64 (m_totalBytes l + size)).

(** The list built from the regular files met by [buildFileList], in the
    order it meets them. *)
Definition build (items : list (string * Z * FileInfo.QDateTime)) : t :=
  fold_left (fun l item => addToFileList (fst (fst item)) (snd (fst item))
                             (snd item) l)
            items (mk [] 0).

Definition totalFiles (l : t) : Z := wrap32 (zlen (m_files l)).
Definition totalBytes (l : t) : Z := m_totalBytes l.

End TransferList.

Module SyfftSender.
Import Syfft.

(** [buffer.length()] after a successful
    [FileInTransferReader::processNextDataChunk] on [f]. *)
Definition toRead (f : FileInTransfer.t) : Z :=
  if FileInTransfer.m_remainingBytes f >? FileInTransfer.MAX_CHUNK_SIZE
  then FileInTransfer.MAX_CHUNK_SIZE
  else FileInTransfer.m_remainingBytes f.

(** The task posted by [SyfftProtocolSender::sendFiles], followed by
    [connectToPeer]; [None] when the assertion on the status fails. *)
Definition sendFiles (files : TransferList.t) (s : Session) : option Session :=
  if negb (bool_decide (m_status s = New)) then None
  else
    let s := set_m_files (TransferList.m_files files) s in
    let s := update_info (fun ti =>
               set_totalBytes (TransferList.totalBytes files)
                 (set_totalFiles (TransferList.totalFiles files) ti)) s in
    Some (setStatus Connecting s).

(** [SyfftProtocolSender::SyfftProtocolSender]: the socket of a sender is
    not connected yet. *)
Definition create : Session := set_socketUnconnected true Syfft.create.

(** The slot connected to [QAbstractSocket::connected]: [writeOk] tells
    whether the UUID that follows HELLO was written completely. *)
Definition onConnected (writeOk : bool) (s : Session) : option Session :=
  let s := set_socketUnconnected false s in
  if negb writeOk then manageError s else Some s.

(** The answers of the file system to [new FileInTransferReader]. *)
Record ReadAnswer : Type := mkReadAnswer {
  r_exists : bool;
  r_updated : bool;
  r_open : bool
}.

(** [SyfftProtocolSender::transferNextFile]. *)
Definition transferNextFile (a : ReadAnswer) (s : Session) : option Session :=
  let s := set_m_fileInTransfer None s in
  r ← moveToNextFile s;
  if negb (fst r) then Some (snd r)
  else
    let s := snd r in
    file ← currentFileInfo s;
    Some (set_m_fileInTransfer
            (Some (Reader.create (FileInfo.m_valid file) (FileInfo.m_size file)
                     (r_exists a) (r_updated a) (r_open a))) s).

(** [SyfftProtocolSender::sendDataChunks].  The loop runs while the write
    buffer of the socket has room: [reads] holds, for each such round, what
    [m_file.read] returns if the round reads the file; [atEnd] and [updated]
    are the answers to [commit].  [None] when [m_fileInTransfer] is null. *)
Fixpoint sendDataChunks (reads : list Z) (atEnd updated : bool) (s : Session)
    : option Session :=
  match reads with
  | [] => Some s
  | rd :: reads' =>
      match m_fileInTransfer s with
      | None => None
      | Some w =>
          if FileInTransfer.m_remainingBytes w =? 0 then
            Some (set_m_fileInTransfer
                    (Some (snd (Reader.commit atEnd updated w))) s)
          else
            let length := toRead w in
            let '(ok, w) := Reader.processNextDataChunk [] rd w in
            if negb ok then
              Some (set_m_fileInTransfer (Some (snd (Reader.rollback w))) s)
            else
              sendDataChunks reads' atEnd updated
                (update_info (fun ti =>
                   set_transferredBytes
                     (wrap64 (m_transferredBytes ti + length)) ti)
                   (set_m_fileInTransfer (Some w) s))
      end
  end.

(** The slot connected to [QTcpSocket::bytesWritten]. *)
Definition onBytesWritten (reads : list Z) (atEnd updated : bool) (s : Session)
    : option Session :=
  match m_fileInTransfer s with
  | Some w =>
      if bool_decide (m_status s = InTransfer)
         && FileInTransfer.m_transferStarted w
         && negb (FileInTransfer.transferCompleted w)
      then sendDataChunks reads atEnd updated s
      else Some s
  | None => Some s
  end.

(** The commands the sender meets in [readData], each with the answers of
    the system calls its handler makes.  [HELLO complete uuidOk]: whether the
    16 bytes of the UUID have arrived, and whether they are the UUID of the
    expected peer.  The other handlers commit a transaction that holds the
    command code only, which has been read: it always succeeds. *)
Inductive Command : Type :=
  | HELLO (complete uuidOk : bool)
  | ACCEPT (a : ReadAnswer) (reads : list Z) (atEnd updated : bool)
  | REJECT (a : ReadAnswer)
  | COMMIT (a : ReadAnswer)
  | ROLLBK (a : ReadAnswer)
  | STOP
  | CLOSE
  | PAUSE
  | ABORT
  | Unrecognized.

(** [SyfftProtocolSender::helloCommand]. *)
Definition helloCommand (complete uuidOk : bool) (s : Session)
    : option (bool * Session) :=
  if negb (bool_decide (m_status s = Connecting)) then fail s
  else if negb complete then Some (false, s)
  else if negb uuidOk then fail s
  else Some (true, setStatus Connected s).

(** [SyfftProtocolSender::acceptCommand]. *)
Definition acceptCommand (a : ReadAnswer) (reads : list Z)
    (atEnd updated : bool) (s : Session) : option (bool * Session) :=
  if bool_decide (m_status s = Connected) then
    s ← transferNextFile a (setStatus InTransfer s);
    Some (true, s)
  else
    match m_fileInTransfer s with
    | Some w =>
        if bool_decide (m_status s = InTransfer)
           && negb (FileInTransfer.m_error w)
           && negb (FileInTransfer.m_transferStarted w)
        then
          s ← setCurrentFileStatus FileInfo.InTransfer s;
          s ← sendDataChunks reads atEnd updated s;
          Some (true, s)
        else fail s
    | None => fail s
    end.

(** [SyfftProtocolSender::rejectCommand]. *)
Definition rejectCommand (a : ReadAnswer) (s : Session)
    : option (bool * Session) :=
  if bool_decide (m_status s = Connected) then
    let s := update_info (fun ti =>
               set_skippedBytes (m_totalBytes ti)
                 (set_skippedFiles (m_totalFiles ti) ti)) s in
    Some (true, closeConnection (setStatus TransferCompleted s))
  else
    match m_fileInTransfer s with
    | Some w =>
        if bool_decide (m_status s = InTransfer)
           && negb (FileInTransfer.m_transferStarted w)
        then
          let s := update_info (fun ti =>
                     set_skippedBytes
                       (wrap64 (m_skippedBytes ti
                                + FileInTransfer.m_remainingBytes w))
                       (set_skippedFiles (wrap32 (m_skippedFiles ti + 1)) ti)) s in
          s ← setCurrentFileStatus
                (if FileInTransfer.m_error w then FileInfo.TransferFailed
                 else FileInfo.TransferRejected) s;
          s ← transferNextFile a s;
          Some (true, s)
        else fail s
    | None => fail s
    end.

(** [SyfftProtocolSender::commitCommand]. *)
Definition commitCommand (a : ReadAnswer) (s : Session)
    : option (bool * Session) :=
  match m_fileInTransfer s with
  | Some w =>
      if negb (bool_decide (m_status s = InTransfer))
         || negb (FileInTransfer.m_committed w)
      then fail s
      else
        s ← setCurrentFileStatus FileInfo.Transferred s;
        let s := update_info (fun ti =>
                   set_transferredFiles
                     (wrap32 (m_transferredFiles ti + 1)) ti) s in
        s ← transferNextFile a s;
        Some (true, s)
  | None => fail s
  end.

(** [SyfftProtocolSender::rollbkCommand]. *)
Definition rollbkCommand (a : ReadAnswer) (s : Session)
    : option (bool * Session) :=
  match m_fileInTransfer s with
  | Some w =>
      if negb (bool_decide (m_status s = InTransfer))
         || negb (FileInTransfer.transferCompleted w)
      then fail s
      else
        let w := snd (Reader.rollback w) in
        let s := set_m_fileInTransfer (Some w) s in
        s ← setCurrentFileStatus FileInfo.TransferFailed s;
        let s := update_info (fun ti =>
                   set_skippedBytes
                     (wrap64 (m_skippedBytes ti
                              + FileInTransfer.m_remainingBytes w))
                     (set_skippedFiles (wrap32 (m_skippedFiles ti + 1)) ti)) s in
        s ← transferNextFile a s;
        Some (true, s)
  | None => fail s
  end.

(** [SyfftProtocolSender::stopCommand]. *)
Definition stopCommand (s : Session) : option (bool * Session) :=
  match m_fileInTransfer s with
  | Some w =>
      if negb (bool_decide (m_status s = InTransfer))
         || negb (FileInTransfer.m_transferStarted w)
      then fail s
      else if negb (FileInTransfer.transferCompleted w)
      then Some (true, set_m_fileInTransfer (Some (snd (Reader.rollback w))) s)
      else Some (true, s)
  | None => fail s
  end.

(** [SyfftProtocolSender::closeCommand]. *)
Definition closeCommand (s : Session) : option (bool * Session) :=
  if bool_decide (m_status s = Closed) then Some (false, s)
  else if negb (bool_decide (m_status s = TransferCompleted))
          && negb (bool_decide (m_status s = Closing))
  then fail s
  else Some (true, closeConnection s).

Definition command (c : Command) (s : Session) : option (bool * Session) :=
  match c with
  | HELLO complete uuidOk => helloCommand complete uuidOk s
  | ACCEPT a reads atEnd updated => acceptCommand a reads atEnd updated s
  | REJECT a => rejectCommand a s
  | COMMIT a => commitCommand a s
  | ROLLBK a => rollbkCommand a s
  | STOP => stopCommand s
  | CLOSE => closeCommand s
  | PAUSE => s ← togglePauseMode false s; Some (true, s)
  | ABORT => fail s
  | Unrecognized => fail s
  end.

(** The loop of [SyfftProtocolSender::readData] over the commands that have
    arrived. *)
Fixpoint processCommands (cmds : list Command) (s : Session) : option Session :=
  match cmds with
  | [] => Some s
  | c :: rest =>
      match command c s with
      | None => None
      | Some (true, s') => processCommands rest s'
      | Some (false, s') => Some s'
      end
  end.

(** [SyfftProtocolSender::readData]. *)
Definition readData (cmds : list Command) (s : Session) : option Session :=
  if bool_decide (m_status s = PausedByUser) then Some s
  else processCommands cmds s.

(** The tasks posted by [updatePeerStatus] and [updatePeerAddress]:
    [changed] tells whether the value differs from the cached one. *)
Definition updatePeer (changed : bool) (s : Session) : option Session :=
  if changed then abortConnection s else Some s.

(** What happens to a sending session.  A [QVector] holds fewer than
    [INT_MAX] descriptors: [SendFiles] with a longer list cannot occur. *)
Inductive Event : Type :=
  | SendFiles (items : list (string * Z * FileInfo.QDateTime))
  | SocketConnected (writeOk : bool)
  | BytesWritten (reads : list Z) (atEnd updated : bool)
  | ReadData (cmds : list Command)
  | UpdatePeerStatus (changed : bool)
  | UpdatePeerAddress (changed : bool)
  | ChangePauseMode (enterPauseMode : bool)
  | TerminateConnection
  | SocketError (remoteHostClosed : bool)
  | Disconnected.

Definition step (s : Session) (e : Event) : option Session :=
  match e with
  | SendFiles items =>
      if zlen (TransferList.m_files (TransferList.build items)) <? INT_MAX
      then sendFiles (TransferList.build items) s
      else None
  | SocketConnected writeOk => onConnected writeOk s
  | BytesWritten reads atEnd updated => onBytesWritten reads atEnd updated s
  | ReadData cmds => readData cmds s
  | UpdatePeerStatus changed => updatePeer changed s
  | UpdatePeerAddress changed => updatePeer changed s
  | ChangePauseMode enterPauseMode => changePauseMode enterPauseMode s
  | TerminateConnection => abortConnection s
  | SocketError remoteHostClosed => onSocketError remoteHostClosed s
  | Disconnected => Some (onDisconnected (set_socketUnconnected true s))
  end.

Fixpoint run (s : Session) (events : list Event) : option Session :=
  match events with
  | [] => Some s
  | e :: rest => s' ← step s e; run s' rest
  end.

End SyfftSender.


(** * The discovery protocol ([UserDiscovery/syfdprotocol.cpp]) *)

Module Syfd.

Inductive Status : Type := Stopped | Started.

(** [Enums::OperationalMode]. *)
Inductive OperationalMode : Type := Offline | Online.

#[export] Instance OperationalMode_eq_dec : EqDecision OperationalMode.
Proof. solve_decision. Defined.

#[export] Instance Status_eq_dec : EqDecision Status.
Proof. solve_decision. Defined.

(** The signals of [SyfdProtocol]. *)
Inductive Signal : Type :=
  | started
  | stopped
  | modeChanged (mode : OperationalMode)
  | error.

Definition SYDF_INTERVAL : Z := 5000.
Definition ERROR_THRESHOLD : Z := 3.
Definition INT_MAX : Z := 2147483647.

(** The members of [SyfdProtocol] the sending side depends on.  The timer is
    represented by whether it is active, the datagram by its validity, the
    buffer by whether it is empty; [writes] counts the calls of
    [m_sender->writeDatagram] and [emitted] lists the signals emitted so far,
    oldest first. *)
Record t : Type := mk {
  m_valid : bool;
  m_status : Status;
  m_mode : OperationalMode;
  timerActive : bool;
  datagramValid : bool;
  bufferEmpty : bool;
  m_errorCount : Z;
  writes : nat;
  emitted : list Signal
}.

Definition set_status (x : Status) (p : t) : t :=
  mk (m_valid p) x (m_mode p) (timerActive p) (datagramValid p) (bufferEmpty p)
     (m_errorCount p) (writes p) (emitted p).
Definition set_mode (x : OperationalMode) (p : t) : t :=
  mk (m_valid p) (m_status p) x (timerActive p) (datagramValid p) (bufferEmpty p)
     (m_errorCount p) (writes p) (emitted p).
Definition set_timerActive (x : bool) (p : t) : t :=
  mk (m_valid p) (m_status p) (m_mode p) x (datagramValid p) (bufferEmpty p)
     (m_errorCount p) (writes p) (emitted p).
Definition set_datagram (valid empty : bool) (p : t) : t :=
  mk (m_valid p) (m_status p) (m_mode p) (timerActive p) valid empty
     (m_errorCount p) (writes p) (emitted p).
Definition set_errorCount (x : Z) (p : t) : t :=
  mk (m_valid p) (m_status p) (m_mode p) (timerActive p) (datagramValid p)
     (bufferEmpty p) x (writes p) (emitted p).
Definition set_writes (x : nat) (p : t) : t :=
  mk (m_valid p) (m_status p) (m_mode p) (timerActive p) (datagramValid p)
     (bufferEmpty p) (m_errorCount p) x (emitted p).
Definition emit (x : Signal) (p : t) : t :=
  mk (m_valid p) (m_status p) (m_mode p) (timerActive p) (datagramValid p)
     (bufferEmpty p) (m_errorCount p) (writes p) (emitted p ++ [x]).

(** [SyfdProtocol::SyfdProtocol]; [initOk] tells whether the interface, the
    address and the two sockets could be set up. *)
Definition create (initOk : bool) : t :=
  mk initOk Stopped Offline false false true 0 0 [].

(** [SyfdProtocol::updateDatagram]: [valid] is [datagram.valid()] and
    [encodedEmpty] whether [toByteArray()] returns an empty array. *)
Definition updateDatagram (valid encodedEmpty : bool) (p : t) : t :=
  set_datagram valid (if valid then encodedEmpty else true) p.

Section Sender.

(** [writeOk n] tells whether the call number [n] of
    [m_sender->writeDatagram] returns the length of the datagram. *)
Variable writeOk : nat -> bool.

(** [SyfdProtocol::sendQuitDatagram], given [sendDatagram]. *)
Definition sendQuitDatagram_ (sendDatagram : t -> option t) (p : t) : option t :=
  if datagramValid p && (m_errorCount p <? ERROR_THRESHOLD)
  then sendDatagram p
  else Some p.

(** [SyfdProtocol::setMode], given [sendDatagram]. *)
Definition setMode_ (sendDatagram : t -> option t) (mode : OperationalMode)
    (emitSignal : bool) (p : t) : option t :=
  if bool_decide (m_mode p = mode) then Some p
  else
    let finish (p : t) : t :=
      let p := set_mode mode (set_errorCount 0 p) in
      if emitSignal then emit (modeChanged mode) p else p in
    match mode with
    | Online =>
        if bufferEmpty p then Some (emit (modeChanged Offline) p)
        else Some (finish (set_timerActive true p))
    | Offline =>
        p ← sendQuitDatagram_ sendDatagram p;
        Some (finish (set_timerActive false p))
    end.

(** [SyfdProtocol::sendDatagram].  It calls [setMode], which calls
    [sendQuitDatagram], which calls [sendDatagram]: [fuel] bounds the depth of
    these calls.  The counter is an [int]: incrementing [INT_MAX] is undefined
    behaviour. *)
Fixpoint sendDatagram (fuel : nat) (p : t) : option t :=
  match fuel with
  | O => None
  | S fuel =>
      let ok := writeOk (writes p) in
      let p := set_writes (S (writes p)) p in
      if negb ok then
        if m_errorCount p =? INT_MAX then None
        else
          let p := set_errorCount (m_errorCount p + 1) p in
          if m_errorCount p =? ERROR_THRESHOLD then
            p ← setMode_ (sendDatagram fuel) Offline true p;
            Some (emit error p)
          else Some p
      else Some (set_errorCount 0 p)
  end.

Definition sendQuitDatagram (fuel : nat) : t -> option t :=
  sendQuitDatagram_ (sendDatagram fuel).

Definition setMode (fuel : nat) : OperationalMode -> bool -> t -> option t :=
  setMode_ (sendDatagram fuel).

(** [SyfdProtocol::sendBufferedDatagram]. *)
Definition sendBufferedDatagram (fuel : nat) (p : t) : option t :=
  if negb (bufferEmpty p) then sendDatagram fuel p
  else setMode fuel Offline true p.

(** [SyfdProtocol::start]; [None] when the assertion on [m_valid] fails. *)
Definition start (fuel : nat) (mode : OperationalMode)
    (valid encodedEmpty : bool) (p : t) : option t :=
  if negb (m_valid p) then None
  else if bool_decide (m_status p = Started) then Some p
  else
    let p := updateDatagram valid encodedEmpty p in
    let p := emit started (set_status Started p) in
    setMode fuel mode true (set_mode Offline p).

(** [SyfdProtocol::stop]; [None] when the assertion on [m_valid] fails. *)
Definition stop (fuel : nat) (p : t) : option t :=
  if negb (m_valid p) then None
  else if bool_decide (m_status p = Stopped) then Some p
  else
    p ← setMode fuel Offline true p;
    Some (emit stopped (set_status Stopped p)).

(** An interval of the timer elapses: [QTimer::timeout] is emitted while the
    timer is active, and reaches [sendBufferedDatagram] while the protocol is
    started ([start] connects the slot and [stop] disconnects it). *)
Definition timeout (fuel : nat) (p : t) : option t :=
  if timerActive p && bool_decide (m_status p = Started)
  then sendBufferedDatagram fuel p
  else Some p.

Fixpoint timeouts (fuel : nat) (n : nat) (p : t) : option t :=
  match n with
  | O => Some p
  | S n => p ← timeout fuel p; timeouts fuel n p
  end.

End Sender.

End Syfd.

(** * The registry of the peers ([UserDiscovery/user.cpp], [users.cpp]) *)

Module Users.
Local Open Scope string_scope.

(** [User::Age]. *)
Definition AgeMax : Z := 4.
Definition AgeUnconfirmed : Z := 254.
Definition AgeInfinity : Z := 255.

(** [PeersList::AGING_INTERVAL], in milliseconds. *)
Definition AGING_INTERVAL : Z := 5000.

(** [SyfdDatagram::STRING_LEN] and [User::NO_NAME]. *)
Definition STRING_LEN : nat := 16.
Definition NO_NAME : string := "*** NO NAME ***".

(** [QString::length()], the number of UTF-16 code units, of the text whose
    UTF-8 form is [s]: a byte that continues a sequence counts for nothing, the
    first byte of a sequence of four bytes for two units (a surrogate pair),
    and every other byte for one. *)
Fixpoint QString_length (s : string) : nat :=
  match s with
  | EmptyString => O
  | String c r =>
      let b := nat_of_ascii c in
      ((if (128 <=? b) && (b <? 192) then 0
        else if 240 <=? b then 2 else 1) + QString_length r)%nat
  end.

(** The values a [QJsonObject] holds in [peers.json]. *)
Inductive QJsonValue : Type :=
  | JBool (b : bool)
  | JString (s : string).

Definition QJsonObject : Type := gmap string QJsonValue.

(** [json[key].toBool(default)] and [json[key].toString()]. *)
Definition toBool (json : QJsonObject) (key : string) (default : bool) : bool :=
  match json !! key with
  | Some (JBool b) => b
  | _ => default
  end.

Definition toString (json : QJsonObject) (key : string) : string :=
  match json !! key with
  | Some (JString s) => s
  | _ => ""
  end.

Definition contains (json : QJsonObject) (key : string) : bool :=
  bool_decide (is_Some (json !! key)).

(** [UserInfo].  The icon is represented by its hash when it is set, and the
    reception preferences by the entries that [User::save] writes for
    them. *)
Record UserInfo : Type := mkInfo {
  m_uuid : string;
  m_firstName : string;
  m_lastName : string;
  m_ipv4Address : Z;
  m_dataPort : Z;
  m_iconPort : Z;
  m_icon : option string;
  m_preferences : QJsonObject
}.

(** The entries written for [ReceptionPreferences()]. *)
Definition defaultPreferences : QJsonObject :=
  {[ "RP_UseDefaults" := JBool true ]}.

(** [SyfdDatagram], as far as the registry reads it. *)
Record SyfdDatagram : Type := mkDatagram {
  d_valid : bool;
  d_flagQuit : bool;
  d_flagIcon : bool;
  d_uuid : string;
  d_firstName : string;
  d_lastName : string;
  d_ipv4Addr : Z;
  d_dataPort : Z;
  d_iconPort : Z;
  d_iconHash : string
}.

(** [PeerUser]: the members of [User] that the registry depends on.  The
    instances created by the constructors that fail before [m_info] is set
    carry [None]. *)
Record PeerUser : Type := mkPeer {
  m_valid : bool;
  m_info : option UserInfo;
  m_age : Z;
  m_toBeSaved : bool
}.

Definition set_age (a : Z) (p : PeerUser) : PeerUser :=
  mkPeer (m_valid p) (m_info p) a (m_toBeSaved p).

Definition unconfirmed (p : PeerUser) : bool :=
  bool_decide (m_age p = AgeUnconfirmed).

Definition localUser (p : PeerUser) : bool :=
  bool_decide (m_age p = AgeInfinity).

(** [PeerUser::incrementAge]: the result and the instance afterwards.  The
    age is a [quint8]. *)
Definition incrementAge (p : PeerUser) : bool * PeerUser :=
  if bool_decide (m_age p = AgeUnconfirmed) then (false, p)
  else
    let p := set_age (wrap8 (m_age p + 1)) p in
    if m_age p >? AgeMax then (true, set_age AgeUnconfirmed p)
    else (false, p).

(** [PeerUser::setUnconfirmed]. *)
Definition setUnconfirmed (p : PeerUser) : bool * PeerUser :=
  if negb (bool_decide (m_age p = AgeUnconfirmed))
  then (true, set_age AgeUnconfirmed p)
  else (false, p).

(** [User::save]. *)
Definition save (p : PeerUser) (json : QJsonObject) : QJsonObject :=
  match m_info p with
  | Some info =>
      if negb (m_valid p) then json
      else
        let json := <["Me" := JBool (localUser p)]> json in
        let json := <["UUID" := JString (m_uuid info)]> json in
        let json := <["First" := JString (m_firstName info)]> json in
        let json := <["Last" := JString (m_lastName info)]> json in
        let json := <["Icon" := JBool (bool_decide (is_Some (m_icon info)))]> json in
        let json := match m_icon info with
                    | Some hash => <["IconHash" := JString hash]> json
                    | None => json
                    end in
        m_preferences info ∪ json
  | None => json
  end.

Section Environment.

(** What the constructors ask the environment: whether [QUuid(uuid)] is
    null, the icon found in the cache by [iconFromJson], and the entries of
    the reception preferences read from a JSON object. *)
Variable uuidIsNull : string -> bool.
Variable iconFromJson : string -> QJsonObject -> option string.
Variable preferencesFromJson : QJsonObject -> QJsonObject.

(** [PeerUser::PeerUser(confPath, json, localUuid)], on top of
    [User::User(confPath, json)].  The age of an instance that is not valid
    is left uninitialised by the constructor: [junkAge] is what it holds. *)
Definition PeerUser_of_json (junkAge : Z) (json : QJsonObject) : PeerUser :=
  let invalid := mkPeer false None junkAge false in
  if negb (contains json "UUID") || negb (contains json "First")
     || negb (contains json "Last")
  then invalid
  else
    let uuid := toString json "UUID" in
    let firstName := toString json "First" in
    let lastName := toString json "Last" in
    if uuidIsNull uuid || (STRING_LEN <? QString_length firstName)%nat
       || (STRING_LEN <? QString_length lastName)%nat
    then invalid
    else
      let firstName :=
        if String.eqb firstName "" && String.eqb lastName ""
        then NO_NAME else firstName in
      let me := toBool json "Me" false in
      let age := if me then AgeInfinity else AgeUnconfirmed in
      let icon := if toBool json "Icon" false
                  then iconFromJson uuid json else None in
      let toBeSaved := toBool json "Icon" false
                       && negb (bool_decide (is_Some icon)) in
      let info := mkInfo uuid firstName lastName 0 0 0 icon
                    (preferencesFromJson json) in
      let p := mkPeer true (Some info) age toBeSaved in
      if localUser p then mkPeer false (Some info) age toBeSaved else p.

End Environment.

(** [PeerUser::PeerUser(confPath, datagram, localUuid)]; [None] when the
    assertion on the datagram fails.  The request for the icon that
    [updatePeerIcon] may start is answered later, by another event. *)
Definition PeerUser_of_datagram (d : SyfdDatagram) : option PeerUser :=
  if negb (d_valid d) then None
  else
    let firstName :=
      if String.eqb (d_firstName d) "" && String.eqb (d_lastName d) ""
      then NO_NAME else d_firstName d in
    Some (mkPeer true
            (Some (mkInfo (d_uuid d) firstName (d_lastName d) (d_ipv4Addr d)
                     (d_dataPort d) (d_iconPort d) None defaultPreferences))
            0 true).

(** [PeerUser::update]: whether something changed, whether [updatedIcon] was
    emitted, and the instance afterwards; [None] when an assertion fails. *)
Definition update (d : SyfdDatagram) (p : PeerUser)
    : option (bool * bool * PeerUser) :=
  info ← m_info p;
  if negb (m_valid p) || negb (d_valid d)
     || negb (String.eqb (m_uuid info) (d_uuid d))
  then None
  else
    let updatedFlag := bool_decide (m_age p = AgeUnconfirmed) in
    let names := negb (String.eqb (m_firstName info) (d_firstName d))
                 || negb (String.eqb (m_lastName info) (d_lastName d)) in
    let addresses := negb (Z.eqb (m_ipv4Address info) (d_ipv4Addr d))
                     || negb (Z.eqb (m_dataPort info) (d_dataPort d))
                     || negb (Z.eqb (m_iconPort info) (d_iconPort d)) in
    let iconRemoved := negb (d_flagIcon d)
                       && bool_decide (is_Some (m_icon info)) in
    let info := mkInfo (m_uuid info) (d_firstName d) (d_lastName d)
                  (d_ipv4Addr d) (d_dataPort d) (d_iconPort d)
                  (if d_flagIcon d then m_icon info else None)
                  (m_preferences info) in
    Some (updatedFlag || names || addresses, iconRemoved,
          mkPeer (m_valid p) (Some info) 0
            (m_toBeSaved p || names || iconRemoved)).

End Users.

Module PeersList.
Import Users.

(** The signals of [PeersList]. *)
Inductive Signal : Type :=
  | peerAdded (uuid : string)
  | peerExpired (uuid : string)
  | peerUpdated (uuid : string)
  | duplicatedNameDetected (uuid : string).

#[export] Instance Signal_eq_dec : EqDecision Signal.
Proof. solve_decision. Defined.

(** The registry: the hash of the instances, what it knows of the local
    user, the signals emitted so far (oldest first), and the array stored in
    [peers.json] ([None] while the file cannot be read as a JSON array). *)
Record t : Type := mk {
  m_instances : gmap string PeerUser;
  me_uuid : string;
  me_firstName : string;
  me_lastName : string;
  emitted : list Signal;
  peers_json : option (list QJsonObject)
}.

Definition set_instances (x : gmap string PeerUser) (l : t) : t :=
  mk x (me_uuid l) (me_firstName l) (me_lastName l) (emitted l) (peers_json l).
Definition set_me_uuid (x : string) (l : t) : t :=
  mk (m_instances l) x (me_firstName l) (me_lastName l) (emitted l)
     (peers_json l).
Definition emit (x : list Signal) (l : t) : t :=
  mk (m_instances l) (me_uuid l) (me_firstName l) (me_lastName l)
     (emitted l ++ x) (peers_json l).
Definition set_peers_json (x : option (list QJsonObject)) (l : t) : t :=
  mk (m_instances l) (me_uuid l) (me_firstName l) (me_lastName l) (emitted l) x.

(** [peer->info().uuid()], for the instances of the registry, which are
    valid. *)
Definition uuid_of (p : PeerUser) : string :=
  from_option m_uuid EmptyString (m_info p).

(** [m_instances.values()]. *)
Definition values (l : t) : list PeerUser :=
  map snd (map_to_list (m_instances l)).

Section Environment.

Variable uuidIsNull : string -> bool.
Variable iconFromJson : string -> QJsonObject -> option string.
Variable preferencesFromJson : QJsonObject -> QJsonObject.

(** [PeersList::PeersList]: [file] is the array read from [peers.json], if
    any.  The aging timer is started with [AGING_INTERVAL]. *)
Definition create (junkAge : Z) (file : option (list QJsonObject))
    (uuid firstName lastName : string) : t :=
  let add (m : gmap string PeerUser) (obj : QJsonObject) :=
    let peer := PeerUser_of_json uuidIsNull iconFromJson preferencesFromJson
                  junkAge obj in
    if m_valid peer && negb (String.eqb (uuid_of peer) uuid)
    then <[uuid_of peer := peer]> m
    else m in
  mk (fold_left add (default [] file) ∅) uuid firstName lastName [] file.

End Environment.

Definition duplicatedName (l : t) (p : PeerUser) : list Signal :=
  match m_info p with
  | Some info =>
      if String.eqb (me_firstName l) (m_firstName info)
         && String.eqb (me_lastName l) (m_lastName info)
      then [duplicatedNameDetected (m_uuid info)]
      else []
  | None => []
  end.

(** [PeersList::update]; [freshUuid] is the UUID that [resetUuid] ends up
    with; [None] when an assertion fails. *)
Definition update (freshUuid : string) (d : SyfdDatagram) (l : t) : option t :=
  if negb (d_valid d) then None
  else
    let uuid := d_uuid d in
    if d_flagQuit d then
      match m_instances l !! uuid with
      | Some peer =>
          let '(changed, peer) := setUnconfirmed peer in
          let l := set_instances (<[uuid := peer]> (m_instances l)) l in
          Some (if changed then emit [peerExpired uuid] l else l)
      | None => Some l
      end
    else
      match m_instances l !! uuid with
      | Some peer =>
          let wasUnconfirmed := unconfirmed peer in
          match Users.update d peer with
          | None => None
          | Some (updated, iconRemoved, peer) =>
              let l := set_instances (<[uuid := peer]> (m_instances l)) l in
              let l := if iconRemoved then emit [peerUpdated uuid] l else l in
              if updated then
                if negb (m_valid peer) then None
                else
                  let l := emit [if wasUnconfirmed then peerAdded uuid
                                 else peerUpdated uuid] l in
                  Some (emit (duplicatedName l peer) l)
              else Some l
          end
      | None =>
          if String.eqb (me_uuid l) uuid then Some (set_me_uuid freshUuid l)
          else
            match PeerUser_of_datagram d with
            | None => None
            | Some peer =>
                if negb (m_valid peer) then None
                else
                  let l := set_instances
                             (<[uuid_of peer := peer]> (m_instances l)) l in
                  let l := emit [peerAdded uuid] l in
                  Some (emit (duplicatedName l peer) l)
            end
      end.

(** [PeersList::incrementAge], the slot of the aging timer: every instance
    of [m_instances.values()] is aged in place, and [peerExpired] is emitted
    for each one whose [incrementAge] returns [true]. *)
Definition incrementAge (l : t) : t :=
  let expired :=
    omap (fun p : PeerUser =>
            let r := Users.incrementAge p in
            if fst r then Some (peerExpired (uuid_of (snd r))) else None)
         (values l) in
  let aged := (fun p => snd (Users.incrementAge p)) <$> m_instances l in
  emit expired (set_instances aged l).

(** The array that [saveToFile] builds from the instances. *)
Definition toJsonArray (l : t) : list QJsonObject :=
  map (fun p => save p ∅) (values l).

(** [PeersList::~PeersList]: [saveOk] tells whether the directory could be
    made and the file opened, written and committed. *)
Definition destroy (saveOk : bool) (l : t) : t :=
  if saveOk then set_peers_json (Some (toJsonArray l)) l else l.

Fixpoint ticks (n : nat) (l : t) : t :=
  match n with
  | O => l
  | S n => ticks n (incrementAge l)
  end.

(** What happens to the registry while the application runs: a datagram is
    handed over by the discovery protocol, or the aging timer fires. *)
Inductive Event : Type :=
  | Datagram (freshUuid : string) (d : SyfdDatagram)
  | AgingTimeout.

Definition step (l : t) (e : Event) : option t :=
  match e with
  | Datagram freshUuid d => update freshUuid d l
  | AgingTimeout => Some (incrementAge l)
  end.

Fixpoint run (l : t) (events : list Event) : option t :=
  match events with
  | [] => Some l
  | e :: rest => l ← step l e; run l rest
  end.

(** How many times a signal occurs in a list of signals. *)
Definition count (x : Signal) (l : list Signal) : nat :=
  count_occ Signal_eq_dec l x.

End PeersList.

(** * The datagram of the discovery protocol ([UserDiscovery/syfddatagram.cpp]) *)

Module SyfdDatagram.
Import QDataStream.

Definition MAGIC_LEN : Z := 4.
Definition UUID_LEN : Z := 16.
Definition STRING_LEN : Z := 16.
Definition HASH_LEN : Z := 20.

Definition MIN_DATAGRAM_SIZE : Z :=
  MAGIC_LEN * 1 + 1 + 1 + UUID_LEN + 2 * 4 + 4 + 2 + 2.

Definition MAX_DATAGRAM_SIZE : Z :=
  MIN_DATAGRAM_SIZE + 2 * STRING_LEN * 2 + HASH_LEN.

(** The magic string ['S'], ['Y'], ['F'], ['D'], [Version::V1_0] and the
    bits of [Flags]. *)
Definition MAGIC_0 : Z := 83.
Definition MAGIC_1 : Z := 89.
Definition MAGIC_2 : Z := 70.
Definition MAGIC_3 : Z := 68.
Definition V1_0 : Z := 1.
Definition FlagQuit : Z := 1.
Definition FlagIcon : Z := 2.
Definition FlagInvalid : Z := Z.lnot (Z.lor FlagQuit FlagIcon).

(** A [QString] as the stream operators see it: [None] is the null string,
    otherwise the UTF-16 code units. *)
Definition QString : Type := option (list Z).

Definition length (s : QString) : Z :=
  match s with
  | None => 0
  | Some units => zlen units
  end.

(** [operator<<] for [QString] in a little-endian stream: the number of
    bytes as a [quint32] and the code units, or [0xFFFFFFFF] for the null
    string. *)
Definition put_qstring (s : QString) : list byte :=
  match s with
  | None => put_le 4 4294967295
  | Some units => put_le 4 (wrap32 (2 * zlen units)) ++ flat_map (put_le 2) units
  end.

(** [QDataStream::readRawData] of [n] bytes, all of which must be there. *)
Definition get_raw (n : Z) : Get (list byte) :=
  fun bs =>
    if zlen bs <? n then None
    else Some (firstn (Z.to_nat n) bs, skipn (Z.to_nat n) bs).

Fixpoint get_units (n : nat) : Get (list Z) :=
  match n with
  | O => ret []
  | S n' => (u <- get_le 2 ;; r <- get_units n' ;; ret (u :: r))%get
  end.

(** [operator>>] for [QString]: an odd number of bytes is corrupt data. *)
Definition get_qstring : Get QString :=
  (bytes <- get_le 4 ;;
   if bytes =? 4294967295 then ret None
   else if 0 <? bytes then
     if Z.odd bytes then fun _ => None
     else fun bs =>
       if zlen bs <? bytes then None
       else (units <- get_units (Z.to_nat (bytes / 2)) ;; ret (Some units)) bs
   else ret (Some []))%get.

(** The members of a valid [SyfdDatagram] that the program reads.  An
    instance whose [m_valid] is false is [None] below: [operator<<] and the
    callers look at nothing else of it. *)
Record t : Type := mk {
  m_flags : Z;
  m_uuid : list byte;
  m_firstName : QString;
  m_lastName : QString;
  m_ipv4Addr : Z;
  m_dataPort : Z;
  m_iconPort : Z;
  m_iconHash : list byte
}.

Definition set_flags (x : Z) (d : t) : t :=
  mk x (m_uuid d) (m_firstName d) (m_lastName d) (m_ipv4Addr d) (m_dataPort d)
    (m_iconPort d) (m_iconHash d).

Definition flagInvalid (d : t) : bool := negb (Z.land (m_flags d) FlagInvalid =? 0).
Definition flagQuit (d : t) : bool := negb (Z.land (m_flags d) FlagQuit =? 0).
Definition flagIcon (d : t) : bool := negb (Z.land (m_flags d) FlagIcon =? 0).

(** [m_flags] is a [quint8]. *)
Definition setFlagQuit (d : t) : t :=
  set_flags (wrap8 (Z.lor (m_flags d) FlagQuit)) d.

Definition clearFlagQuit (d : t) : t :=
  set_flags (wrap8 (Z.land (m_flags d) (Z.lnot FlagQuit))) d.

(** [QUuid::isNull] of the UUID with the given RFC 4122 bytes. *)
Definition isNull (uuid : list byte) : bool :=
  forallb (fun b => Z_of_byte b =? 0) uuid.

(** [SyfdDatagram::SyfdDatagram(const UserInfo &)].  [tmpUuid] holds the 16
    bytes of [QUuid(userInfo.uuid()).toRfc4122()], and [icon] the hash of the
    icon when it is set. *)
Definition of_userInfo (tmpUuid : list byte) (firstName lastName : QString)
    (ipv4Address dataPort iconPort : Z) (icon : option (list byte)) : option t :=
  if isNull tmpUuid then None
  else if (STRING_LEN <? length firstName) || (STRING_LEN <? length lastName)
  then None
  else if (ipv4Address =? 0) || (dataPort =? 0) then None
  else
    match icon with
    | Some hash =>
        if negb (zlen hash =? HASH_LEN) || (iconPort =? 0) then None
        else Some (mk (Z.lor 0 FlagIcon) tmpUuid firstName lastName ipv4Address
                     dataPort iconPort hash)
    | None =>
        Some (mk 0 tmpUuid firstName lastName ipv4Address dataPort 0 [])
    end.

(** [operator<<] on a stream that is [Ok]: the bytes written. *)
Definition encode (d : t) : list byte :=
  let iconOk :=
    if flagIcon d then (zlen (m_iconHash d) =? HASH_LEN) && negb (m_iconPort d =? 0)
    else m_iconPort d =? 0 in
  if flagInvalid d || negb (zlen (m_uuid d) =? UUID_LEN)
     || (STRING_LEN <? length (m_firstName d))
     || (STRING_LEN <? length (m_lastName d))
     || (m_ipv4Addr d =? 0) || (m_dataPort d =? 0) || negb iconOk
  then []
  else
    put_le 1 MAGIC_0 ++ put_le 1 MAGIC_1 ++ put_le 1 MAGIC_2 ++ put_le 1 MAGIC_3
    ++ put_le 1 V1_0 ++ put_le 1 (m_flags d)
    ++ m_uuid d
    ++ put_qstring (m_firstName d) ++ put_qstring (m_lastName d)
    ++ put_le 4 (m_ipv4Addr d) ++ put_le 2 (m_dataPort d)
    ++ put_le 2 (m_iconPort d)
    ++ (if flagIcon d then m_iconHash d else []).

(** [SyfdDatagram::toByteArray]. *)
Definition toByteArray (d : option t) : list byte :=
  match d with
  | Some d => encode d
  | None => []
  end.

(** [operator>>] into a new instance, with the bytes it leaves in the
    stream. *)
Definition get_datagram : Get t :=
  (m0 <- get_le 1 ;; m1 <- get_le 1 ;; m2 <- get_le 1 ;; m3 <- get_le 1 ;;
   version <- get_le 1 ;;
   flags <- get_le 1 ;;
   if negb (m0 =? MAGIC_0) || negb (m1 =? MAGIC_1) || negb (m2 =? MAGIC_2)
      || negb (m3 =? MAGIC_3) || negb (version =? V1_0)
      || negb (Z.land flags FlagInvalid =? 0)
   then fun _ => None
   else
     uuid <- get_raw UUID_LEN ;;
     if isNull uuid then fun _ => None
     else
       firstName <- get_qstring ;;
       lastName <- get_qstring ;;
       if (STRING_LEN <? length firstName) || (STRING_LEN <? length lastName)
       then fun _ => None
       else
         ipv4Addr <- get_le 4 ;;
         dataPort <- get_le 2 ;;
         iconPort <- get_le 2 ;;
         let icon := negb (Z.land flags FlagIcon =? 0) in
         let iconOk := if icon then negb (iconPort =? 0) else iconPort =? 0 in
         if (ipv4Addr =? 0) || (dataPort =? 0) || negb iconOk
         then fun _ => None
         else
           iconHash <- (if icon then get_raw HASH_LEN else ret []) ;;
           ret (mk flags uuid firstName lastName ipv4Addr dataPort iconPort
                  iconHash))%get.

(** [SyfdDatagram::SyfdDatagram(const QByteArray &)]. *)
Definition of_bytes (data : list byte) : option t :=
  match get_datagram data with
  | Some (d, _) => Some d
  | None => None
  end.

End SyfdDatagram.

(** ** The receiving socket of the discovery protocol
    ([UserDiscovery/syfdprotocol.cpp]) *)

Module SyfdReceiver.

(** A datagram waiting in the receiver socket: whether the
    [QNetworkDatagram] that [receiveDatagram()] returns for it is valid, its
    sender and its payload. *)
Record QNetworkDatagram : Type := mkDatagram {
  isValid : bool;
  senderAddress : Z;
  senderPort : Z;
  data : list byte
}.

(** [SyfdProtocol::receiveDatagram]: the datagrams handed to
    [datagramReceived], in the order of their arrival. *)
Fixpoint receiveDatagram (m_localAddress m_localPort : Z)
    (pending : list QNetworkDatagram) : list SyfdDatagram.t :=
  match pending with
  | [] => []
  | datagram :: pending' =>
      let continue := receiveDatagram m_localAddress m_localPort pending' in
      if (zlen (data datagram) <? SyfdDatagram.MIN_DATAGRAM_SIZE)
         || (SyfdDatagram.MAX_DATAGRAM_SIZE <? zlen (data datagram))
      then continue
      else if negb (isValid datagram) then continue
      else if (senderAddress datagram =? m_localAddress)
              && (senderPort datagram =? m_localPort)
      then continue
      else
        match SyfdDatagram.of_bytes (data datagram) with
        | Some syfdDatagram => syfdDatagram :: continue
        | None => continue
        end
  end.

End SyfdReceiver.

(** * The picker protocol ([SYFPicker/main.cpp], [FileTransfer/syfpprotocol.cpp])

    A path is kept as the bytes of its UTF-8 form, which is what travels;
    the local socket delivers the bytes in order, in pieces of any size. *)

Module Syfp.
Import QDataStream.

(** [main] of SYFPicker, once the connection is established: the bytes
    written to the socket for the given command line ([arguments] starts with
    the name of the program).  Nothing is sent, not even the connection is
    attempted, when no path is given. *)
Definition main (arguments : list (list byte)) : list byte :=
  if zlen arguments <=? 1 then []
  else
    put_le 4 (wrap32 (zlen arguments - 1))
    ++ flat_map put_bytearray (tail arguments).

(** [SyfpProtocolReceiver]: the bytes waiting in the socket, the two
    members, whether the timer runs, whether the socket is still connected,
    and the lists of paths handed to [finished] so far.  The expiry of the
    timer and the errors of the socket, which end the receiver, are left
    out. *)
Record t : Type := mk {
  socket : list byte;
  m_pathNumber : Z;
  m_pathList : list (list byte);
  timerActive : bool;
  connected : bool;
  emitted : list (list (list byte))
}.

(** [SyfpProtocolReceiver::SyfpProtocolReceiver]. *)
Definition create : t := mk [] 0 [] true true [].

(** One round of the loop of [readData], entered with bytes available: the
    state it leaves and whether the loop goes on.  A transaction that cannot
    be committed leaves the bytes in the socket. *)
Definition readData_round (r : t) : bool * t :=
  let number :=
    if m_pathNumber r =? 0 then
      match get_le 4 (socket r) with
      | Some (n, rest) => Some (n, rest)
      | None => None
      end
    else Some (m_pathNumber r, socket r) in
  match number with
  | None =>
      (false, mk (socket r) 0 (m_pathList r) (timerActive r) (connected r)
                (emitted r))
  | Some (pathNumber, bytes) =>
      match get_bytearray bytes with
      | None =>
          (false, mk bytes pathNumber (m_pathList r) (timerActive r)
                    (connected r) (emitted r))
      | Some (path, bytes) =>
          let pathList := m_pathList r ++ [path] in
          if wrap32 (zlen pathList) =? pathNumber
          then (false, mk bytes pathNumber pathList false false
                         (emitted r ++ [pathList]))
          else (true, mk bytes pathNumber pathList (timerActive r)
                        (connected r) (emitted r))
      end
  end.

Fixpoint readData_loop (fuel : nat) (r : t) : t :=
  match fuel with
  | O => r
  | S fuel' =>
      if zlen (socket r) =? 0 then r
      else
        let '(again, r') := readData_round r in
        if again then readData_loop fuel' r' else r'
  end.

(** [SyfpProtocolReceiver::readData].  Every round that goes on has taken
    bytes from the socket, so the loop makes at most as many rounds as there
    are bytes. *)
Definition readData (r : t) : t :=
  readData_loop (S (List.length (socket r))) r.

(** The arrival of [bytes]: they join the ones waiting in the socket and
    [readyRead] runs [readData], unless the receiver has finished, which
    disconnects the socket and schedules the deletion of the instance. *)
Definition readyRead (bytes : list byte) (r : t) : t :=
  let r' := mk (socket r ++ bytes) (m_pathNumber r) (m_pathList r)
              (timerActive r) (connected r) (emitted r) in
  if connected r then readData r' else r'.

(** The receiver after the arrival of each of the [pieces] in turn. *)
Definition deliver (pieces : list (list byte)) (r : t) : t :=
  fold_left (fun r bytes => readyRead bytes r) pieces r.

End Syfp.

(** * The icon protocol ([UserDiscovery/syfitprotocol.cpp], [usericon.cpp]) *)

Module Syfit.
Import QDataStream.

#[export] Instance byte_eq_dec : EqDecision byte := Byte.byte_eq_dec.

Definition INVALID_PORT : Z := 65535.
Definition TIMEOUT : Z := 5000.
Definition INITIAL_RETRY_TIME : Z := 15000.
Definition INT_MAX : Z := 2147483647.

(** [UserIcon::ICON_MAX_SIZE_BYTES]. *)
Definition ICON_MAX_SIZE_BYTES : Z := 16 * 1024.

(** What [SyfitProtocolServer::serveClient] writes to a client when both
    writes go through: the length of the icon, a [quint32] in little-endian
    order, and the bytes of the icon. *)
Definition serveClient (m_iconData : list byte) : list byte :=
  put_le 4 (wrap32 (zlen m_iconData)) ++ m_iconData.

Section Environment.

(** The SHA-1 hash, whether [QImage::fromData] gives an image of the size of
    an icon for the data, and whether [saveIcon] manages to write the file. *)
Variable sha1 : list byte -> list byte.
Variable fromData : list byte -> bool.
Variable saveIcon : list byte -> bool.

(** [UserIcon::readIcon(identifier, data, hash)]: whether the image returned
    is not null. *)
Definition readIcon (data hash : list byte) : bool :=
  if bool_decide (data = []) then false
  else if negb (bool_decide (sha1 data = hash)) then false
  else fromData data.

(** [UserIcon::UserIcon(confPath, uuid, data, hash)]: the hash of the icon
    when it is set. *)
Definition UserIcon (data hash : list byte) : option (list byte) :=
  if negb (readIcon data hash) then None
  else if negb (saveIcon data) then None
  else Some hash.

(** [SyfitProtocolClient]: the members, the bytes waiting in the socket,
    whether the socket is open (connecting or connected), whether the timeout
    timer runs, the delays of the single-shot timers started for a retry, and
    the data and hash of the icons handed to [finished]. *)
Record t : Type := mk {
  m_expectedHash : list byte;
  m_serverAddress : Z;
  m_serverPort : Z;
  m_expectedLength : Z;
  m_buffer : list byte;
  m_retryTime : Z;
  socket : list byte;
  socketOpen : bool;
  timerActive : bool;
  retries : list Z;
  emitted : list (list byte * list byte)
}.

(** [SyfitProtocolClient::SyfitProtocolClient] leaves [m_expectedLength] and
    [m_retryTime] as they are in memory. *)
Definition create (junkLength junkRetry : Z) : t :=
  mk [] 0 0 junkLength [] junkRetry [] false false [] [].

(** [SyfitProtocolClient::abortConnection]. *)
Definition abortConnection (c : t) : t :=
  mk (m_expectedHash c) (m_serverAddress c) (m_serverPort c)
    (m_expectedLength c) (m_buffer c) (m_retryTime c) [] false false
    (retries c) (emitted c).

(** [SyfitProtocolClient::startConnection]; [connectToHost] starts with an
    empty read buffer. *)
Definition startConnection (c : t) : t :=
  mk (m_expectedHash c) (m_serverAddress c) (m_serverPort c) 0 []
    (m_retryTime c) [] true true (retries c) (emitted c).

(** [SyfitProtocolClient::manageError]; [None] when doubling the retry
    time, an [int], overflows. *)
Definition manageError (c : t) : option t :=
  let c := abortConnection c in
  if INT_MAX <? m_retryTime c * 2 then None
  else
    Some (mk (m_expectedHash c) (m_serverAddress c) (m_serverPort c)
            (m_expectedLength c) (m_buffer c) (m_retryTime c * 2) (socket c)
            (socketOpen c) (timerActive c) (retries c ++ [m_retryTime c])
            (emitted c)).

(** [SyfitProtocolClient::updateAndStart]. *)
Definition updateAndStart (serverAddress serverPort : Z) (iconHash : list byte)
    (c : t) : t :=
  if negb (m_serverAddress c =? serverAddress)
     || negb (m_serverPort c =? serverPort)
     || negb (bool_decide (m_expectedHash c = iconHash))
  then
    let c := mk iconHash serverAddress serverPort (m_expectedLength c)
               (m_buffer c) INITIAL_RETRY_TIME (socket c) (socketOpen c)
               (timerActive c) (retries c) (emitted c) in
    let c := abortConnection c in
    if negb (m_serverPort c =? INVALID_PORT) then startConnection c else c
  else c.

(** The end of [readData], once the buffer holds the expected number of
    bytes. *)
Definition bufferFull (c : t) : option t :=
  let c := mk (m_expectedHash c) (m_serverAddress c) (m_serverPort c)
             (m_expectedLength c) (m_buffer c) (m_retryTime c) (socket c)
             false false (retries c) (emitted c) in
  match UserIcon (m_buffer c) (m_expectedHash c) with
  | Some hash =>
      Some (mk (m_expectedHash c) (m_serverAddress c) (m_serverPort c)
              (m_expectedLength c) (m_buffer c) (m_retryTime c) (socket c)
              (socketOpen c) (timerActive c) (retries c)
              (emitted c ++ [(m_buffer c, hash)]))
  | None => manageError c
  end.

(** The part of [readData] that follows the reading of the length. *)
Definition readBytes (c : t) : option t :=
  let remaining := wrap32 (m_expectedLength c - wrap32 (zlen (m_buffer c))) in
  let c := mk (m_expectedHash c) (m_serverAddress c) (m_serverPort c)
             (m_expectedLength c)
             (m_buffer c ++ firstn (Z.to_nat remaining) (socket c))
             (m_retryTime c) (skipn (Z.to_nat remaining) (socket c))
             (socketOpen c) (timerActive c) (retries c) (emitted c) in
  if wrap32 (zlen (m_buffer c)) =? m_expectedLength c
  then bufferFull c
  else Some c.

(** [SyfitProtocolClient::readData]; [None] when [manageError] overflows. *)
Definition readData (c : t) : option t :=
  if m_expectedLength c =? 0 then
    if zlen (socket c) <? 4 then Some c
    else
      match get_le 4 (socket c) with
      | Some (expectedLength, bytes) =>
          let c := mk (m_expectedHash c) (m_serverAddress c) (m_serverPort c)
                     expectedLength (m_buffer c) (m_retryTime c) bytes
                     (socketOpen c) (timerActive c) (retries c) (emitted c) in
          if ICON_MAX_SIZE_BYTES <? m_expectedLength c then manageError c
          else readBytes c
      | None => Some c
      end
  else readBytes c.

(** The arrival of [bytes] on the open socket, which triggers [readyRead]. *)
Definition readyRead (bytes : list byte) (c : t) : option t :=
  if socketOpen c
  then readData (mk (m_expectedHash c) (m_serverAddress c) (m_serverPort c)
                   (m_expectedLength c) (m_buffer c) (m_retryTime c)
                   (socket c ++ bytes) (socketOpen c) (timerActive c)
                   (retries c) (emitted c))
  else Some c.

(** The expiry of the timeout timer, and an error of the socket. *)
Definition timeout (c : t) : option t :=
  if timerActive c then manageError c else Some c.

Definition socketError (c : t) : option t := manageError c.

(** The client after the arrival of each of the [pieces] in turn. *)
Fixpoint deliver (pieces : list (list byte)) (c : t) : option t :=
  match pieces with
  | [] => Some c
  | bytes :: pieces' =>
      match readyRead bytes c with
      | Some c' => deliver pieces' c'
      | None => None
      end
  end.

End Environment.

End Syfit.

(** * The progress of a transfer ([FileTransfer/transferinfo.cpp]) *)

Module TransferInfoMethods.
Import Syfft.

(** [TransferInfo::percentageFiles]: the value of the [quint32] expression
    that the function converts to [float]. *)
Definition percentageFiles (ti : TransferInfo) : Z :=
  if 0 <? m_totalFiles ti
  then wrap32 (100 * wrap32 (m_transferredFiles ti + m_skippedFiles ti))
       / m_totalFiles ti
  else 100.

(** [TransferInfo::percentageBytes]: the value of the [quint64] expression
    that the function converts to [float]. *)
Definition percentageBytes (ti : TransferInfo) : Z :=
  if 0 <? m_totalBytes ti
  then wrap64 (100 * wrap64 (m_transferredBytes ti + m_skippedBytes ti))
       / m_totalBytes ti
  else percentageFiles ti.

End TransferInfoMethods.

(** * Invariants and sample inputs *)

(** ** The transactional writer and reader *)

Section FileInTransferInvariants.
Import FileInTransfer.

(** What every reachable writer satisfies: the temporary file never holds
    more bytes than the declared size, its length and the bytes still expected
    add up to exactly the size while no error occurred, and a committed
    writer has moved a complete temporary file into place. *)
Definition writer_inv (f : t) : Prop :=
  0 <= m_remainingBytes f /\
  zlen (file_tmp f) <= info_size f /\
  (m_error f = false -> zlen (file_tmp f) + m_remainingBytes f = info_size f) /\
  (m_rollbacked f = true -> m_error f = true /\ m_committed f = false) /\
  (m_committed f = true ->
     m_remainingBytes f = 0 /\ file_open f = false /\
     file_dest f = Some (file_tmp f) /\ zlen (file_tmp f) = info_size f) /\
  (m_committed f = false -> file_dest f = None).

(** The flag discipline shared by both flavours. *)
Definition flags_inv (f : t) : Prop :=
  m_rollbacked f = true -> m_error f = true /\ m_committed f = false.

End FileInTransferInvariants.

(** The discipline of the two flags, for one flavour [I] started in state
    [f0]. *)
Definition flag_discipline (I : FileInTransfer.Impl) (f0 : FileInTransfer.t) : Prop :=
  forall ops : list FileInTransfer.Op,
    let f := FileInTransfer.run ops f0 in
    ~ (FileInTransfer.m_committed f = true /\ FileInTransfer.m_rollbacked f = true) /\
    (FileInTransfer.m_committed f = true -> FileInTransfer.rollback f = (false, f)) /\
    (FileInTransfer.m_rollbacked f = true ->
       forall a b, fst (FileInTransfer.commit a b f) = false) /\
    (forall a b f', FileInTransfer.commit a b f = (true, f') ->
       forall a' b', FileInTransfer.commit a' b' f' = (true, f')).

(** ** The receiving session *)

Section SessionInvariant.
Import Syfft.

Definition is_pause (st : Status) : bool :=
  match st with
  | PausedByUser | PausedByPeer => true
  | _ => false
  end.

(** The status the session returns to once every pause is left: the first
    status that is not a pause, starting from the current one and going down
    the stack. *)
Fixpoint first_np (l : list Status) : Status :=
  match l with
  | [] => PausedByUser
  | x :: r => if is_pause x then first_np r else x
  end.

Definition eff (s : Session) : Status :=
  first_np (m_status s :: m_oldStatusStack s).

Definition terminal (st : FileInfo.Status) : Prop :=
  st = FileInfo.Transferred \/ st = FileInfo.TransferRejected
  \/ st = FileInfo.TransferFailed.

Definition sizes (s : Session) : list Z := map FileInfo.m_size (m_files s).

Fixpoint sumZ (l : list Z) : Z :=
  match l with
  | [] => 0
  | x :: r => x + sumZ r
  end.

Definition NO_FILE : Z := 4294967295.

Definition tf (s : Session) : Z := m_transferredFiles (m_transferInfo s).
Definition sf (s : Session) : Z := m_skippedFiles (m_transferInfo s).
Definition tb (s : Session) : Z := m_transferredBytes (m_transferInfo s).
Definition totalBytes (s : Session) : Z := m_totalBytes (m_transferInfo s).

(** Every file whose turn has come has reached one of the three final
    statuses. *)
Definition attempted_terminal (s : Session) : Prop :=
  forall i f, m_files s !! i = Some f ->
    m_currentFile s <> NO_FILE -> Z.of_nat i <= m_currentFile s ->
    terminal (FileInfo.m_status f).

(** The bytes of the current file that have been counted as transferred. *)
Definition credit (s : Session) : Z :=
  match m_fileInTransfer s with
  | Some w => FileInTransfer.info_size w - FileInTransfer.m_remainingBytes w
  | None => 0
  end.

Definition pre_transfer (s : Session) : Prop :=
  tf s = 0 /\ sf s = 0 /\ tb s = 0 /\ m_currentFile s = NO_FILE /\
  m_fileInTransfer s = None /\ zlen (m_files s) <= totalFiles s.

Definition in_transfer (s : Session) : Prop :=
  m_currentFile s = tf s + sf s /\
  m_currentFile s < totalFiles s /\ zlen (m_files s) = totalFiles s /\
  (forall i f, m_files s !! i = Some f -> Z.of_nat i < m_currentFile s ->
     terminal (FileInfo.m_status f)) /\
  (forall w, m_fileInTransfer s = Some w ->
     exists f, currentFileInfo s = Some f /\
       FileInTransfer.info_size w = FileInfo.m_size f /\
       0 <= FileInTransfer.m_remainingBytes w <= FileInTransfer.info_size w) /\
  totalBytes s = wrap64 (sumZ (sizes s)) /\
  (sumZ (sizes s) < 2 ^ 64 ->
     tb s <= sumZ (firstn (Z.to_nat (m_currentFile s)) (sizes s)) + credit s).

Definition finished (s : Session) : Prop :=
  tf s + sf s = totalFiles s /\
  m_fileInTransfer s = None /\
  (m_currentFile s = NO_FILE \/
   (m_currentFile s = totalFiles s /\ zlen (m_files s) = totalFiles s)) /\
  attempted_terminal s /\
  (sumZ (sizes s) < 2 ^ 64 -> tb s <= totalBytes s).

Definition aborted (s : Session) : Prop :=
  tf s + sf s = totalFiles s /\ m_fileInTransfer s = None /\
  (m_currentFile s < totalFiles s ->
     0 <= m_currentFile s /\ zlen (m_files s) = totalFiles s) /\
  attempted_terminal s /\
  (sumZ (sizes s) < 2 ^ 64 -> tb s <= totalBytes s).

Definition data_inv (phase : Status) (s : Session) : Prop :=
  match phase with
  | New | Connecting | Connected => pre_transfer s
  | InTransfer => in_transfer s
  | TransferCompleted | Closing | Closed => finished s
  | Aborted => aborted s
  | PausedByUser | PausedByPeer => False
  end.

Definition common_inv (s : Session) : Prop :=
  0 <= totalFiles s < INT_MAX /\ 0 <= totalBytes s < 2 ^ 64 /\
  0 <= tb s < 2 ^ 64 /\ 0 <= tf s /\ 0 <= sf s /\
  Forall (fun x => 0 <= x < 2 ^ 64) (sizes s).

(** The session waits for the decision on a request of the kind [r]: the
    request it created last is of this kind, and nothing has ended the pause
    entered for it since ([m_preventUserTogglePause] is still set). *)
Definition awaited (r : Request) (s : Session) : bool :=
  bool_decide (head (pendingRequests s) = Some r) && m_preventUserTogglePause s.

(** The event is not a decision of the user that comes late or twice: a
    decision answers the request the session is waiting for. *)
Definition in_time (s : Session) (e : Event) : bool :=
  match e with
  | AcceptSharingRequest _ | RejectSharingRequest => awaited SharingRequest s
  | Chosen _ _ _ => awaited DuplicatedFile s
  | _ => true
  end.

(** Every decision among the events that happen to [s] comes in time. *)
Fixpoint timely (s : Session) (events : list Event) : Prop :=
  match events with
  | [] => True
  | e :: rest =>
      in_time s e = true /\
      match step s e with
      | Some s' => timely s' rest
      | None => True
      end
  end.

(** The decisions of the user. *)
Definition is_decision (e : Event) : bool :=
  match e with
  | AcceptSharingRequest _ | RejectSharingRequest | Chosen _ _ _ => true
  | _ => false
  end.

(** While a decision is awaited the session stays paused (or is aborted). *)
Definition waiting_inv (s : Session) : Prop :=
  m_preventUserTogglePause s = true ->
  m_status s = Aborted \/ m_status s = PausedByUser \/
  (m_status s = PausedByPeer /\ head (m_oldStatusStack s) = Some PausedByUser).

Definition request_inv (s : Session) : Prop :=
  m_preventUserTogglePause s = true -> m_status s <> Aborted ->
  match head (pendingRequests s) with
  | Some SharingRequest =>
      eff s = Connected /\ zlen (m_files s) = totalFiles s /\
      totalBytes s = wrap64 (sumZ (sizes s))
  | Some DuplicatedFile =>
      eff s = InTransfer /\
      exists w, m_fileInTransfer s = Some w /\
        FileInTransfer.m_remainingBytes w = FileInTransfer.info_size w
  | None => True
  end.

Record Inv (s : Session) : Prop := mkInv {
  inv_common : common_inv s;
  inv_data : data_inv (eff s) s;
  inv_waiting : waiting_inv s;
  inv_request : request_inv s
}.

(** What the data of a session satisfies in every phase. *)
Definition summary (s : Session) : Prop :=
  tf s + sf s <= totalFiles s /\
  (m_currentFile s < totalFiles s ->
     0 <= m_currentFile s /\ zlen (m_files s) = totalFiles s) /\
  (forall i f, m_files s !! i = Some f -> m_currentFile s <> NO_FILE ->
     Z.of_nat i < m_currentFile s -> terminal (FileInfo.m_status f)) /\
  (~ m_currentFile s < totalFiles s -> attempted_terminal s) /\
  (sumZ (sizes s) < 2 ^ 64 -> tb s <= totalBytes s).

(** The state between two files: the current one has been dealt with and
    [moveToNextFile] is about to run. *)
Definition advance_ready (s : Session) : Prop :=
  let next := wrap32 (m_currentFile s + 1) in
  m_fileInTransfer s = None /\ zlen (m_files s) = totalFiles s /\
  0 <= next <= totalFiles s /\ tf s + sf s = next /\
  (forall i f, m_files s !! i = Some f -> Z.of_nat i < next ->
     terminal (FileInfo.m_status f)) /\
  totalBytes s = wrap64 (sumZ (sizes s)) /\
  (sumZ (sizes s) < 2 ^ 64 -> tb s <= sumZ (firstn (Z.to_nat next) (sizes s))).

(** A handler returns, and the state it leaves satisfies the invariant. *)
Definition pres (o : option (bool * Session)) : Prop :=
  exists b s', o = Some (b, s') /\ Inv s'.

(** A session that satisfies the invariant handles every batch of commands,
    and still satisfies it afterwards. *)
Definition pres1 (o : option Session) : Prop := exists s', o = Some s' /\ Inv s'.

End SessionInvariant.

(** ** The receiving session, whatever the order of the events *)

Section SafeStates.
Import Syfft.

(** The statuses of a session that has not started its transfer yet. *)
Definition before_transfer (st : Status) : bool :=
  match st with
  | New | Connecting | Connected => true
  | _ => false
  end.

(** What holds of a receiving session whatever happens to it, the decisions
    of the user coming in time or not: the counters are in the range of their
    types, the session is not left in a pause it cannot leave, the list of
    files is complete once a sharing request has been handed to the user, and
    the writer of the file in transfer is in order. *)
Record Core (s : Session) : Prop := mkCore {
  core_total : 0 <= totalFiles s < INT_MAX;
  core_tb : 0 <= tb s < 2 ^ 64;
  core_sizes : Forall (fun x => 0 <= x < 2 ^ 64) (sizes s);
  core_eff : is_pause (eff s) = false;
  core_cur : 0 <= m_currentFile s <= NO_FILE;
  core_files : zlen (m_files s) <= totalFiles s;
  core_request :
    m_status s <> Aborted -> SharingRequest ∈ pendingRequests s ->
    zlen (m_files s) = totalFiles s /\ m_shareMsgNull s = false;
  core_writer : forall w, m_fileInTransfer s = Some w -> writer_inv w
}.

(** And the current index: it is [NO_FILE] before the transfer, it is the
    index of a listed file during the transfer, and the list is complete once
    it has left [NO_FILE]. *)
Record Safe (s : Session) : Prop := mkSafe {
  safe_core : Core s;
  safe_started :
    m_currentFile s <> NO_FILE -> zlen (m_files s) = totalFiles s;
  safe_transfer : eff s = InTransfer -> m_currentFile s < totalFiles s;
  safe_before : before_transfer (eff s) = true -> m_currentFile s = NO_FILE
}.

(** A handler returns, and the state it leaves is safe. *)
Definition safely (o : option (bool * Session)) : Prop :=
  exists b s', o = Some (b, s') /\ Safe s'.

End SafeStates.

Section SenderInvariant.
Import Syfft.

(** What a sender knows of its offer from [sendFiles] on: the list is
    complete and the total is the sum of its sizes.  A sender never waits for
    a decision of the user. *)
Definition offer_inv (s : Session) : Prop :=
  zlen (m_files s) = totalFiles s /\ totalBytes s = wrap64 (sumZ (sizes s)) /\
  m_preventUserTogglePause s = false.

(** The offer is the same in both states. *)
Definition same_offer (s s' : Session) : Prop :=
  totalFiles s' = totalFiles s /\ totalBytes s' = totalBytes s /\
  sizes s' = sizes s /\
  m_preventUserTogglePause s' = m_preventUserTogglePause s.

Record SInv (s : Session) : Prop := mkSInv {
  sinv_inv : Inv s;
  sinv_offer : offer_inv s
}.

Definition spres (o : option (bool * Session)) : Prop :=
  exists b s', o = Some (b, s') /\ SInv s'.

Definition spres1 (o : option Session) : Prop :=
  exists s', o = Some s' /\ SInv s'.

(** The descriptors of a [TransferList] are valid and scheduled, their sizes
    are 64 bit wide and the total is their sum. *)
Definition list_inv (l : TransferList.t) : Prop :=
  Forall (fun f => FileInfo.m_valid f = true /\
                   FileInfo.m_status f = FileInfo.Scheduled /\
                   0 <= FileInfo.m_size f < 2 ^ 64) (TransferList.m_files l) /\
  TransferList.m_totalBytes l
  = wrap64 (sumZ (map FileInfo.m_size (TransferList.m_files l))).

End SenderInvariant.

Section SessionSamples.
Import Syfft.

(** Two files offered by a peer, and the answers of a file system on which
    none of them exists yet. *)
Definition sample_date : FileInfo.QDateTime := FileInfo.mkDateTime 2457800 1000 0.

Definition sample_a : FileInfo.t := FileInfo.make "a.txt"%string 3 sample_date.

Definition sample_b : FileInfo.t := FileInfo.make "b/c.bin"%string 2 sample_date.

Definition empty_fs : Fs := fun _ => mkFsAnswer false true true.

Definition sample_offer : list Command :=
  [HELLO true; ACK; SHARE 2 5;
   ITEM (FileInfo.encode sample_a) 0 FileInfo.Scheduled;
   ITEM (FileInfo.encode sample_b) 0 FileInfo.Scheduled;
   SHARE 0 0].

(** Both files are received and the peer closes the connection. *)
Definition complete_trace : list Event :=
  [AcceptConnection; ReadData sample_offer; AcceptSharingRequest true;
   ReadData [START empty_fs; CHUNK 3 [x61; x62; x63] 3; COMMIT true;
             START empty_fs; CHUNK 2 [x00; x01] 2; COMMIT true];
   ReadData [CLOSE]; Disconnected].

(** The user terminates the connection while the first file is received. *)
Definition interrupted_trace : list Event :=
  [AcceptConnection; ReadData sample_offer; AcceptSharingRequest true;
   ReadData [START empty_fs; CHUNK 2 [x61; x62] 2]; TerminateConnection].

(** The user rejects the sharing request. *)
Definition rejected_trace : list Event :=
  [AcceptConnection; ReadData sample_offer; RejectSharingRequest; Disconnected].

(** The first file has just been opened for writing. *)
Definition opened_trace : list Event :=
  [AcceptConnection; ReadData sample_offer; AcceptSharingRequest true;
   ReadData [START empty_fs]].

(** The connection is closed by the peer while the sharing request waits
    for the user, which ends the pause, and the rest of the socket buffer
    repeats the request; the user then answers both requests. *)
Definition late_accept_trace : list Event :=
  [AcceptConnection; ReadData sample_offer; SocketError true;
   ReadData [SHARE 0 0]; AcceptSharingRequest true; AcceptSharingRequest true;
   ReadData [START empty_fs; CHUNK 2 [x00; x01] 2; COMMIT true; CLOSE];
   Disconnected].

(** The same, the user rejecting the second request; the first one is left
    undecided in a session that is Closed. *)
Definition late_request_trace : list Event :=
  [AcceptConnection; ReadData sample_offer; SocketError true;
   ReadData [SHARE 0 0]; RejectSharingRequest; Disconnected].

(** A file system on which every file exists already. *)
Definition full_fs : Fs := fun _ => mkFsAnswer true true true.

(** The connection is closed by the peer while the user is asked about a
    duplicated file, and the rest of the socket buffer ends the transfer: the
    session is Closed with the question still open. *)
Definition late_choice_trace : list Event :=
  [AcceptConnection; ReadData sample_offer; AcceptSharingRequest true;
   ReadData [START full_fs]; SocketError true; ReadData [ROLLBK; SKIP; CLOSE];
   Disconnected].

(** The user terminates the connection while the sharing request waits. *)
Definition terminated_trace : list Event :=
  [AcceptConnection; ReadData sample_offer; TerminateConnection].

(** Two files whose sizes add up to [2 ^ 64], announced with a total of 0
    bytes. *)
Definition huge_offer : list Command :=
  [HELLO true; ACK; SHARE 2 0;
   ITEM (FileInfo.encode (FileInfo.make "a.txt"%string (2 ^ 63) sample_date)) 0
        FileInfo.Scheduled;
   ITEM (FileInfo.encode (FileInfo.make "b.txt"%string (2 ^ 63) sample_date)) 0
        FileInfo.Scheduled;
   SHARE 0 0].

Definition huge_trace : list Event :=
  [AcceptConnection; ReadData huge_offer; AcceptSharingRequest true;
   ReadData [START empty_fs; CHUNK 2 [x61; x62] 2]; TerminateConnection].

Definition all_terminal (s : Session) : Prop :=
  Forall (fun f => terminal (FileInfo.m_status f)) (m_files s).

Definition is_terminal_state (s : Session) : Prop :=
  m_status s = Closed \/ m_status s = Aborted.

(** The same two files picked for sending, with a file system on which each
    of them opens and has not changed since it was listed. *)
Definition sample_items : list (string * Z * FileInfo.QDateTime) :=
  [("a.txt"%string, 3, sample_date); ("b/c.bin"%string, 2, sample_date)].

Definition read_ok : SyfftSender.ReadAnswer :=
  SyfftSender.mkReadAnswer true false true.

(** Both files are sent and the peer acknowledges each of them. *)
Definition sender_complete_trace : list SyfftSender.Event :=
  [SyfftSender.SendFiles sample_items; SyfftSender.SocketConnected true;
   SyfftSender.ReadData [SyfftSender.HELLO true true];
   SyfftSender.ReadData [SyfftSender.ACCEPT read_ok [] true false];
   SyfftSender.ReadData [SyfftSender.ACCEPT read_ok [3; 0] true false];
   SyfftSender.ReadData [SyfftSender.COMMIT read_ok];
   SyfftSender.ReadData [SyfftSender.ACCEPT read_ok [2; 0] true false];
   SyfftSender.ReadData [SyfftSender.COMMIT read_ok];
   SyfftSender.ReadData [SyfftSender.CLOSE]; SyfftSender.Disconnected].

(** The peer rejects the sharing request. *)
Definition sender_rejected_trace : list SyfftSender.Event :=
  [SyfftSender.SendFiles sample_items; SyfftSender.SocketConnected true;
   SyfftSender.ReadData [SyfftSender.HELLO true true];
   SyfftSender.ReadData [SyfftSender.REJECT read_ok]; SyfftSender.Disconnected].

(** The peer goes offline after the first file has been written to the
    socket. *)
Definition sender_interrupted_trace : list SyfftSender.Event :=
  [SyfftSender.SendFiles sample_items; SyfftSender.SocketConnected true;
   SyfftSender.ReadData [SyfftSender.HELLO true true];
   SyfftSender.ReadData [SyfftSender.ACCEPT read_ok [] true false];
   SyfftSender.ReadData [SyfftSender.ACCEPT read_ok [3] true false];
   SyfftSender.UpdatePeerStatus true].

(** The states of a session: those a sender reaches from the state its
    constructor leaves, and those a receiver reaches from its own when every
    decision of the user comes in time; a sender asks its user nothing. *)
Definition reachable_in_time (s : Session) : Prop :=
  (exists events, timely Syfft.create events /\
                  Syfft.run Syfft.create events = Some s) \/
  (exists events, SyfftSender.run SyfftSender.create events = Some s).

End SessionSamples.

(** ** The sender of the discovery protocol *)

Section DiscoveryInvariants.
Import Syfd.

Variable writeOk : nat -> bool.

(** The protocol is started and online, and it advertises a datagram. *)
Definition sending (p : t) : Prop :=
  m_status p = Started /\ m_mode p = Online /\ timerActive p = true /\
  bufferEmpty p = false /\ 0 <= m_errorCount p < ERROR_THRESHOLD.

(** The number of failed writes in a row after [k] more writes, when [c0]
    writes had failed in a row before the write number [base]. *)
Fixpoint streak (base : nat) (c0 : Z) (k : nat) : Z :=
  match k with
  | O => c0
  | S k' => if writeOk (base + k') then 0 else streak base c0 k' + 1
  end.

(** The protocol went offline because of the write number [last]. *)
Definition gone_offline (p p' : t) (last : nat) : Prop :=
  m_mode p' = Offline /\ timerActive p' = false /\ m_errorCount p' = 0 /\
  m_status p' = Started /\ writes p' = S last /\
  emitted p' = emitted p ++ [modeChanged Offline; error].

End DiscoveryInvariants.

(** The protocol started in online mode with a valid datagram, and a socket
    on which every write fails. *)
Definition started_online : Syfd.t :=
  Syfd.mk true Syfd.Started Syfd.Online true true false 0 0
    [Syfd.started; Syfd.modeChanged Syfd.Online].

Definition always_fails : nat -> bool := fun _ => false.

(** ** The registry of the peers *)

Section RegistryInvariants.
Import Users PeersList.

(** Every instance is stored under its own UUID. *)
Definition consistent (l : PeersList.t) : Prop :=
  forall k p, m_instances l !! k = Some p -> uuid_of p = k.

(** What holds of an instance loaded from [peers.json] under the key [k]. *)
Definition loaded (k : string) (p : PeerUser) : Prop :=
  m_valid p = true /\ m_age p = AgeUnconfirmed /\
  exists info, m_info p = Some info /\ m_uuid info = k.

Definition concerns (k : string) (e : PeersList.Event) : Prop :=
  match e with
  | Datagram _ d => d_uuid d = k
  | AgingTimeout => False
  end.

End RegistryInvariants.

Module RegistrySamples.
Import Users PeersList.
Local Open Scope string_scope.

Definition uuidIsNull (s : string) : bool := String.eqb s "".
Definition iconFromJson (uuid : string) (json : QJsonObject) : option string := None.
Definition preferencesFromJson (json : QJsonObject) : QJsonObject :=
  defaultPreferences.

(** A beacon of the peer [{p1}]. *)
Definition beacon : SyfdDatagram :=
  mkDatagram true false false "{p1}" "Ann" "Lee" 3232235777 49152 0 "".

(** The registry of a first run: there is no [peers.json] yet. *)
Definition first_run : PeersList.t :=
  PeersList.create uuidIsNull iconFromJson preferencesFromJson 0 None
    "{me}" "Me" "Myself".

(** The record of [{p1}] in [peers.json], and the registry loaded from it. *)
Definition stored : QJsonObject :=
  <["Me" := JBool false]> (<["UUID" := JString "{p1}"]>
    (<["First" := JString "Ann"]> (<["Last" := JString "Lee"]> ∅))).

Definition second_run : PeersList.t :=
  PeersList.create uuidIsNull iconFromJson preferencesFromJson 0
    (Some [stored]) "{me}" "Me" "Myself".

(** The instance of [{p1}] just after a beacon, and a registry that holds
    it. *)
Definition fresh_peer : PeerUser :=
  mkPeer true
    (Some (mkInfo "{p1}" "Ann" "Lee" 3232235777 49152 0 None defaultPreferences))
    0 true.

Definition confirmed_registry : PeersList.t :=
  PeersList.mk {[ "{p1}" := fresh_peer ]} "{me}" "Me" "Myself"
    [peerAdded "{p1}"] None.

(** The letter e with an acute accent, two bytes in UTF-8 and one UTF-16 code
    unit; a name made of [n] such letters, and a record of [peers.json] with
    this first name. *)
Definition e_acute : string :=
  String (ascii_of_nat 195) (String (ascii_of_nat 169) "").

Fixpoint accented (n : nat) : string :=
  match n with
  | O => ""
  | S n' => e_acute ++ accented n'
  end.

Definition stored_named (first : string) : QJsonObject :=
  <["Me" := JBool false]> (<["UUID" := JString "{p2}"]>
    (<["First" := JString first]> (<["Last" := JString "Lee"]> ∅))).

End RegistrySamples.

(** ** The descriptors and the names tried by KeepBoth *)

Section FileInfoInvariants.
Import Qt QDataStream FileInfo.

(** The members of a [QDateTime] fit the fields of the [Qt_5_0] format. *)
Definition datetime_in_range (d : QDateTime) : Prop :=
  0 <= julianDay d < 2 ^ 64 /\ 0 <= msecs d < 2 ^ 32 /\
  0 <= timeSpec d < 2 ^ 8.

Definition slash_free (seg : list ascii) : Prop :=
  Forall (fun c => Ascii.eqb c slash = false) seg.

(** What [norm_step] keeps: segments without separator that are not empty. *)
Definition kept (seg : list ascii) : Prop := slash_free seg /\ seg <> [].

(** The three tests of the constructor and of [operator>>]. *)
Definition acceptable (filePath : string) : Prop :=
  isRelative filePath = true /\ cleanPath filePath = filePath /\
  startsWith "../" filePath = false.

(** The ITEM payload that announces a file of 3 bytes whose path is
    empty. *)
Definition empty_path_item : list byte :=
  put_bytearray [] ++ put_le 8 3 ++ put_datetime sample_date.

Definition percent_free (l : list ascii) : Prop :=
  Forall (fun c => Ascii.eqb c "%"%char = false) l.

End FileInfoInvariants.

Section KeepBothSamples.
Import Qt Syfft.

(** The candidate as the claim words it: the suffix [_counter] between the
    base name and the extension, or after the name of a dotfile. *)
Definition suffixed (path name ext : string) (counter : Z) : string :=
  (if String.eqb name "" then path ++ "/." ++ ext ++ "_" ++ number counter
   else if String.eqb ext "" then path ++ "/" ++ name ++ "_" ++ number counter
   else path ++ "/" ++ name ++ "_" ++ number counter ++ "." ++ ext)%string.

Definition no_percent (s : string) : Prop :=
  percent_free (list_ascii_of_string s).

(** The descriptor the loop builds for a value of its counter. *)
Definition candidate (currentFile : FileInfo.t) (path name ext : string)
    (counter : Z) : FileInfo.t :=
  FileInfo.make (cleanPath (newPath path name ext counter))
    (FileInfo.m_size currentFile) (FileInfo.m_lastModified currentFile).

(** The name is in use: it could be opened, and it exists already. *)
Definition taken (fs : Fs) (g : FileInfo.t) : Prop :=
  FileInTransfer.m_error (newWriter fs g) = false /\
  FileInTransfer.m_exists (newWriter fs g) = true.

(** A file named [100%2.txt], and a directory that holds a file of that
    name. *)
Definition percent_file : FileInfo.t := FileInfo.make "100%2.txt" 3 sample_date.

Definition percent_fs : Fs :=
  fun p => mkFsAnswer (String.eqb p "100%2.txt") true true.

End KeepBothSamples.

(** ** The datagram of the discovery protocol *)

Section DatagramInvariants.
Import QDataStream SyfdDatagram.

(** A name of the datagram: 16-bit code units, at most [STRING_LEN] of
    them. *)
Definition name_ok (s : QString) : Prop :=
  length s <= STRING_LEN /\
  match s with
  | Some units => Forall (fun u => 0 <= u < 2 ^ 16) units
  | None => True
  end.

(** The datagrams that travel: the flags are among the two that are defined,
    the UUID has 16 bytes that are not all zero, the address and the data port
    are set, and the port and the hash of the icon are there exactly when the
    flag of the icon is set. *)
Definition well_formed (d : t) : Prop :=
  0 <= m_flags d < 4 /\
  zlen (m_uuid d) = UUID_LEN /\ isNull (m_uuid d) = false /\
  name_ok (m_firstName d) /\ name_ok (m_lastName d) /\
  0 < m_ipv4Addr d < 2 ^ 32 /\ 0 < m_dataPort d < 2 ^ 16 /\
  if flagIcon d
  then 0 < m_iconPort d < 2 ^ 16 /\ zlen (m_iconHash d) = HASH_LEN
  else m_iconPort d = 0 /\ m_iconHash d = [].

(** The layout of a datagram on the wire. *)
Definition body (d : t) : list byte :=
    put_le 1 MAGIC_0 ++ put_le 1 MAGIC_1 ++ put_le 1 MAGIC_2 ++ put_le 1 MAGIC_3
    ++ put_le 1 V1_0 ++ put_le 1 (m_flags d)
    ++ m_uuid d
    ++ put_qstring (m_firstName d) ++ put_qstring (m_lastName d)
    ++ put_le 4 (m_ipv4Addr d) ++ put_le 2 (m_dataPort d)
    ++ put_le 2 (m_iconPort d)
    ++ (if flagIcon d then m_iconHash d else []).

(** The members of a [UserInfo] as their types bound them. *)
Definition units_ok (s : QString) : Prop :=
  match s with
  | Some units => Forall (fun u => 0 <= u < 2 ^ 16) units
  | None => True
  end.

(** Two sample datagrams: a user without icon, and one with an icon. *)
Definition sample_uuid : list byte :=
  [x12; x34; x56; x78; x9a; xbc; xde; xf0; x01; x02; x03; x04; x05; x06; x07; x08].

Definition sample_plain : t :=
  mk 0 sample_uuid (Some [77; 97; 114; 99; 111]) None 3232235777 50000 0 [].

Definition sample_icon : t :=
  mk 2 sample_uuid (Some [26085; 26412]) (Some []) 3232235777 50000 50001
    (repeat x2a 20).

End DatagramInvariants.

(** ** The picker protocol *)

Section PickerInvariants.
Import QDataStream Syfp.

(** The receiver with [c] added to the bytes waiting in the socket. *)
Definition push (c : list byte) (r : t) : t :=
  mk (socket r ++ c) (m_pathNumber r) (m_pathList r) (timerActive r)
    (connected r) (emitted r).

(** The number of paths that the socket announces, once its four bytes are
    there, is not zero. *)
Definition number_ok (r : t) (c : list byte) : Prop :=
  m_pathNumber r = 0 ->
  forall n rest, get_le 4 (socket r ++ c) = Some (n, rest) -> n <> 0.

(** A command line within the bounds of its types: the number of arguments
    and the length of each path are [int]s; at least one path is given. *)
Definition command_line (arguments : list (list byte)) : Prop :=
  1 < zlen arguments <= 2147483647 /\
  Forall (fun path => zlen path <= 2147483647) (tail arguments).

(** The receiver that has handed the [paths] on. *)
Definition done (paths : list (list byte)) : t :=
  mk [] (zlen paths) paths false false [paths].

Definition sample_arguments : list (list byte) :=
  [ [x70]; [x2f; x61; x2f; x62]; []; [x63; x2e; x74; x78; x74] ].

End PickerInvariants.

(** ** The icon protocol *)

Section IconInvariants.
Import QDataStream Syfit.

(** The client [c] once connected, with [bytes] waiting in the socket and
    the length still to be read; and with the length read and [buffer]
    received. *)
Definition awaiting_length (c : t) (bytes : list byte) : t :=
  mk (m_expectedHash c) (m_serverAddress c) (m_serverPort c) 0 []
    (m_retryTime c) bytes true true (retries c) (emitted c).

Definition receiving (c : t) (expectedLength : Z) (buffer : list byte) : t :=
  mk (m_expectedHash c) (m_serverAddress c) (m_serverPort c) expectedLength
    buffer (m_retryTime c) [] true true (retries c) (emitted c).

(** An environment for the samples: the hash is the first byte of the data,
    every data is an image and every icon can be saved. *)
Definition sample_sha1 (data : list byte) : list byte := firstn 1 data.

Definition sample_client : t :=
  updateAndStart 3232235777 50001 [x89] (create 7 9).

Definition sample_data : list byte := [x89; x50; x4e; x47; x0d].

(** [k] connections in a row that end in a timeout, each followed by the
    retry that [manageError] has scheduled. *)
Fixpoint timeouts (k : nat) (c : t) : option t :=
  match k with
  | O => Some c
  | S k' =>
      match timeouts k' c with
      | Some c' =>
          match timeout c' with
          | Some c'' => Some (startConnection c'')
          | None => None
          end
      | None => None
      end
  end.

(** The delays [t], [2 t], [4 t], ... of [k] retries. *)
Fixpoint backoff (k : nat) (t : Z) : list Z :=
  match k with
  | O => []
  | S k' => t :: backoff k' (2 * t)
  end.

End IconInvariants.

(** ** The progress of a transfer *)

Section TransferInvariants.
Import Syfft.

(** The two states describe the same transfer: status, counters, files,
    current file and file in transfer are the same. *)
Definition same_transfer (s s' : Session) : Prop :=
  m_status s' = m_status s /\ m_oldStatusStack s' = m_oldStatusStack s /\
  m_transferInfo s' = m_transferInfo s /\ m_files s' = m_files s /\
  m_currentFile s' = m_currentFile s /\
  m_fileInTransfer s' = m_fileInTransfer s.

End TransferInvariants.

(** ** The contents of a transfer *)

Section TransferListInvariants.

(** The descriptor built for a regular file met by [buildFileList]. *)
Definition offered (item : string * Z * FileInfo.QDateTime) : FileInfo.t :=
  FileInfo.make (fst (fst item)) (wrap64 (snd (fst item))) (snd item).

End TransferListInvariants.

Section WriterInvariants.
Import FileInTransfer.

(** The bytes of the chunks that a writer has accepted, in order: the buffers
    of the calls of [processNextDataChunk] that returned true. *)
Fixpoint accepted (ops : list Op) (f : t) : list byte :=
  match ops with
  | [] => []
  | o :: ops' =>
      let r := apply (H := Writer.impl) o f in
      (match o with
       | OpChunk buffer _ => if fst r then buffer else []
       | _ => []
       end) ++ accepted ops' (snd r)
  end.

(** The content found under the destination name: what the [QSaveFile] has
    moved there at its commit and, until then, what was there before the
    writer was created, [old] ([None] when there was no such file). *)
Definition destination (old : option (list byte)) (w : t) : option (list byte) :=
  match file_dest w with
  | Some d => Some d
  | None => old
  end.

(** The number of bytes that a reader has read from the file with success. *)
Fixpoint sent (ops : list Op) (f : t) : Z :=
  match ops with
  | [] => 0
  | o :: ops' =>
      let r := apply (H := Reader.impl) o f in
      (match o with
       | OpChunk _ rd => if fst r then rd else 0
       | _ => 0
       end) + sent ops' (snd r)
  end.

(** The sizes of the chunks read with success are at most [MAX_CHUNK_SIZE]. *)
Fixpoint chunks_bounded (ops : list Op) (f : t) : Prop :=
  match ops with
  | [] => True
  | o :: ops' =>
      let r := apply (H := Reader.impl) o f in
      (match o with
       | OpChunk _ rd => fst r = true -> 0 < rd <= MAX_CHUNK_SIZE
       | _ => True
       end) /\ chunks_bounded ops' (snd r)
  end.

End WriterInvariants.

(** ** The states of the registry *)

Section RegistryStates.
Import Users PeersList.

(** What holds of an instance the registry stores under the key [k]: it is
    valid, it carries the UUID [k], and it is confirmed with an age of at
    most [AgeMax] or unconfirmed. *)
Definition registered (k : string) (p : PeerUser) : Prop :=
  m_valid p = true /\
  (exists info, m_info p = Some info /\ m_uuid info = k) /\
  (0 <= m_age p <= AgeMax \/ m_age p = AgeUnconfirmed).

Definition well_kept (l : PeersList.t) : Prop :=
  forall k p, m_instances l !! k = Some p -> registered k p.

(** The discovery protocol hands over valid datagrams only. *)
Definition from_valid_datagram (e : PeersList.Event) : Prop :=
  match e with
  | Datagram _ d => d_valid d = true
  | AgingTimeout => True
  end.

End RegistryStates.

Section RegistryStatesInputs.
Import Users PeersList.
Local Open Scope string_scope.

(** The quit datagram of the peer [{p1}]. *)
Definition farewell : SyfdDatagram :=
  mkDatagram true true false "{p1}" "Ann" "Lee" 3232235777 49152 0 "".

End RegistryStatesInputs.

(** * Properties *)

(** ** The transactional writer and reader *)

Ltac fit_simpl :=
  cbn [FileInTransfer.set_error FileInTransfer.set_remainingBytes
       FileInTransfer.set_transferStarted FileInTransfer.set_committed
       FileInTransfer.set_rollbacked FileInTransfer.set_open
       FileInTransfer.set_tmp FileInTransfer.set_dest
       FileInTransfer.info_valid FileInTransfer.info_size
       FileInTransfer.m_error FileInTransfer.m_exists
       FileInTransfer.m_remainingBytes FileInTransfer.m_transferStarted
       FileInTransfer.m_committed FileInTransfer.m_rollbacked
       FileInTransfer.file_open FileInTransfer.file_tmp
       FileInTransfer.file_dest fst snd negb orb andb] in *.

Lemma zlen_app {A : Type} (l1 l2 : list A) : zlen (l1 ++ l2) = zlen l1 + zlen l2.
Proof. unfold zlen. rewrite length_app. lia. Qed.

Lemma zlen_nonneg {A : Type} (l : list A) : 0 <= zlen l.
Proof. unfold zlen. lia. Qed.

Lemma zlen_firstn_le {A : Type} (n : nat) (l : list A) : zlen (firstn n l) <= zlen l.
Proof. unfold zlen. rewrite length_firstn. lia. Qed.

Lemma firstn_zlen {A : Type} (l : list A) : firstn (Z.to_nat (zlen l)) l = l.
Proof. unfold zlen. rewrite Nat2Z.id. apply firstn_all. Qed.

Lemma writer_create_inv valid size ex mk_ op_ :
  0 <= size -> writer_inv (Writer.create valid size ex mk_ op_).
Proof.
  intros Hs. unfold Writer.create, FileInTransfer.init, writer_inv.
  destruct valid, mk_, op_; fit_simpl; unfold zlen; cbn [length];
    repeat split; intros; try discriminate; try lia; auto.
Qed.

Ltac winv :=
  unfold writer_inv, flags_inv; fit_simpl;
  intuition (try discriminate; try congruence; try lia; auto).

Lemma writer_rollback_inv f : writer_inv f -> writer_inv (snd (Writer.rollback f)).
Proof.
  unfold Writer.rollback.
  destruct f as [v sz e ex r st c rb o tmp d]; fit_simpl.
  destruct c; fit_simpl; winv.
Qed.

Lemma writer_chunk_inv buffer wr f :
  writer_inv f -> writer_inv (snd (Writer.processNextDataChunk buffer wr f)).
Proof.
  unfold Writer.processNextDataChunk.
  destruct f as [v sz e ex r st c rb o tmp d]; fit_simpl.
  destruct e; fit_simpl; [winv|].
  destruct o; fit_simpl; [|winv].
  destruct (Z.ltb_spec r (zlen buffer)) as [Hlt|Hge]; fit_simpl; [winv|].
  destruct (Z.eqb_spec wr (zlen buffer)) as [->|Hne]; fit_simpl.
  - rewrite firstn_zlen. unfold writer_inv; fit_simpl.
    rewrite zlen_app. winv.
  - unfold writer_inv; fit_simpl. rewrite zlen_app.
    pose proof (zlen_firstn_le (Z.to_nat wr) buffer).
    pose proof (zlen_nonneg (firstn (Z.to_nat wr) buffer)).
    winv.
Qed.

Lemma writer_commit_inv a b f :
  writer_inv f -> writer_inv (snd (Writer.commit a b f)).
Proof.
  unfold Writer.commit, Writer.rollback.
  destruct f as [v sz e ex r st c rb o tmp d]; fit_simpl.
  destruct c; fit_simpl; [winv|].
  destruct o; fit_simpl; [|winv].
  destruct e; fit_simpl; [winv|].
  destruct (Z.eqb_spec r 0) as [->|Hne]; fit_simpl; [|winv].
  destruct a; fit_simpl; winv.
Qed.

Lemma writer_apply_inv o f :
  writer_inv f -> writer_inv (snd (FileInTransfer.apply (H := Writer.impl) o f)).
Proof.
  destruct o; cbn [FileInTransfer.apply FileInTransfer.processNextDataChunk
                   FileInTransfer.commit FileInTransfer.rollback Writer.impl].
  - apply writer_chunk_inv.
  - apply writer_commit_inv.
  - apply writer_rollback_inv.
Qed.

Lemma run_cons (I : FileInTransfer.Impl) o ops f :
  FileInTransfer.run (o :: ops) f
  = FileInTransfer.run ops (snd (FileInTransfer.apply o f)).
Proof. reflexivity. Qed.

Lemma writer_run_inv ops f :
  writer_inv f -> writer_inv (FileInTransfer.run (H := Writer.impl) ops f).
Proof.
  revert f. induction ops as [|o ops IH]; intros f Hf; [exact Hf|].
  rewrite run_cons. apply IH. apply writer_apply_inv. exact Hf.
Qed.

Lemma writer_apply_size o f :
  FileInTransfer.info_size (snd (FileInTransfer.apply (H := Writer.impl) o f))
  = FileInTransfer.info_size f.
Proof.
  destruct f as [v sz e ex r st c rb op tmp d].
  destruct o as [buffer wr|a b|];
    cbn [FileInTransfer.apply FileInTransfer.processNextDataChunk
         FileInTransfer.commit FileInTransfer.rollback Writer.impl];
    unfold Writer.processNextDataChunk, Writer.commit, Writer.rollback; fit_simpl;
    repeat match goal with
           | |- context [if ?c then _ else _] => destruct c; fit_simpl
           end; reflexivity.
Qed.

Lemma writer_run_size ops f :
  FileInTransfer.info_size (FileInTransfer.run (H := Writer.impl) ops f)
  = FileInTransfer.info_size f.
Proof.
  revert f. induction ops as [|o ops IH]; intros f; [reflexivity|].
  rewrite run_cons, IH. apply writer_apply_size.
Qed.

Lemma writer_create_size valid size ex mk_ op_ :
  FileInTransfer.info_size (Writer.create valid size ex mk_ op_) = size.
Proof. unfold Writer.create. destruct valid, mk_, op_; reflexivity. Qed.

(** C9.  Whatever operations are applied to a freshly created writer for a
    descriptor of [size] bytes: a chunk longer than the bytes still expected is
    refused (the call returns false, leaves the temporary and the destination
    file as they were and sets the error flag); [commit] returns true only when
    no byte is expected any more; the temporary file never holds more than
    [size] bytes; and once the writer is committed the destination file holds
    exactly [size] bytes. *)
Theorem C9_writer_respects_declared_size :
  forall (valid : bool) (size : Z) (ex mkpathOk openOk : bool)
         (ops : list FileInTransfer.Op),
    0 <= size ->
    let w := FileInTransfer.run (H := Writer.impl) ops
               (Writer.create valid size ex mkpathOk openOk) in
    (forall buffer wr,
        FileInTransfer.m_remainingBytes w < zlen buffer ->
        let r := Writer.processNextDataChunk buffer wr w in
        fst r = false /\
        FileInTransfer.file_tmp (snd r) = FileInTransfer.file_tmp w /\
        FileInTransfer.file_dest (snd r) = FileInTransfer.file_dest w /\
        FileInTransfer.m_error (snd r) = true) /\
    (forall a b,
        fst (Writer.commit a b w) = true ->
        FileInTransfer.m_remainingBytes w = 0) /\
    zlen (FileInTransfer.file_tmp w) <= size /\
    (FileInTransfer.m_committed w = true ->
       exists data, FileInTransfer.file_dest w = Some data /\ zlen data = size).
Proof.
  intros valid size ex mkpathOk openOk ops Hs w.
  assert (Hinv : writer_inv w)
    by (apply writer_run_inv, writer_create_inv; exact Hs).
  assert (Hsz : FileInTransfer.info_size w = size)
    by (unfold w; rewrite writer_run_size; apply writer_create_size).
  destruct Hinv as (H0 & H1 & H2 & H3 & H4 & H5).
  repeat split.
  - unfold Writer.processNextDataChunk. fit_simpl.
    apply Z.ltb_lt in H. rewrite H, !orb_true_r. reflexivity.
  - unfold Writer.processNextDataChunk. fit_simpl.
    apply Z.ltb_lt in H. rewrite H, !orb_true_r. reflexivity.
  - unfold Writer.processNextDataChunk. fit_simpl.
    apply Z.ltb_lt in H. rewrite H, !orb_true_r. reflexivity.
  - unfold Writer.processNextDataChunk. fit_simpl.
    apply Z.ltb_lt in H. rewrite H, !orb_true_r. reflexivity.
  - intros a b. unfold Writer.commit. fit_simpl.
    destruct (FileInTransfer.m_committed w) eqn:Hc.
    + intros _. apply H4. reflexivity.
    + destruct (FileInTransfer.file_open w); fit_simpl; [|discriminate].
      destruct (FileInTransfer.m_error w); fit_simpl; [discriminate|].
      destruct (Z.eqb_spec (FileInTransfer.m_remainingBytes w) 0);
        fit_simpl; [auto|discriminate].
  - lia.
  - intros Hc. destruct (H4 Hc) as (_ & _ & Hd & Hl).
    exists (FileInTransfer.file_tmp w). split; [exact Hd|lia].
Qed.

(** A descriptor of 11 bytes received in two chunks and committed. *)
Lemma C9_writer_respects_declared_size_witness :
  0 <= 11 /\
  zlen (FileInTransfer.file_tmp
          (FileInTransfer.run (H := Writer.impl)
             [FileInTransfer.OpChunk (repeat x61 5) 5;
              FileInTransfer.OpChunk (repeat x62 6) 6;
              FileInTransfer.OpCommit true false]
             (Writer.create true 11 false true true))) <= 11.
Proof.
  split; [lia|].
  apply (C9_writer_respects_declared_size true 11 false true true
           [FileInTransfer.OpChunk (repeat x61 5) 5;
            FileInTransfer.OpChunk (repeat x62 6) 6;
            FileInTransfer.OpCommit true false]).
  lia.
Defined.

Lemma reader_apply_flags o f :
  flags_inv f -> flags_inv (snd (FileInTransfer.apply (H := Reader.impl) o f)).
Proof.
  destruct f as [v sz e ex r st c rb op tmp d].
  destruct o as [buffer rd|a b|];
    cbn [FileInTransfer.apply FileInTransfer.processNextDataChunk
         FileInTransfer.commit FileInTransfer.rollback Reader.impl];
    unfold Reader.processNextDataChunk, Reader.commit, Reader.rollback,
      flags_inv; fit_simpl;
    repeat match goal with
           | |- context [if ?c then _ else _] => destruct c eqn:?; fit_simpl
           end;
    intuition (subst; fit_simpl;
               repeat match goal with
                      | H : context [negb ?x] |- _ => destruct x; fit_simpl
                      end;
               try discriminate; try congruence).
Qed.

Lemma writer_apply_flags o f :
  flags_inv f -> flags_inv (snd (FileInTransfer.apply (H := Writer.impl) o f)).
Proof.
  destruct f as [v sz e ex r st c rb op tmp d].
  destruct o as [buffer rd|a b|];
    cbn [FileInTransfer.apply FileInTransfer.processNextDataChunk
         FileInTransfer.commit FileInTransfer.rollback Writer.impl];
    unfold Writer.processNextDataChunk, Writer.commit, Writer.rollback,
      flags_inv; fit_simpl;
    repeat match goal with
           | |- context [if ?c then _ else _] => destruct c eqn:?; fit_simpl
           end;
    intuition (subst; fit_simpl;
               repeat match goal with
                      | H : context [negb ?x] |- _ => destruct x; fit_simpl
                      end;
               try discriminate; try congruence).
Qed.

Section FlagDiscipline.
Import FileInTransfer.
Context (I : Impl).
Hypothesis apply_flags : forall o f, flags_inv f -> flags_inv (snd (apply o f)).

Lemma run_flags ops f : flags_inv f -> flags_inv (run ops f).
Proof.
  revert f. induction ops as [|o ops IH]; intros f Hf; [exact Hf|].
  change (flags_inv (run ops (snd (apply o f)))). apply IH, apply_flags, Hf.
Qed.

End FlagDiscipline.

(** C10.  For the reader and for the writer, after any sequence of
    [processNextDataChunk], [commit] and [rollback] calls on a freshly created
    instance: the committed and rolled-back flags are never both set; a
    [rollback] on a committed instance returns false and leaves the instance
    unchanged; a [commit] on a rolled-back instance returns false; and a
    [commit] that follows a successful one returns true and leaves the
    instance unchanged. *)
Theorem C10_commit_rollback_exclusive :
  forall (valid : bool) (size : Z) (ex o1 o2 : bool),
    flag_discipline Writer.impl (Writer.create valid size ex o1 o2) /\
    flag_discipline Reader.impl (Reader.create valid size ex o1 o2).
Proof.
  intros valid size ex o1 o2. split; intros ops f.
  - assert (Hf : flags_inv f).
    { apply run_flags; [apply writer_apply_flags|].
      unfold Writer.create, FileInTransfer.init, flags_inv.
      destruct valid, o1, o2; fit_simpl; discriminate. }
    clearbody f. destruct f as [v sz e ex' r st c rb op tmp d].
    unfold flags_inv in Hf; fit_simpl.
    cbn [FileInTransfer.commit FileInTransfer.rollback Writer.impl].
    unfold Writer.commit, Writer.rollback; fit_simpl.
    repeat split.
    + intros [-> ->]. destruct (Hf eq_refl). discriminate.
    + intros ->. reflexivity.
    + intros -> a b. destruct (Hf eq_refl) as [-> ->]. fit_simpl.
      destruct op; reflexivity.
    + intros a b f'.
      repeat match goal with
             | |- context [if ?c then _ else _] => destruct c eqn:?; fit_simpl
             end; intros [= <-]; intros; fit_simpl; try discriminate; reflexivity.
  - assert (Hf : flags_inv f).
    { apply run_flags; [apply reader_apply_flags|].
      unfold Reader.create, FileInTransfer.init, flags_inv.
      destruct valid, o1, o2; fit_simpl; discriminate. }
    clearbody f. destruct f as [v sz e ex' r st c rb op tmp d].
    unfold flags_inv in Hf; fit_simpl.
    cbn [FileInTransfer.commit FileInTransfer.rollback Reader.impl].
    unfold Reader.commit, Reader.rollback; fit_simpl.
    repeat split.
    + intros [-> ->]. destruct (Hf eq_refl). discriminate.
    + intros ->. reflexivity.
    + intros -> a b. destruct (Hf eq_refl) as [-> ->]. fit_simpl. reflexivity.
    + intros a b f'.
      repeat match goal with
             | |- context [if ?c then _ else _] => destruct c eqn:?; fit_simpl
             end; intros [= <-]; intros; fit_simpl; try discriminate; reflexivity.
Qed.

(** ** The stream operators *)

Lemma Z_of_byte_range b : 0 <= QDataStream.Z_of_byte b < 256.
Proof.
  unfold QDataStream.Z_of_byte. pose proof (Byte.to_N_bounded b). lia.
Qed.

Lemma get_le_range n bs x rest :
  QDataStream.get_le n bs = Some (x, rest) -> 0 <= x < 2 ^ (8 * Z.of_nat n).
Proof.
  revert bs x rest. induction n as [|n IH]; intros bs x rest.
  - cbn. intros [= <- <-]. cbn. lia.
  - cbn [QDataStream.get_le]. destruct bs as [|b bs]; [discriminate|].
    destruct (QDataStream.get_le n bs) as [[y r]|] eqn:E; [|discriminate].
    intros [= <- <-]. specialize (IH _ _ _ E).
    pose proof (Z_of_byte_range b).
    replace (8 * Z.of_nat (S n)) with (8 + 8 * Z.of_nat n) by lia.
    rewrite Z.pow_add_r by lia. change (2 ^ 8) with 256. lia.
Qed.

Lemma decode_size_range payload tgt file rest :
  FileInfo.decode payload tgt = (file, Some rest) ->
  0 <= FileInfo.m_size file < 2 ^ 64.
Proof.
  unfold FileInfo.decode, FileInfo.get_fields, QDataStream.bind.
  destruct (QDataStream.get_bytearray payload) as [[nm r1]|]; [|discriminate].
  destruct (QDataStream.get_le 8 r1) as [[sz r2]|] eqn:E; [|discriminate].
  destruct (FileInfo.get_datetime r2) as [[lm r3]|]; [|discriminate].
  cbn [QDataStream.ret].
  apply get_le_range in E. change (8 * Z.of_nat 8) with 64 in E.
  destruct (FileInfo.looks_strange _); intros [= <- <-]; cbn; exact E.
Qed.

(** ** The receiving session *)

Arguments wrap8 : simpl never.
Arguments wrap32 : simpl never.
Arguments wrap64 : simpl never.
Arguments zlen : simpl never.
Arguments Z.pow : simpl never.
Arguments Z.add : simpl never.
Arguments Z.sub : simpl never.
Arguments Z.mul : simpl never.
Arguments Z.ltb : simpl never.
Arguments Z.leb : simpl never.
Arguments Z.eqb : simpl never.
Arguments Z.gtb : simpl never.
Arguments Z.geb : simpl never.
Arguments Z.to_nat : simpl never.
Arguments Z.of_nat : simpl never.
Arguments Syfft.setCurrentFileStatus : simpl never.
Arguments Syfft.keepBoth : simpl never.
Arguments Syfft.newWriter : simpl never.
Arguments FileInfo.decode : simpl never.
Arguments Writer.processNextDataChunk : simpl never.
Arguments Writer.commit : simpl never.
Arguments Writer.rollback : simpl never.

Ltac sess_simpl :=
  unfold tf, sf, tb, totalBytes, sizes, credit, eff, Syfft.totalFiles,
    Syfft.setStatus, Syfft.update_info, Syfft.currentFileInfo,
    Syfft.remainingFiles, Syfft.remainingBytes,
    Syfft.set_m_status, Syfft.set_m_oldStatusStack, Syfft.set_m_peerUuidKnown,
    Syfft.set_m_transferInfo, Syfft.set_m_files, Syfft.set_m_currentFile,
    Syfft.set_m_fileInTransfer, Syfft.set_m_shareMsgNull,
    Syfft.set_m_defaultDFAction, Syfft.set_m_preventUserTogglePause,
    Syfft.set_pendingRequests, Syfft.set_socketUnconnected,
    Syfft.set_totalFiles, Syfft.set_transferredFiles, Syfft.set_skippedFiles,
    Syfft.set_totalBytes, Syfft.set_transferredBytes, Syfft.set_skippedBytes
    in *;
  cbn in *.

Lemma wrap32_small x : 0 <= x < 2 ^ 32 -> wrap32 x = x.
Proof. intros H. unfold wrap32. apply Z.mod_small. exact H. Qed.

Lemma wrap64_small x : 0 <= x < 2 ^ 64 -> wrap64 x = x.
Proof. intros H. unfold wrap64. apply Z.mod_small. exact H. Qed.

Lemma wrap32_range x : 0 <= wrap32 x < 2 ^ 32.
Proof. unfold wrap32. apply Z.mod_pos_bound. lia. Qed.

Lemma wrap64_range x : 0 <= wrap64 x < 2 ^ 64.
Proof. unfold wrap64. apply Z.mod_pos_bound. lia. Qed.

Lemma Inv_create : Inv Syfft.create.
Proof.
  split.
  - unfold common_inv, Syfft.create, Syfft.INT_MAX; sess_simpl.
    repeat split; try lia. constructor.
  - unfold Syfft.create; sess_simpl. cbn [first_np is_pause data_inv].
    unfold pre_transfer, NO_FILE, zlen; sess_simpl. cbn [length].
    repeat split; lia.
  - intros H. discriminate.
  - intros H. discriminate.
Qed.

Lemma sumZ_app l1 l2 : sumZ (l1 ++ l2) = sumZ l1 + sumZ l2.
Proof.
  induction l1 as [|x l1 IH]; cbn [sumZ app]; [reflexivity|]. rewrite IH. lia.
Qed.

Lemma sumZ_nonneg l : Forall (fun x => 0 <= x < 2 ^ 64) l -> 0 <= sumZ l.
Proof. induction 1; cbn [sumZ]; lia. Qed.

Lemma sumZ_firstn_le n l :
  Forall (fun x => 0 <= x < 2 ^ 64) l -> sumZ (firstn n l) <= sumZ l.
Proof.
  intros H. rewrite <- (firstn_skipn n l) at 2. rewrite sumZ_app.
  assert (0 <= sumZ (skipn n l)); [|lia].
  apply sumZ_nonneg. apply Forall_drop. exact H.
Qed.

Lemma sumZ_firstn_S n l x :
  l !! n = Some x -> sumZ (firstn (S n) l) = sumZ (firstn n l) + x.
Proof.
  revert n. induction l as [|y l IH]; intros [|n] H; try discriminate.
  - cbn in H. injection H as ->. change (x + 0 = 0 + x). lia.
  - cbn in H. change (y + sumZ (firstn (S n) l) = y + sumZ (firstn n l) + x).
    rewrite (IH n H). lia.
Qed.

Lemma sizes_lookup (files : list FileInfo.t) i f :
  files !! i = Some f -> map FileInfo.m_size files !! i = Some (FileInfo.m_size f).
Proof. intros H. rewrite list_lookup_fmap, H. reflexivity. Qed.

Lemma sizes_insert (files : list FileInfo.t) i f g :
  files !! i = Some f -> FileInfo.m_size g = FileInfo.m_size f ->
  map FileInfo.m_size (<[i := g]> files) = map FileInfo.m_size files.
Proof.
  intros H Hs. rewrite list_fmap_insert, Hs.
  apply list_insert_id. apply sizes_lookup, H.
Qed.

Lemma zlen_insert {A : Type} (l : list A) i x : zlen (<[i := x]> l) = zlen l.
Proof. unfold zlen. rewrite length_insert. reflexivity. Qed.

Lemma lookup_zlen {A : Type} (l : list A) (i : Z) :
  0 <= i < zlen l -> is_Some (l !! Z.to_nat i).
Proof. unfold zlen. intros H. apply lookup_lt_is_Some. lia. Qed.

Lemma lookup_zlen_lt {A : Type} (l : list A) (i : nat) x :
  l !! i = Some x -> Z.of_nat i < zlen l.
Proof. unfold zlen. intros H. apply lookup_lt_Some in H. lia. Qed.

Lemma first_np_np st l : is_pause st = false -> first_np (st :: l) = st.
Proof. intros H. cbn. rewrite H. reflexivity. Qed.

Lemma first_np_pause st l : is_pause st = true -> first_np (st :: l) = first_np l.
Proof. intros H. cbn. rewrite H. reflexivity. Qed.

Arguments sumZ : simpl never.

Section Frames.
Import Syfft.

Lemma common_inv_frame s s' :
  m_transferInfo s = m_transferInfo s' -> m_files s = m_files s' ->
  common_inv s -> common_inv s'.
Proof.
  destruct s, s'; unfold common_inv; sess_simpl. intros -> ->. auto.
Qed.

Lemma data_inv_frame ph s s' :
  m_transferInfo s = m_transferInfo s' -> m_files s = m_files s' ->
  m_currentFile s = m_currentFile s' ->
  m_fileInTransfer s = m_fileInTransfer s' ->
  data_inv ph s -> data_inv ph s'.
Proof.
  destruct s, s'; sess_simpl. intros -> -> -> ->.
  destruct ph; cbn [data_inv]; unfold pre_transfer, in_transfer, finished,
    aborted, attempted_terminal; sess_simpl; auto.
Qed.

End Frames.

Section SessionSteps.
Import Syfft.

Lemma terminal_failed : terminal FileInfo.TransferFailed.
Proof. right. right. reflexivity. Qed.

Lemma terminal_rejected : terminal FileInfo.TransferRejected.
Proof. right. left. reflexivity. Qed.

Lemma terminal_transferred : terminal FileInfo.Transferred.
Proof. left. reflexivity. Qed.

Lemma setCurrentFileStatus_Some st s s' :
  setCurrentFileStatus st s = Some s' ->
  exists f, m_files s !! Z.to_nat (m_currentFile s) = Some f /\
    s' = set_m_files
           (<[Z.to_nat (m_currentFile s) := FileInfo.setStatus st f]> (m_files s)) s.
Proof.
  unfold setCurrentFileStatus, currentFileInfo.
  destruct (m_files s !! Z.to_nat (m_currentFile s)) as [f|]; [|discriminate].
  cbn. intros [= <-]. exists f. auto.
Qed.

Lemma in_transfer_bytes s :
  common_inv s -> in_transfer s ->
  sumZ (sizes s) < 2 ^ 64 -> tb s <= totalBytes s.
Proof.
  intros (HnF & HnB & HtB & Htf & Hsf & Hsz)
         (Hcur & Hlt & Hlen & Hpre & Hw & HnB' & Hb) Hsum.
  specialize (Hb Hsum).
  assert (Hc0 : 0 <= m_currentFile s) by lia.
  destruct (lookup_zlen (m_files s) (m_currentFile s)) as [f Hf]; [lia|].
  pose proof (sizes_lookup _ _ _ Hf) as Hsf'.
  pose proof (sumZ_firstn_S _ _ _ Hsf') as HS.
  pose proof (sumZ_firstn_le (S (Z.to_nat (m_currentFile s))) _ Hsz) as Hle.
  pose proof (sumZ_nonneg _ Hsz) as H0.
  rewrite HnB', wrap64_small by (fold (sizes s); lia).
  fold (sizes s) in *.
  assert (Hcr : credit s <= FileInfo.m_size f).
  { unfold credit. destruct (m_fileInTransfer s) as [w|] eqn:Hfit.
    - destruct (Hw w eq_refl) as (f' & Hf' & Hsz' & Hrem).
      unfold currentFileInfo in Hf'. rewrite Hf in Hf'. injection Hf' as <-. lia.
    - rewrite Forall_forall in Hsz.
      assert (Hin : FileInfo.m_size f ∈ sizes s)
        by (eapply list_elem_of_lookup_2; exact Hsf').
      specialize (Hsz _ Hin). lia. }
  lia.
Qed.

Lemma data_inv_summary ph s :
  common_inv s -> is_pause ph = false -> data_inv ph s -> summary s.
Proof.
  intros Hc Hp Hd.
  pose proof Hc as (HnF & HnB & HtB & Htf & Hsf & Hsz).
  unfold INT_MAX in HnF.
  assert (Hpre : pre_transfer s -> summary s).
  { intros (H1 & H2 & H3 & H4 & H5 & H6). unfold summary, attempted_terminal.
    unfold NO_FILE in *.
    split; [lia|]. split; [lia|]. split; [intros; contradiction|].
    split; [intros; contradiction|]. lia. }
  assert (Hfin : finished s -> summary s).
  { intros (H1 & H2 & H3 & H4 & H5). unfold summary. unfold NO_FILE in *.
    split; [lia|]. split; [lia|].
    split; [intros i f Hi Hn Hlt; apply (H4 i f); auto; lia|].
    split; auto. }
  destruct ph; cbn [data_inv] in Hd; try discriminate; auto.
  - pose proof (in_transfer_bytes s Hc Hd) as Hb.
    destruct Hd as (Hcur & Hlt & Hlen & Hprefix & Hw & HnB' & _).
    unfold summary.
    split; [lia|]. split; [lia|].
    split; [intros i f Hi Hn Hl; apply (Hprefix i f); auto|].
    split; [intros; contradiction|]. exact Hb.
  - destruct Hd as (H1 & H2 & H3 & H4 & H5). unfold summary.
    split; [lia|]. split; [exact H3|].
    split; [intros i f Hi Hn Hlt; apply (H4 i f); auto; lia|].
    split; auto.
Qed.

Lemma data_inv_np ph s : data_inv ph s -> is_pause ph = false.
Proof. destruct ph; cbn; auto; contradiction. Qed.

Lemma Inv_summary s : Inv s -> summary s.
Proof.
  intros [Hc Hd _ _]. eapply data_inv_summary; eauto. eapply data_inv_np; eauto.
Qed.

Lemma setStatus_lookup (files : list FileInfo.t) k st f i g :
  files !! k = Some f ->
  <[k := FileInfo.setStatus st f]> files !! i = Some g ->
  (i = k /\ g = FileInfo.setStatus st f) \/ (i <> k /\ files !! i = Some g).
Proof.
  intros Hk Hi. destruct (decide (i = k)) as [->|Hne].
  - left. split; [reflexivity|].
    rewrite list_lookup_insert_eq in Hi by (eapply lookup_lt_Some; eauto).
    congruence.
  - right. split; [exact Hne|].
    rewrite list_lookup_insert_ne in Hi by congruence. exact Hi.
Qed.

Lemma sizes_setStatus (files : list FileInfo.t) k st f :
  files !! k = Some f ->
  map FileInfo.m_size (<[k := FileInfo.setStatus st f]> files)
  = map FileInfo.m_size files.
Proof. intros H. eapply sizes_insert; eauto. Qed.

(** [abortConnection] is defined on every state that satisfies the
    invariant, and leaves it either untouched or aborted. *)
Lemma abortConnection_Inv s :
  Inv s ->
  exists s', abortConnection s = Some s' /\ Inv s' /\
    (s' = s \/ m_status s' = Aborted).
Proof.
  intros HI. pose proof (Inv_summary s HI) as (S1 & S2 & S3 & S4 & S5).
  destruct HI as [Hc Hd Hw Hr].
  pose proof Hc as (HnF & HnB & HtB & Htf & Hsf & Hsz).
  unfold abortConnection.
  destruct (bool_decide (m_status s = New) || bool_decide (m_status s = Closed)
            || bool_decide (m_status s = Aborted)) eqn:Hst.
  { exists s. split; [reflexivity|]. split; [constructor; auto|]. left; reflexivity. }
  destruct s as [st stk pk [nF tF sF nB tB sB] files cur fit msg dfa prev pend sock].
  unfold summary, attempted_terminal, common_inv, INT_MAX, NO_FILE in *.
  sess_simpl.
  assert (Hsk : wrap32 (sF + wrap32 (nF - tF - sF)) = nF - tF).
  { rewrite (wrap32_small (nF - tF - sF)) by lia. rewrite wrap32_small by lia. lia. }
  rewrite Hsk.
  destruct (Z.ltb_spec cur nF) as [Hlt|Hge].
  - destruct (S2 Hlt) as (Hc0 & Hlen).
    destruct (lookup_zlen files cur) as [f Hf]; [lia|].
    unfold setCurrentFileStatus. sess_simpl. rewrite Hf. cbn.
    eexists. split; [reflexivity|]. split; [|right; reflexivity].
    split; sess_simpl.
    + unfold common_inv; sess_simpl. rewrite (sizes_setStatus _ _ _ _ Hf).
      unfold INT_MAX. repeat split; auto; lia.
    + unfold aborted, attempted_terminal; sess_simpl.
      rewrite (sizes_setStatus _ _ _ _ Hf), zlen_insert.
      split; [lia|]. split; [reflexivity|]. split; [auto|].
      split; [|exact S5].
      intros i g Hi Hn Hle.
      destruct (setStatus_lookup _ _ _ _ _ _ Hf Hi) as [[-> ->]|[Hne Hi']].
      * apply terminal_failed.
      * apply (S3 i g Hi' Hn). lia.
    + intros _. left. reflexivity.
    + intros _ Hab. contradiction.
  - eexists. split; [reflexivity|]. split; [|right; reflexivity].
    split; sess_simpl.
    + unfold common_inv, INT_MAX; sess_simpl. repeat split; auto; lia.
    + unfold aborted, attempted_terminal; sess_simpl.
      split; [lia|]. split; [reflexivity|]. split; [lia|].
      split; [|exact S5]. apply S4. lia.
    + intros _. left. reflexivity.
    + intros _ Hab. contradiction.
Qed.

Lemma togglePauseMode_Aborted u s :
  m_status s = Aborted -> togglePauseMode u s = Some s.
Proof.
  intros H. unfold togglePauseMode. rewrite H. reflexivity.
Qed.

(** [togglePauseMode] only touches the status and the stack, and the status
    the session will return to stays the same. *)
Lemma togglePauseMode_Inv u s :
  Inv s ->
  exists st stk,
    togglePauseMode u s = Some (set_m_status st (set_m_oldStatusStack stk s)) /\
    first_np (st :: stk) = eff s /\
    Inv (set_m_status st (set_m_oldStatusStack stk s)).
Proof.
  intros HI.
  assert (Hsame : exists st stk,
             Some s = Some (set_m_status st (set_m_oldStatusStack stk s)) /\
             first_np (st :: stk) = eff s /\
             Inv (set_m_status st (set_m_oldStatusStack stk s))).
  { exists (m_status s), (m_oldStatusStack s). destruct s; sess_simpl. auto. }
  destruct HI as [Hc Hd Hw Hr].
  unfold togglePauseMode.
  destruct (bool_decide (m_status s = New) || bool_decide (m_status s = Aborted)
            || bool_decide (m_status s = Closing)
            || bool_decide (m_status s = Closed)) eqn:Hearly; [exact Hsame|].
  destruct (u && m_preventUserTogglePause s) eqn:Hprev; [exact Hsame|].
  clear Hsame.
  rewrite !orb_false_iff in Hearly. destruct Hearly as [[[E1 E2] E3] E4].
  apply bool_decide_eq_false in E1, E2, E3, E4.
  set (P := if u then PausedByUser else PausedByPeer).
  assert (HP : is_pause P = true) by (destruct u; reflexivity).
  destruct s as [st stk pk ti files cur fit msg dfa prev pend sock].
  unfold waiting_inv, request_inv in *. sess_simpl.
  destruct (bool_decide_reflect (st = P)) as [Hst|Hst].
  - subst st. rewrite HP in Hd, Hr.
    destruct stk as [|old rest]; [destruct Hd|].
    exists old, rest. split; [reflexivity|].
    cbn [first_np]. rewrite HP. split; [reflexivity|].
    split; unfold waiting_inv, request_inv; sess_simpl; auto.
    + intros Hp. destruct (Hw Hp) as [Ha|[Hu|[Hpp Hh]]].
      * contradiction.
      * destruct u; [|discriminate]. rewrite Hp in Hprev. discriminate.
      * cbn in Hh. injection Hh as ->. right. left. reflexivity.
    + intros Hp Hab. destruct u; [rewrite Hp in Hprev; discriminate|].
      apply (Hr Hp E2).
  - exists P, (st :: stk). split; [reflexivity|].
    cbn [first_np]. rewrite HP. split; [reflexivity|].
    split; unfold waiting_inv, request_inv; sess_simpl; auto.
    + rewrite HP. exact Hd.
    + intros Hp. destruct u; [rewrite Hp in Hprev; discriminate|].
      destruct (Hw Hp) as [Ha|[Hu|[Hpp Hh]]].
      * contradiction.
      * subst st. right. right. split; reflexivity.
      * subst st. contradiction.
    + intros Hp Hab. rewrite HP.
      destruct u; [rewrite Hp in Hprev; discriminate|].
      apply Hr; auto.
Qed.

Lemma closeConnection_Inv s :
  common_inv s -> finished s -> m_preventUserTogglePause s = false ->
  m_status s <> New -> m_status s <> Closing -> m_status s <> Closed ->
  m_status s <> Aborted ->
  Inv (closeConnection s).
Proof.
  intros Hc Hf Hp N1 N2 N3 N4. unfold closeConnection.
  rewrite !bool_decide_eq_false_2 by assumption. cbn [orb].
  destruct s as [st stk pk ti files cur fit msg dfa prev pend sock].
  sess_simpl. subst prev. unfold onDisconnected.
  destruct sock; sess_simpl.
  - split; unfold waiting_inv, request_inv; sess_simpl; auto; discriminate.
  - split; unfold waiting_inv, request_inv; sess_simpl; auto; discriminate.
Qed.

Lemma moveToNextFile_Inv s :
  common_inv s -> advance_ready s -> m_preventUserTogglePause s = false ->
  eff s = InTransfer ->
  exists b s', moveToNextFile s = Some (b, s') /\ Inv s'.
Proof.
  intros Hc (Hfit & Hlen & Hnext & Hcnt & Hterm & HnB' & Hb) Hp He.
  pose proof Hc as (HnF & HnB & HtB & Htf & Hsf & Hsz).
  unfold moveToNextFile.
  destruct s as [st stk pk [nF tF sF nB tB sB] files cur fit msg dfa prev pend sock].
  sess_simpl. subst prev fit.
  set (next := wrap32 (cur + 1)) in *.
  destruct (Z.eqb_spec next nF) as [Heq|Hne].
  - eexists _, _. split; [reflexivity|].
    apply closeConnection_Inv; sess_simpl; auto; try discriminate.
    unfold finished, attempted_terminal; sess_simpl.
    split; [lia|]. split; [reflexivity|]. split; [right; lia|].
    split.
    + intros i f Hi _ _. apply (Hterm i f Hi).
      apply lookup_zlen_lt in Hi. lia.
    + intros Hs. specialize (Hb Hs).
      pose proof (sumZ_firstn_le (Z.to_nat next) _ Hsz).
      rewrite wrap64_small in HnB' by (pose proof (sumZ_nonneg _ Hsz); lia).
      lia.
  - destruct (lookup_zlen files next) as [f Hf]; [lia|].
    rewrite Hf. cbn. eexists _, _. split; [reflexivity|].
    split; unfold waiting_inv, request_inv; sess_simpl; try discriminate; auto.
    rewrite He. cbn [data_inv]. unfold in_transfer; sess_simpl.
    split; [lia|]. split; [lia|]. split; [lia|].
    split; [exact Hterm|]. split; [intros w Hw; discriminate|].
    split; [exact HnB'|]. intros Hs. specialize (Hb Hs). lia.
Qed.

Lemma in_transfer_current s :
  common_inv s -> in_transfer s ->
  exists f, m_files s !! Z.to_nat (m_currentFile s) = Some f /\
    0 <= m_currentFile s < totalFiles s /\ 0 <= FileInfo.m_size f < 2 ^ 64.
Proof.
  intros (HnF & HnB & HtB & Htf & Hsf & Hsz) (Hcur & Hlt & Hlen & _).
  destruct (lookup_zlen (m_files s) (m_currentFile s)) as [f Hf]; [lia|].
  exists f. split; [exact Hf|]. split; [lia|].
  rewrite Forall_forall in Hsz. apply Hsz.
  eapply list_elem_of_lookup_2. apply sizes_lookup. exact Hf.
Qed.

Lemma credit_le s f :
  common_inv s -> in_transfer s ->
  m_files s !! Z.to_nat (m_currentFile s) = Some f ->
  0 <= credit s <= FileInfo.m_size f.
Proof.
  intros Hc Hi Hf.
  destruct (in_transfer_current s Hc Hi) as (f' & Hf' & _ & Hsz).
  rewrite Hf in Hf'. injection Hf' as <-.
  destruct Hi as (_ & _ & _ & _ & Hw & _).
  unfold credit. destruct (m_fileInTransfer s) as [w|]; [|lia].
  destruct (Hw w eq_refl) as (g & Hg & Hs & Hr).
  unfold currentFileInfo in Hg. rewrite Hf in Hg. injection Hg as <-. lia.
Qed.

(** The current file reaches a final status [st]: its writer is gone and
    one of the two file counters has grown by one. *)
Lemma finish_file s s1 f st :
  common_inv s -> in_transfer s ->
  m_files s !! Z.to_nat (m_currentFile s) = Some f -> terminal st ->
  m_files s1
  = <[Z.to_nat (m_currentFile s) := FileInfo.setStatus st f]> (m_files s) ->
  m_currentFile s1 = m_currentFile s -> m_fileInTransfer s1 = None ->
  totalFiles s1 = totalFiles s -> totalBytes s1 = totalBytes s ->
  tb s1 = tb s -> tf s1 + sf s1 = tf s + sf s + 1 ->
  0 <= tf s1 -> 0 <= sf s1 ->
  common_inv s1 /\ advance_ready s1.
Proof.
  intros Hc Hi Hf Ht Hfiles Hcur Hfit HnF1 HnB1 Htb1 Hcnt Htf1 Hsf1.
  pose proof (credit_le s f Hc Hi Hf) as Hcr.
  destruct (in_transfer_current s Hc Hi) as (f' & Hf' & Hrange & Hfsz).
  rewrite Hf in Hf'. injection Hf' as <-.
  pose proof Hc as (HnF & HnB & HtB & _ & _ & Hsz).
  destruct Hi as (Hc0 & Hlt & Hlen & Hpre & Hw & HnB' & Hb).
  unfold INT_MAX in HnF.
  assert (Hsizes : sizes s1 = sizes s).
  { unfold sizes. rewrite Hfiles. apply sizes_setStatus. exact Hf. }
  assert (Hnext : wrap32 (m_currentFile s1 + 1) = m_currentFile s + 1).
  { rewrite Hcur. apply wrap32_small. lia. }
  split.
  - unfold common_inv. rewrite Hsizes, HnF1, HnB1, Htb1.
    unfold INT_MAX. repeat split; auto; lia.
  - unfold advance_ready. rewrite Hnext, Hsizes, HnF1, HnB1, Htb1, Hfiles.
    rewrite zlen_insert.
    split; [exact Hfit|]. split; [exact Hlen|]. split; [lia|].
    split; [lia|]. split; [|split; [exact HnB'|]].
    + intros i g Hg Hil.
      destruct (setStatus_lookup _ _ _ _ _ _ Hf Hg) as [[-> ->]|[Hne Hg']].
      * exact Ht.
      * apply (Hpre i g Hg'). lia.
    + intros Hs. specialize (Hb Hs).
      replace (Z.to_nat (m_currentFile s + 1))
        with (S (Z.to_nat (m_currentFile s))) by lia.
      pose proof (sumZ_firstn_S _ _ _ (sizes_lookup _ _ _ Hf)) as HS.
      fold (sizes s) in HS. rewrite HS. lia.
Qed.

Lemma finish_move s s1 f st :
  common_inv s -> in_transfer s ->
  m_files s !! Z.to_nat (m_currentFile s) = Some f -> terminal st ->
  m_files s1
  = <[Z.to_nat (m_currentFile s) := FileInfo.setStatus st f]> (m_files s) ->
  m_currentFile s1 = m_currentFile s -> m_fileInTransfer s1 = None ->
  totalFiles s1 = totalFiles s -> totalBytes s1 = totalBytes s ->
  tb s1 = tb s -> tf s1 + sf s1 = tf s + sf s + 1 ->
  0 <= tf s1 -> 0 <= sf s1 ->
  m_preventUserTogglePause s1 = false -> eff s1 = InTransfer ->
  exists b s', moveToNextFile s1 = Some (b, s') /\ Inv s'.
Proof.
  intros. edestruct (finish_file s s1 f st) as [Hc1 Ha1]; eauto.
  apply moveToNextFile_Inv; auto.
Qed.

Ltac use_finish_move f st :=
  match goal with
  | Hc : common_inv ?S |- context [Syfft.moveToNextFile ?S1] =>
      let b := fresh "b" in
      let s' := fresh "s'" in
      let Hm := fresh "Hm" in
      let HI := fresh "HI" in
      destruct (finish_move S S1 f st) as (b & s' & Hm & HI);
      [ .. | rewrite Hm; cbn; eexists; split; [reflexivity | exact HI] ]
  end.

Lemma counters_room s :
  common_inv s -> in_transfer s ->
  wrap32 (sf s + 1) = sf s + 1 /\ wrap32 (tf s + 1) = tf s + 1.
Proof.
  intros (HnF & _ & _ & Htf & Hsf & _) (Hcur & Hlt & _).
  unfold INT_MAX in HnF. split; apply wrap32_small; lia.
Qed.

Lemma rejectFileTransfer_Inv s :
  common_inv s -> in_transfer s -> eff s = InTransfer ->
  m_preventUserTogglePause s = false -> is_Some (m_fileInTransfer s) ->
  exists s', rejectFileTransfer s = Some s' /\ Inv s'.
Proof.
  intros Hc Hi He Hp [w Hw].
  destruct (in_transfer_current s Hc Hi) as (f & Hf & Hrange & Hfsz).
  destruct (counters_room s Hc Hi) as [Hsf1 Htf1].
  pose proof Hc as (_ & _ & _ & Htf & Hsf & _).
  unfold rejectFileTransfer, setCurrentFileStatus.
  destruct s as [st stk pk [nF tF sF nB tB sB] files cur fit msg dfa prev pend sock].
  sess_simpl. subst fit prev. cbn. rewrite Hf. cbn.
  rewrite list_lookup_insert_eq by (eapply lookup_lt_Some; eauto). cbn.
  rewrite Hsf1.
  use_finish_move f FileInfo.TransferRejected; sess_simpl;
    auto using terminal_rejected; try lia.
Qed.

Lemma Inv_released s :
  common_inv s -> data_inv (eff s) s -> m_preventUserTogglePause s = false ->
  Inv s.
Proof.
  intros Hc Hd Hp. split; auto.
  - intros H. congruence.
  - intros H. congruence.
Qed.

(** The current entry of the list is replaced by [g], of the same size, and
    the writer by a fresh one for [g]. *)
Lemma replace_current s f g w :
  common_inv s -> in_transfer s ->
  m_files s !! Z.to_nat (m_currentFile s) = Some f ->
  credit s = 0 ->
  FileInfo.m_size g = FileInfo.m_size f ->
  FileInTransfer.info_size w = FileInfo.m_size g ->
  FileInTransfer.m_remainingBytes w = FileInfo.m_size g ->
  let s' := set_m_fileInTransfer (Some w)
              (set_m_files (<[Z.to_nat (m_currentFile s) := g]> (m_files s)) s) in
  common_inv s' /\ in_transfer s'.
Proof.
  intros Hc Hi Hf Hcr Hg Hw1 Hw2 s'.
  destruct (in_transfer_current s Hc Hi) as (f' & Hf' & Hrange & Hfsz).
  rewrite Hf in Hf'. injection Hf' as <-.
  pose proof Hc as (HnF & HnB & HtB & Htf & Hsf & Hsz).
  destruct Hi as (Hc0 & Hlt & Hlen & Hpre & Hw & HnB' & Hb).
  assert (Hsizes : sizes s' = sizes s).
  { unfold s'. destruct s. sess_simpl. eapply sizes_insert; eauto. }
  assert (Hlk : m_files s' !! Z.to_nat (m_currentFile s') = Some g).
  { unfold s'. destruct s. sess_simpl.
    apply list_lookup_insert_eq. eapply lookup_lt_Some; eauto. }
  split.
  - unfold common_inv. rewrite Hsizes. unfold s'. destruct s. sess_simpl.
    repeat split; auto; lia.
  - unfold in_transfer. rewrite Hsizes.
    split; [unfold s'; destruct s; sess_simpl; lia|].
    split; [unfold s'; destruct s; sess_simpl; lia|].
    split; [unfold s'; destruct s; sess_simpl; rewrite zlen_insert; lia|].
    split.
    { intros i h Hh Hil. apply (Hpre i h); [|unfold s' in Hil; destruct s; exact Hil].
      unfold s' in Hh, Hil. destruct s. sess_simpl.
      rewrite list_lookup_insert_ne in Hh by lia. exact Hh. }
    split.
    { intros w0 Hw0. exists g. unfold currentFileInfo. split; [exact Hlk|].
      unfold s' in Hw0. destruct s. sess_simpl. injection Hw0 as <-. lia. }
    split; [unfold s'; destruct s; sess_simpl; exact HnB'|].
    intros Hs. specialize (Hb Hs).
    unfold s'. destruct s. sess_simpl. lia.
Qed.

Lemma acceptFileTransfer_Inv s :
  common_inv s -> in_transfer s -> eff s = InTransfer ->
  m_preventUserTogglePause s = false -> is_Some (m_fileInTransfer s) ->
  exists s', acceptFileTransfer s = Some s' /\ Inv s'.
Proof.
  intros Hc Hi He Hp [w Hw].
  destruct (in_transfer_current s Hc Hi) as (f & Hf & Hrange & Hfsz).
  pose proof Hc as (HnF & HnB & HtB & Htf & Hsf & Hsz).
  pose proof Hi as (Hc0 & Hlt & Hlen & Hpre & Hwr & HnB' & Hb).
  unfold acceptFileTransfer, setCurrentFileStatus, currentFileInfo.
  rewrite Hw, Hf. cbn. eexists. split; [reflexivity|].
  assert (Hsizes : map FileInfo.m_size
            (<[Z.to_nat (m_currentFile s) :=
                 FileInfo.setStatus FileInfo.InTransfer f]> (m_files s))
          = sizes s) by (eapply sizes_setStatus; eauto).
  destruct s as [st stk pk [nF tF sF nB tB sB] files cur fit msg dfa prev pend sock].
  sess_simpl. subst fit prev.
  apply Inv_released; sess_simpl; auto.
  - unfold common_inv; sess_simpl. rewrite Hsizes. repeat split; auto; lia.
  - rewrite He. cbn [data_inv]. unfold in_transfer; sess_simpl.
    rewrite Hsizes, zlen_insert.
    split; [lia|]. split; [lia|]. split; [lia|].
    split.
    { intros i h Hh Hil. apply (Hpre i h); auto.
      rewrite list_lookup_insert_ne in Hh by lia. exact Hh. }
    split.
    { intros w0 [= <-]. destruct (Hwr w eq_refl) as (f0 & Hf0 & Hs0 & Hr0).
      rewrite Hf in Hf0. injection Hf0 as <-.
      eexists. split.
      - apply list_lookup_insert_eq. eapply lookup_lt_Some; eauto.
      - cbn. lia. }
    split; [exact HnB'|]. exact Hb.
Qed.

Lemma make_size p sz lm : FileInfo.m_size (FileInfo.make p sz lm) = sz.
Proof. unfold FileInfo.make. destruct (FileInfo.looks_strange p); reflexivity. Qed.

Lemma newWriter_size fs file :
  FileInTransfer.info_size (newWriter fs file) = FileInfo.m_size file /\
  FileInTransfer.m_remainingBytes (newWriter fs file) = FileInfo.m_size file.
Proof.
  unfold newWriter, Writer.create, FileInTransfer.init.
  destruct (FileInfo.m_valid file), (fs_mkpath _), (fs_open _); cbn; auto.
Qed.

Lemma keepBothLoop_Some fs cf path name ext n counter g w :
  keepBothLoop fs cf path name ext n counter = Some (g, w) ->
  FileInfo.m_size g = FileInfo.m_size cf /\ w = newWriter fs g.
Proof.
  revert counter. induction n as [|n IH]; intros counter; cbn [keepBothLoop];
    [discriminate|].
  destruct (FileInTransfer.m_error _); [discriminate|].
  destruct (negb (FileInTransfer.m_exists _)).
  - intros [= <- <-]. split; [apply make_size|reflexivity].
  - apply IH.
Qed.

Lemma performDFAction_Inv fs action s :
  common_inv s -> in_transfer s -> eff s = InTransfer ->
  m_preventUserTogglePause s = false ->
  (exists w, m_fileInTransfer s = Some w /\
     FileInTransfer.m_remainingBytes w = FileInTransfer.info_size w) ->
  action <> Ask ->
  exists s', performDFAction fs action s = Some s' /\ Inv s'.
Proof.
  intros Hc Hi He Hp (w & Hw & Hrem) Hask.
  destruct action; cbn [performDFAction]; try contradiction.
  - apply acceptFileTransfer_Inv; auto; rewrite Hw; eauto.
  - apply rejectFileTransfer_Inv; auto; rewrite Hw; eauto.
  - destruct (in_transfer_current s Hc Hi) as (f & Hf & Hrange & Hfsz).
    unfold currentFileInfo at 1. rewrite Hf. cbn [mbind option_bind].
    destruct (keepBoth fs f) as [[g w']|] eqn:Hk.
    + unfold keepBoth in Hk. apply keepBothLoop_Some in Hk as [Hg ->].
      destruct (newWriter_size fs g) as [Hs1 Hs2].
      destruct (replace_current s f g (newWriter fs g)) as [Hc' Hi']; auto.
      { unfold credit. rewrite Hw. lia. }
      cbv beta iota.
      apply acceptFileTransfer_Inv; auto; destruct s; sess_simpl; eauto.
    + apply rejectFileTransfer_Inv; auto; rewrite Hw; eauto.
Qed.

Lemma Inv_frame s s' :
  m_status s = m_status s' -> m_oldStatusStack s = m_oldStatusStack s' ->
  m_transferInfo s = m_transferInfo s' -> m_files s = m_files s' ->
  m_currentFile s = m_currentFile s' ->
  m_fileInTransfer s = m_fileInTransfer s' ->
  m_preventUserTogglePause s = m_preventUserTogglePause s' ->
  pendingRequests s = pendingRequests s' ->
  Inv s -> Inv s'.
Proof.
  destruct s, s'; sess_simpl. intros -> -> -> -> -> -> -> -> [Hc Hd Hw Hr].
  split; auto.
Qed.

(** A session that is neither paused nor aborted is not waiting for a
    decision. *)
Lemma running_not_waiting s :
  Inv s -> is_pause (m_status s) = false -> m_status s <> Aborted ->
  m_preventUserTogglePause s = false.
Proof.
  intros [_ _ Hw _] Hp Ha.
  destruct (m_preventUserTogglePause s) eqn:E; [|reflexivity].
  destruct (Hw E) as [H|[H|[H _]]]; try contradiction;
    rewrite H in Hp; discriminate.
Qed.

Lemma fail_Inv s : Inv s -> pres (fail s).
Proof.
  intros HI. destruct (abortConnection_Inv s HI) as (s' & Ha & HI' & _).
  unfold pres, fail, manageError. rewrite Ha. cbn. eauto.
Qed.

Lemma pres_Some b s : Inv s -> pres (Some (b, s)).
Proof. intros HI. exists b, s. auto. Qed.

Lemma helloCommand_Inv writeOk s : Inv s -> pres (helloCommand writeOk s).
Proof.
  intros HI. unfold helloCommand.
  assert (HI' : Inv (set_m_peerUuidKnown true s))
    by (eapply Inv_frame; [..|exact HI]; destruct s; reflexivity).
  destruct (_ || _); [apply fail_Inv; auto|].
  destruct (negb writeOk); [apply fail_Inv; auto|apply pres_Some; auto].
Qed.

Lemma ackCommand_Inv s : Inv s -> pres (ackCommand s).
Proof.
  intros HI. unfold ackCommand.
  destruct (bool_decide_reflect (m_status s = Connecting)) as [Hst|Hst];
    cbn [negb orb]; [|apply fail_Inv; auto].
  destruct (negb (m_peerUuidKnown s)); [apply fail_Inv; auto|].
  apply pres_Some.
  assert (Hp : m_preventUserTogglePause s = false)
    by (apply running_not_waiting; auto; rewrite Hst; [reflexivity|discriminate]).
  destruct HI as [Hc Hd Hw Hr].
  destruct s as [st stk pk ti files cur fit msg dfa prev pend sock].
  sess_simpl. subst st prev.
  apply Inv_released; sess_simpl; auto.
Qed.

Lemma sumSizes_wrap files a :
  fold_left (fun acc f => wrap64 (acc + FileInfo.m_size f)) files (wrap64 a)
  = wrap64 (a + sumZ (map FileInfo.m_size files)).
Proof.
  revert a. induction files as [|f files IH]; intros a.
  - cbn [fold_left map]. change (sumZ []) with 0. rewrite Z.add_0_r. reflexivity.
  - cbn [fold_left map].
    change (sumZ (FileInfo.m_size f :: map FileInfo.m_size files))
      with (FileInfo.m_size f + sumZ (map FileInfo.m_size files)).
    replace (wrap64 (wrap64 a + FileInfo.m_size f))
      with (wrap64 (a + FileInfo.m_size f))
      by (unfold wrap64; rewrite Zplus_mod_idemp_l; reflexivity).
    rewrite IH. f_equal. lia.
Qed.

Lemma sumSizes_spec files :
  sumSizes files = wrap64 (sumZ (map FileInfo.m_size files)).
Proof.
  unfold sumSizes. change 0 with (wrap64 0) at 1.
  rewrite sumSizes_wrap. reflexivity.
Qed.

Lemma running_Connected s :
  Inv s -> m_status s = Connected ->
  m_preventUserTogglePause s = false /\ pre_transfer s /\ common_inv s.
Proof.
  intros HI Hst. split.
  - apply running_not_waiting; auto; rewrite Hst; [reflexivity|discriminate].
  - destruct HI as [Hc Hd _ _]. unfold eff in Hd. rewrite Hst in Hd. auto.
Qed.

Lemma running_InTransfer s :
  Inv s -> m_status s = InTransfer ->
  m_preventUserTogglePause s = false /\ in_transfer s /\ common_inv s /\
  eff s = InTransfer.
Proof.
  intros HI Hst. split.
  - apply running_not_waiting; auto; rewrite Hst; [reflexivity|discriminate].
  - destruct HI as [Hc Hd _ _]. unfold eff in *. rewrite Hst in *. auto.
Qed.

Lemma shareCommand_Inv nFiles nBytes s :
  Inv s -> pres (shareCommand nFiles nBytes s).
Proof.
  intros HI. unfold shareCommand.
  destruct (bool_decide_reflect (m_status s = Connected)) as [Hst|Hst];
    cbn [andb]; [|apply fail_Inv; auto].
  destruct (running_Connected s HI Hst) as (Hp & Hpre & Hc).
  pose proof Hc as (HnF & HnB & HtB & Htf & Hsf & Hsz).
  pose proof Hpre as (P1 & P2 & P3 & P4 & P5 & P6).
  destruct ((totalFiles s =? 0) && m_shareMsgNull s) eqn:Hbegin.
  - destruct (Z.geb_spec (wrap32 nFiles) INT_MAX) as [Hbig|Hok];
      [apply fail_Inv; auto|].
    apply pres_Some. apply andb_true_iff in Hbegin as [H0 _].
    apply Z.eqb_eq in H0.
    pose proof (wrap32_range nFiles). pose proof (wrap64_range nBytes).
    pose proof (zlen_nonneg (m_files s)).
    destruct s as [st stk pk [nF tF sF nB tB sB] files cur fit msg dfa prev pend sock].
    sess_simpl. subst st prev.
    apply Inv_released; sess_simpl; auto.
    + unfold common_inv; sess_simpl. repeat split; auto; lia.
    + unfold pre_transfer; sess_simpl. repeat split; auto; lia.
  - destruct (Z.eqb_spec (wrap32 (zlen (m_files s))) (totalFiles s)) as [Hcnt|Hcnt];
      cbn [andb]; [|apply fail_Inv; auto].
    destruct (negb (m_shareMsgNull s)); [|apply fail_Inv; auto].
    unfold INT_MAX in HnF. pose proof (zlen_nonneg (m_files s)).
    rewrite wrap32_small in Hcnt by lia.
    destruct (Z.eqb_spec (sumSizes (m_files s)) (m_totalBytes (m_transferInfo s)))
      as [Hsum|Hsum]; cbn [negb].
    + rewrite sumSizes_spec in Hsum.
      unfold togglePauseMode. rewrite Hst, Hp. cbn.
      apply pres_Some.
      destruct s as [st stk pk [nF tF sF nB tB sB] files cur fit msg dfa prev pend sock].
      sess_simpl. subst st prev.
      split; unfold waiting_inv, request_inv; sess_simpl; auto.
    + apply fail_Inv.
      destruct s as [st stk pk [nF tF sF nB tB sB] files cur fit msg dfa prev pend sock].
      sess_simpl. subst st prev.
      apply Inv_released; sess_simpl; auto.
      * unfold common_inv, INT_MAX; sess_simpl.
        repeat split; auto; try lia.
      * unfold pre_transfer; sess_simpl. unfold zlen. cbn.
        repeat split; auto; lia.
Qed.

Lemma itemCommand_Inv payload junkSize junkStatus s :
  Inv s -> pres (itemCommand payload junkSize junkStatus s).
Proof.
  intros HI. unfold itemCommand.
  destruct (bool_decide_reflect (m_status s = Connected)) as [Hst|Hst];
    cbn [negb orb]; [|apply fail_Inv; auto].
  destruct (running_Connected s HI Hst) as (Hp & Hpre & Hc).
  pose proof Hc as (HnF & HnB & HtB & Htf & Hsf & Hsz).
  pose proof Hpre as (P1 & P2 & P3 & P4 & P5 & P6).
  unfold INT_MAX in HnF. pose proof (zlen_nonneg (m_files s)).
  rewrite wrap32_small by lia.
  destruct (Z.geb_spec (zlen (m_files s)) (totalFiles s)) as [Hfull|Hroom];
    [apply fail_Inv; auto|].
  destruct (FileInfo.decode payload _) as [file [rest|]] eqn:Hdec;
    [|apply pres_Some; auto].
  destruct (negb (FileInfo.m_valid file)); [apply fail_Inv; auto|].
  apply pres_Some. apply decode_size_range in Hdec.
  destruct s as [st stk pk [nF tF sF nB tB sB] files cur fit msg dfa prev pend sock].
  sess_simpl. subst st prev.
  apply Inv_released; sess_simpl; auto.
  - unfold common_inv, INT_MAX; sess_simpl. rewrite map_app.
    repeat split; auto; try lia. apply Forall_app. split; [exact Hsz|].
    constructor; [exact Hdec|constructor].
  - unfold pre_transfer; sess_simpl. rewrite zlen_app.
    unfold zlen at 2. cbn [length]. repeat split; auto; lia.
Qed.

Lemma writer_rollback_same w :
  FileInTransfer.info_size (snd (Writer.rollback w)) = FileInTransfer.info_size w /\
  FileInTransfer.m_remainingBytes (snd (Writer.rollback w))
  = FileInTransfer.m_remainingBytes w.
Proof.
  unfold Writer.rollback. destruct w as [v sz e ex r st c rb o tmp d].
  destruct c; cbn; auto.
Qed.

Lemma writer_commit_same a b w :
  FileInTransfer.info_size (snd (Writer.commit a b w)) = FileInTransfer.info_size w /\
  FileInTransfer.m_remainingBytes (snd (Writer.commit a b w))
  = FileInTransfer.m_remainingBytes w.
Proof.
  unfold Writer.commit, Writer.rollback.
  destruct w as [v sz e ex r st c rb o tmp d]; fit_simpl.
  repeat match goal with
         | |- context [if ?c then _ else _] => destruct c; fit_simpl
         end; auto.
Qed.

Lemma writer_chunk_same buffer wr w :
  let r := Writer.processNextDataChunk buffer wr w in
  FileInTransfer.info_size (snd r) = FileInTransfer.info_size w /\
  (if fst r
   then FileInTransfer.m_remainingBytes (snd r)
        = FileInTransfer.m_remainingBytes w - zlen buffer /\
        zlen buffer <= FileInTransfer.m_remainingBytes w
   else FileInTransfer.m_remainingBytes (snd r)
        = FileInTransfer.m_remainingBytes w).
Proof.
  unfold Writer.processNextDataChunk.
  destruct w as [v sz e ex r st c rb o tmp d]; fit_simpl.
  destruct e; fit_simpl; auto.
  destruct o; fit_simpl; auto.
  destruct (Z.ltb_spec r (zlen buffer)); fit_simpl; auto.
  destruct (wr =? zlen buffer); fit_simpl; auto.
Qed.

Lemma startCommand_Inv fs s : Inv s -> pres (startCommand fs s).
Proof.
  intros HI. unfold startCommand.
  destruct (bool_decide_reflect (m_status s = InTransfer)) as [Hst|Hst];
    cbn [negb orb]; [|apply fail_Inv; auto].
  destruct (running_InTransfer s HI Hst) as (Hp & Hi & Hc & He).
  destruct (m_fileInTransfer s) as [w0|] eqn:Hfit.
  { rewrite bool_decide_eq_true_2 by eauto. apply fail_Inv; auto. }
  rewrite bool_decide_eq_false_2 by (intros [? ?]; discriminate).
  destruct (in_transfer_current s Hc Hi) as (f & Hf & Hrange & Hfsz).
  unfold currentFileInfo at 1. rewrite Hf. cbn [mbind option_bind].
  destruct (newWriter_size fs f) as [Hs1 Hs2].
  set (w := newWriter fs f) in *.
  assert (Hopen : let s1 := set_m_fileInTransfer (Some w) s in
            common_inv s1 /\ in_transfer s1 /\ eff s1 = InTransfer /\
            m_preventUserTogglePause s1 = false /\
            m_fileInTransfer s1 = Some w /\ m_status s1 = InTransfer).
  { pose proof Hi as (Hc0 & Hlt & Hlen & Hpre & Hwr & HnB' & Hb).
    destruct s as [st stk pk [nF tF sF nB tB sB] files cur fit msg dfa prev pend sock].
    sess_simpl. subst st prev fit.
    split; [exact Hc|]. split; [|auto].
    unfold in_transfer; sess_simpl.
    split; [lia|]. split; [lia|]. split; [lia|]. split; [exact Hpre|].
    split; [|split; [exact HnB'|intros Hs; specialize (Hb Hs); lia]].
    intros w' [= <-]. exists f. split; [exact Hf|]. lia. }
  cbv zeta in Hopen. destruct Hopen as (Hc1 & Hi1 & He1 & Hp1 & Hfit1 & Hst1).
  set (s1 := set_m_fileInTransfer (Some w) s) in *.
  assert (Hsome : is_Some (m_fileInTransfer s1)) by (rewrite Hfit1; eauto).
  destruct (FileInTransfer.m_error w).
  { destruct (rejectFileTransfer_Inv s1 Hc1 Hi1 He1 Hp1 Hsome) as (s' & Hr & HI').
    rewrite Hr. apply pres_Some. exact HI'. }
  destruct (negb (FileInTransfer.m_exists w)).
  { destruct (acceptFileTransfer_Inv s1 Hc1 Hi1 He1 Hp1 Hsome) as (s' & Hr & HI').
    rewrite Hr. apply pres_Some. exact HI'. }
  destruct (bool_decide_reflect (m_defaultDFAction s1 = Ask)) as [Hask|Hask];
    cbn [negb].
  - unfold togglePauseMode. rewrite Hst1, Hp1. cbn.
    apply pres_Some.
    pose proof Hi1 as Hi1'.
    destruct s as [st stk pk [nF tF sF nB tB sB] files cur fit msg dfa prev pend sock].
    unfold s1 in *. sess_simpl. subst st prev fit.
    split; unfold waiting_inv, request_inv; sess_simpl; auto.
    intros _ _. split; [reflexivity|]. exists w. split; [reflexivity|]. lia.
  - assert (Hfresh : exists w0, m_fileInTransfer s1 = Some w0 /\
              FileInTransfer.m_remainingBytes w0 = FileInTransfer.info_size w0)
      by (exists w; split; [exact Hfit1|lia]).
    destruct (performDFAction_Inv fs (m_defaultDFAction s1) s1
                Hc1 Hi1 He1 Hp1 Hfresh Hask) as (s' & Hr & HI').
    rewrite Hr. apply pres_Some. exact HI'.
Qed.

Lemma pres_move (o : option (bool * Session)) :
  (exists b s', o = Some (b, s') /\ Inv s') ->
  pres (r ← o; Some (true, snd r)).
Proof.
  intros (b & s' & -> & HI). cbn. apply pres_Some. exact HI.
Qed.

Lemma skipCommand_Inv s : Inv s -> pres (skipCommand s).
Proof.
  intros HI. unfold skipCommand.
  destruct (bool_decide_reflect (m_status s = InTransfer)) as [Hst|Hst];
    cbn [negb orb]; [|apply fail_Inv; auto].
  destruct (running_InTransfer s HI Hst) as (Hp & Hi & Hc & He).
  destruct (m_fileInTransfer s) as [w0|] eqn:Hfit.
  { rewrite bool_decide_eq_true_2 by eauto. apply fail_Inv; auto. }
  rewrite bool_decide_eq_false_2 by (intros [? ?]; discriminate).
  destruct (in_transfer_current s Hc Hi) as (f & Hf & Hrange & Hfsz).
  destruct (counters_room s Hc Hi) as [Hsf1 Htf1].
  pose proof Hc as (_ & _ & _ & Htf & Hsf & _).
  unfold setCurrentFileStatus.
  destruct s as [st stk pk [nF tF sF nB tB sB] files cur fit msg dfa prev pend sock].
  sess_simpl. subst st prev fit. rewrite Hf. cbn. rewrite Hsf1.
  apply pres_move.
  eapply (finish_move _ _ f FileInfo.TransferFailed); eauto; sess_simpl;
    auto using terminal_failed; try lia.
Qed.

Lemma rollbkCommand_Inv s : Inv s -> pres (rollbkCommand s).
Proof.
  intros HI. unfold rollbkCommand.
  destruct (m_fileInTransfer s) as [w|] eqn:Hfit; [|apply fail_Inv; auto].
  destruct (bool_decide_reflect (m_status s = InTransfer)) as [Hst|Hst];
    cbn [negb]; [|apply fail_Inv; auto].
  destruct (running_InTransfer s HI Hst) as (Hp & Hi & Hc & He).
  destruct (in_transfer_current s Hc Hi) as (f & Hf & Hrange & Hfsz).
  destruct (counters_room s Hc Hi) as [Hsf1 Htf1].
  pose proof Hc as (_ & _ & _ & Htf & Hsf & _).
  unfold setCurrentFileStatus.
  destruct s as [st stk pk [nF tF sF nB tB sB] files cur fit msg dfa prev pend sock].
  sess_simpl. subst st prev fit. rewrite Hf. cbn. rewrite Hsf1.
  apply pres_move.
  eapply (finish_move _ _ f FileInfo.TransferFailed); eauto; sess_simpl;
    auto using terminal_failed; try lia.
Qed.

Lemma commitCommand_Inv commitOk s : Inv s -> pres (commitCommand commitOk s).
Proof.
  intros HI. unfold commitCommand.
  destruct (m_fileInTransfer s) as [w|] eqn:Hfit; [|apply fail_Inv; auto].
  destruct (bool_decide_reflect (m_status s = InTransfer)) as [Hst|Hst];
    cbn [negb]; [|apply fail_Inv; auto].
  destruct (running_InTransfer s HI Hst) as (Hp & Hi & Hc & He).
  destruct (in_transfer_current s Hc Hi) as (f & Hf & Hrange & Hfsz).
  destruct (counters_room s Hc Hi) as [Hsf1 Htf1].
  pose proof Hc as (_ & _ & _ & Htf & Hsf & _).
  destruct (Writer.commit commitOk false w) as [ok w'].
  unfold setCurrentFileStatus.
  destruct s as [st stk pk [nF tF sF nB tB sB] files cur fit msg dfa prev pend sock].
  sess_simpl. subst st prev fit. rewrite Hf.
  destruct ok; cbn.
  - rewrite Htf1. apply pres_move.
    eapply (finish_move _ _ f FileInfo.Transferred); eauto; sess_simpl;
      auto using terminal_transferred; try lia.
  - rewrite Hsf1. apply pres_move.
    eapply (finish_move _ _ f FileInfo.TransferFailed); eauto; sess_simpl;
      auto using terminal_failed; try lia.
Qed.

(** The writer of the current file is replaced by [w'], which expects
    [n] bytes less, and [n] more bytes are counted as transferred. *)
Lemma writer_progress s w w' n :
  common_inv s -> in_transfer s -> m_fileInTransfer s = Some w ->
  FileInTransfer.info_size w' = FileInTransfer.info_size w ->
  FileInTransfer.m_remainingBytes w' = FileInTransfer.m_remainingBytes w - n ->
  0 <= n <= FileInTransfer.m_remainingBytes w ->
  let s' := update_info (fun ti =>
              set_transferredBytes (wrap64 (m_transferredBytes ti + n)) ti)
              (set_m_fileInTransfer (Some w') s) in
  common_inv s' /\ in_transfer s'.
Proof.
  intros Hc Hi Hfit Hsz' Hrem' Hn s'.
  destruct (in_transfer_current s Hc Hi) as (f & Hf & Hrange & Hfsz).
  pose proof (credit_le s f Hc Hi Hf) as Hcr.
  pose proof Hc as (HnF & HnB & HtB & Htf & Hsf & Hsz).
  pose proof Hi as (Hc0 & Hlt & Hlen & Hpre & Hwr & HnB' & Hb).
  destruct (Hwr w Hfit) as (f0 & Hf0 & Hs0 & Hr0).
  unfold currentFileInfo in Hf0. rewrite Hf in Hf0. injection Hf0 as <-.
  pose proof (wrap64_range (tb s + n)) as Hwr64.
  assert (Hbytes : sumZ (sizes s) < 2 ^ 64 ->
            wrap64 (tb s + n) = tb s + n /\
            tb s + n <= sumZ (firstn (Z.to_nat (m_currentFile s)) (sizes s))
                        + (FileInTransfer.info_size w'
                           - FileInTransfer.m_remainingBytes w')).
  { intros Hs. specialize (Hb Hs). unfold credit in Hb, Hcr.
    rewrite Hfit in Hb, Hcr.
    pose proof (sumZ_firstn_S _ _ _ (sizes_lookup _ _ _ Hf)) as HS.
    fold (sizes s) in HS.
    pose proof (sumZ_firstn_le (S (Z.to_nat (m_currentFile s))) _ Hsz) as Hle.
    split; [apply wrap64_small|]; lia. }
  unfold s'.
  destruct s as [st stk pk [nF tF sF nB tB sB] files cur fit msg dfa prev pend sock].
  sess_simpl. subst fit.
  split.
  - unfold common_inv; sess_simpl. repeat split; auto; lia.
  - unfold in_transfer; sess_simpl.
    split; [lia|]. split; [lia|]. split; [lia|]. split; [exact Hpre|].
    split; [|split; [exact HnB'|]].
    + intros w0 [= <-]. exists f. split; [exact Hf|]. lia.
    + intros Hs. destruct (Hbytes Hs) as [-> Hle]. exact Hle.
Qed.

Lemma writer_swap s w w' :
  Inv s -> m_status s = InTransfer -> m_fileInTransfer s = Some w ->
  FileInTransfer.info_size w' = FileInTransfer.info_size w ->
  FileInTransfer.m_remainingBytes w' = FileInTransfer.m_remainingBytes w ->
  Inv (set_m_fileInTransfer (Some w') s).
Proof.
  intros HI Hst Hfit Hsz' Hrem'.
  destruct (running_InTransfer s HI Hst) as (Hp & Hi & Hc & He).
  pose proof Hi as (Hc0 & Hlt & Hlen & Hpre & Hwr & HnB' & Hb).
  destruct (Hwr w Hfit) as (f0 & Hf0 & Hs0 & Hr0).
  destruct s as [st stk pk [nF tF sF nB tB sB] files cur fit msg dfa prev pend sock].
  sess_simpl. subst fit prev st.
  apply Inv_released; sess_simpl; auto.
  unfold in_transfer; sess_simpl.
  split; [lia|]. split; [lia|]. split; [lia|]. split; [exact Hpre|].
  split; [|split; [exact HnB'|]].
  - intros w0 [= <-]. exists f0. split; [exact Hf0|]. lia.
  - intros Hs. specialize (Hb Hs). lia.
Qed.

Lemma chunkCommand_Inv length payload wr s :
  Inv s -> pres (chunkCommand length payload wr s).
Proof.
  intros HI. unfold chunkCommand.
  destruct (m_fileInTransfer s) as [w|] eqn:Hfit; [|apply fail_Inv; auto].
  destruct (bool_decide_reflect (m_status s = InTransfer)) as [Hst|Hst];
    cbn [negb]; [|apply fail_Inv; auto].
  destruct (running_InTransfer s HI Hst) as (Hp & Hi & Hc & He).
  destruct (_ >? _); [apply fail_Inv; auto|].
  destruct (Z.ltb_spec (zlen payload) (wrap32 length)) as [Hshort|Hfull];
    [apply pres_Some; auto|].
  pose proof (wrap32_range length) as Hlen.
  set (n := wrap32 length) in *.
  set (buffer := firstn (Z.to_nat n) payload).
  assert (Hbuf : zlen buffer = n).
  { unfold buffer, zlen in *. rewrite length_firstn. lia. }
  pose proof (writer_chunk_same buffer wr w) as [Hsz Hrem].
  destruct (Writer.processNextDataChunk buffer wr w) as [ok w'].
  cbn [fst snd] in Hsz, Hrem.
  destruct ok.
  - destruct Hrem as [Hrem Hle]. rewrite Hbuf in Hrem, Hle.
    apply pres_Some.
    destruct (writer_progress s w w' n Hc Hi Hfit Hsz Hrem) as [Hc' Hi'];
      [lia|].
    apply Inv_released.
    + exact Hc'.
    + destruct s; sess_simpl. rewrite He. exact Hi'.
    + destruct s; sess_simpl. exact Hp.
  - destruct (writer_rollback_same w') as [Hrs Hrr].
    destruct (negb (FileInTransfer.m_rollbacked w')); apply pres_Some.
    + eapply writer_swap; eauto; congruence.
    + eapply writer_swap; eauto.
Qed.

Lemma closeCommand_Inv s : Inv s -> pres (closeCommand s).
Proof.
  intros HI. unfold closeCommand.
  destruct (bool_decide_reflect (m_status s = Closed)) as [Hcl|Hcl];
    [apply pres_Some; auto|].
  destruct (bool_decide_reflect (m_status s = TransferCompleted)) as [Htc|Htc];
    cbn [negb andb].
  - apply pres_Some.
    assert (Hp : m_preventUserTogglePause s = false)
      by (apply running_not_waiting; auto; rewrite Htc;
          [reflexivity|discriminate]).
    destruct HI as [Hc Hd _ _]. unfold eff in Hd. rewrite Htc in Hd.
    apply closeConnection_Inv; auto; rewrite Htc; discriminate.
  - destruct (bool_decide_reflect (m_status s = Closing)) as [Hcg|Hcg];
      cbn [negb]; [|apply fail_Inv; auto].
    apply pres_Some. unfold closeConnection. rewrite Hcg. cbn. exact HI.
Qed.

Lemma command_Inv c s : Inv s -> pres (command c s).
Proof.
  intros HI. destruct c; cbn [command].
  - apply helloCommand_Inv; auto.
  - apply ackCommand_Inv; auto.
  - apply shareCommand_Inv; auto.
  - apply itemCommand_Inv; auto.
  - apply startCommand_Inv; auto.
  - apply skipCommand_Inv; auto.
  - apply chunkCommand_Inv; auto.
  - apply commitCommand_Inv; auto.
  - apply rollbkCommand_Inv; auto.
  - apply closeCommand_Inv; auto.
  - destruct (togglePauseMode_Inv false s HI) as (st & stk & -> & _ & HI').
    cbn. apply pres_Some. exact HI'.
  - apply fail_Inv; auto.
  - apply fail_Inv; auto.
Qed.

Lemma processCommands_Inv cmds s : Inv s -> pres1 (processCommands cmds s).
Proof.
  revert s. induction cmds as [|c cmds IH]; intros s HI; cbn [processCommands].
  - exists s. auto.
  - destruct (command_Inv c s HI) as (b & s' & -> & HI').
    destruct b; [apply IH; exact HI'|exists s'; auto].
Qed.

Lemma readData_Inv cmds s : Inv s -> pres1 (readData cmds s).
Proof.
  intros HI. unfold readData.
  destruct (bool_decide _); [exists s; auto|apply processCommands_Inv; auto].
Qed.

(** What the three decision slots do first: they leave the pause that was
    entered for the request. *)
Lemma decision_resume r l s :
  Inv s -> awaited r s = true ->
  exists s2,
    togglePauseMode true
      (set_m_preventUserTogglePause false (set_pendingRequests l s)) = Some s2 /\
    Inv s2 /\ m_preventUserTogglePause s2 = false /\
    m_transferInfo s2 = m_transferInfo s /\ m_files s2 = m_files s /\
    m_currentFile s2 = m_currentFile s /\
    m_fileInTransfer s2 = m_fileInTransfer s /\
    eff s2 = eff s /\
    (m_status s2 <> Aborted ->
     m_status s <> Aborted /\ head (pendingRequests s) = Some r /\
     m_preventUserTogglePause s = true).
Proof.
  intros HI Haw. unfold awaited in Haw.
  apply andb_true_iff in Haw as [Hpend Hprev].
  apply bool_decide_eq_true in Hpend.
  set (s0 := set_m_preventUserTogglePause false (set_pendingRequests l s)).
  assert (HI0 : Inv s0).
  { destruct HI as [Hc Hd _ _]. apply Inv_released.
    - eapply common_inv_frame; [| |exact Hc]; destruct s; reflexivity.
    - replace (eff s0) with (eff s) by (destruct s; reflexivity).
      eapply data_inv_frame; [| | | |exact Hd]; destruct s; reflexivity.
    - destruct s; reflexivity. }
  destruct (togglePauseMode_Inv true s0 HI0) as (st & stk & Heq & Heff & HI2).
  eexists. split; [exact Heq|]. split; [exact HI2|].
  split; [destruct s; reflexivity|]. split; [destruct s; reflexivity|].
  split; [destruct s; reflexivity|]. split; [destruct s; reflexivity|].
  split; [destruct s; reflexivity|].
  split.
  - destruct s; sess_simpl. exact Heff.
  - intros Hab.
    assert (Hs0 : m_status s0 = m_status s) by (destruct s; reflexivity).
    split; [|auto]. intros Hst.
    pose proof (togglePauseMode_Aborted true s0) as Hta.
    rewrite Hs0 in Hta. specialize (Hta Hst). rewrite Heq in Hta.
    apply (inj Some) in Hta. apply (f_equal m_status) in Hta.
    rewrite Hs0 in Hta. destruct s; sess_simpl. congruence.
Qed.

Lemma acceptSharingRequest_Inv pathOk l s :
  Inv s -> awaited SharingRequest s = true ->
  exists s', acceptSharingRequest pathOk (set_pendingRequests l s) = Some s'
    /\ Inv s'.
Proof.
  intros HI Haw.
  destruct (decision_resume _ l s HI Haw)
    as (s2 & Heq & HI2 & Hp2 & Hti & Hfl & Hcur & Hfit & Heff & Hrun).
  unfold acceptSharingRequest. rewrite Heq. cbn [mbind option_bind].
  destruct (bool_decide_reflect (m_status s2 = Aborted)) as [Hab|Hab];
    [eauto|].
  destruct pathOk; cbn [negb].
  - destruct (Hrun Hab) as (Hnab & Hpend & Hprev).
    pose proof (inv_request s HI Hprev Hnab) as Hreq. rewrite Hpend in Hreq.
    destruct Hreq as (Hconn & Hlen & Htot).
    pose proof (inv_data s HI) as Hd. rewrite Hconn in Hd. cbn in Hd.
    destruct Hd as (Htf & Hsf & Htb & Hno & Hnone & _).
    pose proof (inv_common s2 HI2) as Hc2.
    destruct (moveToNextFile_Inv (setStatus InTransfer s2)) as (b & s' & -> & HI').
    + eapply common_inv_frame; [| |exact Hc2]; destruct s2; reflexivity.
    + unfold advance_ready.
      destruct s as [st stk pk [nF tF sF nB tB sB] files cur fit msg dfa prev pend sock].
      destruct s2 as [st2 stk2 pk2 ti2 files2 cur2 fit2 msg2 dfa2 prev2 pend2 sock2].
      unfold NO_FILE in *. sess_simpl. subst.
      change (wrap32 (4294967295 + 1)) with 0. sess_simpl.
      pose proof (zlen_nonneg files) as Hnn.
      change (Z.to_nat 0) with 0%nat. rewrite take_0. change (sumZ []) with 0.
      repeat split; intros; auto; lia.
    + destruct s2; exact Hp2.
    + destruct s2; reflexivity.
    + cbn. eauto.
  - destruct (abortConnection_Inv s2 HI2) as (s' & Ha & HI' & _).
    unfold manageError. eauto.
Qed.

Lemma rejectSharingRequest_Inv l s :
  Inv s -> awaited SharingRequest s = true ->
  exists s', rejectSharingRequest (set_pendingRequests l s) = Some s' /\ Inv s'.
Proof.
  intros HI Haw.
  destruct (decision_resume _ l s HI Haw)
    as (s2 & Heq & HI2 & Hp2 & Hti & Hfl & Hcur & Hfit & Heff & Hrun).
  unfold rejectSharingRequest. rewrite Heq. cbn [mbind option_bind].
  destruct (bool_decide_reflect (m_status s2 = Aborted)) as [Hab|Hab];
    [eauto|].
  eexists. split; [reflexivity|].
  destruct (Hrun Hab) as (Hnab & Hpend & Hprev).
  pose proof (inv_request s HI Hprev Hnab) as Hreq. rewrite Hpend in Hreq.
  destruct Hreq as (Hconn & Hlen & Htot).
  pose proof (inv_data s HI) as Hd. rewrite Hconn in Hd. cbn in Hd.
  destruct Hd as (Htf & Hsf & Htb & Hno & Hnone & _).
  pose proof (inv_common s2 HI2) as Hc2.
  rewrite <- Heff in Hconn.
  assert (Hst : m_status s2 = Connected \/ is_pause (m_status s2) = true).
  { unfold eff in Hconn. cbn [first_np] in Hconn.
    destruct (is_pause (m_status s2)); auto. }
  apply closeConnection_Inv.
  - destruct s as [st stk pk [nF tF sF nB tB sB] files cur fit msg dfa prev pend sock].
    destruct s2 as [st2 stk2 pk2 ti2 files2 cur2 fit2 msg2 dfa2 prev2 pend2 sock2].
    unfold common_inv in *. sess_simpl. subst. sess_simpl.
    repeat split; try tauto; lia.
  - destruct s as [st stk pk [nF tF sF nB tB sB] files cur fit msg dfa prev pend sock].
    destruct s2 as [st2 stk2 pk2 ti2 files2 cur2 fit2 msg2 dfa2 prev2 pend2 sock2].
    unfold finished, attempted_terminal, common_inv in *. sess_simpl. subst.
    sess_simpl.
    repeat split; auto; try lia; try tauto.
  - destruct s2; exact Hp2.
  - destruct s2; sess_simpl; destruct Hst as [->| Hst]; [discriminate|];
      intros ->; discriminate.
  - destruct s2; sess_simpl; destruct Hst as [->| Hst]; [discriminate|];
      intros ->; discriminate.
  - destruct s2; sess_simpl; destruct Hst as [->| Hst]; [discriminate|];
      intros ->; discriminate.
  - destruct s2; sess_simpl; exact Hab.
Qed.

Lemma chosen_Inv fs action all l s s' :
  Inv s -> awaited DuplicatedFile s = true ->
  chosen fs action all (set_pendingRequests l s) = Some s' -> Inv s'.
Proof.
  intros HI Haw.
  destruct (decision_resume _ l s HI Haw)
    as (s2 & Heq & HI2 & Hp2 & Hti & Hfl & Hcur & Hfit & Heff & Hrun).
  unfold chosen. rewrite Heq. cbn [mbind option_bind].
  destruct (bool_decide_reflect (m_status s2 = Aborted)) as [Hab|Hab];
    [intros [= <-]; exact HI2|].
  destruct (Hrun Hab) as (Hnab & Hpend & Hprev).
  pose proof (inv_request s HI Hprev Hnab) as Hreq. rewrite Hpend in Hreq.
  destruct Hreq as (Hin & w & Hw & Hrem).
  pose proof (inv_data s2 HI2) as Hd. rewrite Heff, Hin in Hd. cbn in Hd.
  pose proof (inv_common s2 HI2) as Hc2.
  set (s3 := if all then set_m_defaultDFAction action s2 else s2).
  assert (H3 : common_inv s3 /\ in_transfer s3 /\ eff s3 = InTransfer /\
               m_preventUserTogglePause s3 = false /\
               m_fileInTransfer s3 = Some w).
  { unfold s3. destruct all.
    - split; [eapply common_inv_frame; [| |exact Hc2]; destruct s2; reflexivity|].
      split; [eapply (data_inv_frame InTransfer); [| | | |exact Hd];
              destruct s2; reflexivity|].
      split; [rewrite <- Hin, <- Heff; destruct s2; reflexivity|].
      split; [destruct s2; exact Hp2|].
      rewrite <- Hw, <- Hfit. destruct s2; reflexivity.
    - split; [exact Hc2|]. split; [exact Hd|]. split; [congruence|].
      split; [exact Hp2|congruence]. }
  destruct H3 as (Hc3 & Hi3 & He3 & Hp3 & Hw3).
  intros Hch.
  destruct (performDFAction_Inv fs action s3 Hc3 Hi3 He3 Hp3) as (s4 & H4 & HI4).
  - eauto.
  - intros ->. cbn in Hch. discriminate.
  - congruence.
Qed.

Lemma onSocketError_Inv b s :
  Inv s -> exists s', onSocketError b s = Some s' /\ Inv s'.
Proof.
  intros HI. unfold onSocketError.
  destruct (bool_decide (m_status s = PausedByUser) && b).
  - assert (HI0 : Inv (set_m_preventUserTogglePause false s)).
    { destruct HI as [Hc Hd _ _]. apply Inv_released.
      - eapply common_inv_frame; [| |exact Hc]; destruct s; reflexivity.
      - replace (eff (set_m_preventUserTogglePause false s)) with (eff s)
          by (destruct s; reflexivity).
        eapply data_inv_frame; [| | | |exact Hd]; destruct s; reflexivity.
      - destruct s; reflexivity. }
    destruct (togglePauseMode_Inv true _ HI0) as (st & stk & -> & _ & HI').
    eauto.
  - destruct (_ && _); [|eauto].
    destruct (abortConnection_Inv s HI) as (s' & Ha & HI' & _).
    unfold manageError. eauto.
Qed.

Lemma changePauseMode_Inv b s :
  Inv s -> exists s', changePauseMode b s = Some s' /\ Inv s'.
Proof.
  intros HI. unfold changePauseMode.
  destruct (_ || _); [eauto|].
  destruct (togglePauseMode_Inv true s HI) as (st & stk & -> & _ & HI').
  eauto.
Qed.

Lemma onDisconnected_Inv s :
  Inv s -> Inv (onDisconnected (set_socketUnconnected true s)).
Proof.
  intros HI. unfold onDisconnected.
  assert (Hs : m_status (set_socketUnconnected true s) = m_status s)
    by (destruct s; reflexivity).
  rewrite Hs.
  destruct (bool_decide_reflect (m_status s = Closing)) as [Hcl|Hcl].
  - assert (Hp : m_preventUserTogglePause s = false)
      by (apply running_not_waiting; auto; rewrite Hcl;
          [reflexivity|discriminate]).
    destruct HI as [Hc Hd _ _]. unfold eff in Hd. rewrite Hcl in Hd.
    cbn in Hd.
    apply Inv_released.
    + eapply common_inv_frame; [| |exact Hc]; destruct s; reflexivity.
    + replace (eff (setStatus Closed (set_socketUnconnected true s)))
        with Closed by (destruct s; reflexivity).
      eapply (data_inv_frame Closed); [| | | |exact Hd]; destruct s; reflexivity.
    + destruct s; exact Hp.
  - eapply Inv_frame; [..|exact HI]; destruct s; reflexivity.
Qed.

Lemma acceptConnection_Inv s :
  Inv s -> m_status s = New -> Inv (setStatus Connecting s).
Proof.
  intros HI Hst.
  assert (Hp : m_preventUserTogglePause s = false)
    by (apply running_not_waiting; auto; rewrite Hst;
        [reflexivity|discriminate]).
  destruct HI as [Hc Hd _ _]. unfold eff in Hd. rewrite Hst in Hd. cbn in Hd.
  apply Inv_released.
  - eapply common_inv_frame; [| |exact Hc]; destruct s; reflexivity.
  - replace (eff (setStatus Connecting s)) with Connecting
      by (destruct s; reflexivity).
    eapply (data_inv_frame Connecting); [| | | |exact Hd]; destruct s; reflexivity.
  - destruct s; exact Hp.
Qed.

Lemma request_decided_awaited r s :
  awaited r s = true ->
  request_decided r s = Some (set_pendingRequests (tail (pendingRequests s)) s).
Proof.
  unfold awaited, request_decided. intros Haw.
  apply andb_true_iff in Haw as [Hhead _]. apply bool_decide_eq_true in Hhead.
  destruct (pendingRequests s) as [|x rest] eqn:Hl; [discriminate|].
  cbn in Hhead. injection Hhead as ->.
  rewrite bool_decide_eq_true_2 by apply list_elem_of_here.
  cbn [remove_request tail]. rewrite bool_decide_eq_true_2 by reflexivity.
  reflexivity.
Qed.

(** Every event that occurs preserves the invariant, as long as the
    decisions come in time. *)
Lemma step_Inv s e s' :
  Inv s -> in_time s e = true -> step s e = Some s' -> Inv s'.
Proof.
  intros HI Hin. destruct e; cbn [step in_time] in *.
  - destruct (bool_decide_reflect (m_status s = New)) as [Hst|Hst];
      [|discriminate].
    intros [= <-]. apply acceptConnection_Inv; auto.
  - destruct (readData_Inv cmds s HI) as (s1 & -> & H1). intros [= <-]; auto.
  - rewrite (request_decided_awaited _ _ Hin). cbn [mbind option_bind].
    destruct (acceptSharingRequest_Inv pathOk (tail (pendingRequests s)) s
                HI Hin) as (s1 & -> & H1).
    intros [= <-]; auto.
  - rewrite (request_decided_awaited _ _ Hin). cbn [mbind option_bind].
    destruct (rejectSharingRequest_Inv (tail (pendingRequests s)) s HI Hin)
      as (s1 & -> & H1).
    intros [= <-]; auto.
  - destruct (bool_decide (action = Ask)); [discriminate|].
    rewrite (request_decided_awaited _ _ Hin). cbn [mbind option_bind].
    apply chosen_Inv; auto.
  - destruct (changePauseMode_Inv enterPauseMode s HI) as (s1 & -> & H1).
    intros [= <-]; auto.
  - destruct (abortConnection_Inv s HI) as (s1 & -> & H1 & _).
    intros [= <-]; auto.
  - destruct (onSocketError_Inv remoteHostClosed s HI) as (s1 & -> & H1).
    intros [= <-]; auto.
  - intros [= <-]. apply onDisconnected_Inv; auto.
Qed.

Lemma run_Inv events : forall s s',
  Inv s -> timely s events -> run s events = Some s' -> Inv s'.
Proof.
  induction events as [|e rest IH]; intros s s' HI Ht; cbn [run].
  - intros [= <-]; auto.
  - destruct Ht as [Hin Ht].
    destruct (step s e) as [s1|] eqn:Hstep; cbn; [|discriminate].
    apply IH; [eapply step_Inv; eauto|exact Ht].
Qed.

End SessionSteps.

(** ** The sending session *)

Section SenderFrames.
Import Syfft.

Lemma same_offer_refl s : same_offer s s.
Proof. repeat split. Qed.

Lemma same_offer_trans s1 s2 s3 :
  same_offer s1 s2 -> same_offer s2 s3 -> same_offer s1 s3.
Proof.
  intros (A1 & A2 & A3 & A4) (B1 & B2 & B3 & B4).
  repeat split; congruence.
Qed.

Lemma offer_same s s' : offer_inv s -> same_offer s s' -> offer_inv s'.
Proof.
  intros (H1 & H2 & H3) (A1 & A2 & A3 & A4).
  assert (Hlen : forall x, zlen (m_files x) = zlen (sizes x)).
  { intros x. unfold sizes, zlen. rewrite length_map. reflexivity. }
  unfold offer_inv. rewrite A1, A2, A3, A4, Hlen, A3, <- Hlen. auto.
Qed.

Lemma setCurrentFileStatus_offer st s s' :
  setCurrentFileStatus st s = Some s' -> same_offer s s'.
Proof.
  intros H. apply setCurrentFileStatus_Some in H as (f & Hf & ->).
  destruct s. unfold same_offer, sizes. cbn in *.
  rewrite (sizes_setStatus _ _ _ _ Hf). auto.
Qed.

Lemma onDisconnected_offer s : same_offer s (onDisconnected s).
Proof.
  unfold onDisconnected. destruct (bool_decide _); destruct s; repeat split.
Qed.

Lemma closeConnection_offer s : same_offer s (closeConnection s).
Proof.
  unfold closeConnection. destruct (_ || _); [apply same_offer_refl|].
  cbv zeta. destruct (socketUnconnected _).
  - eapply same_offer_trans; [|apply onDisconnected_offer].
    destruct s; repeat split.
  - destruct s; repeat split.
Qed.

Lemma abortConnection_offer s s' :
  abortConnection s = Some s' -> same_offer s s'.
Proof.
  unfold abortConnection. destruct (_ || _); [intros [= <-]; apply same_offer_refl|].
  cbv zeta. destruct (_ <? _).
  - destruct (setCurrentFileStatus _ _) as [s1|] eqn:H1; [|discriminate].
    cbn [mbind option_bind]. intros [= <-].
    apply setCurrentFileStatus_offer in H1.
    eapply same_offer_trans; [|eapply same_offer_trans; [exact H1|]].
    + destruct s; repeat split.
    + destruct s1; repeat split.
  - cbn [mbind option_bind]. intros [= <-]. destruct s; repeat split.
Qed.

Lemma togglePauseMode_offer u s s' :
  togglePauseMode u s = Some s' -> same_offer s s'.
Proof.
  unfold togglePauseMode. destruct (_ || _); [intros [= <-]; apply same_offer_refl|].
  destruct (_ && _); [intros [= <-]; apply same_offer_refl|].
  cbv zeta. destruct (bool_decide _).
  - destruct (m_oldStatusStack s); [discriminate|].
    intros [= <-]. destruct s; repeat split.
  - intros [= <-]. destruct s; repeat split.
Qed.

Lemma moveToNextFile_offer s b s' :
  moveToNextFile s = Some (b, s') ->
  same_offer s s' /\
  (b = true -> s' = set_m_currentFile (wrap32 (m_currentFile s + 1)) s).
Proof.
  unfold moveToNextFile. cbv zeta. destruct (_ =? _).
  - intros [= <- <-]. split; [|discriminate].
    eapply same_offer_trans; [|apply closeConnection_offer].
    destruct s; repeat split.
  - destruct (currentFileInfo _); [|discriminate].
    cbn [mbind option_bind]. intros [= <- <-].
    split; [destruct s; repeat split|reflexivity].
Qed.

Lemma SInv_pres (o : option (bool * Session)) s :
  offer_inv s -> (forall b s', o = Some (b, s') -> same_offer s s') ->
  pres o -> spres o.
Proof.
  intros Ho Hsame (b & s' & -> & HI). exists b, s'. split; [reflexivity|].
  split; [exact HI|]. eapply offer_same; [exact Ho|]. eapply Hsame. reflexivity.
Qed.

Lemma fail_offer s b s' : fail s = Some (b, s') -> same_offer s s'.
Proof.
  unfold fail, manageError.
  destruct (abortConnection s) as [s1|] eqn:Ha; [|discriminate].
  cbn [mbind option_bind]. intros [= <- <-].
  apply abortConnection_offer. exact Ha.
Qed.

Lemma fail_SInv s : SInv s -> spres (fail s).
Proof.
  intros [HI Ho]. eapply SInv_pres; [exact Ho| |apply fail_Inv; exact HI].
  intros b s'. apply fail_offer.
Qed.

End SenderFrames.

Section SenderSteps.
Import Syfft SyfftSender.

Lemma reader_rollback_same w :
  FileInTransfer.info_size (snd (Reader.rollback w)) = FileInTransfer.info_size w /\
  FileInTransfer.m_remainingBytes (snd (Reader.rollback w))
  = FileInTransfer.m_remainingBytes w.
Proof.
  unfold Reader.rollback. destruct w as [v sz e ex r st c rb o tmp d].
  destruct c; cbn; auto.
Qed.

Lemma reader_commit_same atEnd updated w :
  FileInTransfer.info_size (snd (Reader.commit atEnd updated w))
  = FileInTransfer.info_size w /\
  FileInTransfer.m_remainingBytes (snd (Reader.commit atEnd updated w))
  = FileInTransfer.m_remainingBytes w.
Proof.
  unfold Reader.commit, Reader.rollback.
  destruct w as [v sz e ex r st c rb o tmp d]. fit_simpl.
  destruct c; fit_simpl; [auto|].
  destruct (_ || _); fit_simpl; auto.
Qed.

Lemma reader_chunk_same buffer rd w :
  0 <= FileInTransfer.m_remainingBytes w ->
  let r := Reader.processNextDataChunk buffer rd w in
  FileInTransfer.info_size (snd r) = FileInTransfer.info_size w /\
  (if fst r
   then FileInTransfer.m_remainingBytes (snd r)
        = FileInTransfer.m_remainingBytes w - toRead w /\
        0 <= toRead w <= FileInTransfer.m_remainingBytes w
   else FileInTransfer.m_remainingBytes (snd r)
        = FileInTransfer.m_remainingBytes w).
Proof.
  intros Hrem. unfold Reader.processNextDataChunk, toRead,
    FileInTransfer.MAX_CHUNK_SIZE.
  destruct w as [v sz e ex r st c rb o tmp d]. fit_simpl.
  destruct (e || (r =? 0) || negb o); fit_simpl; [auto|].
  destruct (Z.gtb_spec r 8192); destruct (negb (rd =? _)); fit_simpl;
    repeat split; auto; lia.
Qed.

(** [transferNextFile] once [moveToNextFile] is known to keep the
    invariant: the reader of the next file, if any, is installed. *)
Lemma transferNextFile_moved a s1 :
  offer_inv (set_m_fileInTransfer None s1) -> eff s1 = InTransfer ->
  (exists b s', moveToNextFile (set_m_fileInTransfer None s1) = Some (b, s')
                /\ Inv s') ->
  spres1 (transferNextFile a s1).
Proof.
  intros Hoffer0 He (b & s' & Hm & HI').
  unfold transferNextFile. rewrite Hm. cbn [mbind option_bind fst snd].
  destruct (moveToNextFile_offer _ _ _ Hm) as [Hsame Hmore].
  pose proof (offer_same _ _ Hoffer0 Hsame) as Ho'.
  destruct b; cbn [negb].
  - specialize (Hmore eq_refl).
    assert (He' : eff s' = InTransfer)
      by (rewrite Hmore; destruct s1; exact He).
    assert (Hfit' : m_fileInTransfer s' = None)
      by (rewrite Hmore; destruct s1; reflexivity).
    pose proof (inv_data s' HI') as Hi'. rewrite He' in Hi'. cbn in Hi'.
    pose proof (inv_common s' HI') as Hc'.
    destruct (in_transfer_current s' Hc' Hi') as (g & Hg & _ & _).
    unfold currentFileInfo. rewrite Hg. cbn [mbind option_bind].
    set (w := Reader.create _ _ _ _ _).
    assert (Hw : FileInTransfer.info_size w = FileInfo.m_size g /\
                 FileInTransfer.m_remainingBytes w = FileInfo.m_size g).
    { unfold w, Reader.create, FileInTransfer.init.
      destruct (FileInfo.m_valid g), (r_updated a), (r_open a); cbn; auto. }
    destruct Hw as [Hw1 Hw2].
    destruct (replace_current s' g g w Hc' Hi' Hg) as [Hc2 Hi2]; auto.
    { unfold credit. rewrite Hfit'. reflexivity. }
    rewrite list_insert_id in Hc2, Hi2 by exact Hg.
    assert (Hsame2 : set_m_files (m_files s') s' = s') by (destruct s'; reflexivity).
    rewrite Hsame2 in Hc2, Hi2.
    eexists. split; [reflexivity|]. split.
    + apply Inv_released; [exact Hc2| |].
      * replace (eff (set_m_fileInTransfer (Some w) s')) with InTransfer
          by (rewrite <- He'; destruct s'; reflexivity).
        exact Hi2.
      * destruct Ho' as (_ & _ & Hp'). destruct s'; exact Hp'.
    + eapply offer_same; [exact Ho'|]. destruct s'; repeat split.
  - eexists. split; [reflexivity|]. split; assumption.
Qed.

(** The transfer of the current file is over, with status [st]: the sender
    goes on with the next file. *)
Lemma finish_transferNext a s s1 f st :
  common_inv s -> in_transfer s -> offer_inv s ->
  m_files s !! Z.to_nat (m_currentFile s) = Some f -> terminal st ->
  m_files s1
  = <[Z.to_nat (m_currentFile s) := FileInfo.setStatus st f]> (m_files s) ->
  m_currentFile s1 = m_currentFile s ->
  totalFiles s1 = totalFiles s -> totalBytes s1 = totalBytes s ->
  tb s1 = tb s -> tf s1 + sf s1 = tf s + sf s + 1 ->
  0 <= tf s1 -> 0 <= sf s1 ->
  m_preventUserTogglePause s1 = false -> eff s1 = InTransfer ->
  spres1 (transferNextFile a s1).
Proof.
  intros Hc Hi Ho Hf Hst Hfiles Hcur HnF HnB Htb Hcnt Htf Hsf Hp He.
  apply transferNextFile_moved; [|exact He|].
  - destruct Ho as (O1 & O2 & O3). unfold offer_inv, sizes.
    destruct s1; cbn in *. subst. unfold sizes in O2.
    rewrite (sizes_setStatus _ _ _ _ Hf). unfold zlen in *.
    rewrite length_insert. unfold totalFiles, totalBytes in *. cbn in *.
    split; [congruence|]. split; [congruence|reflexivity].
  - apply (finish_move s _ f st); auto;
      try (destruct s1; assumption); try (destruct s1; reflexivity).
Qed.

(** The sharing request is accepted: the sender starts with the first
    file. *)
Lemma start_transferNext a s :
  SInv s -> m_status s = Connected ->
  spres1 (transferNextFile a (setStatus InTransfer s)).
Proof.
  intros [HI Ho] Hst.
  destruct (running_Connected s HI Hst) as (Hp & Hpre & Hc).
  destruct Hpre as (Htf & Hsf & Htb & Hno & Hnone & _).
  pose proof Ho as (O1 & O2 & O3).
  apply transferNextFile_moved.
  - eapply offer_same; [exact Ho|]. destruct s; repeat split.
  - destruct s; reflexivity.
  - apply moveToNextFile_Inv.
    + eapply common_inv_frame; [| |exact Hc]; destruct s; reflexivity.
    + unfold advance_ready.
      destruct s as [st stk pk [nF tF sF nB tB sB] files cur fit msg dfa prev pend sock].
      unfold NO_FILE in *. sess_simpl. subst.
      change (wrap32 (4294967295 + 1)) with 0. sess_simpl.
      pose proof (zlen_nonneg files) as Hnn.
      change (Z.to_nat 0) with 0%nat. rewrite take_0. change (sumZ []) with 0.
      repeat split; intros; auto; lia.
    + destruct s; exact Hp.
    + destruct s; reflexivity.
Qed.

Lemma SInv_swap s w w' :
  SInv s -> m_status s = InTransfer -> m_fileInTransfer s = Some w ->
  FileInTransfer.info_size w' = FileInTransfer.info_size w ->
  FileInTransfer.m_remainingBytes w' = FileInTransfer.m_remainingBytes w ->
  SInv (set_m_fileInTransfer (Some w') s).
Proof.
  intros [HI Ho] Hst Hfit Hsz Hrem. split.
  - eapply writer_swap; eauto.
  - eapply offer_same; [exact Ho|]. destruct s; repeat split.
Qed.

Lemma sendDataChunks_SInv atEnd updated reads : forall s,
  SInv s -> m_status s = InTransfer -> is_Some (m_fileInTransfer s) ->
  spres1 (sendDataChunks reads atEnd updated s).
Proof.
  induction reads as [|rd reads IH]; intros s HS Hst [w Hfit];
    cbn [sendDataChunks]; [exists s; auto|].
  rewrite Hfit.
  pose proof HS as [HI Ho].
  destruct (running_InTransfer s HI Hst) as (Hp & Hi & Hc & He).
  pose proof Hi as (_ & _ & _ & _ & Hwr & _).
  destruct (Hwr w Hfit) as (f & _ & _ & Hrem).
  destruct (FileInTransfer.m_remainingBytes w =? 0).
  - eexists. split; [reflexivity|].
    destruct (reader_commit_same atEnd updated w) as [H1 H2].
    eapply SInv_swap; eauto.
  - pose proof (reader_chunk_same [] rd w (proj1 Hrem)) as [Hsz Hcase].
    destruct (Reader.processNextDataChunk [] rd w) as [ok w1].
    cbn [fst snd] in Hsz, Hcase.
    destruct ok; cbn [negb].
    + destruct Hcase as [Hr Hn].
      destruct (writer_progress s w w1 (toRead w) Hc Hi Hfit Hsz Hr Hn)
        as [Hc' Hi'].
      apply IH.
      * split.
        -- apply Inv_released; [exact Hc'| |destruct s; exact Hp].
           replace (eff _) with InTransfer
             by (rewrite <- He; destruct s; reflexivity).
           exact Hi'.
        -- eapply offer_same; [exact Ho|]. destruct s; repeat split.
      * destruct s; exact Hst.
      * destruct s; cbn; eauto.
    + eexists. split; [reflexivity|].
      destruct (reader_rollback_same w1) as [H1 H2].
      eapply SInv_swap; eauto; congruence.
Qed.

Lemma helloCommand_SInv complete uuidOk s :
  SInv s -> spres (SyfftSender.helloCommand complete uuidOk s).
Proof.
  intros HS. pose proof HS as [HI Ho]. unfold SyfftSender.helloCommand.
  destruct (bool_decide_reflect (m_status s = Connecting)) as [Hst|Hst];
    cbn [negb]; [|apply fail_SInv; exact HS].
  destruct complete; cbn [negb]; [|exists false, s; auto].
  destruct uuidOk; cbn [negb]; [|apply fail_SInv; exact HS].
  exists true. eexists. split; [reflexivity|].
  assert (Hp : m_preventUserTogglePause s = false) by apply Ho.
  pose proof (inv_data s HI) as Hd. unfold eff in Hd. rewrite Hst in Hd.
  cbn in Hd. pose proof (inv_common s HI) as Hc.
  split.
  - apply Inv_released.
    + eapply common_inv_frame; [| |exact Hc]; destruct s; reflexivity.
    + replace (eff (setStatus Connected s)) with Connected
        by (destruct s; reflexivity).
      eapply (data_inv_frame Connected); [| | | |exact Hd];
        destruct s; reflexivity.
    + destruct s; exact Hp.
  - eapply offer_same; [exact Ho|]. destruct s; repeat split.
Qed.

Lemma closeCommand_SInv s : SInv s -> spres (SyfftSender.closeCommand s).
Proof.
  intros [HI Ho].
  change (SyfftSender.closeCommand s) with (Syfft.closeCommand s).
  eapply SInv_pres; [exact Ho| |apply closeCommand_Inv; exact HI].
  intros b s'. unfold Syfft.closeCommand.
  destruct (bool_decide _); [intros [= <- <-]; apply same_offer_refl|].
  destruct (_ && _); [apply fail_offer|].
  intros [= <- <-]. apply closeConnection_offer.
Qed.

Lemma stopCommand_SInv s : SInv s -> spres (stopCommand s).
Proof.
  intros HS. unfold stopCommand.
  destruct (m_fileInTransfer s) as [w|] eqn:Hfit; [|apply fail_SInv; exact HS].
  destruct (bool_decide_reflect (m_status s = InTransfer)) as [Hst|Hst];
    cbn [negb orb]; [|apply fail_SInv; exact HS].
  destruct (negb (FileInTransfer.m_transferStarted w));
    [apply fail_SInv; exact HS|].
  destruct (negb (FileInTransfer.transferCompleted w)).
  - exists true. eexists. split; [reflexivity|].
    destruct (reader_rollback_same w) as [H1 H2].
    eapply SInv_swap; eauto.
  - exists true, s. auto.
Qed.

Lemma spres_next (o : option Session) :
  spres1 o -> spres (s ← o; Some (true, s)).
Proof. intros (s' & -> & HS). exists true, s'. auto. Qed.

Lemma commitCommand_SInv a s : SInv s -> spres (SyfftSender.commitCommand a s).
Proof.
  intros HS. pose proof HS as [HI Ho]. unfold SyfftSender.commitCommand.
  destruct (m_fileInTransfer s) as [w|] eqn:Hfit; [|apply fail_SInv; exact HS].
  destruct (bool_decide_reflect (m_status s = InTransfer)) as [Hst|Hst];
    cbn [negb orb]; [|apply fail_SInv; exact HS].
  destruct (negb (FileInTransfer.m_committed w)); [apply fail_SInv; exact HS|].
  destruct (running_InTransfer s HI Hst) as (Hp & Hi & Hc & He).
  destruct (in_transfer_current s Hc Hi) as (f & Hf & Hrange & Hfsz).
  destruct (counters_room s Hc Hi) as [Hsf1 Htf1].
  pose proof Hc as (_ & _ & _ & Htf & Hsf & _).
  unfold setCurrentFileStatus.
  destruct s as [st stk pk [nF tF sF nB tB sB] files cur fit msg dfa prev pend sock].
  sess_simpl. subst st prev fit. rewrite Hf. cbn. rewrite Htf1.
  apply spres_next.
  eapply (finish_transferNext a _ _ f FileInfo.Transferred); eauto; sess_simpl;
    auto using terminal_transferred; try lia.
Qed.

Lemma rollbkCommand_SInv a s : SInv s -> spres (SyfftSender.rollbkCommand a s).
Proof.
  intros HS. pose proof HS as [HI Ho]. unfold SyfftSender.rollbkCommand.
  destruct (m_fileInTransfer s) as [w|] eqn:Hfit; [|apply fail_SInv; exact HS].
  destruct (bool_decide_reflect (m_status s = InTransfer)) as [Hst|Hst];
    cbn [negb orb]; [|apply fail_SInv; exact HS].
  destruct (negb (FileInTransfer.transferCompleted w));
    [apply fail_SInv; exact HS|].
  destruct (running_InTransfer s HI Hst) as (Hp & Hi & Hc & He).
  destruct (in_transfer_current s Hc Hi) as (f & Hf & Hrange & Hfsz).
  destruct (counters_room s Hc Hi) as [Hsf1 Htf1].
  pose proof Hc as (_ & _ & _ & Htf & Hsf & _).
  cbv zeta. unfold setCurrentFileStatus.
  destruct s as [st stk pk [nF tF sF nB tB sB] files cur fit msg dfa prev pend sock].
  sess_simpl. subst st prev fit. rewrite Hf. cbn. rewrite Hsf1.
  apply spres_next.
  eapply (finish_transferNext a _ _ f FileInfo.TransferFailed); eauto;
    sess_simpl; auto using terminal_failed; try lia.
Qed.

Lemma rejectCommand_SInv a s : SInv s -> spres (SyfftSender.rejectCommand a s).
Proof.
  intros HS. pose proof HS as [HI Ho]. unfold SyfftSender.rejectCommand.
  destruct (bool_decide_reflect (m_status s = Connected)) as [Hcon|Hcon].
  - destruct (running_Connected s HI Hcon) as (Hp & Hpre & Hc).
    exists true. eexists. split; [reflexivity|].
    destruct Hpre as (Htf & Hsf & Htb & Hno & Hnone & _).
    destruct Ho as (O1 & O2 & O3).
    split.
    + apply closeConnection_Inv.
      * destruct s as [st stk pk [nF tF sF nB tB sB] files cur fit msg dfa prev pend sock].
        unfold common_inv in *. sess_simpl. repeat split; try tauto; lia.
      * destruct s as [st stk pk [nF tF sF nB tB sB] files cur fit msg dfa prev pend sock].
        unfold finished, attempted_terminal, common_inv in *. sess_simpl.
        subst. repeat split; auto; try lia; try tauto.
      * destruct s; exact Hp.
      * destruct s; discriminate.
      * destruct s; discriminate.
      * destruct s; discriminate.
      * destruct s; discriminate.
    + eapply offer_same; [split; [exact O1|split; [exact O2|exact O3]]|].
      eapply same_offer_trans; [|apply closeConnection_offer].
      destruct s as [st stk pk [nF tF sF nB tB sB] files cur fit msg dfa prev pend sock].
      repeat split.
  - destruct (m_fileInTransfer s) as [w|] eqn:Hfit; [|apply fail_SInv; exact HS].
    destruct (bool_decide_reflect (m_status s = InTransfer)) as [Hst|Hst];
      cbn [andb]; [|apply fail_SInv; exact HS].
    destruct (negb (FileInTransfer.m_transferStarted w));
      [|apply fail_SInv; exact HS].
    destruct (running_InTransfer s HI Hst) as (Hp & Hi & Hc & He).
    destruct (in_transfer_current s Hc Hi) as (f & Hf & Hrange & Hfsz).
    destruct (counters_room s Hc Hi) as [Hsf1 Htf1].
    pose proof Hc as (_ & _ & _ & Htf & Hsf & _).
    cbv zeta. unfold setCurrentFileStatus.
    destruct s as [st stk pk [nF tF sF nB tB sB] files cur fit msg dfa prev pend sock].
    sess_simpl. subst st prev fit. rewrite Hf. cbn. rewrite Hsf1.
    apply spres_next.
    destruct (FileInTransfer.m_error w).
    + eapply (finish_transferNext a _ _ f FileInfo.TransferFailed); eauto;
        sess_simpl; auto using terminal_failed; try lia.
    + eapply (finish_transferNext a _ _ f FileInfo.TransferRejected); eauto;
        sess_simpl; auto using terminal_rejected; try lia.
Qed.

Lemma acceptCommand_SInv a reads atEnd updated s :
  SInv s -> spres (acceptCommand a reads atEnd updated s).
Proof.
  intros HS. pose proof HS as [HI Ho]. unfold acceptCommand.
  destruct (bool_decide_reflect (m_status s = Connected)) as [Hcon|Hcon].
  - apply spres_next. apply start_transferNext; assumption.
  - destruct (m_fileInTransfer s) as [w|] eqn:Hfit; [|apply fail_SInv; exact HS].
    destruct (bool_decide_reflect (m_status s = InTransfer)) as [Hst|Hst];
      cbn [andb]; [|apply fail_SInv; exact HS].
    destruct (negb (FileInTransfer.m_error w) &&
              negb (FileInTransfer.m_transferStarted w));
      [|apply fail_SInv; exact HS].
    destruct (running_InTransfer s HI Hst) as (Hp & Hi & Hc & He).
    destruct (acceptFileTransfer_Inv s Hc Hi He Hp) as (s1 & H1 & HI1);
      [rewrite Hfit; eauto|].
    unfold acceptFileTransfer in H1. rewrite Hfit in H1.
    cbn [mbind option_bind] in H1. rewrite H1. cbn [mbind option_bind].
    pose proof (setCurrentFileStatus_offer _ _ _ H1) as Hsame.
    apply setCurrentFileStatus_Some in H1 as (f & Hf & Heq).
    apply spres_next. apply sendDataChunks_SInv.
    + split; [exact HI1|]. eapply offer_same; eassumption.
    + rewrite Heq. destruct s; exact Hst.
    + rewrite Heq. destruct s; cbn in *. rewrite Hfit. eauto.
Qed.

Lemma command_SInv c s : SInv s -> spres (SyfftSender.command c s).
Proof.
  intros HS. destruct c; cbn [SyfftSender.command].
  - apply helloCommand_SInv; exact HS.
  - apply acceptCommand_SInv; exact HS.
  - apply rejectCommand_SInv; exact HS.
  - apply commitCommand_SInv; exact HS.
  - apply rollbkCommand_SInv; exact HS.
  - apply stopCommand_SInv; exact HS.
  - apply closeCommand_SInv; exact HS.
  - destruct HS as [HI Ho].
    destruct (togglePauseMode_Inv false s HI) as (st & stk & Heq & _ & HI').
    rewrite Heq. cbn. exists true. eexists. split; [reflexivity|].
    split; [exact HI'|].
    eapply offer_same; [exact Ho|]. eapply togglePauseMode_offer; exact Heq.
  - apply fail_SInv; exact HS.
  - apply fail_SInv; exact HS.
Qed.

Lemma processCommands_SInv cmds : forall s,
  SInv s -> spres1 (SyfftSender.processCommands cmds s).
Proof.
  induction cmds as [|c cmds IH]; intros s HS;
    cbn [SyfftSender.processCommands]; [exists s; auto|].
  destruct (command_SInv c s HS) as (b & s' & -> & HS').
  destruct b; [apply IH; exact HS'|exists s'; auto].
Qed.

Lemma readData_SInv cmds s : SInv s -> spres1 (SyfftSender.readData cmds s).
Proof.
  intros HS. unfold SyfftSender.readData.
  destruct (bool_decide _); [exists s; auto|apply processCommands_SInv; exact HS].
Qed.

Lemma addToFileList_inv relativePath size lastModified l :
  list_inv l ->
  list_inv (TransferList.addToFileList relativePath size lastModified l).
Proof.
  intros [Hall Hsum]. unfold TransferList.addToFileList.
  destruct (FileInfo.m_valid _) eqn:Hv; cbn [negb]; [|split; assumption].
  assert (Hf : FileInfo.m_status
                 (FileInfo.make relativePath (wrap64 size) lastModified)
               = FileInfo.Scheduled /\
               FileInfo.m_size
                 (FileInfo.make relativePath (wrap64 size) lastModified)
               = wrap64 size).
  { unfold FileInfo.make. destruct (FileInfo.looks_strange _); auto. }
  destruct Hf as [Hst Hsz].
  split; cbn [TransferList.m_files TransferList.m_totalBytes].
  - apply Forall_app. split; [exact Hall|].
    constructor; [|constructor].
    rewrite Hsz. pose proof (wrap64_range size). auto.
  - rewrite Hsum, map_app, sumZ_app. cbn [map]. rewrite Hsz.
    change (sumZ [wrap64 size]) with (wrap64 size + sumZ []).
    change (sumZ []) with 0. rewrite Z.add_0_r.
    unfold wrap64. rewrite Zplus_mod_idemp_l. reflexivity.
Qed.

Lemma build_inv items : list_inv (TransferList.build items).
Proof.
  unfold TransferList.build.
  assert (H0 : list_inv (TransferList.mk [] 0)).
  { split; [constructor|reflexivity]. }
  revert H0. generalize (TransferList.mk [] 0).
  induction items as [|item items IH]; intros l Hl; cbn [fold_left];
    [exact Hl|].
  apply IH. apply addToFileList_inv. exact Hl.
Qed.

Lemma SInv_create : SInv SyfftSender.create.
Proof.
  split.
  - eapply Inv_frame; [..|exact Inv_create]; reflexivity.
  - repeat split.
Qed.

Lemma sendFiles_SInv items s :
  SInv s ->
  zlen (TransferList.m_files (TransferList.build items)) < INT_MAX ->
  forall s', sendFiles (TransferList.build items) s = Some s' -> SInv s'.
Proof.
  intros [HI Ho] Hlen s'. unfold sendFiles.
  destruct (bool_decide_reflect (m_status s = New)) as [Hst|Hst];
    cbn [negb]; [|discriminate].
  intros [= <-].
  destruct (build_inv items) as [Hall Hsum].
  set (files := TransferList.m_files (TransferList.build items)) in *.
  pose proof (zlen_nonneg files) as Hnn.
  pose proof (inv_data s HI) as Hd. unfold eff in Hd. rewrite Hst in Hd.
  cbn in Hd. destruct Hd as (Htf & Hsf & Htb & Hno & Hnone & _).
  pose proof (inv_common s HI) as (_ & _ & _ & _ & _ & _).
  destruct Ho as (_ & _ & Hp).
  unfold TransferList.totalFiles, TransferList.totalBytes. fold files.
  rewrite Hsum. fold files.
  unfold INT_MAX in Hlen.
  rewrite (wrap32_small (zlen files)) by lia.
  destruct s as [st stk pk [nF tF sF nB tB sB] files0 cur fit msg dfa prev pend sock].
  sess_simpl. subst.
  split.
  - apply Inv_released; sess_simpl; auto.
    + unfold common_inv, INT_MAX; sess_simpl.
      pose proof (wrap64_range (sumZ (map FileInfo.m_size files))).
      repeat split; try lia.
      rewrite Forall_map. eapply Forall_impl; [exact Hall|].
      intros f (_ & _ & Hf). exact Hf.
    + unfold pre_transfer; sess_simpl. repeat split; auto; lia.
  - unfold offer_inv; sess_simpl. auto.
Qed.

Lemma abortConnection_SInv s :
  SInv s -> spres1 (abortConnection s).
Proof.
  intros [HI Ho]. destruct (abortConnection_Inv s HI) as (s' & Ha & HI' & _).
  exists s'. split; [exact Ha|]. split; [exact HI'|].
  eapply offer_same; [exact Ho|]. apply abortConnection_offer. exact Ha.
Qed.

Lemma SInv_socket b s : SInv s -> SInv (set_socketUnconnected b s).
Proof.
  intros [HI Ho]. split.
  - eapply Inv_frame; [..|exact HI]; destruct s; reflexivity.
  - eapply offer_same; [exact Ho|]. destruct s; repeat split.
Qed.

(** Every event that occurs preserves the invariant of the sender. *)
Lemma sender_step_SInv s e s' :
  SInv s -> SyfftSender.step s e = Some s' -> SInv s'.
Proof.
  intros HS. pose proof HS as [HI Ho]. destruct e; cbn [SyfftSender.step].
  - destruct (Z.ltb_spec (zlen (TransferList.m_files (TransferList.build items)))
                INT_MAX) as [Hlt|_]; [|discriminate].
    apply sendFiles_SInv; assumption.
  - unfold onConnected. cbv zeta.
    pose proof (SInv_socket false s HS) as HS1.
    destruct (negb writeOk); [|intros [= <-]; exact HS1].
    unfold manageError.
    destruct (abortConnection_SInv _ HS1) as (s1 & -> & H1).
    intros [= <-]; exact H1.
  - unfold onBytesWritten.
    destruct (m_fileInTransfer s) as [w|] eqn:Hfit; [|intros [= <-]; exact HS].
    destruct (bool_decide_reflect (m_status s = InTransfer)) as [Hst|Hst];
      cbn [andb]; [|intros [= <-]; exact HS].
    destruct (_ && _); [|intros [= <-]; exact HS].
    destruct (sendDataChunks_SInv atEnd updated reads s HS Hst)
      as (s1 & -> & H1); [rewrite Hfit; eauto|].
    intros [= <-]; exact H1.
  - destruct (readData_SInv cmds s HS) as (s1 & -> & H1).
    intros [= <-]; exact H1.
  - unfold updatePeer. destruct changed; [|intros [= <-]; exact HS].
    destruct (abortConnection_SInv s HS) as (s1 & -> & H1).
    intros [= <-]; exact H1.
  - unfold updatePeer. destruct changed; [|intros [= <-]; exact HS].
    destruct (abortConnection_SInv s HS) as (s1 & -> & H1).
    intros [= <-]; exact H1.
  - intros Hch. split.
    + destruct (changePauseMode_Inv enterPauseMode s HI) as (s1 & H1 & HI1).
      congruence.
    + eapply offer_same; [exact Ho|]. unfold changePauseMode in Hch.
      destruct (_ || _); [injection Hch as <-; apply same_offer_refl|].
      eapply togglePauseMode_offer; exact Hch.
  - destruct (abortConnection_SInv s HS) as (s1 & -> & H1).
    intros [= <-]; exact H1.
  - intros Herr. split.
    + destruct (onSocketError_Inv remoteHostClosed s HI) as (s1 & H1 & HI1).
      congruence.
    + unfold onSocketError in Herr.
      destruct (_ && remoteHostClosed).
      * eapply offer_same; [|eapply togglePauseMode_offer; exact Herr].
        eapply offer_same; [exact Ho|].
        destruct Ho as (_ & _ & Hp). repeat split.
        rewrite Hp. destruct s; reflexivity.
      * destruct (_ && _); [|injection Herr as <-; exact Ho].
        eapply offer_same; [exact Ho|]. apply abortConnection_offer.
        exact Herr.
  - intros [= <-]. split.
    + apply onDisconnected_Inv. exact HI.
    + eapply offer_same; [apply (SInv_socket true s HS)|].
      apply onDisconnected_offer.
Qed.

Lemma sender_run_SInv events : forall s s',
  SInv s -> SyfftSender.run s events = Some s' -> SInv s'.
Proof.
  induction events as [|e rest IH]; intros s s' HS; cbn [SyfftSender.run].
  - intros [= <-]; exact HS.
  - destruct (SyfftSender.step s e) as [s1|] eqn:Hstep; cbn; [|discriminate].
    apply IH. eapply sender_step_SInv; eauto.
Qed.

End SenderSteps.

(** ** The receiving session, whatever the order of the events *)

Section SafeSteps.
Import Syfft.

Lemma Safe_create : Safe create.
Proof.
  split; [split|..]; unfold create, INT_MAX, NO_FILE; sess_simpl;
    try lia; try discriminate; auto.
  intros _ H. apply elem_of_nil in H. destruct H.
Qed.

(** What [togglePauseMode] changes: the status and the stack, in such a way
    that the status to return to stays the same. *)
Lemma togglePauseMode_shape u s s' :
  togglePauseMode u s = Some s' ->
  exists st stk,
    s' = set_m_status st (set_m_oldStatusStack stk s) /\
    first_np (st :: stk) = eff s /\
    (m_status s = Aborted -> st = Aborted).
Proof.
  unfold togglePauseMode.
  assert (Hsame : Some s = Some s' ->
            exists st stk,
              s' = set_m_status st (set_m_oldStatusStack stk s) /\
              first_np (st :: stk) = eff s /\
              (m_status s = Aborted -> st = Aborted)).
  { intros [= <-]. exists (m_status s), (m_oldStatusStack s).
    destruct s; sess_simpl. auto. }
  destruct (bool_decide_reflect (m_status s = New)) as [|H1]; [exact Hsame|].
  destruct (bool_decide_reflect (m_status s = Aborted)) as [|H2]; [exact Hsame|].
  destruct (bool_decide_reflect (m_status s = Closing)) as [|H3]; [exact Hsame|].
  destruct (bool_decide_reflect (m_status s = Closed)) as [|H4]; [exact Hsame|].
  cbn [orb].
  destruct (u && m_preventUserTogglePause s); [exact Hsame|].
  destruct (bool_decide_reflect
              (m_status s = (if u then PausedByUser else PausedByPeer)))
    as [Hp|Hp].
  - destruct (m_oldStatusStack s) as [|o rest] eqn:Hstk; [discriminate|].
    intros [= <-]. exists o, rest. split; [reflexivity|].
    split.
    + unfold eff. rewrite Hstk, Hp. destruct u; reflexivity.
    + intros Hab. contradiction.
  - intros [= <-].
    exists (if u then PausedByUser else PausedByPeer),
      (m_status s :: m_oldStatusStack s).
    split; [reflexivity|]. split.
    + unfold eff. destruct u; reflexivity.
    + intros Hab. contradiction.
Qed.

Lemma togglePauseMode_total u s :
  is_pause (eff s) = false -> exists s', togglePauseMode u s = Some s'.
Proof.
  intros He. unfold togglePauseMode.
  destruct (_ || _); [eauto|].
  destruct (u && _); [eauto|].
  destruct (bool_decide_reflect
              (m_status s = (if u then PausedByUser else PausedByPeer)))
    as [Hp|Hp]; [|eauto].
  destruct (m_oldStatusStack s) as [|o rest] eqn:Hstk; [|eauto].
  unfold eff in He. rewrite Hstk, Hp in He. destruct u; discriminate.
Qed.

(** The parts of a state that the invariant reads. *)
Lemma eff_frame s s' :
  m_status s' = m_status s -> m_oldStatusStack s' = m_oldStatusStack s ->
  eff s' = eff s.
Proof. destruct s, s'; sess_simpl. intros -> ->. reflexivity. Qed.

Lemma Core_frame s s' :
  m_status s' = m_status s -> m_oldStatusStack s' = m_oldStatusStack s ->
  totalFiles s' = totalFiles s -> tb s' = tb s -> m_files s' = m_files s ->
  0 <= m_currentFile s' <= NO_FILE ->
  (forall w, m_fileInTransfer s' = Some w -> writer_inv w) ->
  m_shareMsgNull s' = m_shareMsgNull s ->
  (SharingRequest ∈ pendingRequests s' -> SharingRequest ∈ pendingRequests s) ->
  Core s -> Core s'.
Proof.
  intros H1 H2 H3 H4 H5 H6 H7 H8 H9
    [core_total core_tb core_sizes core_eff core_cur core_files core_request core_writer].
  split; rewrite ?(eff_frame s s' H1 H2), ?H1, ?H3, ?H4, ?H8; auto.
  - unfold sizes. rewrite H5. assumption.
  - rewrite H5. assumption.
  - rewrite H5. auto.
Qed.

Lemma Safe_frame s s' :
  m_status s' = m_status s -> m_oldStatusStack s' = m_oldStatusStack s ->
  totalFiles s' = totalFiles s -> tb s' = tb s -> m_files s' = m_files s ->
  m_currentFile s' = m_currentFile s ->
  (forall w, m_fileInTransfer s' = Some w -> writer_inv w) ->
  m_shareMsgNull s' = m_shareMsgNull s ->
  (SharingRequest ∈ pendingRequests s' -> SharingRequest ∈ pendingRequests s) ->
  Safe s -> Safe s'.
Proof.
  intros H1 H2 H3 H4 H5 H6 H7 H8 H9 [Hc Hs Ht Hb].
  split; [eapply Core_frame; eauto; rewrite H6; apply Hc|..];
    rewrite ?(eff_frame s s' H1 H2), ?H3, ?H5, ?H6; auto.
Qed.

Lemma eff_status st stk s :
  eff (set_m_status st (set_m_oldStatusStack stk s)) = first_np (st :: stk).
Proof. destruct s; reflexivity. Qed.

Lemma Core_status st stk s :
  first_np (st :: stk) = eff s -> (m_status s = Aborted -> st = Aborted) ->
  Core s -> Core (set_m_status st (set_m_oldStatusStack stk s)).
Proof.
  intros He Hab
    [core_total core_tb core_sizes core_eff core_cur core_files core_request core_writer].
  split.
  all: try (rewrite eff_status, He; assumption).
  all: destruct s; sess_simpl; auto.
Qed.

Lemma Safe_status st stk s :
  first_np (st :: stk) = eff s -> (m_status s = Aborted -> st = Aborted) ->
  Safe s -> Safe (set_m_status st (set_m_oldStatusStack stk s)).
Proof.
  intros He Hab [Hc Hs Ht Hb].
  split; [apply Core_status; auto|..].
  all: try (rewrite eff_status, He; assumption).
  all: destruct s; sess_simpl; auto.
Qed.

Lemma togglePauseMode_Safe u s :
  Safe s -> exists s', togglePauseMode u s = Some s' /\ Safe s'.
Proof.
  intros HS.
  destruct (togglePauseMode_total u s) as [s' Ht];
    [apply core_eff, safe_core, HS|].
  exists s'. split; [exact Ht|].
  destruct (togglePauseMode_shape u s s' Ht) as (st & stk & -> & He & Hab).
  apply Safe_status; auto.
Qed.

Lemma eff_setStatus x s : is_pause x = false -> eff (setStatus x s) = x.
Proof. intros Hx. destruct s; sess_simpl. rewrite Hx. reflexivity. Qed.

(** A status that is not a pause is set. *)
Lemma Core_setStatus x s :
  is_pause x = false -> m_status s <> Aborted \/ x = Aborted ->
  Core s -> Core (setStatus x s).
Proof.
  intros Hx Hab
    [core_total core_tb core_sizes core_eff core_cur core_files core_request core_writer].
  split.
  all: try (rewrite eff_setStatus by exact Hx; exact Hx).
  all: destruct s; sess_simpl; auto.
  intros Hst. apply core_request. destruct Hab as [Hab|Hab]; congruence.
Qed.

Lemma Safe_index s :
  Safe s -> m_currentFile s < totalFiles s ->
  0 <= m_currentFile s < zlen (m_files s).
Proof.
  intros [Hc Hs _ _] Hlt. pose proof (core_cur s Hc) as Hcur.
  pose proof (core_total s Hc) as Htot. unfold INT_MAX, NO_FILE in *.
  rewrite Hs by lia. lia.
Qed.

Lemma setCurrentFileStatus_total st s :
  0 <= m_currentFile s < zlen (m_files s) ->
  exists s', setCurrentFileStatus st s = Some s'.
Proof.
  intros H. destruct (lookup_zlen (m_files s) (m_currentFile s) H) as [f Hf].
  unfold setCurrentFileStatus, currentFileInfo. rewrite Hf. cbn. eauto.
Qed.

Lemma Core_files g s f :
  m_files s !! Z.to_nat (m_currentFile s) = Some f ->
  FileInfo.m_size g = FileInfo.m_size f ->
  Core s ->
  Core (set_m_files (<[Z.to_nat (m_currentFile s) := g]> (m_files s)) s).
Proof.
  intros Hf Hsz []. destruct s; sess_simpl.
  split; sess_simpl; auto.
  - rewrite (sizes_insert _ _ _ _ Hf Hsz). assumption.
  - rewrite zlen_insert. assumption.
  - rewrite zlen_insert. assumption.
Qed.

Lemma Safe_files g s f :
  m_files s !! Z.to_nat (m_currentFile s) = Some f ->
  FileInfo.m_size g = FileInfo.m_size f ->
  Safe s ->
  Safe (set_m_files (<[Z.to_nat (m_currentFile s) := g]> (m_files s)) s).
Proof.
  intros Hf Hsz [Hc Hs Ht Hb].
  split; [eapply Core_files; eauto|..]; destruct s; sess_simpl; auto.
  rewrite zlen_insert. assumption.
Qed.

Lemma setCurrentFileStatus_Safe st s s' :
  Safe s -> setCurrentFileStatus st s = Some s' -> Safe s'.
Proof.
  intros HS H. apply setCurrentFileStatus_Some in H as (f & Hf & ->).
  eapply Safe_files; eauto.
Qed.

Lemma setCurrentFileStatus_Core st s s' :
  Core s -> setCurrentFileStatus st s = Some s' -> Core s'.
Proof.
  intros HS H. apply setCurrentFileStatus_Some in H as (f & Hf & ->).
  eapply Core_files; eauto.
Qed.

Lemma setCurrentFileStatus_same st s s' :
  setCurrentFileStatus st s = Some s' ->
  m_status s' = m_status s /\ m_oldStatusStack s' = m_oldStatusStack s /\
  m_transferInfo s' = m_transferInfo s /\
  m_currentFile s' = m_currentFile s /\
  m_fileInTransfer s' = m_fileInTransfer s /\
  zlen (m_files s') = zlen (m_files s) /\
  is_Some (currentFileInfo s').
Proof.
  intros H. apply setCurrentFileStatus_Some in H as (f & Hf & ->).
  destruct s; sess_simpl. rewrite zlen_insert.
  repeat split; auto. rewrite list_lookup_insert_eq; [eauto|].
  apply lookup_lt_Some in Hf. exact Hf.
Qed.

(** [abortConnection] is defined on every safe state. *)
Lemma abortConnection_Safe s :
  Safe s ->
  exists s', abortConnection s = Some s' /\ Safe s' /\
    (s' = s \/ m_status s' = Aborted).
Proof.
  intros HS. unfold abortConnection.
  destruct (_ || _ || _); [eauto|].
  set (s1 := update_info _ (update_info _ (setStatus Aborted s))).
  assert (H1 : Safe s1).
  { destruct HS as [HC Hs Ht Hb].
  destruct HC as [core_total core_tb core_sizes core_eff core_cur core_files
                 core_request core_writer]. unfold s1.
    destruct s as [st stk pk [nF tF sF nB tB sB] files cur fit msg dfa prev pend sock].
    sess_simpl. split; [split|..]; sess_simpl; auto; try discriminate. }
  assert (Hsame : m_currentFile s1 = m_currentFile s /\
                  totalFiles s1 = totalFiles s /\ m_files s1 = m_files s)
    by (destruct s as [? ? ? [] ? ? ? ? ? ? ? ?]; auto).
  destruct Hsame as (Hcur & Htot & Hfl).
  assert (Hfin : forall s2, Safe s2 -> m_status s2 = Aborted ->
            Safe (set_socketUnconnected true (set_m_fileInTransfer None s2))).
  { intros s2 [HC Hs Ht Hb] Hst.
    destruct HC as [core_total core_tb core_sizes core_eff core_cur core_files
                 core_request core_writer].
    destruct s2. sess_simpl. split; [split|..]; sess_simpl; auto; discriminate. }
  assert (Hst1 : m_status s1 = Aborted)
    by (destruct s as [? ? ? [] ? ? ? ? ? ? ? ?]; reflexivity).
  destruct (Z.ltb_spec (m_currentFile s1) (totalFiles s1)) as [Hlt|Hge].
  - destruct (setCurrentFileStatus_total FileInfo.TransferFailed s1) as [s2 H2].
    { apply Safe_index; auto. }
    rewrite H2. cbn [mbind option_bind].
    eexists. split; [reflexivity|].
    destruct (setCurrentFileStatus_same _ _ _ H2) as (Hst2 & _).
    split; [|right; destruct s2; sess_simpl; congruence].
    apply Hfin; [eapply setCurrentFileStatus_Safe; eauto|congruence].
  - cbn [mbind option_bind]. eexists. split; [reflexivity|].
    split; [|right; destruct s1; sess_simpl; congruence].
    apply Hfin; auto.
Qed.

Lemma fail_Safe s :
  Safe s -> exists b s', fail s = Some (b, s') /\ Safe s'.
Proof.
  intros HS. destruct (abortConnection_Safe s HS) as (s' & H & HS' & _).
  unfold fail, manageError. rewrite H. cbn. eauto.
Qed.

Lemma onDisconnected_Safe s : Safe s -> Safe (onDisconnected s).
Proof.
  intros HS. unfold onDisconnected.
  destruct (bool_decide_reflect (m_status s = Closing)) as [Hst|]; [|exact HS].
  destruct HS as [Hc Hs Ht Hb].
  split; [apply Core_setStatus; auto; left; congruence|..];
    rewrite ?eff_setStatus by reflexivity;
    try discriminate; destruct s; sess_simpl; auto.
Qed.

Lemma closeConnection_Safe s : Safe s -> Safe (closeConnection s).
Proof.
  intros HS. unfold closeConnection.
  destruct (bool_decide_reflect (m_status s = New)); [exact HS|].
  destruct (bool_decide_reflect (m_status s = Closing)); [exact HS|].
  destruct (bool_decide_reflect (m_status s = Closed)); [exact HS|].
  destruct (bool_decide_reflect (m_status s = Aborted)) as [|Hab]; [exact HS|].
  cbn [orb].
  assert (H1 : Safe (setStatus Closing s)).
  { destruct HS as [Hc Hs Ht Hb].
    split; [apply Core_setStatus; auto|..];
      rewrite ?eff_setStatus by reflexivity;
      try discriminate; destruct s; sess_simpl; auto. }
  destruct (socketUnconnected _); [apply onDisconnected_Safe|]; exact H1.
Qed.

End SafeSteps.

Ltac fields :=
  repeat match goal with
  | s : Syfft.Session |- _ => destruct s as [? ? ? [] ? ? ? ? ? ? ? ?]
  end;
  sess_simpl; auto.

Section SafeFiles.
Import Syfft.

Lemma transfer_running s :
  Safe s -> m_status s = InTransfer ->
  0 <= m_currentFile s < totalFiles s /\ zlen (m_files s) = totalFiles s /\
  eff s = InTransfer.
Proof.
  intros HS Hst.
  assert (He : eff s = InTransfer)
    by (unfold eff; rewrite Hst; reflexivity).
  pose proof (safe_transfer s HS He) as Hlt.
  pose proof (Safe_index s HS Hlt) as Hi.
  pose proof (core_total s (safe_core s HS)) as Ht.
  unfold INT_MAX, NO_FILE in *.
  split; [lia|]. split; [|exact He].
  apply (safe_started s HS). unfold NO_FILE. lia.
Qed.

(** A current index that is the index of a listed file: the transfer has
    begun and the list is complete. *)
Lemma listed_started s f :
  Safe s -> m_files s !! Z.to_nat (m_currentFile s) = Some f ->
  before_transfer (eff s) = false /\ zlen (m_files s) = totalFiles s /\
  0 <= m_currentFile s < totalFiles s.
Proof.
  intros HS Hf.
  pose proof (lookup_zlen_lt _ _ _ Hf) as Hlt.
  pose proof (core_cur s (safe_core s HS)) as Hcur.
  pose proof (core_files s (safe_core s HS)) as Hfl.
  pose proof (core_total s (safe_core s HS)) as Ht.
  unfold INT_MAX, NO_FILE in *.
  assert (Hc : m_currentFile s < zlen (m_files s)) by lia.
  assert (Hno : m_currentFile s <> NO_FILE) by (unfold NO_FILE; lia).
  split; [|split; [apply (safe_started s HS Hno)|lia]].
  destruct (before_transfer (eff s)) eqn:Hb; [|reflexivity].
  elim Hno. apply (safe_before s HS Hb).
Qed.

Lemma moveToNextFile_Safe s b s' :
  Core s -> m_status s <> Aborted -> before_transfer (eff s) = false ->
  zlen (m_files s) = totalFiles s ->
  moveToNextFile s = Some (b, s') -> Safe s'.
Proof.
  intros Hc Hab Hbt Hlen. unfold moveToNextFile.
  set (s1 := set_m_currentFile (wrap32 (m_currentFile s + 1)) s).
  pose proof (wrap32_range (m_currentFile s + 1)) as Hw.
  assert (Hc1 : Core s1).
  { eapply Core_frame; [..|exact Hc]; try (unfold s1; fields; fail).
    - unfold s1, NO_FILE. fields. lia.
    - apply Hc. }
  assert (He1 : eff s1 = eff s) by (unfold s1; destruct s; reflexivity).
  assert (Hf1 : m_files s1 = m_files s) by (unfold s1; destruct s; reflexivity).
  assert (Ht1 : totalFiles s1 = totalFiles s)
    by (unfold s1; destruct s; reflexivity).
  assert (Hs1 : m_status s1 = m_status s) by (unfold s1; destruct s; reflexivity).
  destruct (Z.eqb_spec (m_currentFile s1) (totalFiles s1)) as [Heq|Hne].
  - intros [= <- <-]. apply closeConnection_Safe.
    split; [apply Core_setStatus; auto; left; congruence|..];
      rewrite ?eff_setStatus by reflexivity; try discriminate.
    + intros _. replace (m_files (setStatus TransferCompleted s1))
        with (m_files s) by (unfold s1; destruct s; reflexivity).
      replace (totalFiles (setStatus TransferCompleted s1))
        with (totalFiles s) by (unfold s1; destruct s; reflexivity).
      exact Hlen.
  - destruct (currentFileInfo s1) as [f|] eqn:Hf; [|discriminate].
    cbn [mbind option_bind]. intros [= <- <-].
    unfold currentFileInfo in Hf.
    pose proof (lookup_zlen_lt _ _ _ Hf) as Hlt.
    assert (Hcur1 : 0 <= m_currentFile s1) by (unfold s1; fields; lia).
    split; [exact Hc1|..]; rewrite ?He1, ?Hf1, ?Ht1.
    + intros _. exact Hlen.
    + intros _. rewrite Hf1 in Hlt. lia.
    + rewrite Hbt. discriminate.
Qed.

Lemma moveToNextFile_total s :
  zlen (m_files s) = totalFiles s -> 0 <= totalFiles s < INT_MAX ->
  m_currentFile s = NO_FILE \/ 0 <= m_currentFile s < totalFiles s ->
  exists b s', moveToNextFile s = Some (b, s').
Proof.
  intros Hlen Ht Hcur. unfold moveToNextFile.
  set (s1 := set_m_currentFile (wrap32 (m_currentFile s + 1)) s).
  assert (Hf1 : m_files s1 = m_files s) by (unfold s1; destruct s; reflexivity).
  assert (Ht1 : totalFiles s1 = totalFiles s)
    by (unfold s1; destruct s; reflexivity).
  assert (Hc1 : m_currentFile s1 = wrap32 (m_currentFile s + 1))
    by (unfold s1; destruct s; reflexivity).
  destruct (Z.eqb_spec (m_currentFile s1) (totalFiles s1)) as [Heq|Hne];
    [eauto|].
  assert (Hr : 0 <= m_currentFile s1 < zlen (m_files s1)).
  { rewrite Hf1, Hlen, Hc1. rewrite Hc1, Ht1 in Hne.
    unfold INT_MAX, NO_FILE in *.
    destruct Hcur as [Hno|Hcur].
    - rewrite Hno in *. change (wrap32 (4294967295 + 1)) with 0 in *. lia.
    - rewrite wrap32_small in * by lia. lia. }
  destruct (lookup_zlen _ _ Hr) as [f Hf].
  unfold currentFileInfo. rewrite Hf. cbn. eauto.
Qed.

Lemma acceptFileTransfer_Safe s s' :
  Safe s -> acceptFileTransfer s = Some s' -> Safe s'.
Proof.
  intros HS. unfold acceptFileTransfer.
  destruct (m_fileInTransfer s); [|discriminate]. cbn [mbind option_bind].
  apply setCurrentFileStatus_Safe, HS.
Qed.

Lemma acceptFileTransfer_total s :
  Safe s -> m_status s = InTransfer -> is_Some (m_fileInTransfer s) ->
  exists s', acceptFileTransfer s = Some s' /\ Safe s' /\
    m_status s' = InTransfer.
Proof.
  intros HS Hst [w Hw]. unfold acceptFileTransfer. rewrite Hw.
  cbn [mbind option_bind].
  destruct (transfer_running s HS Hst) as (Hcur & Hlen & He).
  destruct (setCurrentFileStatus_total FileInfo.InTransfer s) as [s' H];
    [lia|].
  exists s'. split; [exact H|].
  split; [eapply setCurrentFileStatus_Safe; eauto|].
  destruct (setCurrentFileStatus_same _ _ _ H) as (-> & _). exact Hst.
Qed.

Lemma rejectFileTransfer_Safe s s' :
  Safe s -> m_status s <> Aborted -> rejectFileTransfer s = Some s' -> Safe s'.
Proof.
  intros HS Hab. unfold rejectFileTransfer.
  destruct (m_fileInTransfer s) as [w|] eqn:Hw; [|discriminate].
  cbn [mbind option_bind].
  set (s1 := set_m_fileInTransfer None s).
  assert (HS1 : Safe s1).
  { eapply Safe_frame; [..|exact HS]; try (unfold s1; fields; fail).
    unfold s1. destruct s; sess_simpl. discriminate. }
  destruct (setCurrentFileStatus _ s1) as [s2|] eqn:H2; [|discriminate].
  cbn [mbind option_bind].
  pose proof (setCurrentFileStatus_Safe _ _ _ HS1 H2) as HS2.
  destruct (setCurrentFileStatus_same _ _ _ H2)
    as (Hst2 & Hstk2 & Hti2 & Hcur2 & Hfit2 & Hlen2 & [f Hf]).
  rewrite Hf. cbn [mbind option_bind].
  destruct (listed_started s2 f HS2 Hf) as (Hbt & Hlen & Hcur).
  match goal with
  | |- context [moveToNextFile ?x] => set (s3 := x)
  end.
  destruct (moveToNextFile s3) as [[b s4]|] eqn:H4; [|discriminate].
  cbn [mbind option_bind snd]. intros [= <-].
  assert (Hs3 : m_status s3 = m_status s2 /\ eff s3 = eff s2 /\
                m_files s3 = m_files s2 /\ totalFiles s3 = totalFiles s2 /\
                m_currentFile s3 = m_currentFile s2 /\ tb s3 = tb s2 /\
                m_oldStatusStack s3 = m_oldStatusStack s2 /\
                m_fileInTransfer s3 = m_fileInTransfer s2 /\
                m_shareMsgNull s3 = m_shareMsgNull s2 /\
                pendingRequests s3 = pendingRequests s2)
    by (unfold s3; destruct s2 as [? ? ? [] ? ? ? ? ? ? ? ?];
        repeat split; reflexivity).
  destruct Hs3 as (E1 & E2 & E3 & E4 & E5 & E6 & E7 & E8 & E9 & E10).
  apply (moveToNextFile_Safe s3 b s4); [| | | |exact H4].
  - eapply Core_frame; [..|exact (safe_core s2 HS2)];
      rewrite ?E5, ?E8, ?E10; auto; try apply (safe_core s2 HS2).
  - rewrite E1, Hst2. unfold s1. destruct s; exact Hab.
  - rewrite E2. exact Hbt.
  - rewrite E3, E4. exact Hlen.
Qed.

Lemma rejectFileTransfer_total s :
  Safe s -> m_status s = InTransfer -> is_Some (m_fileInTransfer s) ->
  exists s', rejectFileTransfer s = Some s' /\ Safe s'.
Proof.
  intros HS Hst [w Hw].
  assert (Hab : m_status s <> Aborted) by (rewrite Hst; discriminate).
  assert (Hsome : exists s', rejectFileTransfer s = Some s').
  { unfold rejectFileTransfer. rewrite Hw. cbn [mbind option_bind].
    set (s1 := set_m_fileInTransfer None s).
    destruct (transfer_running s HS Hst) as (Hcur & Hlen & He).
    assert (E : m_currentFile s1 = m_currentFile s /\
                m_files s1 = m_files s /\ m_transferInfo s1 = m_transferInfo s)
      by (unfold s1; destruct s; repeat split; reflexivity).
    destruct E as (Ec & Ef & Et).
    destruct (setCurrentFileStatus_total FileInfo.TransferRejected s1)
      as [s2 H2]; [rewrite Ec, Ef; lia|].
    rewrite H2. cbn [mbind option_bind].
    destruct (setCurrentFileStatus_same _ _ _ H2)
      as (Hst2 & Hstk2 & Hti2 & Hcur2 & Hfit2 & Hlen2 & [f Hf]).
    rewrite Hf. cbn [mbind option_bind].
    match goal with
    | |- context [moveToNextFile ?x] => set (s3 := x)
    end.
    assert (Hs3 : m_files s3 = m_files s2 /\ totalFiles s3 = totalFiles s2 /\
                  m_currentFile s3 = m_currentFile s2)
      by (unfold s3; destruct s2 as [? ? ? [] ? ? ? ? ? ? ? ?];
          repeat split; reflexivity).
    destruct Hs3 as (E3 & E4 & E5).
    assert (Ht2 : totalFiles s2 = totalFiles s)
      by (unfold totalFiles; rewrite Hti2, Et; reflexivity).
    destruct (moveToNextFile_total s3) as (b & s4 & H4).
    - rewrite E3, E4, Hlen2, Ef, Ht2. exact Hlen.
    - rewrite E4, Ht2. apply (core_total s (safe_core s HS)).
    - right. rewrite E4, E5, Ht2, Hcur2, Ec. exact Hcur.
    - rewrite H4. cbn. eauto. }
  destruct Hsome as [s' H]. exists s'. split; [exact H|].
  eapply rejectFileTransfer_Safe; eauto.
Qed.

End SafeFiles.

Section SafeCommands.
Import Syfft.

Lemma safely_Some b s : Safe s -> safely (Some (b, s)).
Proof. intros HS. exists b, s. auto. Qed.

Lemma safely_fail s : Safe s -> safely (fail s).
Proof. apply fail_Safe. Qed.

Lemma safely_bind (o : option Session) :
  (exists s', o = Some s' /\ Safe s') ->
  safely (s ← o; Some (true, s)).
Proof. intros (s' & -> & HS). cbn. exists true, s'. auto. Qed.

Lemma Safe_setStatus x s :
  Safe s -> is_pause x = false -> m_status s <> Aborted \/ x = Aborted ->
  (x = InTransfer -> m_currentFile s < totalFiles s) ->
  (before_transfer x = true -> m_currentFile s = NO_FILE) ->
  Safe (setStatus x s).
Proof.
  intros [Hc Hs Ht Hb] Hx Hab Htr Hbe.
  split; [apply Core_setStatus; auto|..]; rewrite ?eff_setStatus by exact Hx.
  - destruct s; exact Hs.
  - intros E. destruct s; sess_simpl. auto.
  - intros E. destruct s; sess_simpl. auto.
Qed.

Lemma size_range s f :
  Core s -> currentFileInfo s = Some f -> 0 <= FileInfo.m_size f < 2 ^ 64.
Proof.
  intros Hc Hf. unfold currentFileInfo in Hf.
  pose proof (core_sizes s Hc) as Hsz. unfold sizes in Hsz.
  apply sizes_lookup in Hf.
  exact (Forall_lookup_1 _ _ _ _ Hsz Hf).
Qed.

Lemma newWriter_inv fs f :
  0 <= FileInfo.m_size f -> writer_inv (newWriter fs f).
Proof. intros H. unfold newWriter. apply writer_create_inv. exact H. Qed.

(** The file in transfer is replaced. *)
Lemma Safe_fileInTransfer o s :
  Safe s -> (forall w, o = Some w -> writer_inv w) ->
  Safe (set_m_fileInTransfer o s).
Proof.
  intros HS Ho. eapply Safe_frame; [..|exact HS];
    try (destruct s; reflexivity); auto.
Qed.

Lemma performDFAction_Safe fs action s s' :
  Safe s -> m_status s <> Aborted ->
  performDFAction fs action s = Some s' -> Safe s'.
Proof.
  intros HS Hab. destruct action; cbn [performDFAction].
  - apply acceptFileTransfer_Safe, HS.
  - apply rejectFileTransfer_Safe; auto.
  - destruct (currentFileInfo s) as [cf|] eqn:Hcf; [|discriminate].
    cbn [mbind option_bind].
    destruct (keepBoth fs cf) as [[g w']|] eqn:Hk.
    + unfold keepBoth in Hk. apply keepBothLoop_Some in Hk as [Hg ->].
      apply acceptFileTransfer_Safe.
      apply Safe_fileInTransfer.
      * eapply Safe_files; eauto.
      * intros w [= <-]. apply newWriter_inv. rewrite Hg.
        apply (size_range s cf); [apply HS|exact Hcf].
    + apply rejectFileTransfer_Safe; auto.
  - discriminate.
Qed.

Lemma performDFAction_total fs action s :
  Safe s -> m_status s = InTransfer -> is_Some (m_fileInTransfer s) ->
  action <> Ask ->
  exists s', performDFAction fs action s = Some s' /\ Safe s'.
Proof.
  intros HS Hst Hfit Hask.
  assert (Hab : m_status s <> Aborted) by (rewrite Hst; discriminate).
  assert (Hsome : exists s', performDFAction fs action s = Some s').
  { destruct action; cbn [performDFAction]; try contradiction.
    - destruct (acceptFileTransfer_total s HS Hst Hfit) as (s' & H & _). eauto.
    - destruct (rejectFileTransfer_total s HS Hst Hfit) as (s' & H & _). eauto.
    - destruct (transfer_running s HS Hst) as (Hcur & Hlen & He).
      destruct (lookup_zlen (m_files s) (m_currentFile s)) as [cf Hcf]; [lia|].
      unfold currentFileInfo at 1. rewrite Hcf. cbn [mbind option_bind].
      destruct (keepBoth fs cf) as [[g w']|] eqn:Hk.
      + unfold keepBoth in Hk. apply keepBothLoop_Some in Hk as [Hg ->].
        match goal with
        | |- context [acceptFileTransfer ?x] =>
            destruct (acceptFileTransfer_total x) as (s' & H & _)
        end.
        * apply Safe_fileInTransfer.
          -- eapply Safe_files; eauto.
          -- intros w [= <-]. apply newWriter_inv. rewrite Hg.
             apply (size_range s cf); [apply HS|exact Hcf].
        * destruct s; exact Hst.
        * destruct s; sess_simpl; eauto.
        * eauto.
      + destruct (rejectFileTransfer_total s HS Hst Hfit) as (s' & H & _).
        eauto. }
  destruct Hsome as [s' H]. exists s'. split; [exact H|].
  eapply performDFAction_Safe; eauto.
Qed.

Lemma helloCommand_Safe writeOk s : Safe s -> safely (helloCommand writeOk s).
Proof.
  intros HS. unfold helloCommand.
  assert (HS' : Safe (set_m_peerUuidKnown true s)).
  { eapply Safe_frame; [..|exact HS]; try (destruct s; reflexivity); auto.
    apply HS. }
  destruct (_ || _); [apply safely_fail; auto|].
  destruct (negb writeOk); [apply safely_fail; auto|apply safely_Some; auto].
Qed.

Lemma ackCommand_Safe s : Safe s -> safely (ackCommand s).
Proof.
  intros HS. unfold ackCommand.
  destruct (bool_decide_reflect (m_status s = Connecting)) as [Hst|Hst];
    cbn [negb orb]; [|apply safely_fail; auto].
  destruct (negb (m_peerUuidKnown s)); [apply safely_fail; auto|].
  apply safely_Some.
  assert (He : eff s = Connecting) by (unfold eff; rewrite Hst; reflexivity).
  apply Safe_setStatus; auto; try discriminate.
  - left. rewrite Hst. discriminate.
  - intros _. apply (safe_before s HS). rewrite He. reflexivity.
Qed.

Lemma fail_drop_files s :
  Safe s -> m_status s = Connected -> safely (fail (set_m_files [] s)).
Proof.
  intros HS Hst.
  assert (He : eff s = Connected) by (unfold eff; rewrite Hst; reflexivity).
  assert (Hno : m_currentFile s = NO_FILE)
    by (apply (safe_before s HS); rewrite He; reflexivity).
  pose proof (core_total s (safe_core s HS)) as Htot.
  unfold fail, manageError, abortConnection.
  destruct HS as [HC Hs Ht Hb].
  destruct HC as [core_total core_tb core_sizes core_eff core_cur core_files
                 core_request core_writer].
  destruct s as [st stk pk [nF tF sF nB tB sB] files cur fit msg dfa prev pend sock].
  sess_simpl. subst st cur. cbn.
  destruct (Z.ltb_spec NO_FILE nF) as [Hlt|Hge];
    [unfold NO_FILE, INT_MAX in *; lia|].
  cbn. eexists _, _. split; [reflexivity|].
  split; [split|..]; sess_simpl; auto; try discriminate.
  all: try (unfold zlen; cbn; lia).
  all: intros Hx; contradiction.
Qed.

Lemma share_request s :
  Safe s -> m_status s = Connected ->
  wrap32 (zlen (m_files s)) = totalFiles s -> m_shareMsgNull s = false ->
  safely
    (if negb (sumSizes (m_files s) =? m_totalBytes (m_transferInfo s))
     then fail (set_m_files [] s)
     else
       s ← togglePauseMode true s;
       Some (true, set_pendingRequests (SharingRequest :: pendingRequests s)
                     (set_m_preventUserTogglePause true s))).
Proof.
  intros HS Hst Heq Hmsg.
  pose proof (safe_core s HS) as Hc.
  pose proof (core_total s Hc) as Htot.
  pose proof (core_files s Hc) as Hfl.
  pose proof (zlen_nonneg (m_files s)) as Hnn.
  destruct (negb _); [apply fail_drop_files; auto|].
  destruct (togglePauseMode_total true s) as [s2 H2]; [apply Hc|].
  rewrite H2. cbn [mbind option_bind].
  destruct (togglePauseMode_shape _ _ _ H2) as (st & stk & -> & He2 & Hab2).
  apply safely_Some.
  pose proof (Safe_status st stk s He2 Hab2 HS) as HS2.
  rewrite wrap32_small in Heq by (unfold INT_MAX in *; lia).
  destruct HS2 as [HC Hs Ht Hb].
  destruct HC as [core_total core_tb core_sizes core_eff core_cur core_files
                 core_request core_writer].
  split; [split|..].
  all: try (replace (eff _) with
              (eff (set_m_status st (set_m_oldStatusStack stk s)))
            by (destruct s; reflexivity)).
  all: try assumption.
  all: destruct s; sess_simpl; auto.
Qed.

Lemma shareCommand_Safe nFiles nBytes s :
  Safe s -> safely (shareCommand nFiles nBytes s).
Proof.
  intros HS. unfold shareCommand.
  pose proof (safe_core s HS) as Hc.
  pose proof (core_total s Hc) as Htot.
  pose proof (core_files s Hc) as Hfl.
  pose proof (zlen_nonneg (m_files s)) as Hnn.
  destruct (bool_decide_reflect (m_status s = Connected)) as [Hst|Hst];
    cbn [andb]; [|apply safely_fail; auto].
  assert (He : eff s = Connected) by (unfold eff; rewrite Hst; reflexivity).
  assert (Hno : m_currentFile s = NO_FILE)
    by (apply (safe_before s HS); rewrite He; reflexivity).
  assert (Hrest : safely
    (if (wrap32 (zlen (m_files s)) =? totalFiles s) && negb (m_shareMsgNull s)
     then
       if negb (sumSizes (m_files s) =? m_totalBytes (m_transferInfo s))
       then fail (set_m_files [] s)
       else
         s ← togglePauseMode true s;
         Some (true, set_pendingRequests (SharingRequest :: pendingRequests s)
                       (set_m_preventUserTogglePause true s))
     else fail s)).
  { destruct (Z.eqb_spec (wrap32 (zlen (m_files s))) (totalFiles s))
      as [Heq|Hne]; cbn [andb]; [|apply safely_fail; auto].
    destruct (m_shareMsgNull s) eqn:Hmsg; cbn [negb];
      [apply safely_fail; auto|].
    apply share_request; auto. }
  destruct ((totalFiles s =? 0) && m_shareMsgNull s) eqn:Hfirst;
    [|exact Hrest].
  apply andb_true_iff in Hfirst as [Hz Hmsg]. apply Z.eqb_eq in Hz.
  pose proof (wrap32_range nFiles) as Hw.
  pose proof (wrap64_range nBytes) as Hw64.
  destruct (Z.geb_spec (wrap32 nFiles) INT_MAX) as [Hge|Hlt];
    [apply safely_fail; auto|].
  apply safely_Some.
  destruct HS as [HC Hs Ht Hb].
  destruct HC as [core_total core_tb core_sizes core_eff core_cur core_files
                 core_request core_writer].
  split; [split|..].
  all: try (replace (eff _) with (eff s)
              by (destruct s as [? ? ? [] ? ? ? ? ? ? ? ?]; reflexivity)).
  all: try assumption.
  all: destruct s as [? ? ? [] ? ? ? ? ? ? ? ?]; sess_simpl; subst;
    auto; try lia.
  all: try (intros Hab Hin; destruct (core_request Hab Hin) as [_ Hm];
            discriminate).
  all: rewrite He; discriminate.
Qed.

Lemma itemCommand_Safe payload junkSize junkStatus s :
  Safe s -> safely (itemCommand payload junkSize junkStatus s).
Proof.
  intros HS. unfold itemCommand.
  pose proof (safe_core s HS) as Hc.
  pose proof (core_total s Hc) as Htot.
  pose proof (core_files s Hc) as Hfl.
  pose proof (zlen_nonneg (m_files s)) as Hnn.
  destruct (bool_decide_reflect (m_status s = Connected)) as [Hst|Hst];
    cbn [negb orb]; [|apply safely_fail; auto].
  assert (He : eff s = Connected) by (unfold eff; rewrite Hst; reflexivity).
  assert (Hno : m_currentFile s = NO_FILE)
    by (apply (safe_before s HS); rewrite He; reflexivity).
  rewrite wrap32_small by (unfold INT_MAX in *; lia).
  destruct (Z.geb_spec (zlen (m_files s)) (totalFiles s)) as [Hfull|Hroom];
    [apply safely_fail; auto|].
  destruct (FileInfo.decode payload _) as [file [rest|]] eqn:Hdec;
    [|apply safely_Some; auto].
  destruct (negb (FileInfo.m_valid file)); [apply safely_fail; auto|].
  apply safely_Some. apply decode_size_range in Hdec.
  destruct HS as [HC Hs Ht Hb].
  destruct HC as [core_total core_tb core_sizes core_eff core_cur core_files
                 core_request core_writer].
  split; [split|..].
  all: try (replace (eff _) with (eff s) by (destruct s; reflexivity)).
  all: try assumption.
  all: destruct s as [? ? ? [] ? ? ? ? ? ? ? ?]; sess_simpl; subst; auto.
  - unfold sizes in *. sess_simpl. rewrite map_app. apply Forall_app.
    split; [assumption|]. constructor; [exact Hdec|constructor].
  - rewrite zlen_app. unfold zlen at 2. cbn [length]. lia.
  - intros Hab Hin. destruct (core_request Hab Hin) as [Hx _]. lia.
  - intros Hx. contradiction.
Qed.

Lemma Safe_info g s :
  m_totalFiles (g (m_transferInfo s)) = totalFiles s ->
  0 <= m_transferredBytes (g (m_transferInfo s)) < 2 ^ 64 ->
  Safe s -> Safe (update_info g s).
Proof.
  intros H1 H2 [HC Hs Ht Hb].
  destruct HC as [core_total core_tb core_sizes core_eff core_cur core_files
                 core_request core_writer].
  split; [split|..].
  all: try (replace (eff _) with (eff s) by (destruct s; reflexivity)).
  all: try assumption.
  all: destruct s; sess_simpl; try rewrite H1; auto.
Qed.

Lemma next_file_safely s :
  Safe s -> m_status s = InTransfer ->
  safely (r ← moveToNextFile s; Some (true, snd r)).
Proof.
  intros HS Hst.
  destruct (transfer_running s HS Hst) as (Hcur & Hlen & He).
  pose proof (core_total s (safe_core s HS)) as Htot.
  destruct (moveToNextFile_total s) as (b & s' & H); auto.
  rewrite H. cbn. exists true, s'. split; [reflexivity|].
  eapply moveToNextFile_Safe; eauto.
  - apply HS.
  - rewrite Hst. discriminate.
  - rewrite He. reflexivity.
Qed.

Lemma next_file_Safe s :
  Safe s -> m_status s = InTransfer ->
  exists s', (r ← moveToNextFile s; Some (snd r)) = Some s' /\ Safe s'.
Proof.
  intros HS Hst. destruct (next_file_safely s HS Hst) as (b & s' & H & HS').
  destruct (moveToNextFile s) as [[b0 s0]|]; [|discriminate].
  cbn in *. injection H as _ <-. eauto.
Qed.

Lemma current_file s :
  Safe s -> m_status s = InTransfer -> is_Some (currentFileInfo s).
Proof.
  intros HS Hst. destruct (transfer_running s HS Hst) as (Hcur & Hlen & He).
  unfold currentFileInfo. apply lookup_zlen. lia.
Qed.

Lemma current_status st s :
  Safe s -> m_status s = InTransfer ->
  exists s', setCurrentFileStatus st s = Some s' /\ Safe s' /\
    m_status s' = InTransfer /\ m_fileInTransfer s' = m_fileInTransfer s.
Proof.
  intros HS Hst. destruct (transfer_running s HS Hst) as (Hcur & Hlen & He).
  destruct (setCurrentFileStatus_total st s) as [s' H]; [lia|].
  exists s'. split; [exact H|].
  destruct (setCurrentFileStatus_same _ _ _ H) as (H1 & _ & _ & _ & H5 & _).
  split; [eapply setCurrentFileStatus_Safe; eauto|].
  split; congruence.
Qed.

Lemma safely_true (o : option Session) :
  (exists s', o = Some s' /\ Safe s') -> safely (s ← o; Some (true, s)).
Proof. intros (s' & -> & HS). cbn. exists true, s'. auto. Qed.

Lemma startCommand_Safe fs s : Safe s -> safely (startCommand fs s).
Proof.
  intros HS. unfold startCommand.
  destruct (bool_decide_reflect (m_status s = InTransfer)) as [Hst|Hst];
    cbn [negb orb]; [|apply safely_fail; auto].
  destruct (bool_decide_reflect (is_Some (m_fileInTransfer s))) as [Hfit|Hfit];
    [apply safely_fail; auto|].
  destruct (current_file s HS Hst) as [file Hfile]. rewrite Hfile.
  cbn [mbind option_bind].
  set (w := newWriter fs file).
  set (s1 := set_m_fileInTransfer (Some w) s).
  assert (HS1 : Safe s1).
  { apply Safe_fileInTransfer; [exact HS|]. intros w0 [= <-].
    apply newWriter_inv. apply (size_range s file); [apply HS|exact Hfile]. }
  assert (Hst1 : m_status s1 = InTransfer) by (destruct s; exact Hst).
  assert (Hfit1 : is_Some (m_fileInTransfer s1)) by (destruct s; cbn; eauto).
  destruct (FileInTransfer.m_error w).
  { apply safely_true.
    destruct (rejectFileTransfer_total s1) as (s' & H & HS'); eauto. }
  destruct (negb (FileInTransfer.m_exists w)).
  { apply safely_true.
    destruct (acceptFileTransfer_total s1) as (s' & H & HS' & _); eauto. }
  destruct (bool_decide_reflect (m_defaultDFAction s1 = Ask)) as [Hask|Hask];
    cbn [negb].
  - destruct (togglePauseMode_total true s1) as [s2 H2]; [apply HS1|].
    rewrite H2. cbn [mbind option_bind].
    destruct (togglePauseMode_shape _ _ _ H2) as (st & stk & -> & He2 & Hab2).
    apply safely_Some.
    pose proof (Safe_status st stk s1 He2 Hab2 HS1) as HS2.
    eapply Safe_frame; [..|exact HS2];
      try (unfold s1; destruct s; reflexivity).
    + apply HS2.
    + unfold s1. destruct s; sess_simpl. intros Hin.
      apply elem_of_cons in Hin as [Hx|Hin]; [discriminate|exact Hin].
  - apply safely_true. apply performDFAction_total; auto.
Qed.

Lemma skipCommand_Safe s : Safe s -> safely (skipCommand s).
Proof.
  intros HS. unfold skipCommand.
  destruct (bool_decide_reflect (m_status s = InTransfer)) as [Hst|Hst];
    cbn [negb orb]; [|apply safely_fail; auto].
  destruct (bool_decide (is_Some (m_fileInTransfer s)));
    [apply safely_fail; auto|].
  destruct (current_file s HS Hst) as [file Hfile]. rewrite Hfile.
  cbn [mbind option_bind].
  match goal with |- context [setCurrentFileStatus _ ?x] => set (s1 := x) end.
  assert (HS1 : Safe s1)
    by (apply Safe_info;
        [destruct s as [? ? ? []]; reflexivity
        |pose proof (core_tb s (safe_core s HS));
         destruct s as [? ? ? []]; assumption
        |exact HS]).
  assert (Hst1 : m_status s1 = InTransfer) by (destruct s; exact Hst).
  destruct (current_status FileInfo.TransferFailed s1 HS1 Hst1)
    as (s2 & H2 & HS2 & Hst2 & _).
  rewrite H2. cbn [mbind option_bind].
  apply next_file_safely; auto.
Qed.

Lemma chunkCommand_Safe length payload wr s :
  Safe s -> safely (chunkCommand length payload wr s).
Proof.
  intros HS. unfold chunkCommand.
  destruct (m_fileInTransfer s) as [w|] eqn:Hfit; [|apply safely_fail; auto].
  destruct (bool_decide_reflect (m_status s = InTransfer)) as [Hst|Hst];
    cbn [negb]; [|apply safely_fail; auto].
  destruct (_ >? _); [apply safely_fail; auto|].
  destruct (_ <? _); [apply safely_Some; auto|].
  pose proof (core_writer s (safe_core s HS) w Hfit) as Hw.
  pose proof (writer_chunk_inv (firstn (Z.to_nat (wrap32 length)) payload)
                wr w Hw) as Hw'.
  destruct (Writer.processNextDataChunk _ wr w) as [ok w'].
  cbn [snd] in Hw'.
  destruct ok.
  - apply safely_Some.
    apply Safe_info.
    + destruct s as [? ? ? []]; reflexivity.
    + destruct s as [? ? ? []]; sess_simpl. apply wrap64_range.
    + apply Safe_fileInTransfer; auto. intros w0 [= <-]. auto.
  - destruct (negb (FileInTransfer.m_rollbacked w')); apply safely_Some;
      apply Safe_fileInTransfer; auto; intros w0 [= <-]; auto.
    apply writer_rollback_inv. auto.
Qed.

Ltac keep_info s HS :=
  apply Safe_info;
  [destruct s as [? ? ? []]; reflexivity
  |pose proof (core_tb s (safe_core s HS));
   destruct s as [? ? ? []]; assumption
  |].

Lemma commitCommand_Safe commitOk s : Safe s -> safely (commitCommand commitOk s).
Proof.
  intros HS. unfold commitCommand.
  destruct (m_fileInTransfer s) as [w|] eqn:Hfit; [|apply safely_fail; auto].
  destruct (bool_decide_reflect (m_status s = InTransfer)) as [Hst|Hst];
    cbn [negb]; [|apply safely_fail; auto].
  destruct (Writer.commit commitOk false w) as [ok w'].
  assert (Hmid : forall st g,
            m_totalFiles (g (m_transferInfo s)) = totalFiles s ->
            m_transferredBytes (g (m_transferInfo s)) = tb s ->
            exists s2, (s1 ← setCurrentFileStatus st s;
                        Some (update_info g s1)) = Some s2 /\
              Safe s2 /\ m_status s2 = InTransfer).
  { intros st g Hg1 Hg2.
    destruct (current_status st s HS Hst) as (s1 & H1 & HS1 & Hst1 & _).
    rewrite H1. cbn [mbind option_bind]. eexists. split; [reflexivity|].
    destruct (setCurrentFileStatus_same _ _ _ H1) as (_ & _ & Hti & _).
    split; [|destruct s1; exact Hst1].
    pose proof (core_tb s1 (safe_core s1 HS1)) as Htb.
    apply Safe_info; auto.
    - rewrite Hti, Hg1. unfold totalFiles. rewrite Hti. reflexivity.
    - rewrite Hti, Hg2. unfold tb in *. rewrite Hti in Htb. exact Htb. }
  assert (Hnext : forall s2, Safe s2 -> m_status s2 = InTransfer ->
            safely (r ← moveToNextFile (set_m_fileInTransfer None s2);
                    Some (true, snd r))).
  { intros s2 HS2 Hst2. apply next_file_safely.
    - apply Safe_fileInTransfer; auto. discriminate.
    - destruct s2; exact Hst2. }
  destruct ok.
  - destruct (Hmid FileInfo.Transferred
                (fun ti => set_transferredFiles
                             (wrap32 (m_transferredFiles ti + 1)) ti))
      as (s2 & H2 & HS2 & Hst2);
      [destruct s as [? ? ? []]; reflexivity..|].
    rewrite H2. cbn [mbind option_bind]. apply Hnext; auto.
  - destruct (Hmid FileInfo.TransferFailed
                (fun ti => set_skippedBytes
                   (wrap64 (m_skippedBytes ti
                            + FileInTransfer.m_remainingBytes
                                (snd (Writer.rollback w'))))
                   (set_skippedFiles (wrap32 (m_skippedFiles ti + 1)) ti)))
      as (s2 & H2 & HS2 & Hst2);
      [destruct s as [? ? ? []]; reflexivity..|].
    rewrite H2. cbn [mbind option_bind]. apply Hnext; auto.
Qed.

Lemma rollbkCommand_Safe s : Safe s -> safely (rollbkCommand s).
Proof.
  intros HS. unfold rollbkCommand.
  destruct (m_fileInTransfer s) as [w|] eqn:Hfit; [|apply safely_fail; auto].
  destruct (bool_decide_reflect (m_status s = InTransfer)) as [Hst|Hst];
    cbn [negb]; [|apply safely_fail; auto].
  destruct (current_status FileInfo.TransferFailed s HS Hst)
    as (s1 & H1 & HS1 & Hst1 & _).
  rewrite H1. cbn [mbind option_bind].
  apply next_file_safely.
  - apply Safe_fileInTransfer; [|discriminate]. keep_info s1 HS1. exact HS1.
  - destruct s1; exact Hst1.
Qed.

Lemma closeCommand_Safe s : Safe s -> safely (closeCommand s).
Proof.
  intros HS. unfold closeCommand.
  destruct (bool_decide (m_status s = Closed)); [apply safely_Some; auto|].
  destruct (_ && _); [apply safely_fail; auto|].
  apply safely_Some. apply closeConnection_Safe. exact HS.
Qed.

Lemma command_Safe c s : Safe s -> safely (command c s).
Proof.
  intros HS. destruct c; cbn [command].
  - apply helloCommand_Safe; auto.
  - apply ackCommand_Safe; auto.
  - apply shareCommand_Safe; auto.
  - apply itemCommand_Safe; auto.
  - apply startCommand_Safe; auto.
  - apply skipCommand_Safe; auto.
  - apply chunkCommand_Safe; auto.
  - apply commitCommand_Safe; auto.
  - apply rollbkCommand_Safe; auto.
  - apply closeCommand_Safe; auto.
  - apply safely_true. apply togglePauseMode_Safe. exact HS.
  - apply safely_fail; auto.
  - apply safely_fail; auto.
Qed.

Lemma processCommands_Safe cmds :
  forall s, Safe s -> exists s', processCommands cmds s = Some s' /\ Safe s'.
Proof.
  induction cmds as [|c rest IH]; intros s HS; cbn [processCommands].
  - eauto.
  - destruct (command_Safe c s HS) as (b & s1 & -> & HS1).
    destruct b; eauto.
Qed.

Lemma readData_Safe cmds s :
  Safe s -> exists s', readData cmds s = Some s' /\ Safe s'.
Proof.
  intros HS. unfold readData.
  destruct (bool_decide (m_status s = PausedByUser)); [eauto|].
  apply processCommands_Safe. exact HS.
Qed.

End SafeCommands.

Section SafeEvents.
Import Syfft.

Lemma remove_request_subseteq r x l :
  x ∈ remove_request r l -> x ∈ l.
Proof.
  induction l as [|y rest IH]; cbn [remove_request]; [auto|].
  destruct (bool_decide (y = r)).
  - intros H. apply elem_of_cons. auto.
  - intros H. apply elem_of_cons in H as [->|H]; apply elem_of_cons; auto.
Qed.

(** The state a decision slot starts from: the request has emitted its
    decision and the slot has cleared [m_preventUserTogglePause] and called
    [togglePauseMode]. *)
Lemma decision_Safe l s s' :
  Safe s -> (forall x, x ∈ l -> x ∈ pendingRequests s) ->
  togglePauseMode true
    (set_m_preventUserTogglePause false (set_pendingRequests l s)) = Some s' ->
  Safe s' /\ (m_status s' <> Aborted -> m_status s <> Aborted) /\
  m_files s' = m_files s /\ totalFiles s' = totalFiles s.
Proof.
  intros HS Hl H.
  set (s1 := set_m_preventUserTogglePause false (set_pendingRequests l s)) in *.
  assert (HS1 : Safe s1).
  { eapply Safe_frame; [..|exact HS]; try (destruct s; reflexivity).
    - unfold s1. destruct s; sess_simpl. apply HS.
    - unfold s1. destruct s; sess_simpl. apply Hl. }
  destruct (togglePauseMode_shape _ _ _ H) as (st & stk & -> & He & Hab).
  split; [apply Safe_status; auto|].
  split; [|unfold s1; destruct s; auto].
  intros Hne Hst. apply Hne.
  replace (m_status (set_m_status st (set_m_oldStatusStack stk s1))) with st
    by (unfold s1; destruct s; reflexivity).
  apply Hab. unfold s1. destruct s; exact Hst.
Qed.

Lemma acceptSharingRequest_Safe pathOk l s s' :
  Safe s -> SharingRequest ∈ pendingRequests s ->
  (forall x, x ∈ l -> x ∈ pendingRequests s) ->
  acceptSharingRequest pathOk (set_pendingRequests l s) = Some s' -> Safe s'.
Proof.
  intros HS Hin Hl. unfold acceptSharingRequest.
  destruct (togglePauseMode true _) as [s1|] eqn:H1; [|discriminate].
  cbn [mbind option_bind].
  destruct (decision_Safe l s s1 HS Hl H1) as (HS1 & Hab & Hfl & Htot).
  destruct (bool_decide_reflect (m_status s1 = Aborted)) as [Hst|Hst];
    [intros [= <-]; exact HS1|].
  destruct (negb pathOk).
  - unfold manageError. intros H.
    destruct (abortConnection_Safe s1 HS1) as (s2 & H2 & HS2 & _). congruence.
  - destruct (moveToNextFile _) as [[b s2]|] eqn:H2; [|discriminate].
    cbn. intros [= <-].
    destruct (core_request s (safe_core s HS) (Hab Hst) Hin) as [Hlen _].
    eapply moveToNextFile_Safe; [..|exact H2].
    + apply Core_setStatus; auto. apply HS1.
    + destruct s1; discriminate.
    + rewrite eff_setStatus by reflexivity. reflexivity.
    + destruct s1; sess_simpl. congruence.
Qed.

Lemma rejectSharingRequest_Safe l s s' :
  Safe s -> (forall x, x ∈ l -> x ∈ pendingRequests s) ->
  rejectSharingRequest (set_pendingRequests l s) = Some s' -> Safe s'.
Proof.
  intros HS Hl. unfold rejectSharingRequest.
  destruct (togglePauseMode true _) as [s1|] eqn:H1; [|discriminate].
  cbn [mbind option_bind].
  destruct (decision_Safe l s s1 HS Hl H1) as (HS1 & Hab & Hfl & Htot).
  destruct (bool_decide (m_status s1 = Aborted)); intros [= <-]; [exact HS1|].
  apply closeConnection_Safe. apply Safe_info; [| |exact HS1].
  - destruct s1 as [? ? ? []]; reflexivity.
  - pose proof (core_tb s1 (safe_core s1 HS1)).
    destruct s1 as [? ? ? []]; assumption.
Qed.

Lemma chosen_Safe fs action all l s s' :
  Safe s -> (forall x, x ∈ l -> x ∈ pendingRequests s) ->
  chosen fs action all (set_pendingRequests l s) = Some s' -> Safe s'.
Proof.
  intros HS Hl. unfold chosen.
  destruct (togglePauseMode true _) as [s1|] eqn:H1; [|discriminate].
  cbn [mbind option_bind].
  destruct (decision_Safe l s s1 HS Hl H1) as (HS1 & Hab & Hfl & Htot).
  destruct (bool_decide_reflect (m_status s1 = Aborted)) as [Hst|Hst];
    [intros [= <-]; exact HS1|].
  apply performDFAction_Safe.
  - destruct all; [|exact HS1].
    eapply Safe_frame; [..|exact HS1]; try (destruct s1; reflexivity); auto.
    destruct s1; sess_simpl. apply HS1.
  - destruct all; [destruct s1|]; exact Hst.
Qed.

Lemma request_decided_Some r s s' :
  request_decided r s = Some s' ->
  r ∈ pendingRequests s /\
  s' = set_pendingRequests (remove_request r (pendingRequests s)) s.
Proof.
  unfold request_decided.
  destruct (bool_decide_reflect (r ∈ pendingRequests s)); [|discriminate].
  intros [= <-]. auto.
Qed.

Lemma changePauseMode_Safe enterPauseMode s :
  Safe s -> exists s', changePauseMode enterPauseMode s = Some s' /\ Safe s'.
Proof.
  intros HS. unfold changePauseMode.
  destruct (_ || _); [eauto|]. apply togglePauseMode_Safe. exact HS.
Qed.

Lemma onSocketError_Safe remoteHostClosed s :
  Safe s -> exists s', onSocketError remoteHostClosed s = Some s' /\ Safe s'.
Proof.
  intros HS. unfold onSocketError.
  destruct (_ && remoteHostClosed).
  - apply togglePauseMode_Safe.
    eapply Safe_frame; [..|exact HS]; try (destruct s; reflexivity); auto.
    destruct s; sess_simpl. apply HS.
  - destruct (_ && _); [|eauto].
    destruct (abortConnection_Safe s HS) as (s' & H & HS' & _). eauto.
Qed.

Lemma step_Safe s e s' : Safe s -> step s e = Some s' -> Safe s'.
Proof.
  intros HS. destruct e; cbn [step].
  - destruct (bool_decide_reflect (m_status s = New)) as [Hst|]; [|discriminate].
    intros [= <-].
    assert (He : eff s = New) by (unfold eff; rewrite Hst; reflexivity).
    apply Safe_setStatus; auto; try discriminate.
    + left. rewrite Hst. discriminate.
    + intros _. apply (safe_before s HS). rewrite He. reflexivity.
  - intros H. destruct (readData_Safe cmds s HS) as (s2 & H2 & HS2). congruence.
  - destruct (request_decided SharingRequest s) as [s1|] eqn:H1; [|discriminate].
    apply request_decided_Some in H1 as [Hin ->]. cbn [mbind option_bind].
    apply acceptSharingRequest_Safe; auto.
    intros x. apply remove_request_subseteq.
  - destruct (request_decided SharingRequest s) as [s1|] eqn:H1; [|discriminate].
    apply request_decided_Some in H1 as [Hin ->]. cbn [mbind option_bind].
    apply rejectSharingRequest_Safe; auto.
    intros x. apply remove_request_subseteq.
  - destruct (bool_decide (action = Ask)); [discriminate|].
    destruct (request_decided DuplicatedFile s) as [s1|] eqn:H1; [|discriminate].
    apply request_decided_Some in H1 as [Hin ->]. cbn [mbind option_bind].
    apply chosen_Safe; auto.
    intros x. apply remove_request_subseteq.
  - intros H. destruct (changePauseMode_Safe enterPauseMode s HS) as (s2 & H2 & HS2).
    congruence.
  - intros H. destruct (abortConnection_Safe s HS) as (s2 & H2 & HS2 & _).
    congruence.
  - intros H. destruct (onSocketError_Safe remoteHostClosed s HS) as (s2 & H2 & HS2).
    congruence.
  - intros [= <-]. apply onDisconnected_Safe.
    eapply Safe_frame; [..|exact HS]; try (destruct s; reflexivity); auto.
    destruct s; sess_simpl. apply HS.
Qed.

Lemma run_Safe events :
  forall s s', Safe s -> run s events = Some s' -> Safe s'.
Proof.
  induction events as [|e rest IH]; intros s s' HS; cbn [run].
  - intros [= <-]. exact HS.
  - destruct (step s e) as [s1|] eqn:H1; [|discriminate].
    cbn [mbind option_bind]. apply IH. eapply step_Safe; eauto.
Qed.

Lemma reachable_Safe events s : run create events = Some s -> Safe s.
Proof. apply run_Safe, Safe_create. Qed.

End SafeEvents.

(** ** Sessions that reach a terminal state *)

Section SessionClaims.
Import Syfft.

Lemma reachable_Inv events s :
  timely create events -> run create events = Some s -> Inv s.
Proof. apply run_Inv. apply Inv_create. Qed.

(** C1, as stated, fails: a session that the user terminates while the first
    of two files is being received ends in Aborted with the second file still
    Scheduled, and a session whose sharing request is rejected ends in Closed
    with both files still Scheduled. *)
Lemma C1_counterexample :
  (exists s, run create interrupted_trace = Some s /\ m_status s = Aborted /\
     map FileInfo.m_status (m_files s)
     = [FileInfo.TransferFailed; FileInfo.Scheduled]) /\
  (exists s, run create rejected_trace = Some s /\ m_status s = Closed /\
     map FileInfo.m_status (m_files s)
     = [FileInfo.Scheduled; FileInfo.Scheduled]).
Proof.
  split; eexists; (split; [vm_compute; reflexivity|]); split; reflexivity.
Qed.

(** The byte counters are 64 bit wide: when the sizes of the listed files add
    up to [2 ^ 64] the announced total is 0, and the transferred bytes exceed
    it from the first chunk on. *)
Lemma transferred_bytes_after_wrap_around :
  exists s, run create huge_trace = Some s /\ m_status s = Aborted /\
    totalBytes s = 0 /\ tb s = 2 /\ sumZ (sizes s) = 2 ^ 64.
Proof.
  eexists. split; [vm_compute; reflexivity|]. repeat split; reflexivity.
Qed.

(** A sender leaves files Scheduled in the same two ways: when the peer
    rejects the request, and when the session is aborted before the turn of
    the second file. *)
Lemma sender_terminal_with_scheduled_files :
  (exists s, SyfftSender.run SyfftSender.create sender_interrupted_trace
             = Some s /\ m_status s = Aborted /\
     map FileInfo.m_status (m_files s)
     = [FileInfo.TransferFailed; FileInfo.Scheduled]) /\
  (exists s, SyfftSender.run SyfftSender.create sender_rejected_trace
             = Some s /\ m_status s = Closed /\
     map FileInfo.m_status (m_files s)
     = [FileInfo.Scheduled; FileInfo.Scheduled]).
Proof.
  split; eexists; (split; [vm_compute; reflexivity|]); split; reflexivity.
Qed.

(** The accounts need the decisions to come in time: when the user answers
    two sharing requests of the same session, the second answer skips the
    first file without counting it, and the session is Closed with a file
    that nobody handled and one file missing from the counters. *)
Lemma late_decision_breaks_the_accounts :
  ~ timely create late_accept_trace /\
  exists s, run create late_accept_trace = Some s /\ m_status s = Closed /\
    map FileInfo.m_status (m_files s)
    = [FileInfo.Scheduled; FileInfo.Transferred] /\
    m_currentFile s = 2 /\ totalFiles s = 2 /\ tf s = 1 /\ sf s = 0.
Proof.
  split.
  - intros H. vm_compute in H. decompose [and] H. discriminate.
  - eexists. split; [vm_compute; reflexivity|]. repeat split; reflexivity.
Qed.

Lemma sender_reachable_SInv events s :
  SyfftSender.run SyfftSender.create events = Some s -> SInv s.
Proof. apply sender_run_SInv. apply SInv_create. Qed.

Lemma sessions_Inv s : reachable_in_time s -> Inv s.
Proof.
  intros [[events [Ht Hrun]]|[events Hrun]].
  - exact (reachable_Inv _ _ Ht Hrun).
  - exact (sinv_inv _ (sender_reachable_SInv _ _ Hrun)).
Qed.

(** C1, amended: when a session, receiving or sending, in which every
    decision of the user reached the session while it was waiting for it, is
    Closed or Aborted, every file whose turn had come (the files up to the
    current index) is Transferred, Rejected or Failed, which covers the whole
    list when the session is Closed after the transfer began; the transferred
    bytes do not exceed the total bytes provided the sizes of the listed
    files add up to less than [2 ^ 64]; and transferred files + skipped
    files = total files. *)
Theorem C1_terminal_state_accounting s :
  reachable_in_time s ->
  is_terminal_state s ->
  attempted_terminal s /\
  (m_status s = Closed -> m_currentFile s <> NO_FILE -> all_terminal s) /\
  (sumZ (sizes s) < 2 ^ 64 -> tb s <= totalBytes s) /\
  tf s + sf s = totalFiles s.
Proof.
  intros Hrun Hterm. pose proof (sessions_Inv _ Hrun) as HI.
  pose proof (inv_data s HI) as Hd. unfold eff in Hd. cbn [first_np] in Hd.
  destruct Hterm as [Hst|Hst]; rewrite Hst in Hd; cbn in Hd.
  - destruct Hd as (Hsum & Hfit & Hcur & Hatt & Hb).
    split; [exact Hatt|]. split; [|split; [exact Hb|exact Hsum]].
    intros _ Hno. destruct Hcur as [Hcur|[Hcur Hlen]]; [contradiction|].
    unfold all_terminal. apply Forall_lookup_2. intros i f Hf.
    apply (Hatt i f Hf Hno).
    pose proof (lookup_zlen_lt _ _ _ Hf). lia.
  - destruct Hd as (Hsum & Hfit & Hcur & Hatt & Hb).
    split; [exact Hatt|]. split; [|split; [exact Hb|exact Hsum]].
    intros Hcl. congruence.
Qed.

Lemma C1_terminal_state_accounting_witness :
  (exists s, run create complete_trace = Some s /\ m_status s = Closed /\
     all_terminal s /\ tb s <= totalBytes s /\ tf s + sf s = totalFiles s) /\
  (exists s, SyfftSender.run SyfftSender.create sender_complete_trace = Some s /\
     m_status s = Closed /\
     all_terminal s /\ tb s <= totalBytes s /\ tf s + sf s = totalFiles s).
Proof.
  split.
  - eexists. split; [vm_compute; reflexivity|]. split; [reflexivity|].
    match goal with
    | |- all_terminal ?s /\ _ =>
        assert (Hr : reachable_in_time s)
          by (left; exists complete_trace;
              split; [vm_compute; repeat split|vm_compute; reflexivity]);
        destruct (C1_terminal_state_accounting s Hr ltac:(left; reflexivity))
          as (_ & Hall & Hb & Hsum)
    end.
    split; [apply Hall; [reflexivity|discriminate]|].
    split; [apply Hb; vm_compute; reflexivity|exact Hsum].
  - eexists. split; [vm_compute; reflexivity|]. split; [reflexivity|].
    match goal with
    | |- all_terminal ?s /\ _ =>
        assert (Hr : reachable_in_time s)
          by (right; exists sender_complete_trace; vm_compute; reflexivity);
        destruct (C1_terminal_state_accounting s Hr ltac:(left; reflexivity))
          as (_ & Hall & Hb & Hsum)
    end.
    split; [apply Hall; [reflexivity|discriminate]|].
    split; [apply Hb; vm_compute; reflexivity|exact Hsum].
Defined.





End SessionClaims.

(** ** The sender of the discovery protocol *)

Section DiscoverySender.
Import Syfd.

Variable writeOk : nat -> bool.

Lemma timeout_sending fuel p :
  (1 <= fuel)%nat -> sending p ->
  exists p', timeout writeOk fuel p = Some p' /\
    if writeOk (writes p) then
      sending p' /\ m_errorCount p' = 0 /\ writes p' = S (writes p) /\
      emitted p' = emitted p
    else if m_errorCount p + 1 <? ERROR_THRESHOLD then
      sending p' /\ m_errorCount p' = m_errorCount p + 1 /\
      writes p' = S (writes p) /\ emitted p' = emitted p
    else gone_offline p p' (writes p).
Proof.
  intros Hfuel (Hst & Hmode & Htimer & Hbuf & Hcount).
  destruct fuel as [|fuel]; [lia|].
  destruct p as [v st mode tm dv be c w em]. cbn in *. subst.
  unfold timeout, sendBufferedDatagram. cbn.
  rewrite (bool_decide_eq_true_2 (Started = Started)) by reflexivity.
  unfold ERROR_THRESHOLD, INT_MAX in *.
  destruct (writeOk w); cbn.
  - eexists. split; [reflexivity|]. unfold sending, ERROR_THRESHOLD. cbn.
    repeat split; auto; lia.
  - destruct (Z.eqb_spec c 2147483647) as [Hmax|_]; [lia|].
    destruct (Z.ltb_spec (c + 1) 3) as [Hlt|Hge].
    + destruct (Z.eqb_spec (c + 1) 3) as [H3|_]; [lia|].
      eexists. split; [reflexivity|]. unfold sending, ERROR_THRESHOLD. cbn.
      repeat split; auto; lia.
    + destruct (Z.eqb_spec (c + 1) 3) as [H3|H3]; [|lia].
      unfold setMode_, sendQuitDatagram_, ERROR_THRESHOLD. cbn.
      rewrite (bool_decide_eq_false_2 (Online = Offline)) by discriminate.
      destruct (Z.ltb_spec (c + 1) 3) as [Hlt|_]; [lia|].
      rewrite andb_false_r. cbn.
      eexists. split; [reflexivity|]. unfold gone_offline. cbn.
      rewrite <- app_assoc. cbn. auto 10.
Qed.

Lemma timeout_idle fuel p :
  timerActive p = false -> timeout writeOk fuel p = Some p.
Proof. intros H. unfold timeout. rewrite H. reflexivity. Qed.

Lemma timeouts_snoc fuel n : forall p,
  timeouts writeOk fuel (S n) p
  = (p' ← timeouts writeOk fuel n p; timeout writeOk fuel p').
Proof.
  induction n as [|n IH]; intros p.
  - cbn. destruct (timeout writeOk fuel p); reflexivity.
  - change (timeouts writeOk fuel (S (S n)) p)
      with (p' ← timeout writeOk fuel p; timeouts writeOk fuel (S n) p').
    change (timeouts writeOk fuel (S n) p)
      with (p' ← timeout writeOk fuel p; timeouts writeOk fuel n p').
    destruct (timeout writeOk fuel p) as [p1|]; [|reflexivity].
    cbn [mbind option_bind]. rewrite IH. reflexivity.
Qed.

(** While fewer than three writes in a row have failed the protocol keeps
    sending, and its counter is the number of writes that failed in a row. *)
Lemma timeouts_sending fuel n : forall p,
  (1 <= fuel)%nat -> sending p ->
  (forall k, (k <= n)%nat ->
     streak writeOk (writes p) (m_errorCount p) k < ERROR_THRESHOLD) ->
  exists p', timeouts writeOk fuel n p = Some p' /\ sending p' /\
    m_errorCount p' = streak writeOk (writes p) (m_errorCount p) n /\
    writes p' = (writes p + n)%nat /\ emitted p' = emitted p.
Proof.
  induction n as [|n IH]; intros p Hfuel Hs Hlow.
  - exists p. cbn. rewrite Nat.add_0_r. auto.
  - destruct (IH p Hfuel Hs) as (p1 & H1 & Hs1 & Hc1 & Hw1 & He1);
      [intros k Hk; apply Hlow; lia|].
    rewrite timeouts_snoc, H1. cbn [mbind option_bind].
    destruct (timeout_sending fuel p1 Hfuel Hs1) as (p2 & H2 & Hcase).
    exists p2. split; [exact H2|].
    pose proof (Hlow (S n) (le_n _)) as Hlast. cbn [streak] in Hlast |- *.
    rewrite Hw1 in Hcase.
    destruct (writeOk (writes p + n)).
    + destruct Hcase as (Hs2 & Hc2 & Hw2 & He2).
      repeat split; try apply Hs2; try congruence. lia.
    + rewrite Hc1 in Hcase.
      destruct (Z.ltb_spec (streak writeOk (writes p) (m_errorCount p) n + 1)
                  ERROR_THRESHOLD) as [_|Hge]; [|lia].
      destruct Hcase as (Hs2 & Hc2 & Hw2 & He2).
      repeat split; try apply Hs2; try congruence. lia.
Qed.

(** C7: while the protocol is sending, every failed write increments the
    error counter and every successful write resets it to zero, so that the
    counter is the number of writes that failed in a row; as long as that
    number stays below three the protocol stays online and emits nothing; and
    at the write with which it reaches three the protocol goes offline,
    stops its timer and emits [modeChanged(Offline)] and exactly one [error],
    whatever number of intervals elapses afterwards. *)
Theorem C7_three_send_failures fuel n p :
  (1 <= fuel)%nat -> sending p ->
  let c := streak writeOk (writes p) (m_errorCount p) in
  ((forall k, (k <= n)%nat -> c k < ERROR_THRESHOLD) ->
   exists p', timeouts writeOk fuel n p = Some p' /\ sending p' /\
     m_errorCount p' = c n /\ emitted p' = emitted p) /\
  (forall k, (k < n)%nat ->
     (forall j, (j <= k)%nat -> c j < ERROR_THRESHOLD) ->
     c (S k) = ERROR_THRESHOLD ->
     exists p', timeouts writeOk fuel n p = Some p' /\
       gone_offline p p' (writes p + k)).
Proof.
  intros Hfuel Hs c. split.
  - intros Hlow.
    destruct (timeouts_sending fuel n p Hfuel Hs Hlow)
      as (p' & H1 & Hs' & Hc' & _ & He').
    exists p'. auto.
  - induction n as [|n IH]; intros k Hk Hlow Hhit; [lia|].
    rewrite timeouts_snoc.
    destruct (Nat.eq_dec k n) as [->|Hne].
    + destruct (timeouts_sending fuel n p Hfuel Hs Hlow)
        as (p1 & H1 & Hs1 & Hc1 & Hw1 & He1).
      rewrite H1. cbn [mbind option_bind].
      destruct (timeout_sending fuel p1 Hfuel Hs1) as (p2 & H2 & Hcase).
      exists p2. split; [exact H2|].
      unfold c in Hhit. cbn [streak] in Hhit.
      rewrite Hw1, Hc1 in Hcase. unfold ERROR_THRESHOLD in *.
      destruct (writeOk (writes p + n)); [lia|].
      destruct (Z.ltb_spec (streak writeOk (writes p) (m_errorCount p) n + 1) 3)
        as [Hlt|_]; [lia|].
      unfold gone_offline in *. rewrite <- He1. exact Hcase.
    + destruct (IH k) as (p1 & H1 & Hoff); [lia|exact Hlow|exact Hhit|].
      rewrite H1. cbn [mbind option_bind].
      exists p1. split; [|exact Hoff].
      apply timeout_idle. apply Hoff.
Qed.

End DiscoverySender.

Lemma C7_three_send_failures_witness :
  exists p', Syfd.timeouts always_fails 1 5 started_online = Some p' /\
    gone_offline started_online p' 2.
Proof.
  assert (Hs : sending started_online).
  { unfold sending, Syfd.ERROR_THRESHOLD. cbn. repeat split; auto; lia. }
  destruct (C7_three_send_failures always_fails 1 5 started_online
              (le_n 1) Hs) as [_ Hoff].
  apply (Hoff 2%nat).
  - lia.
  - intros j Hj. unfold Syfd.ERROR_THRESHOLD.
    destruct j as [|[|[|j]]]; cbn; lia.
  - reflexivity.
Defined.

(** ** The registry of the peers *)

Section RegistryFacts.
Import Users PeersList.

Lemma incrementAge_young p :
  0 <= m_age p < AgeMax ->
  Users.incrementAge p = (false, set_age (m_age p + 1) p).
Proof.
  intros Ha. unfold Users.incrementAge, AgeMax, AgeUnconfirmed in *.
  rewrite bool_decide_eq_false_2 by lia.
  destruct p as [v i a sv]. cbn in *.
  assert (Hw : wrap8 (a + 1) = a + 1)
    by (unfold wrap8; apply Z.mod_small; lia).
  rewrite Hw. destruct (Z.gtb_spec (a + 1) 4); [lia|reflexivity].
Qed.

Lemma incrementAge_at_max p :
  m_age p = AgeMax ->
  Users.incrementAge p = (true, set_age AgeUnconfirmed p).
Proof.
  intros Ha. unfold Users.incrementAge, AgeMax, AgeUnconfirmed in *.
  rewrite bool_decide_eq_false_2 by lia.
  destruct p as [v i a sv]. cbn in *. subst a.
  change (wrap8 (4 + 1)) with 5.
  destruct (Z.gtb_spec 5 4); [reflexivity|lia].
Qed.

Lemma incrementAge_unconfirmed p :
  m_age p = AgeUnconfirmed -> Users.incrementAge p = (false, p).
Proof.
  intros Ha. unfold Users.incrementAge.
  rewrite bool_decide_eq_true_2 by exact Ha. reflexivity.
Qed.

Lemma incrementAge_uuid p : uuid_of (snd (Users.incrementAge p)) = uuid_of p.
Proof.
  unfold Users.incrementAge.
  destruct (bool_decide _); [reflexivity|].
  destruct (_ >? _); reflexivity.
Qed.

(** The signals of one tick: [peerExpired u] occurs once when the instance
    stored under [u] expires, and not at all otherwise. *)
Lemma expired_count u (m : gmap string PeerUser) :
  (forall k p, m !! k = Some p -> uuid_of p = k) ->
  count (peerExpired u)
    (omap (fun p : PeerUser =>
             let r := Users.incrementAge p in
             if fst r then Some (peerExpired (uuid_of (snd r))) else None)
          (map snd (map_to_list m)))
  = match m !! u with
    | Some p => if fst (Users.incrementAge p) then 1%nat else 0%nat
    | None => 0%nat
    end.
Proof.
  induction m as [|k p m Hk IH] using map_ind; intros Hcons.
  - rewrite map_to_list_empty, lookup_empty. reflexivity.
  - unfold count in *.
    rewrite (proj1 (Permutation_count_occ Signal_eq_dec _ _)
               (omap_Permutation _ _ _
                  (Permutation_map snd (map_to_list_insert m k p Hk)))).
    cbn [map omap list_omap snd].
    assert (Hp : uuid_of p = k) by (apply Hcons; apply lookup_insert_eq).
    assert (IH' := IH (fun k' p' H' =>
                         Hcons k' p' ltac:(rewrite lookup_insert_ne;
                           [exact H'|intros ->; congruence]))).
    rewrite incrementAge_uuid, Hp.
    destruct (decide (k = u)) as [->|Hne].
    + rewrite lookup_insert_eq. rewrite Hk in IH'.
      destruct (fst (Users.incrementAge p)); cbn [count_occ].
      * destruct (Signal_eq_dec _ _); [|congruence]. rewrite IH'. reflexivity.
      * exact IH'.
    + rewrite lookup_insert_ne by exact Hne.
      destruct (fst (Users.incrementAge p)); cbn [count_occ].
      * destruct (Signal_eq_dec _ _) as [Heq|_]; [congruence|]. exact IH'.
      * exact IH'.
Qed.

Lemma incrementAge_consistent l :
  consistent l -> consistent (PeersList.incrementAge l).
Proof.
  intros Hc k p. unfold PeersList.incrementAge. destruct l; cbn.
  rewrite lookup_fmap. intros Hp.
  apply fmap_Some in Hp as (q & Hq & ->).
  rewrite incrementAge_uuid. apply (Hc k q Hq).
Qed.

Lemma incrementAge_lookup l u :
  m_instances (PeersList.incrementAge l) !! u
  = (fun p => snd (Users.incrementAge p)) <$> (m_instances l !! u).
Proof. destruct l; cbn. apply lookup_fmap. Qed.

Lemma incrementAge_count l u :
  consistent l ->
  count (peerExpired u) (emitted (PeersList.incrementAge l))
  = (count (peerExpired u) (emitted l)
     + match m_instances l !! u with
       | Some p => if fst (Users.incrementAge p) then 1 else 0
       | None => 0
       end)%nat.
Proof.
  intros Hc. unfold PeersList.incrementAge, values.
  destruct l as [m mu mf ml em pj]; cbn.
  pose proof (expired_count u m Hc) as He. unfold count in *.
  rewrite count_occ_app, He. reflexivity.
Qed.

Lemma incrementAge_file l : peers_json (PeersList.incrementAge l) = peers_json l.
Proof. destruct l; reflexivity. Qed.

Lemma ticks_add a : forall b l, ticks (a + b) l = ticks b (ticks a l).
Proof.
  induction a as [|a IH]; intros b l; [reflexivity|].
  cbn [Nat.add ticks]. apply IH.
Qed.

Lemma set_age_set_age a b p : set_age a (set_age b p) = set_age a p.
Proof. destruct p; reflexivity. Qed.

(** A confirmed instance that is at most [AgeMax - n] old only grows older
    during [n] ticks, and no [peerExpired] is emitted for it. *)
Lemma ticks_young u n : forall l p,
  consistent l -> m_instances l !! u = Some p ->
  0 <= m_age p -> m_age p + Z.of_nat n <= AgeMax ->
  consistent (ticks n l) /\
  m_instances (ticks n l) !! u = Some (set_age (m_age p + Z.of_nat n) p) /\
  count (peerExpired u) (emitted (ticks n l))
  = count (peerExpired u) (emitted l).
Proof.
  induction n as [|n IH]; intros l p Hc Hp H0 Hmax.
  - cbn [ticks]. rewrite Z.add_0_r.
    split; [exact Hc|]. split; [|reflexivity].
    rewrite Hp. destruct p; reflexivity.
  - cbn [ticks].
    assert (Hy : Users.incrementAge p = (false, set_age (m_age p + 1) p))
      by (apply incrementAge_young; lia).
    destruct (IH (PeersList.incrementAge l) (set_age (m_age p + 1) p))
      as (Hc' & Hl' & Hn').
    + apply incrementAge_consistent; exact Hc.
    + rewrite incrementAge_lookup, Hp. cbn. rewrite Hy. reflexivity.
    + destruct p; cbn in *; lia.
    + destruct p; cbn in *; lia.
    + split; [exact Hc'|]. split.
      * rewrite Hl', set_age_set_age. f_equal. f_equal.
        destruct p; cbn; lia.
      * rewrite Hn', incrementAge_count, Hp, Hy by exact Hc. cbn. lia.
Qed.

(** An unconfirmed instance is left alone by the ticks. *)
Lemma ticks_unconfirmed u n : forall l p,
  consistent l -> m_instances l !! u = Some p -> m_age p = AgeUnconfirmed ->
  consistent (ticks n l) /\ m_instances (ticks n l) !! u = Some p /\
  count (peerExpired u) (emitted (ticks n l))
  = count (peerExpired u) (emitted l).
Proof.
  induction n as [|n IH]; intros l p Hc Hp Ha; [cbn [ticks]; auto|].
  cbn [ticks].
  pose proof (incrementAge_unconfirmed p Ha) as Hu.
  destruct (IH (PeersList.incrementAge l) p) as (Hc' & Hl' & Hn').
  - apply incrementAge_consistent; exact Hc.
  - rewrite incrementAge_lookup, Hp. cbn. rewrite Hu. reflexivity.
  - exact Ha.
  - split; [exact Hc'|]. split; [exact Hl'|].
    rewrite Hn', incrementAge_count, Hp, Hu by exact Hc. cbn. lia.
Qed.

(** C3: the code at the input of the claim.  An instance whose age a
    datagram has just reset to 0 is still confirmed after the fourth tick of
    the aging timer, with age [AgeMax = 4] and without any [peerExpired]
    emitted for it; it becomes unconfirmed, with exactly one [peerExpired],
    at the fifth tick, and stays so during the ticks that follow. *)
Theorem C3_expiry_at_the_fifth_tick l u p :
  consistent l -> m_instances l !! u = Some p -> m_age p = 0 ->
  (forall n, (n <= 4)%nat ->
     m_instances (ticks n l) !! u = Some (set_age (Z.of_nat n) p) /\
     count (peerExpired u) (emitted (ticks n l))
     = count (peerExpired u) (emitted l)) /\
  (forall n, (5 <= n)%nat ->
     m_instances (ticks n l) !! u = Some (set_age AgeUnconfirmed p) /\
     count (peerExpired u) (emitted (ticks n l))
     = S (count (peerExpired u) (emitted l))).
Proof.
  intros Hc Hp Ha.
  assert (Hyoung : forall n, (n <= 4)%nat ->
            consistent (ticks n l) /\
            m_instances (ticks n l) !! u = Some (set_age (Z.of_nat n) p) /\
            count (peerExpired u) (emitted (ticks n l))
            = count (peerExpired u) (emitted l)).
  { intros n Hn.
    destruct (ticks_young u n l p Hc Hp) as (H1 & H2 & H3);
      [lia|unfold AgeMax; lia|].
    rewrite Ha, Z.add_0_l in H2. auto. }
  split.
  - intros n Hn. destruct (Hyoung n Hn) as (_ & H2 & H3). auto.
  - intros n Hn.
    destruct (Hyoung 4%nat (le_n _)) as (Hc4 & Hl4 & Hn4).
    replace n with (4 + S (n - 5))%nat at 1 2 by lia.
    rewrite !ticks_add.
    change (ticks (S (n - 5)) (ticks 4 l))
      with (ticks (n - 5) (PeersList.incrementAge (ticks 4 l))).
    set (l4 := ticks 4 l) in *.
    assert (Hx : Users.incrementAge (set_age (Z.of_nat 4) p)
                 = (true, set_age AgeUnconfirmed p)).
    { rewrite incrementAge_at_max by (destruct p; reflexivity).
      rewrite set_age_set_age. reflexivity. }
    destruct (ticks_unconfirmed u (n - 5) (PeersList.incrementAge l4)
                (set_age AgeUnconfirmed p)) as (_ & H2 & H3).
    + apply incrementAge_consistent; exact Hc4.
    + rewrite incrementAge_lookup, Hl4. cbn. rewrite Hx. reflexivity.
    + destruct p; reflexivity.
    + split; [exact H2|].
      rewrite H3, incrementAge_count, Hl4, Hx, Hn4 by exact Hc4. cbn. lia.
Qed.

Section Loading.

Variable uuidIsNull : string -> bool.
Variable iconFromJson : string -> QJsonObject -> option string.
Variable preferencesFromJson : QJsonObject -> QJsonObject.

Lemma PeerUser_of_json_valid junkAge json :
  let p := PeerUser_of_json uuidIsNull iconFromJson preferencesFromJson
             junkAge json in
  m_valid p = true -> loaded (uuid_of p) p.
Proof.
  unfold PeerUser_of_json.
  destruct (_ || _); [discriminate|].
  destruct (_ || _); [discriminate|].
  unfold localUser. cbn [m_age].
  destruct (toBool json "Me" false).
  - rewrite bool_decide_eq_true_2 by reflexivity. discriminate.
  - rewrite bool_decide_eq_false_2 by discriminate.
    intros _. unfold loaded, uuid_of. cbn. eauto.
Qed.

Lemma create_loaded junkAge file uuid firstName lastName k p :
  m_instances (PeersList.create uuidIsNull iconFromJson preferencesFromJson
                 junkAge file uuid firstName lastName) !! k = Some p ->
  loaded k p.
Proof.
  unfold PeersList.create. cbn [m_instances].
  generalize (default [] file). intros objs.
  assert (Hinv : forall (m : gmap string PeerUser),
            (forall k p, m !! k = Some p -> loaded k p) ->
            forall k p,
              fold_left
                (fun (m : gmap string PeerUser) (obj : QJsonObject) =>
                   let peer := PeerUser_of_json uuidIsNull iconFromJson
                                 preferencesFromJson junkAge obj in
                   if m_valid peer && negb (String.eqb (uuid_of peer) uuid)
                   then <[uuid_of peer := peer]> m
                   else m) objs m !! k = Some p ->
              loaded k p).
  { induction objs as [|obj objs IH]; intros m Hm k' p'; cbn [fold_left].
    - apply Hm.
    - apply IH. intros k1 p1.
      destruct (m_valid _) eqn:Hv; cbn [andb]; [|apply Hm].
      destruct (negb _); [|apply Hm].
      destruct (decide (uuid_of
                  (PeerUser_of_json uuidIsNull iconFromJson
                     preferencesFromJson junkAge obj) = k1)) as [<-|Hne].
      + rewrite lookup_insert_eq. intros [= <-].
        apply PeerUser_of_json_valid. exact Hv.
      + rewrite lookup_insert_ne by exact Hne. apply Hm. }
  apply Hinv. intros k1 p1. rewrite lookup_empty. discriminate.
Qed.

End Loading.

Lemma update_file freshUuid d l l' :
  PeersList.update freshUuid d l = Some l' -> peers_json l' = peers_json l.
Proof.
  unfold PeersList.update.
  destruct (negb (d_valid d)); [discriminate|].
  destruct (d_flagQuit d).
  - destruct (m_instances l !! d_uuid d) as [peer|]; [|congruence].
    destruct (setUnconfirmed peer) as [[] peer']; intros [= <-];
      destruct l; reflexivity.
  - destruct (m_instances l !! d_uuid d) as [peer|].
    + destruct (Users.update d peer) as [[[[] []] peer']|];
        try discriminate;
        try (destruct (negb (m_valid peer')); [discriminate|]);
        intros [= <-]; destruct l; reflexivity.
    + destruct (String.eqb (me_uuid l) (d_uuid d));
        [intros [= <-]; destruct l; reflexivity|].
      destruct (PeerUser_of_datagram d) as [peer|]; [|discriminate].
      destruct (negb (m_valid peer)); [discriminate|].
      intros [= <-]; destruct l; reflexivity.
Qed.

Lemma run_file events : forall l l',
  PeersList.run l events = Some l' -> peers_json l' = peers_json l.
Proof.
  induction events as [|e events IH]; intros l l'; cbn [PeersList.run].
  - congruence.
  - destruct (PeersList.step l e) as [l1|] eqn:Hstep; [|discriminate].
    cbn [mbind option_bind]. intros Hrun. rewrite (IH _ _ Hrun).
    destruct e; cbn [PeersList.step] in Hstep.
    + eapply update_file; eauto.
    + injection Hstep as <-. apply incrementAge_file.
Qed.

(** A datagram of another user leaves the instance stored under [k] as it
    is. *)
Lemma update_other freshUuid d l l' k :
  PeersList.update freshUuid d l = Some l' -> d_uuid d <> k ->
  m_instances l' !! k = m_instances l !! k.
Proof.
  unfold PeersList.update. intros Hu Hne.
  destruct (negb (d_valid d)); [discriminate|].
  destruct (d_flagQuit d).
  - destruct (m_instances l !! d_uuid d) as [peer|]; [|congruence].
    destruct (setUnconfirmed peer) as [[] peer']; injection Hu as <-;
      destruct l; cbn; apply lookup_insert_ne; exact Hne.
  - destruct (m_instances l !! d_uuid d) as [peer|].
    + destruct (Users.update d peer) as [[[[] []] peer']|];
        try discriminate;
        try (destruct (negb (m_valid peer')); [discriminate|]);
        injection Hu as <-; destruct l; cbn; apply lookup_insert_ne;
        exact Hne.
    + destruct (String.eqb (me_uuid l) (d_uuid d));
        [injection Hu as <-; destruct l; reflexivity|].
      unfold PeerUser_of_datagram in Hu.
      destruct (negb (d_valid d)); [discriminate|].
      cbn [m_valid negb] in Hu. injection Hu as <-.
      destruct l; cbn. apply lookup_insert_ne. exact Hne.
Qed.

(** An unconfirmed instance stays as it is as long as no datagram of its
    user arrives. *)
Lemma run_unconfirmed k events : forall l l' p,
  PeersList.run l events = Some l' ->
  Forall (fun e => ~ concerns k e) events ->
  m_instances l !! k = Some p -> m_age p = AgeUnconfirmed ->
  m_instances l' !! k = Some p.
Proof.
  induction events as [|e events IH]; intros l l' p; cbn [PeersList.run].
  - intros [= <-] _ Hp _. exact Hp.
  - destruct (PeersList.step l e) as [l1|] eqn:Hstep; [|discriminate].
    cbn [mbind option_bind]. intros Hrun Hall Hp Ha.
    apply Forall_cons in Hall as [He Hall].
    apply (IH l1 l' p Hrun Hall); [|exact Ha].
    destruct e; cbn [PeersList.step concerns] in *.
    + rewrite (update_other _ _ _ _ k Hstep He). exact Hp.
    + injection Hstep as <-. rewrite incrementAge_lookup, Hp. cbn.
      rewrite incrementAge_unconfirmed by exact Ha. reflexivity.
Qed.

(** A datagram of its user confirms a loaded instance: its age is reset to
    0 and [peerAdded] is emitted. *)
Lemma update_confirms freshUuid d l k p :
  m_instances l !! k = Some p -> loaded k p ->
  d_valid d = true -> d_flagQuit d = false -> d_uuid d = k ->
  exists l' p' rest,
    PeersList.update freshUuid d l = Some l' /\
    m_instances l' !! k = Some p' /\ m_age p' = 0 /\
    unconfirmed p' = false /\
    (emitted l' = emitted l ++ peerAdded k :: rest \/
     emitted l' = emitted l ++ peerUpdated k :: peerAdded k :: rest).
Proof.
  intros Hp (Hv & Ha & info & Hi & Hk) Hdv Hq Hd. subst k.
  unfold PeersList.update. rewrite Hdv, Hq, Hd, Hp. cbn [negb].
  unfold Users.update. rewrite Hi. cbn [mbind option_bind].
  rewrite Hv, Hdv, Hd, String.eqb_refl. cbn [negb orb].
  assert (Hunc : unconfirmed p = true)
    by (unfold unconfirmed; rewrite (bool_decide_eq_true_2 _ Ha); reflexivity).
  rewrite Hunc, (bool_decide_eq_true_2 _ Ha).
  cbn [orb m_valid negb].
  destruct l as [m mu mf ml em pj].
  destruct (negb (d_flagIcon d) && bool_decide (is_Some (m_icon info))).
  - eexists; eexists; eexists. split; [reflexivity|].
    cbn. rewrite lookup_insert_eq.
    split; [reflexivity|]. split; [reflexivity|]. split; [reflexivity|].
    right. rewrite <- !app_assoc. reflexivity.
  - eexists; eexists; eexists. split; [reflexivity|].
    cbn. rewrite lookup_insert_eq.
    split; [reflexivity|]. split; [reflexivity|]. split; [reflexivity|].
    left. rewrite <- !app_assoc. reflexivity.
Qed.

(** C8, amended: while the application runs, datagrams and aging leave
    [peers.json] as it was read at startup; the registry is written to it when
    it is destroyed, at shutdown, as the array of what [save] writes for each
    instance; and every instance loaded from [peers.json] starts unconfirmed,
    stays as it is whatever happens while no datagram of its user arrives, and
    is then confirmed, with [peerAdded] emitted, by the first datagram of that
    user that is not a quit datagram. *)
Theorem C8_saved_at_shutdown_loaded_unconfirmed
    (uuidIsNull : string -> bool)
    (iconFromJson : string -> QJsonObject -> option string)
    (preferencesFromJson : QJsonObject -> QJsonObject)
    junkAge file uuid firstName lastName events l' :
  let l := PeersList.create uuidIsNull iconFromJson preferencesFromJson
             junkAge file uuid firstName lastName in
  PeersList.run l events = Some l' ->
  peers_json l' = file /\
  peers_json (destroy true l') = Some (toJsonArray l') /\
  (forall k p, m_instances l !! k = Some p ->
     unconfirmed p = true /\
     (Forall (fun e => ~ concerns k e) events ->
      m_instances l' !! k = Some p /\
      forall freshUuid d,
        d_valid d = true -> d_flagQuit d = false -> d_uuid d = k ->
        exists l1 p1 sigs, PeersList.update freshUuid d l' = Some l1 /\
          m_instances l1 !! k = Some p1 /\ unconfirmed p1 = false /\
          emitted l1 = emitted l' ++ sigs /\ peerAdded k ∈ sigs /\
          peers_json l1 = file)).
Proof.
  intros l Hrun. split; [|split].
  - rewrite (run_file _ _ _ Hrun). reflexivity.
  - destruct l'; reflexivity.
  - intros k p Hp.
    pose proof (create_loaded _ _ _ _ _ _ _ _ _ _ Hp) as Hl.
    pose proof Hl as (Hv & Ha & _).
    split.
    + unfold unconfirmed. apply bool_decide_eq_true_2. exact Ha.
    + intros Hall.
      pose proof (run_unconfirmed k events l l' p Hrun Hall Hp Ha) as Hp'.
      split; [exact Hp'|].
      intros freshUuid d Hdv Hq Hd.
      destruct (update_confirms freshUuid d l' k p Hp' Hl Hdv Hq Hd)
        as (l1 & p1 & rest & Hu & Hp1 & _ & Hc1 & Hem).
      assert (Hfile : peers_json l1 = file).
      { rewrite (update_file _ _ _ _ Hu). rewrite (run_file _ _ _ Hrun).
        reflexivity. }
      destruct Hem as [Hem | Hem].
      * exists l1, p1, (peerAdded k :: rest).
        split; [exact Hu|]. split; [exact Hp1|]. split; [exact Hc1|].
        split; [exact Hem|]. split; [apply list_elem_of_here|exact Hfile].
      * exists l1, p1, (peerUpdated k :: peerAdded k :: rest).
        split; [exact Hu|]. split; [exact Hp1|]. split; [exact Hc1|].
        split; [exact Hem|].
        split; [apply list_elem_of_further, list_elem_of_here|exact Hfile].
Qed.

End RegistryFacts.

Section RegistryClaims.
Import Users PeersList RegistrySamples.
Local Open Scope string_scope.

Lemma confirmed_registry_reachable :
  PeersList.update "{new}" beacon first_run = Some confirmed_registry.
Proof. vm_compute. reflexivity. Qed.

Lemma confirmed_registry_consistent : consistent confirmed_registry.
Proof.
  intros k p Hp. cbn in Hp.
  apply lookup_singleton_Some in Hp as [<- <-]. reflexivity.
Qed.

Lemma C3_expiry_at_the_fifth_tick_witness :
  (m_instances (ticks 4 confirmed_registry) !! "{p1}"
   = Some (set_age 4 fresh_peer) /\
   count (peerExpired "{p1}") (emitted (ticks 4 confirmed_registry)) = 0%nat) /\
  (m_instances (ticks 5 confirmed_registry) !! "{p1}"
   = Some (set_age AgeUnconfirmed fresh_peer) /\
   count (peerExpired "{p1}") (emitted (ticks 5 confirmed_registry)) = 1%nat).
Proof.
  destruct (C3_expiry_at_the_fifth_tick confirmed_registry "{p1}" fresh_peer
              confirmed_registry_consistent eq_refl eq_refl) as [H4 H5].
  split; [apply (H4 4%nat); lia|apply (H5 5%nat); lia].
Defined.

(** C8, as stated, fails: a beacon inserts a peer into the registry of a
    first run, [peerAdded] is emitted, and [peers.json] is still missing; it
    is written when the registry is destroyed. *)
Lemma C8_counterexample :
  exists l, PeersList.update "{new}" beacon first_run = Some l /\
    m_instances first_run !! "{p1}" = None /\
    m_instances l !! "{p1}" = Some fresh_peer /\
    emitted l = [peerAdded "{p1}"] /\
    peers_json l = None /\
    peers_json (PeersList.incrementAge l) = None /\
    peers_json (destroy true l) = Some [save fresh_peer ∅].
Proof.
  exists confirmed_registry.
  split; [exact confirmed_registry_reachable|].
  repeat split; vm_compute; reflexivity.
Qed.

Lemma C8_saved_at_shutdown_loaded_unconfirmed_witness :
  exists l' p l1 p1,
    PeersList.run second_run [AgingTimeout; AgingTimeout] = Some l' /\
    peers_json l' = Some [stored] /\
    m_instances second_run !! "{p1}" = Some p /\
    unconfirmed p = true /\ m_instances l' !! "{p1}" = Some p /\
    PeersList.update "{new}" beacon l' = Some l1 /\
    m_instances l1 !! "{p1}" = Some p1 /\ unconfirmed p1 = false /\
    peerAdded "{p1}" ∈ emitted l1.
Proof.
  assert (Hrun : exists l', PeersList.run second_run [AgingTimeout; AgingTimeout]
                            = Some l')
    by (eexists; vm_compute; reflexivity).
  destruct Hrun as [l' Hrun].
  assert (Hp : exists p, m_instances second_run !! "{p1}" = Some p)
    by (eexists; vm_compute; reflexivity).
  destruct Hp as [p Hp].
  destruct (C8_saved_at_shutdown_loaded_unconfirmed uuidIsNull iconFromJson
              preferencesFromJson 0 (Some [stored]) "{me}" "Me" "Myself"
              [AgingTimeout; AgingTimeout] l' Hrun) as (Hfile & _ & Hpeers).
  destruct (Hpeers "{p1}" p Hp) as (Hunc & Hstay).
  destruct Hstay as (Hp' & Hconf); [repeat constructor; intros []|].
  destruct (Hconf "{new}" beacon eq_refl eq_refl eq_refl)
    as (l1 & p1 & sigs & Hu & Hp1 & Hc1 & Hem & Hin & _).
  exists l', p, l1, p1.
  split; [exact Hrun|]. split; [exact Hfile|]. split; [exact Hp|].
  split; [exact Hunc|]. split; [exact Hp'|]. split; [exact Hu|].
  split; [exact Hp1|]. split; [exact Hc1|].
  rewrite Hem. apply elem_of_app. right. exact Hin.
Defined.

(** The names of a record are measured as [QString::length()] measures
    them: a first name of 16 accented letters, 32 bytes in the file, is within
    [STRING_LEN], and one of 17 letters is not. *)
Lemma names_measured_in_code_units :
  String.length (accented 16) = 32%nat /\
  Users.m_valid (Users.PeerUser_of_json uuidIsNull iconFromJson
                   preferencesFromJson 0 (stored_named (accented 16))) = true /\
  Users.m_valid (Users.PeerUser_of_json uuidIsNull iconFromJson
                   preferencesFromJson 0 (stored_named (accented 17))) = false.
Proof. vm_compute. auto. Qed.

End RegistryClaims.

(** ** The stream operators of [FileInfo] *)

Section FileInfoStream.
Import QDataStream FileInfo.

Lemma Z_of_byte_of_Z x : Z_of_byte (byte_of_Z x) = x mod 256.
Proof.
  unfold Z_of_byte, byte_of_Z.
  pose proof (Z.mod_pos_bound x 256 ltac:(lia)) as Hx.
  destruct (Byte.of_N (Z.to_N (x mod 256))) as [b|] eqn:E.
  - apply Byte.to_of_N in E. rewrite E. lia.
  - apply Byte.of_N_None_iff in E. lia.
Qed.

Lemma get_put_le n : forall x rest,
  0 <= x < 2 ^ (8 * Z.of_nat n) ->
  get_le n (put_le n x ++ rest) = Some (x, rest).
Proof.
  induction n as [|n IH]; intros x rest Hx.
  - cbn in *. replace x with 0 by lia. reflexivity.
  - replace (8 * Z.of_nat (S n)) with (8 + 8 * Z.of_nat n) in Hx by lia.
    rewrite Z.pow_add_r in Hx by lia. change (2 ^ 8) with 256 in Hx.
    cbn [put_le get_le app].
    rewrite IH by (split; [apply Z.div_pos; lia|
                           apply Z.div_lt_upper_bound; lia]).
    rewrite Z_of_byte_of_Z. f_equal. f_equal.
    pose proof (Z.div_mod x 256 ltac:(lia)). lia.
Qed.

Lemma get_put_bytearray d rest :
  zlen d < 4294967295 ->
  get_bytearray (put_bytearray d ++ rest) = Some (d, rest).
Proof.
  intros Hd. pose proof (zlen_nonneg d) as H0.
  unfold get_bytearray, put_bytearray, bind.
  rewrite <- app_assoc, get_put_le
    by (change (2 ^ (8 * Z.of_nat 4)) with 4294967296; lia).
  destruct (Z.eqb_spec (zlen d) 4294967295) as [He|_]; [lia|].
  rewrite zlen_app.
  destruct (Z.ltb_spec (zlen d + zlen rest) (zlen d)) as [Hlt|_];
    [pose proof (zlen_nonneg rest); lia|].
  unfold zlen. rewrite Nat2Z.id.
  rewrite take_app_length, drop_app_length. reflexivity.
Qed.

Lemma get_put_datetime d rest :
  datetime_in_range d ->
  get_datetime (put_datetime d ++ rest) = Some (d, rest).
Proof.
  intros (Hj & Hm & Ht). unfold get_datetime, put_datetime, bind, ret.
  rewrite <- !app_assoc.
  rewrite get_put_le by exact Hj.
  rewrite get_put_le by exact Hm.
  rewrite get_put_le by exact Ht.
  destruct d; reflexivity.
Qed.

(** C6: the code at the instances of the claim.  Decoding the encoding of
    a valid, scheduled descriptor gives back its path, name, directory, size
    and date, and leaves the stream where the encoding ends, but the status
    of the result is the one the target object held before: [operator>>]
    does not assign [m_status], which the default constructor leaves
    uninitialised. *)
Theorem C6_decode_encode_keeps_target_status
    filePath size lastModified target rest :
  looks_strange filePath = false ->
  zlen (list_byte_of_string filePath) < 4294967295 ->
  0 <= size < 2 ^ 64 -> datetime_in_range lastModified ->
  let D := make filePath size lastModified in
  m_valid D = true /\ m_status D = Scheduled /\
  decode (encode D ++ rest) target
  = (setStatus (m_status target) D, Some rest).
Proof.
  intros Hok Hlen Hsize Hdate D. unfold D, make. rewrite Hok.
  split; [reflexivity|]. split; [reflexivity|].
  unfold encode, decode, get_fields, bind, ret.
  cbn [m_valid m_status m_filePath m_size m_lastModified negb orb].
  rewrite bool_decide_eq_true_2 by reflexivity. cbn [negb].
  rewrite <- !app_assoc.
  rewrite get_put_bytearray by exact Hlen.
  rewrite get_put_le by exact Hsize.
  rewrite get_put_datetime by exact Hdate.
  rewrite string_of_list_byte_of_string, Hok. reflexivity.
Qed.

End FileInfoStream.

(** ** The validity of a [FileInfo] *)

Section PathFacts.
Import Qt.

Lemma split_slash_free seg : slash_free seg -> split_slash seg = [seg].
Proof.
  induction 1 as [|c seg Hc _ IH]; [reflexivity|].
  cbn [split_slash]. rewrite Hc, IH. reflexivity.
Qed.

Lemma split_slash_app seg r :
  slash_free seg -> split_slash (seg ++ slash :: r) = seg :: split_slash r.
Proof.
  induction 1 as [|c seg Hc _ IH]; [reflexivity|].
  cbn [split_slash app]. rewrite Hc, IH. reflexivity.
Qed.

Lemma split_slash_segments s : Forall slash_free (split_slash s).
Proof.
  induction s as [|c r IH]; cbn [split_slash].
  - repeat constructor.
  - destruct (Ascii.eqb c slash) eqn:Hc.
    + constructor; [constructor|exact IH].
    + destruct (split_slash r) as [|seg segs].
      * repeat constructor. exact Hc.
      * apply Forall_cons in IH as [Hseg Hsegs].
        constructor; [constructor; assumption|exact Hsegs].
Qed.

Lemma split_join segs :
  segs <> [] -> Forall slash_free segs -> split_slash (join_slash segs) = segs.
Proof.
  induction segs as [|seg segs IH]; intros Hne Hall; [congruence|].
  apply Forall_cons in Hall as [Hseg Hall].
  destruct segs as [|seg2 rest].
  - cbn. apply split_slash_free. exact Hseg.
  - change (join_slash (seg :: seg2 :: rest))
      with (seg ++ slash :: join_slash (seg2 :: rest)).
    rewrite split_slash_app by exact Hseg.
    rewrite IH by (congruence || exact Hall). reflexivity.
Qed.

Lemma norm_step_kept absolute stack seg :
  Forall kept stack -> slash_free seg ->
  Forall kept (norm_step absolute stack seg).
Proof.
  intros Hstack Hseg. unfold norm_step, seg_eqb.
  destruct (bool_decide (seg = [])) eqn:Hne; [exact Hstack|].
  apply bool_decide_eq_false in Hne. cbn [orb].
  destruct (bool_decide (seg = [dot])); [exact Hstack|].
  assert (Hk : kept seg) by (split; assumption).
  destruct (bool_decide (seg = [dot; dot])).
  - destruct stack as [|top rest].
    + destruct absolute; repeat constructor; apply Hk.
    + destruct (bool_decide (top = [dot; dot])).
      * constructor; assumption.
      * apply Forall_cons in Hstack as [_ Hrest]. exact Hrest.
  - constructor; assumption.
Qed.

Lemma norm_fold_kept absolute segs : forall stack,
  Forall kept stack -> Forall slash_free segs ->
  Forall kept (fold_left (norm_step absolute) segs stack).
Proof.
  induction segs as [|seg segs IH]; intros stack Hstack Hsegs;
    cbn [fold_left]; [exact Hstack|].
  apply Forall_cons in Hsegs as [Hseg Hsegs].
  apply IH; [apply norm_step_kept; assumption|exact Hsegs].
Qed.

Lemma last_kept segs : segs <> [] -> Forall kept segs -> kept (List.last segs []).
Proof.
  induction segs as [|seg segs IH]; intros Hne Hall; [congruence|].
  apply Forall_cons in Hall as [Hseg Hall].
  destruct segs as [|seg2 rest]; [exact Hseg|].
  change (List.last (seg :: seg2 :: rest) [])
    with (List.last (seg2 :: rest) []).
  apply IH; [congruence|exact Hall].
Qed.

(** A relative path that is not empty and equal to its cleaned form does
    not end with a separator: its last segment is not empty. *)
Lemma clean_relative_last_segment s :
  s <> [] -> is_absolute_chars s = false -> cleanPath_chars s = s ->
  last_segment s <> [].
Proof.
  intros Hne Hrel Hclean. unfold cleanPath_chars in Hclean.
  destruct s as [|c r]; [congruence|].
  rewrite Hrel in Hclean.
  set (segs := rev (fold_left (norm_step false) (split_slash (c :: r)) []))
    in Hclean.
  assert (Hkept : Forall kept segs).
  { unfold segs. apply Forall_rev. apply norm_fold_kept; [constructor|].
    apply split_slash_segments. }
  destruct segs as [|seg segs'] eqn:Hsegs.
  - rewrite <- Hclean. cbv. discriminate.
  - rewrite <- Hsegs in *. clear Hsegs.
    assert (Hnil : segs <> []).
    { intros E. rewrite E in Hclean. cbn in Hclean. discriminate. }
    unfold last_segment. rewrite <- Hclean at 1.
    rewrite split_join.
    + apply last_kept; assumption.
    + exact Hnil.
    + eapply Forall_impl; [exact Hkept|]. intros x [Hx _]. exact Hx.
Qed.

End PathFacts.

Section FileInfoValidity.
Import Qt QDataStream FileInfo.

Lemma looks_strange_acceptable filePath :
  looks_strange filePath = false <-> acceptable filePath.
Proof.
  unfold looks_strange, acceptable.
  rewrite !orb_false_iff, !negb_false_iff, String.eqb_eq.
  intuition congruence.
Qed.

Lemma make_valid filePath size lastModified :
  m_valid (make filePath size lastModified) = true <-> acceptable filePath.
Proof.
  rewrite <- looks_strange_acceptable. unfold make.
  destruct (looks_strange filePath); cbn; intuition congruence.
Qed.

Lemma decode_valid bs target f rest :
  decode bs target = (f, Some rest) ->
  (m_valid f = true <-> acceptable (m_filePath f)).
Proof.
  unfold decode.
  destruct (get_fields bs) as [[[[filePath size] lastModified] rest']|];
    [|discriminate].
  rewrite <- looks_strange_acceptable.
  destruct (looks_strange filePath) eqn:Hs; intros [= <- <-]; cbn;
    rewrite Hs; intuition congruence.
Qed.

(** An acceptable path that is not empty has a file name. *)
Lemma acceptable_fileName filePath :
  filePath <> EmptyString -> acceptable filePath ->
  fileName filePath <> EmptyString.
Proof.
  intros Hne (Hrel & Hclean & _).
  set (s := list_ascii_of_string filePath).
  assert (Hs : s <> []).
  { unfold s. destruct filePath; [congruence|discriminate]. }
  assert (Habs : is_absolute_chars s = false).
  { unfold isRelative in Hrel. fold s in Hrel. unfold is_absolute_chars.
    destruct s as [|c r]; [reflexivity|].
    apply andb_true_iff in Hrel as [Hc _].
    apply negb_true_iff in Hc. exact Hc. }
  assert (Hcl : cleanPath_chars s = s).
  { unfold cleanPath in Hclean. fold s in Hclean.
    apply (f_equal list_ascii_of_string) in Hclean.
    rewrite list_ascii_of_string_of_list_ascii in Hclean. exact Hclean. }
  pose proof (clean_relative_last_segment s Hs Habs Hcl) as Hlast.
  unfold fileName. fold s.
  destruct (last_segment s); [congruence|discriminate].
Qed.

(** C2: the code and the claim.  On both ways in, the constructor used by
    the picker and [operator>>] used for an ITEM, a descriptor is valid
    exactly when its path is relative, equal to its cleaned form and does not
    start with ["../"]; such a path has a file name unless it is empty; and
    the empty path is accepted on both ways, with an empty file name, so that
    a session adds the descriptor to its list of files. *)
Theorem C2_validity_and_the_empty_path :
  (forall filePath size lastModified,
     m_valid (make filePath size lastModified) = true <-> acceptable filePath) /\
  (forall bs target f rest,
     decode bs target = (f, Some rest) ->
     (m_valid f = true <-> acceptable (m_filePath f))) /\
  (forall filePath,
     filePath <> EmptyString -> acceptable filePath ->
     fileName filePath <> EmptyString) /\
  (m_valid (make EmptyString 3 sample_date) = true /\
   m_name (make EmptyString 3 sample_date) = EmptyString) /\
  (exists f,
     decode empty_path_item (make_default 0 Scheduled) = (f, Some []) /\
     m_valid f = true /\ m_filePath f = EmptyString /\
     m_name f = EmptyString) /\
  (exists s f,
     Syfft.run Syfft.create
       [Syfft.AcceptConnection;
        Syfft.ReadData [Syfft.HELLO true; Syfft.ACK; Syfft.SHARE 1 3;
                        Syfft.ITEM empty_path_item 0 Scheduled]] = Some s /\
     Syfft.m_files s = [f] /\ m_valid f = true /\ m_name f = EmptyString).
Proof.
  split; [exact make_valid|].
  split; [exact decode_valid|].
  split; [exact acceptable_fileName|].
  split; [split; reflexivity|].
  split.
  - eexists. split; [vm_compute; reflexivity|]. repeat split.
  - eexists. eexists. split; [vm_compute; reflexivity|]. repeat split.
Qed.

Lemma C6_decode_encode_keeps_target_status_witness :
  decode (encode sample_a ++ []) (make_default 0 TransferFailed)
  = (setStatus TransferFailed sample_a, Some []) /\
  setStatus TransferFailed sample_a <> sample_a.
Proof.
  split.
  - apply (C6_decode_encode_keeps_target_status "a.txt" 3 sample_date
             (make_default 0 TransferFailed) []).
    + reflexivity.
    + reflexivity.
    + lia.
    + unfold datetime_in_range. cbn. lia.
  - discriminate.
Defined.

End FileInfoValidity.

(** ** The names tried by KeepBoth *)

Section ArgFacts.
Import Qt.

Lemma findArgEscapes_prefix l r :
  percent_free l -> findArgEscapes (l ++ r) = map Lit l ++ findArgEscapes r.
Proof.
  induction 1 as [|c l Hc _ IH]; [reflexivity|].
  cbn [app map findArgEscapes]. rewrite Hc. cbn [negb]. rewrite IH.
  reflexivity.
Qed.

Lemma min_escape_prefix l ts : min_escape (map Lit l ++ ts) = min_escape ts.
Proof. induction l as [|c l IH]; [reflexivity|exact IH]. Qed.

Lemma replaceArgEscapes_prefix m a l ts :
  replaceArgEscapes m a (map Lit l ++ ts) = l ++ replaceArgEscapes m a ts.
Proof.
  induction l as [|c l IH]; [reflexivity|].
  cbn [map app replaceArgEscapes]. rewrite IH. reflexivity.
Qed.

(** A prefix without ['%'] holds no place marker: [arg] works on what
    follows it. *)
Lemma arg_chars_prefix a l r :
  percent_free l -> arg_chars a (l ++ r) = l ++ arg_chars a r.
Proof.
  intros Hl. unfold arg_chars.
  rewrite findArgEscapes_prefix by exact Hl.
  rewrite min_escape_prefix.
  destruct (min_escape (findArgEscapes r)); [|reflexivity].
  apply replaceArgEscapes_prefix.
Qed.

Lemma percent_free_app l1 l2 :
  percent_free l1 -> percent_free l2 -> percent_free (l1 ++ l2).
Proof. intros H1 H2. apply Forall_app. split; assumption. Qed.

Lemma string_of_list_ascii_app l1 l2 :
  string_of_list_ascii (l1 ++ l2)
  = String.append (string_of_list_ascii l1) (string_of_list_ascii l2).
Proof.
  induction l1 as [|c l1 IH]; [reflexivity|].
  cbn [app string_of_list_ascii String.append]. rewrite IH. reflexivity.
Qed.

Lemma digit_percent_free d :
  0 <= d < 10 -> Ascii.eqb (digit d) "%"%char = false.
Proof.
  intros Hd.
  assert (Hcases : d = 0 \/ d = 1 \/ d = 2 \/ d = 3 \/ d = 4 \/ d = 5 \/
                   d = 6 \/ d = 7 \/ d = 8 \/ d = 9) by lia.
  repeat (destruct Hcases as [->|Hcases]; [reflexivity|]).
  subst d. reflexivity.
Qed.

Lemma number_percent_free n :
  0 <= n < 1000 -> percent_free (list_ascii_of_string (number n)).
Proof.
  intros Hn. unfold number.
  rewrite list_ascii_of_string_of_list_ascii.
  destruct (Z.ltb_spec n 10); [|destruct (Z.ltb_spec n 100)];
    repeat constructor; apply digit_percent_free;
    try lia;
    try (split; [apply Z.div_pos; lia|apply Z.div_lt_upper_bound; lia]);
    try (apply Z.mod_pos_bound; lia).
Qed.

End ArgFacts.

Section KeepBothFacts.
Import Qt Syfft.

Lemma arg_prefix a l r :
  percent_free l ->
  arg a (string_of_list_ascii (l ++ r))
  = string_of_list_ascii
      (l ++ arg_chars (list_ascii_of_string a) r).
Proof.
  intros Hl. unfold arg. rewrite list_ascii_of_string_of_list_ascii.
  rewrite arg_chars_prefix by exact Hl. reflexivity.
Qed.

Lemma of_append (a b : string) :
  string_of_list_ascii (list_ascii_of_string a ++ list_ascii_of_string b)
  = (a ++ b)%string.
Proof.
  rewrite string_of_list_ascii_app, !string_of_list_ascii_of_string.
  reflexivity.
Qed.

(** Without ['%'] in the directory, the base name and the extension, the
    chain of [arg] calls builds the candidate of the claim. *)
Lemma newPath_suffixed path name ext counter :
  no_percent path -> no_percent name -> no_percent ext ->
  0 <= counter < 1000 ->
  newPath path name ext counter = suffixed path name ext counter.
Proof.
  intros Hp Hn He Hc. pose proof (number_percent_free counter Hc) as Hk.
  unfold no_percent in *.
  set (P := list_ascii_of_string path) in *.
  set (N := list_ascii_of_string name) in *.
  set (E := list_ascii_of_string ext) in *.
  set (K := list_ascii_of_string (number counter)) in *.
  assert (Hslash : percent_free ["/"%char]) by (repeat constructor).
  assert (Hdot : percent_free ["."%char]) by (repeat constructor).
  assert (Husc : percent_free ["_"%char]) by (repeat constructor).
  assert (Hpath : path = string_of_list_ascii P)
    by (symmetry; apply string_of_list_ascii_of_string).
  assert (Hname : name = string_of_list_ascii N)
    by (symmetry; apply string_of_list_ascii_of_string).
  assert (Hext : ext = string_of_list_ascii E)
    by (symmetry; apply string_of_list_ascii_of_string).
  assert (Hnum : number counter = string_of_list_ascii K)
    by (symmetry; apply string_of_list_ascii_of_string).
  unfold newPath, suffixed.
  destruct (String.eqb name ""); [|destruct (String.eqb ext "")].
  - transitivity (string_of_list_ascii
                    (P ++ ["/"; "."]%char ++ E ++ ["_"%char] ++ K)).
    + change (arg path "%1/.%2_%3")
        with (string_of_list_ascii
                ([] ++ arg_chars P (list_ascii_of_string "%1/.%2_%3"))).
      change (arg_chars P (list_ascii_of_string "%1/.%2_%3"))
        with (P ++ ["/"; "."]%char ++ list_ascii_of_string "%2_%3").
      rewrite app_nil_l, app_assoc.
      rewrite arg_prefix by (apply percent_free_app; [exact Hp|repeat constructor]).
      change (arg_chars (list_ascii_of_string ext) (list_ascii_of_string "%2_%3"))
        with (E ++ ["_"%char] ++ list_ascii_of_string "%3").
      rewrite !app_assoc.
      rewrite arg_prefix
        by (repeat apply percent_free_app; auto; repeat constructor).
      change (arg_chars (list_ascii_of_string (number counter))
                (list_ascii_of_string "%3")) with (K ++ []).
      rewrite app_nil_r, <- !app_assoc. reflexivity.
    + rewrite Hpath, Hext, Hnum at 1.
      rewrite !string_of_list_ascii_app. reflexivity.
  - transitivity (string_of_list_ascii (P ++ ["/"%char] ++ N ++ ["_"%char] ++ K)).
    + change (arg path "%1/%2_%3")
        with (string_of_list_ascii
                ([] ++ arg_chars P (list_ascii_of_string "%1/%2_%3"))).
      change (arg_chars P (list_ascii_of_string "%1/%2_%3"))
        with (P ++ ["/"%char] ++ list_ascii_of_string "%2_%3").
      rewrite app_nil_l, app_assoc.
      rewrite arg_prefix by (apply percent_free_app; auto).
      change (arg_chars (list_ascii_of_string name) (list_ascii_of_string "%2_%3"))
        with (N ++ ["_"%char] ++ list_ascii_of_string "%3").
      rewrite !app_assoc.
      rewrite arg_prefix by (repeat apply percent_free_app; auto).
      change (arg_chars (list_ascii_of_string (number counter))
                (list_ascii_of_string "%3")) with (K ++ []).
      rewrite app_nil_r, <- !app_assoc. reflexivity.
    + rewrite Hpath, Hname, Hnum at 1.
      rewrite !string_of_list_ascii_app. reflexivity.
  - transitivity (string_of_list_ascii
                    (P ++ ["/"%char] ++ N ++ ["_"%char] ++ K ++ ["."%char] ++ E)).
    + change (arg path "%1/%2_%3.%4")
        with (string_of_list_ascii
                ([] ++ arg_chars P (list_ascii_of_string "%1/%2_%3.%4"))).
      change (arg_chars P (list_ascii_of_string "%1/%2_%3.%4"))
        with (P ++ ["/"%char] ++ list_ascii_of_string "%2_%3.%4").
      rewrite app_nil_l, app_assoc.
      rewrite arg_prefix by (apply percent_free_app; auto).
      change (arg_chars (list_ascii_of_string name)
                (list_ascii_of_string "%2_%3.%4"))
        with (N ++ ["_"%char] ++ list_ascii_of_string "%3.%4").
      rewrite !app_assoc.
      rewrite arg_prefix by (repeat apply percent_free_app; auto).
      change (arg_chars (list_ascii_of_string (number counter))
                (list_ascii_of_string "%3.%4"))
        with (K ++ ["."%char] ++ list_ascii_of_string "%4").
      rewrite !app_assoc.
      rewrite arg_prefix by (repeat apply percent_free_app; auto).
      change (arg_chars (list_ascii_of_string ext) (list_ascii_of_string "%4"))
        with (E ++ []).
      rewrite app_nil_r, <- !app_assoc. reflexivity.
    + rewrite Hpath, Hname, Hext, Hnum at 1.
      rewrite !string_of_list_ascii_app. reflexivity.
Qed.

(** The loop tries the counters in increasing order: it accepts the first
    name that can be opened and does not exist, and gives up at the first one
    that cannot be opened or when every counter has been tried. *)
Lemma keepBothLoop_spec fs currentFile path name ext n : forall c,
  let cand k := candidate currentFile path name ext (c + Z.of_nat k) in
  match keepBothLoop fs currentFile path name ext n c with
  | Some (g, w) =>
      exists j, (j < n)%nat /\ (forall i, (i < j)%nat -> taken fs (cand i)) /\
        g = cand j /\ w = newWriter fs g /\
        FileInTransfer.m_error w = false /\ FileInTransfer.m_exists w = false
  | None =>
      (exists j, (j < n)%nat /\ (forall i, (i < j)%nat -> taken fs (cand i)) /\
         FileInTransfer.m_error (newWriter fs (cand j)) = true) \/
      (forall i, (i < n)%nat -> taken fs (cand i))
  end.
Proof.
  induction n as [|n IH]; intros c cand; cbn [keepBothLoop].
  - right. intros i Hi. lia.
  - fold (candidate currentFile path name ext c).
    assert (H0 : candidate currentFile path name ext c = cand 0%nat)
      by (unfold cand; rewrite Z.add_0_r; reflexivity).
    assert (HS : forall k, candidate currentFile path name ext
                             (c + 1 + Z.of_nat k) = cand (S k))
      by (intros k; unfold cand; f_equal; lia).
    rewrite H0.
    destruct (FileInTransfer.m_error (newWriter fs (cand 0%nat))) eqn:Herr.
    + left. exists 0%nat. split; [lia|]. split; [intros i Hi; lia|exact Herr].
    + destruct (FileInTransfer.m_exists (newWriter fs (cand 0%nat))) eqn:Hex;
        cbn [negb].
      * specialize (IH (c + 1)). cbv zeta in IH.
        destruct (keepBothLoop fs currentFile path name ext n (c + 1))
          as [[g w]|].
        -- destruct IH as (j & Hj & Hbefore & Hg & Hw & He & Hx).
           exists (S j). split; [lia|]. split.
           ++ intros [|i] Hi; [split; assumption|].
              rewrite <- HS. apply Hbefore. lia.
           ++ rewrite <- HS. auto.
        -- destruct IH as [(j & Hj & Hbefore & He)|Hall].
           ++ left. exists (S j). split; [lia|]. split.
              ** intros [|i] Hi; [split; assumption|].
                 rewrite <- HS. apply Hbefore. lia.
              ** rewrite <- HS. exact He.
           ++ right. intros [|i] Hi; [split; assumption|].
              rewrite <- HS. apply Hall. lia.
      * exists 0%nat. split; [lia|]. split; [intros i Hi; lia|]. auto.
Qed.

(** C5: the code and the claim.  KeepBoth tries the counters 1 to 255 in
    increasing order, accepts the first name that can be opened and does not
    exist, and rejects the file at the first name that cannot be opened or
    after the counter 255; the name tried for a counter is the one of the
    claim when the directory, the base name and the extension hold no ['%'];
    but for the file [100%2.txt] the chain of [arg] calls takes the [%2] of
    the name for a place marker, and the transfer is accepted under the name
    [1001_txt.%4]. *)
Theorem C5_keep_both_candidates :
  (forall fs currentFile,
     let name := FileInfo.m_name currentFile in
     let cand k := candidate currentFile (FileInfo.m_path currentFile)
                     (baseName name) (completeSuffix name) (1 + Z.of_nat k) in
     match keepBoth fs currentFile with
     | Some (g, w) =>
         exists j, (j < 255)%nat /\
           (forall i, (i < j)%nat -> taken fs (cand i)) /\
           g = cand j /\ w = newWriter fs g /\
           FileInTransfer.m_error w = false /\
           FileInTransfer.m_exists w = false
     | None =>
         (exists j, (j < 255)%nat /\
            (forall i, (i < j)%nat -> taken fs (cand i)) /\
            FileInTransfer.m_error (newWriter fs (cand j)) = true) \/
         (forall i, (i < 255)%nat -> taken fs (cand i))
     end) /\
  (forall path name ext counter,
     no_percent path -> no_percent name -> no_percent ext ->
     0 <= counter < 1000 ->
     newPath path name ext counter = suffixed path name ext counter) /\
  (newPath "." "100%2" "txt" 1 = "./1001_txt.%4"%string /\
   suffixed "." "100%2" "txt" 1 = "./100%2_1.txt"%string) /\
  (exists g w, keepBoth percent_fs percent_file = Some (g, w) /\
     FileInfo.m_filePath g = "1001_txt.%4"%string /\
     FileInfo.m_valid g = true).
Proof.
  split; [|split; [exact newPath_suffixed|split]].
  - intros fs currentFile name cand. unfold keepBoth.
    apply (keepBothLoop_spec fs currentFile (FileInfo.m_path currentFile)
             (baseName name) (completeSuffix name) 255 1).
  - split; vm_compute; reflexivity.
  - eexists. eexists. split; [vm_compute; reflexivity|].
    split; reflexivity.
Qed.

End KeepBothFacts.

(** ** The datagram of the discovery protocol *)

Section DatagramStream.
Import QDataStream SyfdDatagram.

Lemma get_raw_app n l rest :
  zlen l = n -> get_raw n (l ++ rest) = Some (l, rest).
Proof.
  intros <-. unfold get_raw. rewrite zlen_app.
  destruct (Z.ltb_spec (zlen l + zlen rest) (zlen l)) as [Hlt|_];
    [pose proof (zlen_nonneg rest); lia|].
  unfold zlen. rewrite Nat2Z.id, take_app_length, drop_app_length. reflexivity.
Qed.

Lemma get_raw_inv n bs l rest :
  0 <= n -> get_raw n bs = Some (l, rest) -> bs = l ++ rest /\ zlen l = n.
Proof.
  intros Hn. unfold get_raw.
  destruct (Z.ltb_spec (zlen bs) n) as [|Hge]; [discriminate|].
  intros [= <- <-]. split; [symmetry; apply take_drop|].
  unfold zlen in *. rewrite length_take. lia.
Qed.

Lemma get_put_units units : forall rest,
  Forall (fun u => 0 <= u < 2 ^ 16) units ->
  get_units (List.length units) (flat_map (put_le 2) units ++ rest)
  = Some (units, rest).
Proof.
  induction units as [|u units IH]; intros rest Hu; [reflexivity|].
  apply Forall_cons in Hu as [Hu Hr].
  cbn [List.length get_units flat_map]. unfold bind, ret.
  rewrite <- app_assoc, (get_put_le 2) by exact Hu.
  rewrite IH by exact Hr. reflexivity.
Qed.

Lemma put_get_le n : forall bs x rest,
  get_le n bs = Some (x, rest) -> bs = put_le n x ++ rest.
Proof.
  induction n as [|n IH]; intros bs x rest.
  - cbn. intros [= <- <-]. reflexivity.
  - cbn [get_le]. destruct bs as [|b bs]; [discriminate|].
    destruct (get_le n bs) as [[y r]|] eqn:E; [|discriminate].
    intros [= <- <-]. apply IH in E as ->.
    pose proof (Z_of_byte_range b) as Hb.
    cbn [put_le app]. f_equal.
    + unfold byte_of_Z.
      replace (Z_of_byte b + 256 * y) with (Z_of_byte b + y * 256) by lia.
      rewrite Z.mod_add, Z.mod_small by lia.
      unfold Z_of_byte. rewrite N2Z.id, Byte.of_to_N. reflexivity.
    + f_equal. f_equal.
      replace (Z_of_byte b + 256 * y) with (Z_of_byte b + y * 256) by lia.
      rewrite Z.div_add, Z.div_small by lia. lia.
Qed.

Lemma put_get_units n : forall bs units rest,
  get_units n bs = Some (units, rest) ->
  bs = flat_map (put_le 2) units ++ rest /\ List.length units = n /\
  Forall (fun u => 0 <= u < 2 ^ 16) units.
Proof.
  induction n as [|n IH]; intros bs units rest.
  - cbn. intros [= <- <-]. repeat split. constructor.
  - cbn [get_units]. unfold bind, ret.
    destruct (get_le 2 bs) as [[u r1]|] eqn:E1; [|discriminate].
    destruct (get_units n r1) as [[us r2]|] eqn:E2; [|discriminate].
    intros [= <- <-]. apply IH in E2 as (-> & <- & Hus).
    pose proof (get_le_range _ _ _ _ E1) as Hu.
    apply put_get_le in E1 as ->.
    cbn [flat_map List.length]. rewrite <- app_assoc.
    repeat split. constructor; assumption.
Qed.

Lemma zlen_put_le n x : zlen (put_le n x) = Z.of_nat n.
Proof.
  unfold zlen. f_equal. revert x. induction n as [|n IH]; intros x;
    cbn [put_le List.length]; [reflexivity|]. rewrite IH. reflexivity.
Qed.

Lemma zlen_units units :
  zlen (flat_map (put_le 2) units) = 2 * zlen units.
Proof.
  induction units as [|u units IH]; [reflexivity|].
  cbn [flat_map]. rewrite zlen_app, zlen_put_le, IH. unfold zlen.
  cbn [List.length]. lia.
Qed.

Lemma get_put_qstring s rest :
  name_ok s -> get_qstring (put_qstring s ++ rest) = Some (s, rest).
Proof.
  intros [Hlen Hu]. unfold get_qstring, put_qstring, bind, ret.
  destruct s as [units|].
  - cbn [length] in Hlen. unfold STRING_LEN in Hlen.
    pose proof (zlen_nonneg units) as H0.
    rewrite wrap32_small by lia.
    rewrite <- app_assoc, (get_put_le 4)
      by (change (2 ^ (8 * Z.of_nat 4)) with 4294967296; lia).
    destruct (Z.eqb_spec (2 * zlen units) 4294967295) as [|_]; [lia|].
    destruct (Z.ltb_spec 0 (2 * zlen units)) as [Hpos|Hz].
    + rewrite Z.odd_mul. cbn [Z.odd andb].
      rewrite zlen_app, zlen_units.
      destruct (Z.ltb_spec (2 * zlen units + zlen rest) (2 * zlen units)) as [Hlt|_];
        [pose proof (zlen_nonneg rest); lia|].
      replace (2 * zlen units / 2) with (zlen units)
        by (rewrite Z.mul_comm, Z.div_mul; lia).
      unfold zlen at 1. rewrite Nat2Z.id, get_put_units by exact Hu.
      reflexivity.
    + destruct units; [reflexivity|]. unfold zlen in Hz. cbn in Hz. lia.
  - rewrite (get_put_le 4)
      by (change (2 ^ (8 * Z.of_nat 4)) with 4294967296; lia).
    reflexivity.
Qed.

Lemma put_get_qstring bs s rest :
  get_qstring bs = Some (s, rest) ->
  bs = put_qstring s ++ rest /\
  match s with
  | Some units => Forall (fun u => 0 <= u < 2 ^ 16) units
  | None => True
  end.
Proof.
  unfold get_qstring, bind, ret.
  destruct (get_le 4 bs) as [[bytes r1]|] eqn:E1; [|discriminate].
  pose proof (get_le_range _ _ _ _ E1) as Hb.
  change (2 ^ (8 * Z.of_nat 4)) with 4294967296 in Hb.
  apply put_get_le in E1 as ->.
  destruct (Z.eqb_spec bytes 4294967295) as [->|Hne].
  - intros [= <- <-]. split; [reflexivity|exact I].
  - destruct (Z.ltb_spec 0 bytes) as [Hpos|Hz].
    + destruct (Z.odd bytes) eqn:Hodd; [discriminate|].
      destruct (Z.ltb_spec (zlen r1) bytes) as [|Hge]; [discriminate|].
      destruct (get_units _ r1) as [[units r2]|] eqn:E2; [|discriminate].
      intros [= <- <-]. apply put_get_units in E2 as (-> & Hn & Hus).
      split; [|exact Hus]. cbn [put_qstring]. rewrite <- app_assoc.
      f_equal. f_equal. unfold zlen. rewrite Hn.
      rewrite Z2Nat.id by (apply Z.div_pos; lia).
      rewrite <- Z.negb_even in Hodd. apply negb_false_iff in Hodd.
      apply Z.even_spec in Hodd as [k ->].
      rewrite (Z.mul_comm 2 k), Z.div_mul by lia.
      rewrite wrap32_small by lia. lia.
    + intros [= <- <-]. split; [|constructor].
      cbn [put_qstring flat_map]. replace bytes with 0 by lia.
      rewrite app_nil_r. reflexivity.
Qed.

End DatagramStream.

Section DatagramFacts.
Import QDataStream SyfdDatagram.

Lemma flags_cases d :
  0 <= m_flags d < 4 ->
  flagInvalid d = false /\
  flagIcon d = (2 <=? m_flags d) /\
  flagQuit d = Z.odd (m_flags d).
Proof.
  intros H. unfold flagInvalid, flagIcon, flagQuit.
  assert (Hc : m_flags d = 0 \/ m_flags d = 1 \/ m_flags d = 2 \/ m_flags d = 3)
    by lia.
  destruct Hc as [-> | [-> | [-> | ->]]]; repeat split; reflexivity.
Qed.

Lemma encode_well_formed d : well_formed d -> encode d = body d.
Proof.
  intros (Hf & Hu & Hn & [Hl1 _] & [Hl2 _] & Hip & Hdp & Hicon).
  destruct (flags_cases d Hf) as (Hinv & _ & _).
  unfold encode. rewrite Hinv.
  rewrite (proj2 (Z.eqb_eq _ _) Hu).
  rewrite (proj2 (Z.ltb_ge _ _) Hl1), (proj2 (Z.ltb_ge _ _) Hl2).
  rewrite (proj2 (Z.eqb_neq (m_ipv4Addr d) 0)) by lia.
  rewrite (proj2 (Z.eqb_neq (m_dataPort d) 0)) by lia.
  cbn [negb orb]. unfold body.
  destruct (flagIcon d).
  - destruct Hicon as [Hp Hh]. rewrite (proj2 (Z.eqb_eq _ _) Hh).
    rewrite (proj2 (Z.eqb_neq (m_iconPort d) 0)) by lia. reflexivity.
  - destruct Hicon as [Hp Hh]. rewrite (proj2 (Z.eqb_eq _ _) Hp). reflexivity.
Qed.

Lemma zlen_put_qstring s : zlen (put_qstring s) = 4 + 2 * length s.
Proof.
  destruct s as [units|]; cbn [put_qstring length].
  - rewrite zlen_app, zlen_put_le, zlen_units. lia.
  - rewrite zlen_put_le. lia.
Qed.

Lemma zlen_body d :
  zlen (m_uuid d) = UUID_LEN ->
  zlen (body d)
  = MIN_DATAGRAM_SIZE + 2 * length (m_firstName d) + 2 * length (m_lastName d)
    + (if flagIcon d then zlen (m_iconHash d) else 0).
Proof.
  intros Hu. unfold body.
  rewrite !zlen_app, !zlen_put_le, !zlen_put_qstring, Hu.
  unfold MIN_DATAGRAM_SIZE, MAGIC_LEN, UUID_LEN.
  destruct (flagIcon d); [lia|]. change (zlen []) with 0. lia.
Qed.

Lemma get_body d rest :
  well_formed d -> get_datagram (body d ++ rest) = Some (d, rest).
Proof.
  intros (Hf & Hu & Hn & Hn1 & Hn2 & Hip & Hdp & Hicon).
  destruct (flags_cases d Hf) as (Hinv & Hic & _).
  unfold flagInvalid in Hinv. apply negb_false_iff in Hinv.
  unfold body, get_datagram, bind, ret.
  rewrite <- !app_assoc.
  rewrite !(get_put_le 1) by (cbn; unfold MAGIC_0, MAGIC_1, MAGIC_2, MAGIC_3, V1_0; lia).
  rewrite !Z.eqb_refl, Hinv. cbn [negb orb].
  rewrite get_raw_app by exact Hu. rewrite Hn.
  rewrite get_put_qstring by exact Hn1.
  rewrite get_put_qstring by exact Hn2.
  destruct Hn1 as [Hl1 _], Hn2 as [Hl2 _].
  rewrite (proj2 (Z.ltb_ge _ _) Hl1), (proj2 (Z.ltb_ge _ _) Hl2).
  cbn [orb].
  rewrite (get_put_le 4) by (change (2 ^ (8 * Z.of_nat 4)) with (2 ^ 32); lia).
  rewrite (get_put_le 2) by (change (2 ^ (8 * Z.of_nat 2)) with (2 ^ 16); lia).
  rewrite (proj2 (Z.eqb_neq (m_ipv4Addr d) 0)) by lia.
  rewrite (proj2 (Z.eqb_neq (m_dataPort d) 0)) by lia.
  cbn [orb]. unfold flagIcon in *.
  destruct (negb (Z.land (m_flags d) FlagIcon =? 0)).
  - destruct Hicon as [Hp Hh].
    rewrite (get_put_le 2) by (change (2 ^ (8 * Z.of_nat 2)) with (2 ^ 16); lia).
    rewrite (proj2 (Z.eqb_neq (m_iconPort d) 0)) by lia. cbn [negb].
    rewrite get_raw_app by exact Hh. destruct d; reflexivity.
  - destruct Hicon as [Hp Hh]. rewrite Hp.
    rewrite (get_put_le 2) by (cbn; lia). cbn [Z.eqb negb app].
    destruct d; cbn in *; subst; reflexivity.
Qed.

Lemma get_le_1_inv bs x rest :
  get_le 1 bs = Some (x, rest) -> bs = put_le 1 x ++ rest.
Proof. apply put_get_le. Qed.

Lemma flags_valid flags :
  0 <= flags < 256 -> Z.land flags FlagInvalid = 0 -> 0 <= flags < 4.
Proof.
  intros Hr H. split; [lia|].
  unfold FlagInvalid, FlagQuit, FlagIcon in H.
  change (Z.lor 1 2) with (Z.ones 2) in H.
  rewrite <- Z.ldiff_land, Z.ldiff_ones_r in H by lia.
  rewrite Z.shiftl_mul_pow2, Z.shiftr_div_pow2 in H by lia.
  change (2 ^ 2) with 4 in H.
  pose proof (Z.div_mod flags 4 ltac:(lia)).
  pose proof (Z.mod_pos_bound flags 4 ltac:(lia)). lia.
Qed.

Lemma get_datagram_inv bs d rest :
  get_datagram bs = Some (d, rest) -> well_formed d /\ bs = body d ++ rest.
Proof.
  unfold get_datagram, bind, ret.
  destruct (get_le 1 bs) as [[m0 r0]|] eqn:E0; [|discriminate].
  destruct (get_le 1 r0) as [[m1 r1]|] eqn:E1; [|discriminate].
  destruct (get_le 1 r1) as [[m2 r2]|] eqn:E2; [|discriminate].
  destruct (get_le 1 r2) as [[m3 r3]|] eqn:E3; [|discriminate].
  destruct (get_le 1 r3) as [[version r4]|] eqn:E4; [|discriminate].
  destruct (get_le 1 r4) as [[flags r5]|] eqn:E5; [|discriminate].
  destruct (Z.eqb_spec m0 MAGIC_0) as [->|]; [|discriminate].
  destruct (Z.eqb_spec m1 MAGIC_1) as [->|]; [|discriminate].
  destruct (Z.eqb_spec m2 MAGIC_2) as [->|]; [|discriminate].
  destruct (Z.eqb_spec m3 MAGIC_3) as [->|]; [|discriminate].
  destruct (Z.eqb_spec version V1_0) as [->|]; [|discriminate].
  destruct (Z.eqb_spec (Z.land flags FlagInvalid) 0) as [Hfl|]; [|discriminate].
  cbn [negb orb].
  destruct (get_raw UUID_LEN r5) as [[uuid r6]|] eqn:E6; [|discriminate].
  destruct (isNull uuid) eqn:Hnull; [discriminate|].
  destruct (get_qstring r6) as [[firstName r7]|] eqn:E7; [|discriminate].
  destruct (get_qstring r7) as [[lastName r8]|] eqn:E8; [|discriminate].
  destruct (Z.ltb_spec STRING_LEN (length firstName)) as [|Hl1]; [discriminate|].
  destruct (Z.ltb_spec STRING_LEN (length lastName)) as [|Hl2]; [discriminate|].
  cbn [orb].
  destruct (get_le 4 r8) as [[ipv4Addr r9]|] eqn:E9; [|discriminate].
  destruct (get_le 2 r9) as [[dataPort r10]|] eqn:E10; [|discriminate].
  destruct (get_le 2 r10) as [[iconPort r11]|] eqn:E11; [|discriminate].
  destruct (Z.eqb_spec ipv4Addr 0) as [|Hip]; [discriminate|].
  destruct (Z.eqb_spec dataPort 0) as [|Hdp]; [discriminate|].
  cbn [orb].
  pose proof (get_le_range _ _ _ _ E5) as Hf. change (2 ^ (8 * Z.of_nat 1)) with 256 in Hf.
  apply flags_valid in Hf; [|exact Hfl].
  pose proof (get_le_range _ _ _ _ E9) as R9. change (2 ^ (8 * Z.of_nat 4)) with (2 ^ 32) in R9.
  pose proof (get_le_range _ _ _ _ E10) as R10. change (2 ^ (8 * Z.of_nat 2)) with (2 ^ 16) in R10.
  pose proof (get_le_range _ _ _ _ E11) as R11. change (2 ^ (8 * Z.of_nat 2)) with (2 ^ 16) in R11.
  apply put_get_le in E0 as ->. apply put_get_le in E1 as ->.
  apply put_get_le in E2 as ->. apply put_get_le in E3 as ->.
  apply put_get_le in E4 as ->. apply put_get_le in E5 as ->.
  apply get_raw_inv in E6 as [-> Hu]; [|unfold UUID_LEN; lia].
  apply put_get_qstring in E7 as [-> Hu1]. apply put_get_qstring in E8 as [-> Hu2].
  apply put_get_le in E9 as ->. apply put_get_le in E10 as ->.
  apply put_get_le in E11 as ->.
  destruct (negb (Z.land flags FlagIcon =? 0)) eqn:Hicon.
  - destruct (Z.eqb_spec iconPort 0) as [|Hp]; [discriminate|]. cbn [negb].
    destruct (get_raw HASH_LEN r11) as [[hash r12]|] eqn:E12; [|discriminate].
    apply get_raw_inv in E12 as [-> Hh]; [|unfold HASH_LEN; lia].
    intros [= <- <-]. split.
    + unfold well_formed, flagIcon. cbn. rewrite Hicon.
      repeat split; try assumption; lia.
    + unfold body, flagIcon. cbn. rewrite Hicon. rewrite <- !app_assoc. reflexivity.
  - destruct (Z.eqb_spec iconPort 0) as [->|Hp]; [|discriminate]. cbn [negb].
    intros [= <- <-]. split.
    + unfold well_formed, flagIcon. cbn. rewrite Hicon.
      repeat split; try assumption; lia.
    + unfold body, flagIcon. cbn. rewrite Hicon. rewrite <- !app_assoc. reflexivity.
Qed.

Lemma well_formed_size d :
  well_formed d ->
  MIN_DATAGRAM_SIZE <= zlen (encode d) <= MAX_DATAGRAM_SIZE.
Proof.
  intros Hwf. rewrite encode_well_formed by exact Hwf.
  destruct Hwf as (Hf & Hu & Hn & [Hl1 _] & [Hl2 _] & Hip & Hdp & Hicon).
  rewrite zlen_body by exact Hu.
  assert (0 <= length (m_firstName d)) by (destruct (m_firstName d); cbn; [apply zlen_nonneg|lia]).
  assert (0 <= length (m_lastName d)) by (destruct (m_lastName d); cbn; [apply zlen_nonneg|lia]).
  unfold MAX_DATAGRAM_SIZE, MIN_DATAGRAM_SIZE, STRING_LEN, HASH_LEN, MAGIC_LEN, UUID_LEN in *.
  destruct (flagIcon d); lia.
Qed.

Lemma datagram_decode_encode_aux d rest :
  well_formed d -> of_bytes (encode d ++ rest) = Some d.
Proof.
  intros Hwf. unfold of_bytes. rewrite encode_well_formed by exact Hwf.
  rewrite get_body by exact Hwf. reflexivity.
Qed.

(** X1: decoding what [operator<<] writes for a well-formed datagram gives
    the datagram back, whatever follows it in the byte array. *)
Theorem datagram_decode_encode d rest :
  well_formed d ->
  toByteArray (Some d) <> [] /\
  of_bytes (toByteArray (Some d) ++ rest) = Some d.
Proof.
  intros Hwf. cbn [toByteArray]. split.
  - pose proof (well_formed_size d Hwf) as Hs. intros E. rewrite E in Hs.
    unfold MIN_DATAGRAM_SIZE, MAGIC_LEN, UUID_LEN in Hs.
    change (zlen []) with 0 in Hs. lia.
  - apply datagram_decode_encode_aux. exact Hwf.
Qed.

Lemma well_formed_plain : well_formed sample_plain.
Proof.
  unfold well_formed, name_ok, STRING_LEN, UUID_LEN, HASH_LEN. cbn.
  repeat split; try (vm_compute; congruence); try reflexivity;
    repeat constructor; lia.
Qed.

Lemma well_formed_icon : well_formed sample_icon.
Proof.
  unfold well_formed, name_ok, STRING_LEN, UUID_LEN, HASH_LEN. cbn.
  repeat split; try (vm_compute; congruence); try reflexivity;
    repeat constructor; lia.
Qed.

Lemma datagram_decode_encode_witness :
  of_bytes (toByteArray (Some sample_icon) ++ [x00]) = Some sample_icon.
Proof.
  exact (proj2 (datagram_decode_encode sample_icon [x00] well_formed_icon)).
Defined.

Lemma datagram_encode_decode_aux data d :
  of_bytes data = Some d -> well_formed d.
Proof.
  unfold of_bytes.
  destruct (get_datagram data) as [[d' rest]|] eqn:E; [|discriminate].
  intros [= ->]. apply get_datagram_inv in E as [Hwf _]. exact Hwf.
Qed.

(** X2: a byte array that [operator>>] accepts holds a well-formed datagram
    and starts with exactly the bytes that [operator<<] writes for it: every
    datagram has one encoding, of at least [MIN_DATAGRAM_SIZE] and at most
    [MAX_DATAGRAM_SIZE] bytes. *)
Theorem datagram_encode_decode data d :
  of_bytes data = Some d ->
  well_formed d /\
  (exists rest, data = toByteArray (Some d) ++ rest) /\
  MIN_DATAGRAM_SIZE <= zlen (toByteArray (Some d)) <= MAX_DATAGRAM_SIZE.
Proof.
  unfold of_bytes.
  destruct (get_datagram data) as [[d' rest]|] eqn:E; [|discriminate].
  intros [= ->]. apply get_datagram_inv in E as [Hwf ->].
  split; [exact Hwf|]. cbn [toByteArray]. split.
  - exists rest. rewrite encode_well_formed by exact Hwf. reflexivity.
  - apply well_formed_size. exact Hwf.
Qed.

Lemma datagram_encode_decode_witness :
  well_formed sample_plain /\
  (exists rest, encode sample_plain ++ [x01; x02]
                = toByteArray (Some sample_plain) ++ rest).
Proof.
  assert (H : of_bytes (encode sample_plain ++ [x01; x02]) = Some sample_plain)
    by (vm_compute; reflexivity).
  destruct (datagram_encode_decode _ _ H) as (Hwf & Hex & _).
  split; assumption.
Defined.

(** X3: a datagram that the constructor from a [UserInfo] marks valid is
    well-formed: it carries the members of the user, its quit flag is clear,
    its icon flag tells whether the icon is set, and [toByteArray] gives
    between [MIN_DATAGRAM_SIZE] and [MAX_DATAGRAM_SIZE] bytes for it. *)
Theorem datagram_of_userInfo tmpUuid firstName lastName ipv4Address dataPort
    iconPort icon d :
  zlen tmpUuid = UUID_LEN -> units_ok firstName -> units_ok lastName ->
  0 <= ipv4Address < 2 ^ 32 -> 0 <= dataPort < 2 ^ 16 ->
  0 <= iconPort < 2 ^ 16 ->
  of_userInfo tmpUuid firstName lastName ipv4Address dataPort iconPort icon
  = Some d ->
  well_formed d /\ flagQuit d = false /\
  flagIcon d = bool_decide (is_Some icon) /\
  m_uuid d = tmpUuid /\ m_firstName d = firstName /\ m_lastName d = lastName /\
  m_ipv4Addr d = ipv4Address /\ m_dataPort d = dataPort /\
  MIN_DATAGRAM_SIZE <= zlen (toByteArray (Some d)) <= MAX_DATAGRAM_SIZE.
Proof.
  intros Hu Hf Hl Hip Hdp Hicp. unfold of_userInfo.
  destruct (isNull tmpUuid) eqn:Hnull; [discriminate|].
  destruct (Z.ltb_spec STRING_LEN (length firstName)) as [|Hl1]; [discriminate|].
  destruct (Z.ltb_spec STRING_LEN (length lastName)) as [|Hl2]; [discriminate|].
  cbn [orb].
  destruct (Z.eqb_spec ipv4Address 0) as [|Hip0]; [discriminate|].
  destruct (Z.eqb_spec dataPort 0) as [|Hdp0]; [discriminate|].
  cbn [orb].
  assert (Hwf : forall d', of_userInfo tmpUuid firstName lastName ipv4Address
                  dataPort iconPort icon = Some d' -> well_formed d').
  { unfold of_userInfo. rewrite Hnull.
    rewrite (proj2 (Z.ltb_ge _ _) Hl1), (proj2 (Z.ltb_ge _ _) Hl2).
    rewrite (proj2 (Z.eqb_neq _ _) Hip0), (proj2 (Z.eqb_neq _ _) Hdp0).
    cbn [orb]. intros d'. destruct icon as [hash|].
    - destruct (Z.eqb_spec (zlen hash) HASH_LEN) as [Hh|]; [|discriminate].
      destruct (Z.eqb_spec iconPort 0) as [|Hp0]; [discriminate|].
      cbn [negb orb]. intros [= <-]. unfold well_formed, name_ok, flagIcon. cbn.
      change (Z.lor 0 FlagIcon) with 2.
      change (Z.land 2 FlagIcon =? 0) with false. cbn [negb].
      repeat split; try assumption; lia.
    - intros [= <-]. unfold well_formed, name_ok, flagIcon. cbn.
      change (Z.land 0 FlagIcon =? 0) with true. cbn [negb].
      repeat split; try assumption; lia. }
  intros Hd.
  assert (E : of_userInfo tmpUuid firstName lastName ipv4Address dataPort
                iconPort icon = Some d).
  { unfold of_userInfo. rewrite Hnull.
    rewrite (proj2 (Z.ltb_ge _ _) Hl1), (proj2 (Z.ltb_ge _ _) Hl2).
    rewrite (proj2 (Z.eqb_neq _ _) Hip0), (proj2 (Z.eqb_neq _ _) Hdp0).
    exact Hd. }
  split; [exact (Hwf d E)|].
  split; [|split; [|split; [|split; [|split; [|split; [|split]]]]]];
    try (apply well_formed_size; exact (Hwf d E));
    destruct icon as [hash|];
    try (destruct (negb (zlen hash =? HASH_LEN) || (iconPort =? 0));
         [discriminate|]);
    injection Hd as <-; reflexivity.
Qed.

Lemma datagram_of_userInfo_witness :
  well_formed sample_icon /\ flagQuit sample_icon = false.
Proof.
  destruct (datagram_of_userInfo sample_uuid (Some [26085; 26412]) (Some [])
              3232235777 50000 50001 (Some (repeat x2a 20)) sample_icon)
    as (Hwf & Hq & _).
  - reflexivity.
  - cbn. repeat constructor; lia.
  - cbn. constructor.
  - lia.
  - lia.
  - lia.
  - reflexivity.
  - split; assumption.
Defined.

(** X4: the quit datagram.  Setting the quit flag of a well-formed datagram
    whose flag is clear gives a well-formed datagram of the same length that
    differs in the flag only, a receiver decodes it with the flag set, and
    clearing the flag afterwards restores the datagram. *)
Theorem quit_datagram d :
  well_formed d -> flagQuit d = false ->
  well_formed (setFlagQuit d) /\
  flagQuit (setFlagQuit d) = true /\
  flagIcon (setFlagQuit d) = flagIcon d /\
  set_flags (m_flags d) (setFlagQuit d) = d /\
  clearFlagQuit (setFlagQuit d) = d /\
  of_bytes (toByteArray (Some (setFlagQuit d))) = Some (setFlagQuit d) /\
  zlen (toByteArray (Some (setFlagQuit d))) = zlen (toByteArray (Some d)).
Proof.
  intros Hwf Hq.
  assert (Hwf' : well_formed (setFlagQuit d)).
  { destruct Hwf as (Hf & Hrest). destruct (flags_cases d Hf) as (_ & _ & Hodd).
    rewrite Hq in Hodd.
    assert (Hc : m_flags d = 0 \/ m_flags d = 2).
    { assert (Hc : m_flags d = 0 \/ m_flags d = 1 \/ m_flags d = 2 \/ m_flags d = 3)
        by lia.
      destruct Hc as [E | [E | [E | E]]]; rewrite E in Hodd; try discriminate;
        auto. }
    unfold well_formed, setFlagQuit, flagIcon in *. cbn.
    destruct Hc as [E | E]; rewrite E in *; cbn in *;
      (split; [vm_compute; split; congruence|exact Hrest]). }
  destruct Hwf as (Hf & Hrest). destruct (flags_cases d Hf) as (_ & _ & Hodd).
  rewrite Hq in Hodd.
  assert (Hc : m_flags d = 0 \/ m_flags d = 2).
  { assert (Hc : m_flags d = 0 \/ m_flags d = 1 \/ m_flags d = 2 \/ m_flags d = 3)
      by lia.
    destruct Hc as [E | [E | [E | E]]]; rewrite E in Hodd; try discriminate;
      auto. }
  split; [exact Hwf'|].
  split; [destruct Hc as [E | E]; unfold flagQuit, setFlagQuit; cbn; rewrite E;
          reflexivity|].
  split; [destruct Hc as [E | E]; unfold flagIcon, setFlagQuit; cbn; rewrite E;
          reflexivity|].
  split; [destruct d; reflexivity|].
  split; [destruct Hc as [E | E]; unfold clearFlagQuit, setFlagQuit; cbn;
          rewrite E; destruct d; cbn in *; subst; reflexivity|].
  split.
  - pose proof (datagram_decode_encode_aux (setFlagQuit d) [] Hwf') as H.
    rewrite app_nil_r in H. exact H.
  - cbn [toByteArray].
    rewrite !encode_well_formed
      by (first [exact Hwf' | split; [exact Hf|exact Hrest]]).
    rewrite !zlen_body by (first [apply Hwf' | apply Hrest]).
    destruct Hc as [E | E]; unfold flagIcon, setFlagQuit; cbn; rewrite E;
      reflexivity.
Qed.

Lemma quit_datagram_witness :
  flagQuit (setFlagQuit sample_plain) = true /\
  clearFlagQuit (setFlagQuit sample_plain) = sample_plain.
Proof.
  destruct (quit_datagram sample_plain well_formed_plain eq_refl)
    as (_ & Hq & _ & _ & Hc & _).
  split; assumption.
Defined.

End DatagramFacts.

Section DatagramReception.
Import QDataStream SyfdDatagram SyfdReceiver.

Lemma receiveDatagram_app la lp l1 : forall l2,
  receiveDatagram la lp (l1 ++ l2)
  = receiveDatagram la lp l1 ++ receiveDatagram la lp l2.
Proof.
  induction l1 as [|p l1 IH]; intros l2; [reflexivity|].
  cbn [app receiveDatagram]. rewrite IH.
  repeat match goal with
  | |- context [if ?c then _ else _] => destruct c
  end; try reflexivity.
  destruct (of_bytes (data p)); reflexivity.
Qed.

(** X5: a well-formed datagram advertised by another socket reaches
    [datagramReceived] as it was sent: its encoding passes the size filter of
    [receiveDatagram] and decodes to the datagram itself, wherever it stands
    among the pending datagrams. *)
Theorem advertised_datagram_received la lp before after address port d :
  well_formed d -> address <> la \/ port <> lp ->
  receiveDatagram la lp
    (before ++ mkDatagram true address port (toByteArray (Some d)) :: after)
  = receiveDatagram la lp before ++ d :: receiveDatagram la lp after.
Proof.
  intros Hwf Hother. rewrite receiveDatagram_app. f_equal.
  cbn [receiveDatagram data isValid senderAddress senderPort toByteArray].
  pose proof (well_formed_size d Hwf) as [Hmin Hmax].
  rewrite (proj2 (Z.ltb_ge _ _) Hmin), (proj2 (Z.ltb_ge _ _) Hmax).
  cbn [orb negb].
  replace ((address =? la) && (port =? lp)) with false.
  - pose proof (datagram_decode_encode_aux d [] Hwf) as H.
    rewrite app_nil_r in H. rewrite H. reflexivity.
  - symmetry. apply andb_false_iff.
    destruct Hother as [H|H]; [left|right]; apply Z.eqb_neq; exact H.
Qed.

Lemma advertised_datagram_received_witness :
  receiveDatagram 3232235778 40000
    [mkDatagram true 3232235778 40000 (toByteArray (Some sample_icon));
     mkDatagram true 3232235777 40000 (toByteArray (Some sample_plain))]
  = [sample_plain].
Proof.
  apply (advertised_datagram_received 3232235778 40000
           [mkDatagram true 3232235778 40000 (toByteArray (Some sample_icon))]
           [] 3232235777 40000 sample_plain well_formed_plain).
  left. lia.
Defined.

(** X6: what [receiveDatagram] never hands on.  Every datagram it emits is
    well-formed and is the decoding of a valid pending datagram of legal size
    that another socket sent; the datagrams looped back from the local socket
    are all dropped. *)
Theorem received_datagrams_filtered la lp pending :
  (forall d, In d (receiveDatagram la lp pending) ->
     well_formed d /\
     exists p, In p pending /\ isValid p = true /\
       (senderAddress p <> la \/ senderPort p <> lp) /\
       MIN_DATAGRAM_SIZE <= zlen (data p) <= MAX_DATAGRAM_SIZE /\
       of_bytes (data p) = Some d) /\
  (Forall (fun p => senderAddress p = la /\ senderPort p = lp) pending ->
   receiveDatagram la lp pending = []).
Proof.
  split.
  - induction pending as [|p pending IH]; intros d; [intros []|].
    cbn [receiveDatagram].
    assert (Hrec : In d (receiveDatagram la lp pending) ->
                   well_formed d /\
                   exists p0, In p0 (p :: pending) /\ isValid p0 = true /\
                     (senderAddress p0 <> la \/ senderPort p0 <> lp) /\
                     MIN_DATAGRAM_SIZE <= zlen (data p0) <= MAX_DATAGRAM_SIZE /\
                     of_bytes (data p0) = Some d).
    { intros Hin. destruct (IH d Hin) as (Hwf & p0 & Hp0 & Hrest).
      split; [exact Hwf|]. exists p0. split; [right; exact Hp0|exact Hrest]. }
    destruct (Z.ltb_spec (zlen (data p)) MIN_DATAGRAM_SIZE) as [|Hmin];
      [exact Hrec|].
    destruct (Z.ltb_spec MAX_DATAGRAM_SIZE (zlen (data p))) as [|Hmax];
      [exact Hrec|].
    cbn [orb]. destruct (isValid p) eqn:Hv; cbn [negb]; [|exact Hrec].
    destruct ((senderAddress p =? la) && (senderPort p =? lp)) eqn:Hown;
      [exact Hrec|].
    destruct (of_bytes (data p)) as [d'|] eqn:Hd; [|exact Hrec].
    intros [<-|Hin]; [|exact (Hrec Hin)].
    split; [apply (datagram_encode_decode_aux _ _ Hd)|].
    exists p. split; [left; reflexivity|]. split; [exact Hv|].
    split; [|split; [lia|exact Hd]].
    apply andb_false_iff in Hown.
    destruct Hown as [H|H]; [left|right]; apply Z.eqb_neq; exact H.
  - induction 1 as [|p pending [Ha Hp] _ IH]; [reflexivity|].
    cbn [receiveDatagram]. rewrite IH, Ha, Hp, !Z.eqb_refl. cbn [andb].
    repeat match goal with
    | |- context [if ?c then _ else _] => destruct c
    end; reflexivity.
Qed.

Lemma received_datagrams_filtered_witness :
  receiveDatagram 3232235778 40000
    [mkDatagram true 3232235778 40000 (toByteArray (Some sample_icon));
     mkDatagram true 3232235778 40000 (toByteArray (Some sample_plain))]
  = [].
Proof.
  apply (received_datagrams_filtered 3232235778 40000).
  repeat constructor.
Defined.

End DatagramReception.

(** ** The picker protocol *)

Section PickerProtocol.
Import QDataStream Syfp.

Lemma get_le_app n : forall bs x rest c,
  get_le n bs = Some (x, rest) -> get_le n (bs ++ c) = Some (x, rest ++ c).
Proof.
  induction n as [|n IH]; intros bs x rest c.
  - cbn. intros [= <- <-]. reflexivity.
  - cbn [get_le]. destruct bs as [|b bs]; [discriminate|].
    destruct (get_le n bs) as [[y r]|] eqn:E; [|discriminate].
    intros [= <- <-]. cbn [app]. rewrite (IH _ _ _ c E). reflexivity.
Qed.

Lemma get_le_length n : forall bs x rest,
  get_le n bs = Some (x, rest) -> List.length bs = (n + List.length rest)%nat.
Proof.
  induction n as [|n IH]; intros bs x rest.
  - cbn. intros [= <- <-]. reflexivity.
  - cbn [get_le]. destruct bs as [|b bs]; [discriminate|].
    destruct (get_le n bs) as [[y r]|] eqn:E; [|discriminate].
    intros [= <- <-]. cbn [List.length]. rewrite (IH _ _ _ E). lia.
Qed.

Lemma get_bytearray_app bs p rest c :
  get_bytearray bs = Some (p, rest) ->
  get_bytearray (bs ++ c) = Some (p, rest ++ c).
Proof.
  unfold get_bytearray, bind.
  destruct (get_le 4 bs) as [[len r1]|] eqn:E; [|discriminate].
  pose proof (get_le_range _ _ _ _ E) as Hlen.
  rewrite (get_le_app _ _ _ _ c E).
  destruct (len =? 4294967295); [intros [= <- <-]; reflexivity|].
  destruct (Z.ltb_spec (zlen r1) len) as [|Hge]; [discriminate|].
  intros [= <- <-]. rewrite zlen_app.
  destruct (Z.ltb_spec (zlen r1 + zlen c) len) as [Hlt|_];
    [pose proof (zlen_nonneg c); lia|].
  assert (Hn : (Z.to_nat len <= List.length r1)%nat) by (unfold zlen in Hge; lia).
  rewrite take_app_le, drop_app_le by exact Hn. reflexivity.
Qed.

Lemma get_bytearray_length bs p rest :
  get_bytearray bs = Some (p, rest) ->
  (4 + List.length rest <= List.length bs)%nat.
Proof.
  unfold get_bytearray, bind.
  destruct (get_le 4 bs) as [[len r1]|] eqn:E; [|discriminate].
  apply get_le_length in E.
  destruct (len =? 4294967295); [intros [= <- <-]; lia|].
  destruct (zlen r1 <? len); [discriminate|].
  intros [= <- <-]. rewrite length_drop. lia.
Qed.

Lemma round_consumes r r' :
  readData_round r = (true, r') ->
  (List.length (socket r') < List.length (socket r))%nat.
Proof.
  unfold readData_round.
  destruct (m_pathNumber r =? 0).
  - destruct (get_le 4 (socket r)) as [[n rest]|] eqn:E; [|intros [= ]].
    apply get_le_length in E.
    destruct (get_bytearray rest) as [[p rest2]|] eqn:E2; [|intros [= ]].
    apply get_bytearray_length in E2.
    destruct (_ =? n); intros [= <-]; cbn. lia.
  - destruct (get_bytearray (socket r)) as [[p rest2]|] eqn:E2; [|intros [= ]].
    apply get_bytearray_length in E2.
    destruct (_ =? _); intros [= <-]; cbn. lia.
Qed.

Lemma loop_fuel f1 : forall f2 r,
  (List.length (socket r) < f1)%nat -> (List.length (socket r) < f2)%nat ->
  readData_loop f1 r = readData_loop f2 r.
Proof.
  induction f1 as [|f1 IH]; intros f2 r H1 H2; [lia|].
  destruct f2 as [|f2]; [lia|]. cbn [readData_loop].
  destruct (zlen (socket r) =? 0); [reflexivity|].
  destruct (readData_round r) as [again r'] eqn:E.
  destruct again; [|reflexivity].
  apply round_consumes in E. apply IH; lia.
Qed.

Lemma readData_fuel f r :
  (List.length (socket r) < f)%nat -> readData_loop f r = readData r.
Proof. intros H. apply loop_fuel; [exact H|lia]. Qed.

Lemma push_push c1 c2 r : push c2 (push c1 r) = push (c1 ++ c2) r.
Proof. unfold push. cbn. rewrite app_assoc. reflexivity. Qed.

Lemma readyRead_connected c r :
  connected r = true -> readyRead c r = readData (push c r).
Proof. intros H. unfold readyRead, push. rewrite H. reflexivity. Qed.

Lemma readyRead_finished c r :
  connected r = false -> readyRead c r = push c r.
Proof. intros H. unfold readyRead, push. rewrite H. reflexivity. Qed.

Lemma readData_unfold r :
  readData r
  = if zlen (socket r) =? 0 then r
    else let '(again, r') := readData_round r in
         if again then readData r' else r'.
Proof.
  unfold readData at 1. cbn [readData_loop].
  destruct (zlen (socket r) =? 0); [reflexivity|].
  destruct (readData_round r) as [again r'] eqn:E.
  destruct again; [|reflexivity].
  apply round_consumes in E. apply readData_fuel. lia.
Qed.

(** The number read from the socket, if any, is not zero. *)
Lemma readData_merge f : forall r c,
  (List.length (socket r) < f)%nat ->
  connected r = true -> number_ok r c ->
  readyRead c (readData r) = readData (push c r).
Proof.
  induction f as [|f IH]; intros r c Hf Hc Hn; [lia|].
  rewrite (readData_unfold r).
  destruct (Z.eqb_spec (zlen (socket r)) 0) as [Hz|Hnz];
    [apply readyRead_connected; exact Hc|].
  assert (Hnz' : zlen (socket (push c r)) <> 0).
  { cbn. rewrite zlen_app. pose proof (zlen_nonneg c).
    pose proof (zlen_nonneg (socket r)). lia. }
  assert (Hnum :
    (exists n bytes,
       (if m_pathNumber r =? 0
        then match get_le 4 (socket r) with
             | Some (n, rest) => Some (n, rest)
             | None => None
             end
        else Some (m_pathNumber r, socket r)) = Some (n, bytes) /\
       (if m_pathNumber r =? 0
        then match get_le 4 (socket r ++ c) with
             | Some (n, rest) => Some (n, rest)
             | None => None
             end
        else Some (m_pathNumber r, socket r ++ c)) = Some (n, bytes ++ c) /\
       n <> 0 /\ (List.length bytes <= List.length (socket r))%nat) \/
    (m_pathNumber r = 0 /\ get_le 4 (socket r) = None)).
  { destruct (Z.eqb_spec (m_pathNumber r) 0) as [H0|Hn0].
    - destruct (get_le 4 (socket r)) as [[n rest]|] eqn:E; [left|right; auto].
      exists n, rest. rewrite (get_le_app _ _ _ _ c E).
      split; [reflexivity|]. split; [reflexivity|].
      split; [exact (Hn H0 _ _ (get_le_app _ _ _ _ c E))|].
      apply get_le_length in E. lia.
    - left. exists (m_pathNumber r), (socket r). auto. }
  destruct Hnum as [(n & bytes & E1 & E2 & Hn0 & Hlen)|[H0 E]].
  - rewrite (readData_unfold (push c r)).
    destruct (Z.eqb_spec (zlen (socket (push c r))) 0) as [|_]; [contradiction|].
    unfold readData_round. cbn [push socket m_pathNumber m_pathList timerActive
                               connected emitted].
    rewrite E1, E2.
    destruct (get_bytearray bytes) as [[path bytes2]|] eqn:Ep.
    + rewrite (get_bytearray_app _ _ _ c Ep).
      destruct (wrap32 (zlen (m_pathList r ++ [path])) =? n).
      * rewrite readyRead_finished by reflexivity. reflexivity.
      * apply get_bytearray_length in Ep.
        set (r' := mk bytes2 n (m_pathList r ++ [path]) (timerActive r)
                     (connected r) (emitted r)).
        change (mk (bytes2 ++ c) n (m_pathList r ++ [path]) (timerActive r)
                  (connected r) (emitted r)) with (push c r').
        apply IH; [cbn; lia|exact Hc|].
        intros H. cbn in H. contradiction.
    + set (r1 := mk bytes n (m_pathList r) (timerActive r) (connected r)
                   (emitted r)).
      rewrite readyRead_connected by exact Hc.
      rewrite (readData_unfold (push c r1)). cbn [push r1 socket].
      destruct (Z.eqb_spec (zlen (bytes ++ c)) 0) as [Hz|Hnz2].
      * assert (Hnil : bytes ++ c = []) by (destruct (bytes ++ c); [reflexivity|
          unfold zlen in Hz; cbn in Hz; lia]).
        subst r1. unfold push.
        cbn [socket m_pathNumber m_pathList timerActive connected emitted].
        rewrite Hnil. reflexivity.
      * unfold readData_round. subst r1. unfold push.
        cbn [socket m_pathNumber m_pathList timerActive connected emitted].
        rewrite (proj2 (Z.eqb_neq n 0) Hn0). reflexivity.
  - assert (Hr : readData_round r = (false, r)).
    { unfold readData_round. rewrite H0, E. cbn [Z.eqb].
      destruct r; cbn in *; subst; reflexivity. }
    rewrite Hr. apply readyRead_connected. exact Hc.
Qed.

Lemma push_nil r : push [] r = r.
Proof. unfold push. rewrite app_nil_r. destruct r; reflexivity. Qed.

Lemma number_ok_push r c1 c2 : number_ok r (c1 ++ c2) -> number_ok (push c1 r) c2.
Proof.
  intros H H0 n rest E. cbn in *. rewrite <- app_assoc in E. exact (H H0 n rest E).
Qed.

Lemma number_ok_prefix r c1 c2 : number_ok r (c1 ++ c2) -> number_ok r c1.
Proof.
  intros H H0 n rest E. apply (H H0 n (rest ++ c2)).
  rewrite app_assoc. apply get_le_app. exact E.
Qed.

Lemma deliver_concat pieces : forall r,
  connected r = true -> number_ok r (concat pieces) ->
  deliver pieces (readData r) = readData (push (concat pieces) r).
Proof.
  induction pieces as [|c pieces IH]; intros r Hc Hn.
  - unfold deliver. cbn [fold_left concat]. rewrite push_nil. reflexivity.
  - unfold deliver. cbn [fold_left concat]. cbn [concat] in Hn.
    rewrite (readData_merge (S (List.length (socket r))) r c)
      by (first [lia | exact Hc | exact (number_ok_prefix _ _ _ Hn)]).
    fold (deliver pieces (readData (push c r))).
    rewrite IH by (first [exact Hc | apply number_ok_push; exact Hn]).
    rewrite push_push. reflexivity.
Qed.

Lemma zlen_put_bytearray p : zlen (put_bytearray p) = 4 + zlen p.
Proof.
  unfold put_bytearray. rewrite zlen_app. unfold zlen at 1.
  cbn [put_le List.length]. lia.
Qed.

Lemma zlen_cons {A : Type} (x : A) l : zlen (x :: l) = 1 + zlen l.
Proof. unfold zlen. cbn [List.length]. lia. Qed.

Lemma parse_rest todo : forall seen n timer em,
  todo <> [] -> Forall (fun path => zlen path <= 2147483647) todo ->
  n = zlen seen + zlen todo -> n < 2 ^ 32 ->
  readData (mk (flat_map put_bytearray todo) n seen timer true em)
  = mk [] n (seen ++ todo) false false (em ++ [seen ++ todo]).
Proof.
  induction todo as [|p todo IH]; intros seen n timer em Hne Hall Hn Hlt;
    [contradiction|].
  apply Forall_cons in Hall as [Hp Hall].
  pose proof (zlen_nonneg seen) as Hs. pose proof (zlen_nonneg todo) as Ht.
  pose proof (zlen_nonneg p) as Hp0.
  rewrite zlen_cons in Hn.
  rewrite readData_unfold. cbn [socket flat_map].
  rewrite zlen_app, zlen_put_bytearray.
  destruct (Z.eqb_spec (4 + zlen p + zlen (flat_map put_bytearray todo)) 0)
    as [Hz|_]; [pose proof (zlen_nonneg (flat_map put_bytearray todo)); lia|].
  unfold readData_round.
  cbn [socket m_pathNumber m_pathList timerActive connected emitted].
  destruct (Z.eqb_spec n 0) as [|_]; [lia|].
  rewrite get_put_bytearray by lia.
  rewrite zlen_app, wrap32_small
    by (change (zlen [p]) with 1; change (2 ^ 32) with 4294967296 in *; lia).
  change (zlen [p]) with 1.
  destruct (Z.eqb_spec (zlen seen + 1) n) as [He|Hne2].
  - assert (todo = []) as -> by (destruct todo; [reflexivity|
      rewrite zlen_cons in Hn; pose proof (zlen_nonneg todo); lia]).
    reflexivity.
  - rewrite (IH (seen ++ [p]) n timer em).
    + rewrite <- !app_assoc. reflexivity.
    + intros ->. change (zlen []) with 0 in Hn. lia.
    + exact Hall.
    + rewrite zlen_app. change (zlen [p]) with 1. lia.
    + exact Hlt.
Qed.

Lemma main_bytes arguments :
  command_line arguments ->
  main arguments
  = put_le 4 (zlen (tail arguments)) ++ flat_map put_bytearray (tail arguments) /\
  tail arguments <> [] /\ 0 < zlen (tail arguments) < 2 ^ 32.
Proof.
  intros [[Hlo Hhi] Hall]. unfold main.
  destruct (Z.leb_spec (zlen arguments) 1) as [|_]; [lia|].
  destruct arguments as [|a paths]; [change (zlen []) with 0 in Hlo; lia|].
  rewrite zlen_cons in *. cbn [tail].
  replace (1 + zlen paths - 1) with (zlen paths) by lia.
  rewrite wrap32_small by (change (2 ^ 32) with 4294967296; lia).
  split; [reflexivity|]. split; [|change (2 ^ 32) with 4294967296; lia].
  intros ->. change (zlen []) with 0 in Hlo. lia.
Qed.

Lemma parse_all arguments :
  command_line arguments ->
  readData (push (main arguments) create) = done (tail arguments).
Proof.
  intros Hcl. destruct (main_bytes arguments Hcl) as (-> & Hne & Hn).
  destruct Hcl as [_ Hall].
  destruct (tail arguments) as [|p todo] eqn:Et; [contradiction|].
  apply Forall_cons in Hall as [Hp Hall].
  pose proof (zlen_nonneg p) as Hp0. pose proof (zlen_nonneg todo) as Ht.
  rewrite zlen_cons in Hn.
  rewrite readData_unfold. unfold push, create.
  cbn [socket m_pathNumber m_pathList timerActive connected emitted app flat_map].
  rewrite !zlen_app, zlen_put_bytearray.
  change (zlen (put_le 4 (zlen (p :: todo)))) with 4.
  destruct (Z.eqb_spec (4 + (4 + zlen p + zlen (flat_map put_bytearray todo))) 0)
    as [Hz|_]; [pose proof (zlen_nonneg (flat_map put_bytearray todo)); lia|].
  unfold readData_round.
  cbn [socket m_pathNumber m_pathList timerActive connected emitted Z.eqb].
  rewrite (get_put_le 4)
    by (rewrite zlen_cons; change (2 ^ (8 * Z.of_nat 4)) with (2 ^ 32); lia).
  change (0 =? 0) with true. cbv iota.
  rewrite get_put_bytearray by lia.
  cbn [app]. change (wrap32 (zlen [p])) with 1. rewrite zlen_cons.
  destruct (Z.eqb_spec 1 (1 + zlen todo)) as [He|Hne2].
  - assert (todo = []) as -> by (destruct todo; [reflexivity|
      rewrite zlen_cons in He; pose proof (zlen_nonneg todo); lia]).
    reflexivity.
  - rewrite (parse_rest todo [p] (1 + zlen todo) true []).
    + unfold done. rewrite zlen_cons. reflexivity.
    + intros ->. change (zlen []) with 0 in Hne2. lia.
    + exact Hall.
    + change (zlen [p]) with 1. lia.
    + lia.
Qed.

Lemma number_ok_main arguments c q :
  command_line arguments -> c ++ q = main arguments -> number_ok create c.
Proof.
  intros Hcl Hc _ n rest E. cbn [create socket app] in E.
  apply (get_le_app _ _ _ _ q) in E. rewrite Hc in E.
  destruct (main_bytes arguments Hcl) as (Hm & _ & Hn). rewrite Hm in E.
  rewrite (get_put_le 4) in E
    by (change (2 ^ (8 * Z.of_nat 4)) with (2 ^ 32); lia).
  injection E as <- _. lia.
Qed.

Lemma readData_create : readData create = create.
Proof. reflexivity. Qed.

Lemma loop_status f : forall r,
  connected r = true ->
  (connected (readData_loop f r) = true /\
   emitted (readData_loop f r) = emitted r /\
   timerActive (readData_loop f r) = timerActive r) \/
  connected (readData_loop f r) = false.
Proof.
  induction f as [|f IH]; intros r Hc; [left; auto|].
  cbn [readData_loop]. destruct (zlen (socket r) =? 0); [left; auto|].
  destruct (readData_round r) as [again r'] eqn:E.
  unfold readData_round in E.
  destruct (if m_pathNumber r =? 0 then _ else _) as [[n bytes]|];
    [|injection E as <- <-; left; auto].
  destruct (get_bytearray bytes) as [[path bytes2]|];
    [|injection E as <- <-; left; auto].
  destruct (_ =? n); injection E as <- <-; [right; reflexivity|].
  exact (IH (mk bytes2 n (m_pathList r ++ [path]) (timerActive r)
               (connected r) (emitted r)) Hc).
Qed.

(** X7: the paths of the picker arrive.  Whatever the pieces in which the
    local socket delivers the bytes that SYFPicker writes for a command line
    with at least one path, the receiver ends by handing exactly these paths
    to [finished], once, with the timer stopped and the socket
    disconnected. *)
Theorem picker_paths_delivered arguments pieces :
  command_line arguments ->
  concat pieces = main arguments ->
  deliver pieces create = done (tail arguments).
Proof.
  intros Hcl Hp.
  rewrite <- readData_create at 1.
  rewrite deliver_concat.
  - rewrite Hp. apply parse_all. exact Hcl.
  - reflexivity.
  - apply (number_ok_main arguments _ []); [exact Hcl|].
    rewrite app_nil_r. exact Hp.
Qed.

Lemma picker_paths_delivered_witness :
  deliver [ [x03; x00]; [x00; x00; x04; x00; x00]; [];
            [x00; x2f; x61; x2f; x62; x00; x00; x00; x00; x05; x00; x00; x00;
             x63; x2e; x74; x78]; [x74] ] create
  = done [ [x2f; x61; x2f; x62]; []; [x63; x2e; x74; x78; x74] ].
Proof.
  apply (picker_paths_delivered sample_arguments).
  - split; [vm_compute; split; congruence|].
    repeat constructor; vm_compute; congruence.
  - reflexivity.
Defined.

(** X8: nothing is handed on early.  While bytes that SYFPicker writes are
    still missing, the receiver has emitted nothing, its timer runs and its
    socket is connected, whatever the pieces delivered so far. *)
Theorem picker_paths_not_early arguments pieces missing :
  command_line arguments ->
  concat pieces ++ missing = main arguments -> missing <> [] ->
  emitted (deliver pieces create) = [] /\
  timerActive (deliver pieces create) = true /\
  connected (deliver pieces create) = true.
Proof.
  intros Hcl Hp Hm.
  assert (Hd : deliver pieces create = readData (push (concat pieces) create)).
  { rewrite <- readData_create at 1. apply deliver_concat; [reflexivity|].
    apply (number_ok_main arguments _ missing); assumption. }
  rewrite Hd.
  destruct (loop_status (S (List.length (socket (push (concat pieces) create))))
              (push (concat pieces) create) eq_refl) as [(H1 & H2 & H3)|H].
  - fold (readData (push (concat pieces) create)) in H1, H2, H3. auto.
  - fold (readData (push (concat pieces) create)) in H. exfalso.
    assert (Hn : number_ok (push (concat pieces) create) missing).
    { apply number_ok_push. rewrite Hp.
      apply (number_ok_main arguments _ []); [exact Hcl|apply app_nil_r]. }
    pose proof (readData_merge _ (push (concat pieces) create) missing
                  (Nat.lt_succ_diag_r _) eq_refl Hn) as Hmerge.
    rewrite readyRead_finished in Hmerge by exact H.
    rewrite push_push, Hp, (parse_all arguments Hcl) in Hmerge.
    apply (f_equal socket) in Hmerge.
    unfold push at 1, done in Hmerge. cbn [socket] in Hmerge.
    apply app_eq_nil in Hmerge as [_ ->]. contradiction.
Qed.

Lemma picker_paths_not_early_witness :
  emitted (deliver [ [x03; x00]; [x00; x00; x04; x00; x00] ] create) = [].
Proof.
  apply (picker_paths_not_early sample_arguments _
           [x00; x2f; x61; x2f; x62; x00; x00; x00; x00; x05; x00; x00; x00;
            x63; x2e; x74; x78; x74]).
  - split; [vm_compute; split; congruence|].
    repeat constructor; vm_compute; congruence.
  - reflexivity.
  - discriminate.
Defined.

End PickerProtocol.

(** ** The icon protocol *)

Section IconProtocol.
Import QDataStream Syfit.

Variable sha1 : list byte -> list byte.
Variable fromData : list byte -> bool.
Variable saveIcon : list byte -> bool.


Lemma app_split_prefix {A : Type} (l1 l2 h d : list A) :
  l1 ++ l2 = h ++ d -> (List.length h <= List.length l1)%nat ->
  exists D, l1 = h ++ D /\ d = D ++ l2.
Proof.
  revert l1. induction h as [|x h IH]; intros l1 E Hlen.
  - exists l1. split; [reflexivity|]. symmetry. exact E.
  - destruct l1 as [|y l1]; [cbn in Hlen; lia|].
    cbn in E. injection E as -> E. cbn in Hlen.
    destruct (IH l1 E ltac:(lia)) as (D & -> & ->).
    exists D. split; reflexivity.
Qed.

Lemma manageError_closed c c' :
  manageError c = Some c' -> socketOpen c' = false.
Proof.
  unfold manageError. destruct (_ <? _); [discriminate|].
  intros [= <-]. reflexivity.
Qed.

Lemma bufferFull_closed c c' :
  (Syfit.bufferFull sha1 fromData saveIcon) c = Some c' -> socketOpen c' = false.
Proof.
  unfold Syfit.bufferFull. cbn [m_buffer m_expectedHash].
  destruct (UserIcon _ _ _ _ _).
  - intros [= <-]. reflexivity.
  - apply manageError_closed.
Qed.

Lemma deliver_closed pieces : forall c,
  socketOpen c = false -> (Syfit.deliver sha1 fromData saveIcon) pieces c = Some c.
Proof.
  induction pieces as [|p pieces IH]; intros c Hc; [reflexivity|].
  cbn [Syfit.deliver]. unfold Syfit.readyRead. rewrite Hc. apply IH. exact Hc.
Qed.

Lemma deliver_result pieces (o : option t) :
  (forall c, o = Some c -> socketOpen c = false) ->
  match o with
  | Some c => (Syfit.deliver sha1 fromData saveIcon) pieces c
  | None => None
  end = o.
Proof.
  intros H. destruct o as [c|]; [|reflexivity].
  apply deliver_closed. apply H. reflexivity.
Qed.

Lemma readBytes_receiving c n B piece :
  0 <= n < 2 ^ 32 -> zlen (B ++ piece) <= n ->
  (Syfit.readBytes sha1 fromData saveIcon) (mk (m_expectedHash c) (m_serverAddress c) (m_serverPort c) n B
               (m_retryTime c) piece true true (retries c) (emitted c))
  = if zlen (B ++ piece) =? n then (Syfit.bufferFull sha1 fromData saveIcon) (receiving c n (B ++ piece))
    else Some (receiving c n (B ++ piece)).
Proof.
  intros Hn Hle. rewrite zlen_app in Hle.
  pose proof (zlen_nonneg B). pose proof (zlen_nonneg piece).
  unfold Syfit.readBytes.
  cbn [m_expectedLength m_buffer socket m_expectedHash m_serverAddress
       m_serverPort m_retryTime socketOpen timerActive retries emitted].
  rewrite (wrap32_small (zlen B)) by lia.
  rewrite (wrap32_small (n - zlen B)) by lia.
  assert (Ht : firstn (Z.to_nat (n - zlen B)) piece = piece)
    by (apply firstn_all2; unfold zlen in *; lia).
  assert (Hd : skipn (Z.to_nat (n - zlen B)) piece = [])
    by (apply skipn_all2; unfold zlen in *; lia).
  rewrite Ht, Hd. rewrite wrap32_small by (rewrite zlen_app; lia).
  reflexivity.
Qed.

Lemma deliver_body data c pieces : forall B,
  zlen data < 2 ^ 32 -> zlen B < zlen data -> B ++ concat pieces = data ->
  (Syfit.deliver sha1 fromData saveIcon) pieces (receiving c (zlen data) B)
  = (Syfit.bufferFull sha1 fromData saveIcon) (receiving c (zlen data) data).
Proof.
  intros B Hn. revert B.
  induction pieces as [|piece pieces IH]; intros B HB E.
  - cbn in E. rewrite app_nil_r in E. subst. lia.
  - cbn [concat] in E. cbn [Syfit.deliver].
    pose proof (zlen_nonneg B) as HB0.
    assert (Hle : zlen (B ++ piece) <= zlen data).
    { rewrite <- E, app_assoc, (zlen_app (B ++ piece)).
      pose proof (zlen_nonneg (concat pieces)). lia. }
    remember ((Syfit.bufferFull sha1 fromData saveIcon)
                (receiving c (zlen data) data)) as R eqn:HR.
    unfold Syfit.readyRead, receiving.
    cbn [socketOpen m_expectedLength m_buffer socket m_expectedHash
         m_serverAddress m_serverPort m_retryTime timerActive retries emitted app].
    unfold Syfit.readData.
    cbn [m_expectedLength m_buffer socket m_expectedHash
         m_serverAddress m_serverPort m_retryTime socketOpen timerActive
         retries emitted].
    destruct (Z.eqb_spec (zlen data) 0) as [|_]; [lia|].
    rewrite (readBytes_receiving c (zlen data) B piece) by lia.
    destruct (Z.eqb_spec (zlen (B ++ piece)) (zlen data)) as [He|Hne].
    + assert (concat pieces = []) as Hnil.
      { apply (f_equal zlen) in E. rewrite app_assoc, zlen_app in E.
        destruct (concat pieces); [reflexivity|].
        unfold zlen in *. cbn [List.length] in *. lia. }
      rewrite Hnil, app_nil_r in E. rewrite E, <- HR.
      apply deliver_result. intros c'. rewrite HR. apply bufferFull_closed.
    + apply IH; [lia|]. rewrite <- app_assoc. exact E.
Qed.

Lemma deliver_header data c pieces : forall P,
  0 < zlen data <= ICON_MAX_SIZE_BYTES -> zlen P < 4 ->
  P ++ concat pieces = serveClient data ->
  (Syfit.deliver sha1 fromData saveIcon) pieces (awaiting_length c P)
  = (Syfit.bufferFull sha1 fromData saveIcon) (receiving c (zlen data) data).
Proof.
  intros P Hn. revert P. unfold ICON_MAX_SIZE_BYTES in Hn.
  induction pieces as [|piece pieces IH]; intros P HP E.
  - cbn [concat] in E. rewrite app_nil_r in E. subst P.
    unfold serveClient in HP. rewrite zlen_app in HP.
    change (zlen (put_le 4 _)) with 4 in HP. lia.
  - cbn [concat] in E. cbn [Syfit.deliver].
    remember ((Syfit.bufferFull sha1 fromData saveIcon)
                (receiving c (zlen data) data)) as R eqn:HR.
    unfold Syfit.readyRead, awaiting_length.
    cbn [socketOpen m_expectedLength m_buffer socket m_expectedHash
         m_serverAddress m_serverPort m_retryTime timerActive retries emitted].
    unfold Syfit.readData.
    cbn [m_expectedLength m_buffer socket m_expectedHash
         m_serverAddress m_serverPort m_retryTime socketOpen timerActive
         retries emitted Z.eqb].
    change (0 =? 0) with true. cbv iota.
    destruct (Z.ltb_spec (zlen (P ++ piece)) 4) as [Hlt|Hge].
    + apply IH; [exact Hlt|]. rewrite <- app_assoc. exact E.
    + rewrite app_assoc in E. unfold serveClient in E.
      apply app_split_prefix in E as (D & Hsock & Hdata);
        [|unfold zlen in Hge; cbn [put_le List.length]; lia].
      rewrite Hsock.
      rewrite wrap32_small by lia.
      rewrite (get_put_le 4)
        by (change (2 ^ (8 * Z.of_nat 4)) with (2 ^ 32); lia).
      cbn [m_expectedLength]. unfold ICON_MAX_SIZE_BYTES.
      destruct (Z.ltb_spec (16 * 1024) (zlen data)) as [|_]; [lia|].
      assert (HD : zlen D <= zlen data).
      { rewrite Hdata, zlen_app. pose proof (zlen_nonneg (concat pieces)). lia. }
      rewrite (readBytes_receiving c (zlen data) [] D) by (cbn [app]; lia).
      cbn [app].
      destruct (Z.eqb_spec (zlen D) (zlen data)) as [He|Hne].
      * assert (concat pieces = []) as Hnil.
        { apply (f_equal zlen) in Hdata. rewrite zlen_app in Hdata.
          destruct (concat pieces); [reflexivity|].
          unfold zlen in *. cbn [List.length] in *. lia. }
        rewrite Hnil, app_nil_r in Hdata. rewrite <- Hdata, <- HR.
        apply deliver_result. intros c'. rewrite HR. apply bufferFull_closed.
      * rewrite HR. apply deliver_body; [lia|lia|]. symmetry. exact Hdata.
Qed.

(** X9: the icon of a peer arrives.  Whatever the pieces in which the socket
    delivers what the server writes for an icon of at most
    [ICON_MAX_SIZE_BYTES] bytes, a client that has just started the
    connection ends with exactly the data of the icon in its buffer; when the
    SHA-1 hash of the data is the expected one, the data is an image and the
    icon can be saved, it hands the icon to [finished], once, with the timer
    stopped and the socket closed. *)
Theorem icon_delivered c data pieces :
  0 < zlen data <= ICON_MAX_SIZE_BYTES ->
  concat pieces = serveClient data ->
  sha1 data = m_expectedHash c -> fromData data = true ->
  saveIcon data = true ->
  Syfit.deliver sha1 fromData saveIcon pieces (startConnection c)
  = Some (mk (m_expectedHash c) (m_serverAddress c) (m_serverPort c)
            (zlen data) data (m_retryTime c) [] false false (retries c)
            (emitted c ++ [(data, m_expectedHash c)])).
Proof.
  intros Hn Hp Hh Hi Hs.
  change (startConnection c) with (awaiting_length c []).
  rewrite (deliver_header data c pieces []) by (first [exact Hn | reflexivity | exact Hp]).
  unfold Syfit.bufferFull, receiving, UserIcon, readIcon.
  cbn [m_buffer m_expectedHash m_serverAddress m_serverPort m_expectedLength
       m_retryTime socket socketOpen timerActive retries emitted].
  rewrite bool_decide_eq_false_2
    by (intros ->; change (zlen []) with 0 in Hn; lia).
  rewrite (bool_decide_eq_true_2 _ Hh), Hi, Hs. reflexivity.
Qed.

(** X10: an icon that fails a check is never handed on.  When the data that
    arrives has another hash than the expected one, is not an image of the
    size of an icon, or cannot be saved, nothing is emitted: the connection is
    aborted, a retry is scheduled after the current retry time, and the retry
    time doubles. *)
Theorem icon_refused c data pieces :
  0 < zlen data <= ICON_MAX_SIZE_BYTES ->
  concat pieces = serveClient data ->
  sha1 data <> m_expectedHash c \/ fromData data = false
  \/ saveIcon data = false ->
  m_retryTime c * 2 <= INT_MAX ->
  Syfit.deliver sha1 fromData saveIcon pieces (startConnection c)
  = Some (mk (m_expectedHash c) (m_serverAddress c) (m_serverPort c)
            (zlen data) data (m_retryTime c * 2) [] false false
            (retries c ++ [m_retryTime c]) (emitted c)).
Proof.
  intros Hn Hp Hbad Hr.
  change (startConnection c) with (awaiting_length c []).
  rewrite (deliver_header data c pieces []) by (first [exact Hn | reflexivity | exact Hp]).
  assert (Hu : UserIcon sha1 fromData saveIcon data (m_expectedHash c) = None).
  { unfold UserIcon, readIcon.
    destruct (bool_decide (data = [])); [reflexivity|].
    destruct (bool_decide_reflect (sha1 data = m_expectedHash c)) as [Hh|Hh];
      cbn [negb]; [|reflexivity].
    destruct (fromData data) eqn:Hi; cbn [negb]; [|reflexivity].
    destruct (saveIcon data) eqn:Hs; cbn [negb]; [|reflexivity].
    destruct Hbad as [H|[H|H]]; [contradiction|discriminate|discriminate]. }
  unfold Syfit.bufferFull, receiving.
  cbn [m_buffer m_expectedHash m_serverAddress m_serverPort m_expectedLength
       m_retryTime socket socketOpen timerActive retries emitted].
  rewrite Hu. unfold manageError, abortConnection.
  cbn [m_buffer m_expectedHash m_serverAddress m_serverPort m_expectedLength
       m_retryTime socket socketOpen timerActive retries emitted].
  destruct (Z.ltb_spec INT_MAX (m_retryTime c * 2)) as [|_]; [lia|].
  reflexivity.
Qed.

Lemma backoff_snoc k : forall t,
  backoff k t ++ [t * 2 ^ Z.of_nat k] = backoff (S k) t.
Proof.
  induction k as [|k IH]; intros t.
  - cbn [backoff app]. change (2 ^ Z.of_nat 0) with 1. rewrite Z.mul_1_r.
    reflexivity.
  - change (backoff (S k) t) with (t :: backoff k (2 * t)).
    cbn [app]. f_equal.
    replace (t * 2 ^ Z.of_nat (S k)) with (2 * t * 2 ^ Z.of_nat k).
    + rewrite IH. reflexivity.
    + replace (Z.of_nat (S k)) with (Z.of_nat k + 1) by lia.
      rewrite Z.pow_add_r by lia. change (2 ^ 1) with 2. lia.
Qed.

Lemma timeouts_backoff k : forall c,
  0 < m_retryTime c -> m_retryTime c * 2 ^ Z.of_nat k <= INT_MAX ->
  timeouts k (startConnection c)
  = Some (mk (m_expectedHash c) (m_serverAddress c) (m_serverPort c) 0 []
            (m_retryTime c * 2 ^ Z.of_nat k) [] true true
            (retries c ++ backoff k (m_retryTime c)) (emitted c)).
Proof.
  induction k as [|k IH]; intros c Hpos Hmax.
  - cbn [timeouts backoff]. unfold startConnection.
    change (2 ^ Z.of_nat 0) with 1. rewrite Z.mul_1_r, app_nil_r. reflexivity.
  - assert (Hk : 2 ^ Z.of_nat (S k) = 2 ^ Z.of_nat k * 2).
    { replace (Z.of_nat (S k)) with (Z.of_nat k + 1) by lia.
      rewrite Z.pow_add_r by lia. reflexivity. }
    assert (0 < 2 ^ Z.of_nat k) by (apply Z.pow_pos_nonneg; lia).
    rewrite Hk in Hmax.
    cbn [timeouts]. rewrite IH by nia.
    unfold timeout, manageError, abortConnection, startConnection.
    cbn [m_buffer m_expectedHash m_serverAddress m_serverPort m_expectedLength
         m_retryTime socket socketOpen timerActive retries emitted].
    destruct (Z.ltb_spec INT_MAX (m_retryTime c * 2 ^ Z.of_nat k * 2)) as [|_];
      [nia|].
    cbn [m_buffer m_expectedHash m_serverAddress m_serverPort m_expectedLength
         m_retryTime socket socketOpen timerActive retries emitted].
    rewrite <- app_assoc, backoff_snoc, Hk, Z.mul_assoc. reflexivity.
Qed.

(** X11: the retries back off.  After [updateAndStart] with the parameters
    of a server, [k] connections in a row that time out are retried after
    15, 30, 60, ... seconds: the [k] delays are [INITIAL_RETRY_TIME] doubled
    each time, for the 17 doublings that an [int] holds. *)
Theorem retry_time_doubles k c serverAddress serverPort iconHash :
  (k <= 17)%nat -> serverPort <> INVALID_PORT ->
  m_serverAddress c <> serverAddress \/ m_serverPort c <> serverPort
  \/ m_expectedHash c <> iconHash ->
  exists c',
    timeouts k (updateAndStart serverAddress serverPort iconHash c) = Some c' /\
    retries c' = retries c ++ backoff k INITIAL_RETRY_TIME /\
    m_retryTime c' = INITIAL_RETRY_TIME * 2 ^ Z.of_nat k /\
    emitted c' = emitted c /\ socketOpen c' = true /\ timerActive c' = true.
Proof.
  intros Hk Hport Hnew.
  assert (Hu : updateAndStart serverAddress serverPort iconHash c
               = startConnection
                   (mk iconHash serverAddress serverPort (m_expectedLength c)
                      (m_buffer c) INITIAL_RETRY_TIME [] false false
                      (retries c) (emitted c))).
  { unfold updateAndStart.
    replace (negb (m_serverAddress c =? serverAddress)
             || negb (m_serverPort c =? serverPort)
             || negb (bool_decide (m_expectedHash c = iconHash))) with true.
    - unfold abortConnection.
      cbn [m_buffer m_expectedHash m_serverAddress m_serverPort m_expectedLength
           m_retryTime socket socketOpen timerActive retries emitted].
      rewrite (proj2 (Z.eqb_neq _ _) Hport). reflexivity.
    - symmetry. destruct Hnew as [H|[H|H]].
      + rewrite (proj2 (Z.eqb_neq _ _) H). reflexivity.
      + rewrite (proj2 (Z.eqb_neq _ _) H). cbn [negb].
        rewrite orb_true_r. reflexivity.
      + rewrite (bool_decide_eq_false_2 _ H). cbn [negb].
        rewrite !orb_true_r. reflexivity. }
  rewrite Hu, timeouts_backoff.
  - eexists. split; [reflexivity|]. cbn. auto.
  - cbn. unfold INITIAL_RETRY_TIME. lia.
  - cbn [m_retryTime]. unfold INITIAL_RETRY_TIME, INT_MAX.
    assert (2 ^ Z.of_nat k <= 2 ^ 17)
      by (apply Z.pow_le_mono_r; lia).
    change (2 ^ 17) with 131072 in *. lia.
Qed.

End IconProtocol.

Lemma icon_delivered_witness :
  Syfit.emitted <$>
    Syfit.deliver sample_sha1 (fun _ => true) (fun _ => true)
      [ [x05; x00]; [x00; x00; x89]; []; [x50; x4e; x47; x0d] ]
      (Syfit.startConnection sample_client)
  = Some [(sample_data, [x89])].
Proof.
  rewrite (icon_delivered sample_sha1 (fun _ => true) (fun _ => true)
             sample_client sample_data).
  - reflexivity.
  - vm_compute. split; congruence.
  - reflexivity.
  - reflexivity.
  - reflexivity.
  - reflexivity.
Defined.

Lemma icon_refused_witness :
  Syfit.retries <$>
    Syfit.deliver sample_sha1 (fun _ => true) (fun _ => false)
      [ [x05; x00; x00; x00; x89; x50]; [x4e; x47; x0d] ]
      (Syfit.startConnection sample_client)
  = Some [15000].
Proof.
  rewrite (icon_refused sample_sha1 (fun _ => true) (fun _ => false)
             sample_client sample_data).
  - reflexivity.
  - vm_compute. split; congruence.
  - reflexivity.
  - right. right. reflexivity.
  - vm_compute. congruence.
Defined.

Lemma retry_time_doubles_witness :
  exists c',
    timeouts 3 (Syfit.updateAndStart 3232235777 50001 [x89] (Syfit.create 7 9))
    = Some c' /\
    Syfit.retries c' = [15000; 30000; 60000].
Proof.
  destruct (retry_time_doubles 3 (Syfit.create 7 9) 3232235777 50001 [x89])
    as (c' & H1 & H2 & _).
  - lia.
  - discriminate.
  - left. discriminate.
  - exists c'. split; [exact H1|exact H2].
Defined.

(** ** Sessions: safety, terminal states, pause and progress *)

Section SessionSafety.
Import Syfft.

(** X12: the handlers of the commands are safe.  In every state that a
    receiving or a sending session reaches, [readData] handles any batch of
    commands without a failed assertion, an index out of the list of files or
    a null file in transfer. *)
Theorem commands_never_fail :
  (forall events s cmds,
     Syfft.run Syfft.create events = Some s ->
     exists s', Syfft.readData cmds s = Some s') /\
  (forall events s cmds,
     SyfftSender.run SyfftSender.create events = Some s ->
     exists s', SyfftSender.readData cmds s = Some s').
Proof.
  split; intros events s cmds Hrun.
  - destruct (readData_Safe cmds s (reachable_Safe _ _ Hrun)) as (s' & H & _).
    exists s'. exact H.
  - destruct (readData_SInv cmds s (sender_reachable_SInv _ _ Hrun))
      as (s' & H & _).
    exists s'. exact H.
Qed.

Lemma commands_never_fail_witness :
  exists s s',
    Syfft.run Syfft.create opened_trace = Some s /\
    Syfft.readData [COMMIT true; CHUNK 9 [x61] 1; ABORT] s = Some s'.
Proof.
  destruct commands_never_fail as [H _].
  assert (Hs : exists s, Syfft.run Syfft.create opened_trace = Some s)
    by (eexists; vm_compute; reflexivity).
  destruct Hs as [s Hs].
  destruct (H opened_trace s [COMMIT true; CHUNK 9 [x61] 1; ABORT] Hs)
    as [s' Hs'].
  exists s, s'. split; [exact Hs|exact Hs'].
Defined.

End SessionSafety.

Section TerminalStates.
Import Syfft.

Lemma abortConnection_terminal s :
  is_terminal_state s -> abortConnection s = Some s.
Proof.
  intros [H|H]; unfold abortConnection; rewrite H; reflexivity.
Qed.

Lemma fail_terminal s : is_terminal_state s -> fail s = Some (false, s).
Proof.
  intros H. unfold fail, manageError. rewrite abortConnection_terminal by exact H.
  reflexivity.
Qed.

Lemma togglePauseMode_terminal u s :
  is_terminal_state s -> togglePauseMode u s = Some s.
Proof.
  intros [H|H]; unfold togglePauseMode; rewrite H; reflexivity.
Qed.

Lemma command_terminal c s :
  is_terminal_state s -> exists b, command c s = Some (b, s).
Proof.
  intros Ht. pose proof (fail_terminal s Ht) as Hf.
  assert (Hst : m_status s <> Connecting /\ m_status s <> Connected /\
                m_status s <> InTransfer /\ m_status s <> TransferCompleted /\
                m_status s <> Closing)
    by (destruct Ht as [H|H]; rewrite H; repeat split; discriminate).
  destruct Hst as (H1 & H2 & H3 & H4 & H5).
  destruct c; cbn [command].
  - unfold helloCommand. rewrite (bool_decide_eq_false_2 _ H1). eauto.
  - unfold ackCommand. rewrite (bool_decide_eq_false_2 _ H1). eauto.
  - unfold shareCommand. rewrite (bool_decide_eq_false_2 _ H2). eauto.
  - unfold itemCommand. rewrite (bool_decide_eq_false_2 _ H2). eauto.
  - unfold startCommand. rewrite (bool_decide_eq_false_2 _ H3). eauto.
  - unfold skipCommand. rewrite (bool_decide_eq_false_2 _ H3). eauto.
  - unfold chunkCommand. rewrite (bool_decide_eq_false_2 _ H3).
    destruct (m_fileInTransfer s); eauto.
  - unfold commitCommand. rewrite (bool_decide_eq_false_2 _ H3).
    destruct (m_fileInTransfer s); eauto.
  - unfold rollbkCommand. rewrite (bool_decide_eq_false_2 _ H3).
    destruct (m_fileInTransfer s); eauto.
  - unfold closeCommand.
    destruct (bool_decide (m_status s = Closed)); [eauto|].
    rewrite (bool_decide_eq_false_2 _ H4), (bool_decide_eq_false_2 _ H5). eauto.
  - rewrite togglePauseMode_terminal by exact Ht. eauto.
  - eauto.
  - eauto.
Qed.

Lemma processCommands_terminal cmds s :
  is_terminal_state s -> processCommands cmds s = Some s.
Proof.
  intros Ht. induction cmds as [|c cmds IH]; [reflexivity|].
  cbn [processCommands]. destruct (command_terminal c s Ht) as [b ->].
  destruct b; [exact IH|reflexivity].
Qed.

Lemma decision_aborted l s (k : Session -> option Session) s' :
  m_status s = Aborted ->
  (s1 ← togglePauseMode true
          (set_m_preventUserTogglePause false (set_pendingRequests l s));
   if bool_decide (m_status s1 = Aborted) then Some s1 else k s1) = Some s' ->
  same_transfer s s'.
Proof.
  intros Ha.
  rewrite togglePauseMode_terminal by (right; destruct s; exact Ha).
  cbn [mbind option_bind].
  rewrite bool_decide_eq_true_2 by (destruct s; exact Ha).
  intros [= <-]. destruct s; repeat split.
Qed.

Lemma step_terminal s e s' :
  is_terminal_state s -> m_status s = Aborted \/ is_decision e = false ->
  step s e = Some s' -> same_transfer s s'.
Proof.
  intros Ht Hd Hstep.
  assert (Hnp : m_status s <> PausedByUser /\ m_status s <> New /\
                m_status s <> Closing)
    by (destruct Ht as [H|H]; rewrite H; repeat split; discriminate).
  destruct Hnp as (Hnp & Hnew & Hcl).
  destruct e; cbn [step] in Hstep.
  - rewrite (bool_decide_eq_false_2 _ Hnew) in Hstep. discriminate.
  - unfold readData in Hstep. rewrite (bool_decide_eq_false_2 _ Hnp) in Hstep.
    rewrite processCommands_terminal in Hstep by exact Ht.
    injection Hstep as <-. repeat split.
  - destruct Hd as [Ha|Hd]; [|discriminate].
    destruct (request_decided SharingRequest s) as [s1|] eqn:H1; [|discriminate].
    apply request_decided_Some in H1 as [_ ->]. cbn [mbind option_bind] in Hstep.
    unfold acceptSharingRequest in Hstep.
    exact (decision_aborted _ s _ s' Ha Hstep).
  - destruct Hd as [Ha|Hd]; [|discriminate].
    destruct (request_decided SharingRequest s) as [s1|] eqn:H1; [|discriminate].
    apply request_decided_Some in H1 as [_ ->]. cbn [mbind option_bind] in Hstep.
    unfold rejectSharingRequest in Hstep.
    exact (decision_aborted _ s _ s' Ha Hstep).
  - destruct Hd as [Ha|Hd]; [|discriminate].
    destruct (bool_decide (action = Ask)); [discriminate|].
    destruct (request_decided DuplicatedFile s) as [s1|] eqn:H1; [|discriminate].
    apply request_decided_Some in H1 as [_ ->]. cbn [mbind option_bind] in Hstep.
    unfold chosen in Hstep.
    exact (decision_aborted _ s _ s' Ha Hstep).
  - unfold changePauseMode in Hstep.
    rewrite togglePauseMode_terminal in Hstep by exact Ht.
    destruct (_ || _); injection Hstep as <-; repeat split.
  - rewrite abortConnection_terminal in Hstep by exact Ht.
    injection Hstep as <-. repeat split.
  - unfold onSocketError in Hstep.
    rewrite (bool_decide_eq_false_2 _ Hnp) in Hstep. cbn [andb] in Hstep.
    unfold manageError in Hstep.
    rewrite abortConnection_terminal in Hstep by exact Ht.
    destruct (_ && _); injection Hstep as <-; repeat split.
  - injection Hstep as <-. unfold onDisconnected.
    destruct s; cbn in *. rewrite (bool_decide_eq_false_2 _ Hcl). repeat split.
Qed.

Lemma same_transfer_terminal s s' :
  same_transfer s s' -> is_terminal_state s -> is_terminal_state s'.
Proof. intros (H & _) [Ht|Ht]; [left|right]; congruence. Qed.

Lemma same_transfer_trans s1 s2 s3 :
  same_transfer s1 s2 -> same_transfer s2 s3 -> same_transfer s1 s3.
Proof.
  intros (A1 & A2 & A3 & A4 & A5 & A6) (B1 & B2 & B3 & B4 & B5 & B6).
  repeat split; congruence.
Qed.

Lemma run_terminal events : forall s s',
  is_terminal_state s ->
  m_status s = Aborted \/ Forall (fun e => is_decision e = false) events ->
  run s events = Some s' -> same_transfer s s'.
Proof.
  induction events as [|e events IH]; intros s s' Ht Hd.
  - intros [= <-]. repeat split.
  - cbn [run]. destruct (step s e) as [s1|] eqn:Hstep; [|discriminate].
    cbn [mbind option_bind]. intros Hrun.
    assert (Hsame : same_transfer s s1).
    { apply (step_terminal s e s1 Ht); [|exact Hstep].
      destruct Hd as [Ha|Hd]; [left; exact Ha|right].
      apply Forall_cons in Hd as [He _]. exact He. }
    eapply same_transfer_trans; [exact Hsame|].
    apply IH; [exact (same_transfer_terminal _ _ Hsame Ht)| |exact Hrun].
    destruct Hd as [Ha|Hd].
    + left. destruct Hsame as (Hst & _). congruence.
    + right. apply Forall_cons in Hd as [_ Hd]. exact Hd.
Qed.

Lemma sender_command_terminal c s :
  is_terminal_state s -> exists b, SyfftSender.command c s = Some (b, s).
Proof.
  intros Ht. pose proof (fail_terminal s Ht) as Hf.
  assert (Hst : m_status s <> Connecting /\ m_status s <> Connected /\
                m_status s <> InTransfer /\ m_status s <> TransferCompleted /\
                m_status s <> Closing)
    by (destruct Ht as [H|H]; rewrite H; repeat split; discriminate).
  destruct Hst as (H1 & H2 & H3 & H4 & H5).
  destruct c; cbn [SyfftSender.command].
  - unfold SyfftSender.helloCommand. rewrite (bool_decide_eq_false_2 _ H1). eauto.
  - unfold SyfftSender.acceptCommand.
    rewrite (bool_decide_eq_false_2 _ H2), (bool_decide_eq_false_2 _ H3).
    destruct (m_fileInTransfer s); eauto.
  - unfold SyfftSender.rejectCommand.
    rewrite (bool_decide_eq_false_2 _ H2), (bool_decide_eq_false_2 _ H3).
    destruct (m_fileInTransfer s); eauto.
  - unfold SyfftSender.commitCommand. rewrite (bool_decide_eq_false_2 _ H3).
    destruct (m_fileInTransfer s); eauto.
  - unfold SyfftSender.rollbkCommand. rewrite (bool_decide_eq_false_2 _ H3).
    destruct (m_fileInTransfer s); eauto.
  - unfold SyfftSender.stopCommand. rewrite (bool_decide_eq_false_2 _ H3).
    destruct (m_fileInTransfer s); eauto.
  - unfold SyfftSender.closeCommand.
    destruct (bool_decide (m_status s = Closed)); [eauto|].
    rewrite (bool_decide_eq_false_2 _ H4), (bool_decide_eq_false_2 _ H5). eauto.
  - rewrite togglePauseMode_terminal by exact Ht. eauto.
  - eauto.
  - eauto.
Qed.

Lemma sender_processCommands_terminal cmds s :
  is_terminal_state s -> SyfftSender.processCommands cmds s = Some s.
Proof.
  intros Ht. induction cmds as [|c cmds IH]; [reflexivity|].
  cbn [SyfftSender.processCommands].
  destruct (sender_command_terminal c s Ht) as [b ->].
  destruct b; [exact IH|reflexivity].
Qed.

Lemma sender_step_terminal s e s' :
  SInv s -> is_terminal_state s -> SyfftSender.step s e = Some s' ->
  same_transfer s s' /\ SInv s'.
Proof.
  intros HI Ht Hstep. split; [|exact (sender_step_SInv s e s' HI Hstep)].
  assert (Hnp : m_status s <> PausedByUser /\ m_status s <> New /\
                m_status s <> Closing /\ m_status s <> InTransfer)
    by (destruct Ht as [H|H]; rewrite H; repeat split; discriminate).
  destruct Hnp as (Hnp & Hnew & Hcl & Hit).
  destruct e; cbn [SyfftSender.step] in Hstep.
  - destruct (_ <? _); [|discriminate]. unfold SyfftSender.sendFiles in Hstep.
    rewrite (bool_decide_eq_false_2 _ Hnew) in Hstep. discriminate.
  - unfold SyfftSender.onConnected, manageError in Hstep. cbv zeta in Hstep.
    rewrite abortConnection_terminal in Hstep
      by (destruct s; exact Ht).
    destruct (negb writeOk); injection Hstep as <-; destruct s; repeat split.
  - unfold SyfftSender.onBytesWritten in Hstep.
    rewrite (bool_decide_eq_false_2 _ Hit) in Hstep. cbn [andb] in Hstep.
    destruct (m_fileInTransfer s); injection Hstep as <-; repeat split.
  - unfold SyfftSender.readData in Hstep.
    rewrite (bool_decide_eq_false_2 _ Hnp) in Hstep.
    rewrite sender_processCommands_terminal in Hstep by exact Ht.
    injection Hstep as <-. repeat split.
  - unfold SyfftSender.updatePeer in Hstep.
    rewrite abortConnection_terminal in Hstep by exact Ht.
    destruct changed; injection Hstep as <-; repeat split.
  - unfold SyfftSender.updatePeer in Hstep.
    rewrite abortConnection_terminal in Hstep by exact Ht.
    destruct changed; injection Hstep as <-; repeat split.
  - unfold changePauseMode in Hstep.
    rewrite togglePauseMode_terminal in Hstep by exact Ht.
    destruct (_ || _); injection Hstep as <-; repeat split.
  - rewrite abortConnection_terminal in Hstep by exact Ht.
    injection Hstep as <-. repeat split.
  - unfold onSocketError in Hstep.
    rewrite (bool_decide_eq_false_2 _ Hnp) in Hstep. cbn [andb] in Hstep.
    unfold manageError in Hstep.
    rewrite abortConnection_terminal in Hstep by exact Ht.
    destruct (_ && _); injection Hstep as <-; repeat split.
  - injection Hstep as <-. unfold onDisconnected.
    destruct s; cbn in *. rewrite (bool_decide_eq_false_2 _ Hcl). repeat split.
Qed.

Lemma sender_run_terminal events : forall s s',
  SInv s -> is_terminal_state s -> SyfftSender.run s events = Some s' ->
  same_transfer s s'.
Proof.
  induction events as [|e events IH]; intros s s' HI Ht.
  - intros [= <-]. repeat split.
  - cbn [SyfftSender.run].
    destruct (SyfftSender.step s e) as [s1|] eqn:Hstep; [|discriminate].
    cbn [mbind option_bind]. intros Hrun.
    destruct (sender_step_terminal s e s1 HI Ht Hstep) as [Hsame HI1].
    eapply same_transfer_trans; [exact Hsame|].
    apply IH; [exact HI1|exact (same_transfer_terminal _ _ Hsame Ht)|exact Hrun].
Qed.

(** X13: a session that is Aborted stays as it is, and so does a session
    that is Closed as long as no decision of the user reaches it.  Whatever
    happens to an Aborted session afterwards (commands of the peer, decisions
    of the user on the requests left undecided, requests to pause or
    terminate, socket errors, disconnection), its status, its counters, its
    list of files, its current file and its file in transfer do not change;
    the same holds for a Closed session and what happens to it other than a
    decision of the user; this holds for receiving and for sending sessions,
    and a sending session asks its user nothing. *)
Theorem terminal_states_are_final s s' :
  is_terminal_state s ->
  (exists before after,
     Syfft.run Syfft.create before = Some s /\
     (m_status s = Aborted \/ Forall (fun e => is_decision e = false) after) /\
     Syfft.run s after = Some s') \/
  (exists before after,
     SyfftSender.run SyfftSender.create before = Some s /\
     SyfftSender.run s after = Some s') ->
  same_transfer s s'.
Proof.
  intros Ht [(before & after & Hb & Hd & Ha)|(before & after & Hb & Ha)].
  - exact (run_terminal after s s' Ht Hd Ha).
  - exact (sender_run_terminal after s s' (sender_reachable_SInv _ _ Hb) Ht Ha).
Qed.

(** A decision of the user does act on a Closed session: a sharing request
    left undecided, once accepted, takes the session back to InTransfer, and
    the answer to a question left open about a duplicated file uses the file
    in transfer, which is null by then. *)
Lemma late_decision_on_closed_session :
  (exists s s', run create late_request_trace = Some s /\ m_status s = Closed /\
     step s (AcceptSharingRequest true) = Some s' /\
     m_status s' = InTransfer /\ m_currentFile s' = 0) /\
  (exists s, run create late_choice_trace = Some s /\ m_status s = Closed /\
     m_fileInTransfer s = None /\
     pendingRequests s = [DuplicatedFile] /\
     step s (Chosen full_fs Replace false) = None /\
     step s (Chosen full_fs Keep false) = None).
Proof.
  split.
  - eexists. eexists. split; [vm_compute; reflexivity|].
    split; [reflexivity|]. split; [vm_compute; reflexivity|].
    split; reflexivity.
  - eexists. split; [vm_compute; reflexivity|]. repeat split; reflexivity.
Qed.

End TerminalStates.

Section TerminalWitness.
Import Syfft.

Lemma terminal_states_are_final_witness :
  (exists s s',
     run create terminated_trace = Some s /\ m_status s = Aborted /\
     run s [AcceptSharingRequest true; ReadData [ABORT; CLOSE];
            TerminateConnection; ChangePauseMode true; SocketError false;
            Disconnected] = Some s' /\
     same_transfer s s') /\
  (exists s s',
     run create complete_trace = Some s /\ m_status s = Closed /\
     run s [ReadData [ABORT; CLOSE]; TerminateConnection; ChangePauseMode true;
            SocketError false; Disconnected] = Some s' /\
     same_transfer s s').
Proof.
  split.
  - eexists. eexists. split; [vm_compute; reflexivity|].
    split; [reflexivity|]. split; [vm_compute; reflexivity|].
    apply terminal_states_are_final; [right; reflexivity|].
    left. exists terminated_trace.
    exists [AcceptSharingRequest true; ReadData [ABORT; CLOSE];
            TerminateConnection; ChangePauseMode true; SocketError false;
            Disconnected].
    split; [vm_compute; reflexivity|].
    split; [left; reflexivity|vm_compute; reflexivity].
  - eexists. eexists. split; [vm_compute; reflexivity|].
    split; [reflexivity|]. split; [vm_compute; reflexivity|].
    apply terminal_states_are_final; [left; reflexivity|].
    left. exists complete_trace.
    exists [ReadData [ABORT; CLOSE]; TerminateConnection; ChangePauseMode true;
            SocketError false; Disconnected].
    split; [vm_compute; reflexivity|].
    split; [right; repeat constructor|vm_compute; reflexivity].
Defined.

End TerminalWitness.

Section PauseMode.
Import Syfft.

(** X14: a pause of the user is undone by the resume.  In a session that is
    running (neither New, closing nor ended), is not paused by the user and is
    not waiting for a decision, [changePauseMode(true)] enters PausedByUser,
    where [readData], of the receiver as of the sender, leaves every command
    in the socket, and [changePauseMode(false)] then gives back the state
    before the pause. *)
Theorem pause_then_resume s cmds sender_cmds :
  m_status s <> New -> m_status s <> Closing -> m_status s <> Closed ->
  m_status s <> Aborted -> m_status s <> PausedByUser ->
  m_preventUserTogglePause s = false ->
  exists paused,
    changePauseMode true s = Some paused /\
    m_status paused = PausedByUser /\
    readData cmds paused = Some paused /\
    SyfftSender.readData sender_cmds paused = Some paused /\
    changePauseMode true paused = Some paused /\
    changePauseMode false paused = Some s.
Proof.
  intros H1 H2 H3 H4 H5 Hp.
  exists (setStatus PausedByUser
            (set_m_oldStatusStack (m_status s :: m_oldStatusStack s) s)).
  assert (Ht : forall u, togglePauseMode u s
               = if u && m_preventUserTogglePause s then Some s
                 else
                   let p := if u then PausedByUser else PausedByPeer in
                   if bool_decide (m_status s = p) then
                     match m_oldStatusStack s with
                     | [] => None
                     | o :: rest => Some (setStatus o (set_m_oldStatusStack rest s))
                     end
                   else Some (setStatus p
                                (set_m_oldStatusStack
                                   (m_status s :: m_oldStatusStack s) s))).
  { intros u. unfold togglePauseMode.
    rewrite (bool_decide_eq_false_2 _ H1), (bool_decide_eq_false_2 _ H2),
      (bool_decide_eq_false_2 _ H3), (bool_decide_eq_false_2 _ H4).
    reflexivity. }
  split.
  - unfold changePauseMode. rewrite (bool_decide_eq_false_2 _ H5).
    cbn [andb negb orb]. rewrite Ht, Hp. cbn [andb].
    rewrite (bool_decide_eq_false_2 _ H5). reflexivity.
  - split; [destruct s; reflexivity|].
    split; [unfold readData; destruct s; reflexivity|].
    split; [unfold SyfftSender.readData; destruct s; reflexivity|].
    split; [unfold changePauseMode; destruct s; reflexivity|].
    unfold changePauseMode, togglePauseMode. destruct s; cbn in *. subst.
    reflexivity.
Qed.

Lemma pause_then_resume_witness :
  exists s paused,
    run create opened_trace = Some s /\
    changePauseMode true s = Some paused /\
    readData [CHUNK 1 [x61] 1; COMMIT true] paused = Some paused /\
    SyfftSender.readData [SyfftSender.COMMIT read_ok; SyfftSender.CLOSE] paused
    = Some paused /\
    changePauseMode false paused = Some s.
Proof.
  assert (Hs : exists s, run create opened_trace = Some s /\
                 m_status s = InTransfer /\ m_preventUserTogglePause s = false).
  { eexists. split; [vm_compute; reflexivity|]. split; reflexivity. }
  destruct Hs as (s & Hrun & Hst & Hp).
  destruct (pause_then_resume s [CHUNK 1 [x61] 1; COMMIT true]
              [SyfftSender.COMMIT read_ok; SyfftSender.CLOSE])
    as (p & H1 & _ & H2 & H3 & _ & H4);
    try (rewrite Hst; discriminate); [exact Hp|].
  exists s, p. auto.
Defined.

End PauseMode.

Section Progress.
Import Syfft TransferInfoMethods.

Lemma terminal_counters s :
  Inv s -> is_terminal_state s -> tf s + sf s = totalFiles s.
Proof.
  intros HI Ht. pose proof (inv_data s HI) as Hd. unfold eff in Hd.
  cbn [first_np] in Hd.
  destruct Ht as [Hst|Hst]; rewrite Hst in Hd; cbn in Hd; apply Hd.
Qed.

(** X15: the progress shown for the files is sound.  In every state reached
    by a sending session, and by a receiving session in which every decision
    of the user reached the session while it was waiting for it, the
    transferred and the skipped files together never exceed the total, so
    that [remainingFiles] does not wrap around; for fewer than 42949673 files
    (100 times the total fits 32 bits) [percentageFiles] lies between 0 and
    100; and when the session is Closed or Aborted no file remains and the
    percentage is 100. *)
Theorem files_progress s :
  reachable_in_time s ->
  0 <= tf s + sf s <= totalFiles s /\
  remainingFiles (m_transferInfo s) = totalFiles s - tf s - sf s /\
  (totalFiles s < 42949673 ->
   0 <= percentageFiles (m_transferInfo s) <= 100) /\
  (is_terminal_state s ->
   remainingFiles (m_transferInfo s) = 0 /\
   (totalFiles s < 42949673 -> percentageFiles (m_transferInfo s) = 100)).
Proof.
  intros Hr. pose proof (sessions_Inv s Hr) as HI.
  destruct (Inv_summary s HI) as (Hle & _).
  destruct (inv_common s HI) as (Htot & _ & _ & Htf & Hsf & _).
  unfold INT_MAX in Htot. unfold tf, sf, totalFiles in *.
  assert (Hrem : remainingFiles (m_transferInfo s)
                 = m_totalFiles (m_transferInfo s)
                   - m_transferredFiles (m_transferInfo s)
                   - m_skippedFiles (m_transferInfo s)).
  { unfold remainingFiles. apply wrap32_small.
    change (2 ^ 32) with 4294967296. lia. }
  assert (Hpct : m_totalFiles (m_transferInfo s) < 42949673 ->
            percentageFiles (m_transferInfo s)
            = if 0 <? m_totalFiles (m_transferInfo s)
              then 100 * (m_transferredFiles (m_transferInfo s)
                          + m_skippedFiles (m_transferInfo s))
                   / m_totalFiles (m_transferInfo s)
              else 100).
  { intros Hsmall. unfold percentageFiles.
    rewrite (wrap32_small (m_transferredFiles (m_transferInfo s)
                           + m_skippedFiles (m_transferInfo s)))
      by (change (2 ^ 32) with 4294967296; lia).
    rewrite wrap32_small by (change (2 ^ 32) with 4294967296; lia).
    reflexivity. }
  split; [lia|]. split; [exact Hrem|]. split.
  - intros Hsmall. rewrite (Hpct Hsmall).
    destruct (Z.ltb_spec 0 (m_totalFiles (m_transferInfo s))) as [Hpos|_]; [|lia].
    split; [apply Z.div_pos; lia|].
    apply Z.div_le_upper_bound; lia.
  - intros Ht. pose proof (terminal_counters s HI Ht) as He.
    unfold tf, sf, totalFiles in He.
    split; [rewrite Hrem; lia|].
    intros Hsmall. rewrite (Hpct Hsmall).
    destruct (Z.ltb_spec 0 (m_totalFiles (m_transferInfo s))) as [Hpos|_];
      [|reflexivity].
    rewrite He. rewrite Z.div_mul by lia. reflexivity.
Qed.

Lemma files_progress_witness :
  (exists s, run create interrupted_trace = Some s /\
     remainingFiles (m_transferInfo s) = 0 /\
     percentageFiles (m_transferInfo s) = 100) /\
  (exists s,
     SyfftSender.run SyfftSender.create sender_interrupted_trace = Some s /\
     remainingFiles (m_transferInfo s) = 0 /\
     percentageFiles (m_transferInfo s) = 100).
Proof.
  split.
  - assert (Hs : exists s, run create interrupted_trace = Some s /\
                   m_status s = Aborted /\ totalFiles s = 2).
    { eexists. split; [vm_compute; reflexivity|]. split; reflexivity. }
    destruct Hs as (s & Hrun & Hst & Htot).
    destruct (files_progress s) as (_ & _ & _ & Hterm).
    + left. exists interrupted_trace.
      split; [vm_compute; repeat split|exact Hrun].
    + destruct (Hterm (or_intror Hst)) as [H0 H100].
      exists s. split; [exact Hrun|]. split; [exact H0|].
      apply H100. rewrite Htot. lia.
  - assert (Hs : exists s,
      SyfftSender.run SyfftSender.create sender_interrupted_trace = Some s /\
      m_status s = Aborted /\ totalFiles s = 2).
    { eexists. split; [vm_compute; reflexivity|]. split; reflexivity. }
    destruct Hs as (s & Hrun & Hst & Htot).
    destruct (files_progress s) as (_ & _ & _ & Hterm).
    + right. exists sender_interrupted_trace. exact Hrun.
    + destruct (Hterm (or_intror Hst)) as [H0 H100].
      exists s. split; [exact Hrun|]. split; [exact H0|].
      apply H100. rewrite Htot. lia.
Defined.

End Progress.

(** ** The contents of a transfer *)

Section TransferListFacts.

Lemma build_from items : forall l,
  fold_left (fun l item => TransferList.addToFileList (fst (fst item))
                             (snd (fst item)) (snd item) l) items l
  = TransferList.mk
      (TransferList.m_files l
       ++ List.filter FileInfo.m_valid (map offered items))
      (fold_left (fun acc f => wrap64 (acc + FileInfo.m_size f))
         (List.filter FileInfo.m_valid (map offered items))
         (TransferList.m_totalBytes l)).
Proof.
  induction items as [|item items IH]; intros l.
  - cbn. rewrite app_nil_r. destruct l; reflexivity.
  - cbn [fold_left map List.filter]. rewrite IH.
    unfold TransferList.addToFileList. fold (offered item).
    destruct (FileInfo.m_valid (offered item)) eqn:Hv; cbn [negb].
    + cbn [TransferList.m_files TransferList.m_totalBytes fold_left].
      rewrite <- app_assoc. cbn [app].
      assert (Hs : FileInfo.m_size (offered item) = wrap64 (snd (fst item))).
      { unfold offered, FileInfo.make.
        destruct (FileInfo.looks_strange _); reflexivity. }
      rewrite Hs. reflexivity.
    + reflexivity.
Qed.

(** X16: what a [TransferList] holds.  The list is made of exactly the
    descriptors of the offered files whose relative path is acceptable, in the
    order in which they were met and all Scheduled; a file whose path is not
    acceptable adds neither a descriptor nor bytes; the total number of bytes is
    the sum of the listed sizes modulo [2 ^ 64]. *)
Theorem transfer_list_contents items :
  TransferList.m_files (TransferList.build items)
  = List.filter FileInfo.m_valid (map offered items) /\
  Forall (fun f => acceptable (FileInfo.m_filePath f) /\
                   FileInfo.m_status f = FileInfo.Scheduled)
    (TransferList.m_files (TransferList.build items)) /\
  TransferList.totalBytes (TransferList.build items)
  = wrap64 (sumZ (map FileInfo.m_size
                    (TransferList.m_files (TransferList.build items)))).
Proof.
  assert (Hfiles : TransferList.m_files (TransferList.build items)
                   = List.filter FileInfo.m_valid (map offered items)).
  { unfold TransferList.build. rewrite build_from. reflexivity. }
  split; [exact Hfiles|]. split.
  - rewrite Hfiles. apply Forall_forall. intros f Hin.
    apply list_elem_of_In in Hin.
    apply filter_In in Hin as [Hin Hv]. apply in_map_iff in Hin as (item & <- & _).
    split.
    + apply make_valid in Hv. unfold offered, FileInfo.make in *.
      destruct (FileInfo.looks_strange _); exact Hv.
    + unfold offered, FileInfo.make.
      destruct (FileInfo.looks_strange _); reflexivity.
  - destruct (build_inv items) as [_ H]. exact H.
Qed.

End TransferListFacts.

Section TransferContents.
Import FileInTransfer.

Lemma writer_step_accepted o f pre :
  writer_inv f ->
  (m_error f = false -> file_tmp f = pre) ->
  (m_committed f = true -> file_dest f = Some pre) ->
  let r := apply (H := Writer.impl) o f in
  let pre' := pre ++ match o with
                     | OpChunk buffer _ => if fst r then buffer else []
                     | _ => []
                     end in
  (m_error (snd r) = false -> file_tmp (snd r) = pre') /\
  (m_committed (snd r) = true -> file_dest (snd r) = Some pre').
Proof.
  intros (H0 & H1 & H2 & H3 & H4 & H5) Htmp Hdest.
  destruct f as [v sz e ex' rem st c rb op tmp d]. cbn in *.
  destruct o as [buffer wr| a b |]; cbn [apply Writer.impl
    FileInTransfer.processNextDataChunk FileInTransfer.commit
    FileInTransfer.rollback].
  - unfold Writer.processNextDataChunk. cbn.
    destruct e; cbn.
    + rewrite app_nil_r. split; [discriminate|exact Hdest].
    + destruct op; cbn.
      * destruct (Z.ltb_spec rem (zlen buffer)) as [Hlt|Hge]; cbn.
        -- rewrite app_nil_r. split; [discriminate|exact Hdest].
        -- destruct (Z.eqb_spec wr (zlen buffer)) as [->|Hne]; cbn.
           ++ rewrite firstn_zlen, (Htmp eq_refl).
              split; [reflexivity|].
              intros Hc. rewrite Hc in H4. destruct (H4 eq_refl) as (_ & Ho & _).
              discriminate.
           ++ rewrite app_nil_r. split; [discriminate|exact Hdest].
      * rewrite app_nil_r. split; [discriminate|exact Hdest].
  - unfold Writer.commit, Writer.rollback. cbn. rewrite app_nil_r.
    destruct c; cbn; [split; assumption|].
    destruct op; cbn; [|split; discriminate].
    destruct e; cbn; [split; discriminate|].
    destruct (rem =? 0); cbn; [|split; discriminate].
    destruct a; cbn; [|split; discriminate].
    split; [intros _; exact (Htmp eq_refl)|].
    intros _. rewrite (Htmp eq_refl). reflexivity.
  - unfold Writer.rollback. cbn. rewrite app_nil_r.
    destruct c; cbn; [split; assumption|]. split; discriminate.
Qed.

Lemma writer_run_accepted ops : forall f pre,
  writer_inv f ->
  (m_error f = false -> file_tmp f = pre) ->
  (m_committed f = true -> file_dest f = Some pre) ->
  (m_error (run (H := Writer.impl) ops f) = false ->
   file_tmp (run (H := Writer.impl) ops f) = pre ++ accepted ops f) /\
  (m_committed (run (H := Writer.impl) ops f) = true ->
   file_dest (run (H := Writer.impl) ops f) = Some (pre ++ accepted ops f)).
Proof.
  induction ops as [|o ops IH]; intros f pre Hinv Htmp Hdest.
  - cbn. rewrite app_nil_r. split; assumption.
  - rewrite run_cons. cbn [accepted]. rewrite app_assoc.
    destruct (writer_step_accepted o f pre Hinv Htmp Hdest) as [Ht Hd].
    apply IH; [apply writer_apply_inv; exact Hinv|exact Ht|exact Hd].
Qed.

(** X17: what the writer commits.  Whatever operations are applied to a
    freshly created writer, and whatever was under the destination name before
    (no file, or a file that is to be replaced), the destination holds what
    it held before as long as the writer is not committed, also after a
    rollback; once the writer is committed it holds exactly the chunks that
    [processNextDataChunk] accepted, in their order, and they add up to the
    declared size; and as long as no error occurred the temporary file holds
    exactly the accepted chunks. *)
Theorem writer_commits_accepted_chunks valid size ex mkpathOk openOk ops old :
  0 <= size ->
  let w0 := Writer.create valid size ex mkpathOk openOk in
  let w := run (H := Writer.impl) ops w0 in
  (m_committed w = true ->
   destination old w = Some (accepted ops w0) /\
   zlen (accepted ops w0) = size) /\
  (m_committed w = false -> destination old w = old) /\
  (m_error w = false -> file_tmp w = accepted ops w0).
Proof.
  intros Hs w0 w.
  assert (Hinv0 : writer_inv w0) by (apply writer_create_inv; exact Hs).
  assert (Hinv : writer_inv w) by (apply writer_run_inv; exact Hinv0).
  assert (Hsz : info_size w = size)
    by (unfold w; rewrite writer_run_size; apply writer_create_size).
  destruct (writer_run_accepted ops w0 [] Hinv0) as [Ht Hd].
  - intros _. unfold w0, Writer.create, init.
    destruct valid, mkpathOk, openOk; reflexivity.
  - unfold w0, Writer.create, init.
    destruct valid, mkpathOk, openOk; discriminate.
  - cbn [app] in Ht, Hd. fold w in Ht, Hd.
    destruct Hinv as (H0 & H1 & H2 & H3 & H4 & H5).
    split; [|split; [|exact Ht]].
    + intros Hc. unfold destination. rewrite (Hd Hc).
      split; [reflexivity|].
      destruct (H4 Hc) as (_ & _ & Hdest & Hlen).
      rewrite (Hd Hc) in Hdest. injection Hdest as ->. lia.
    + intros Hc. unfold destination. rewrite (H5 Hc). reflexivity.
Qed.

Lemma writer_commits_accepted_chunks_witness :
  destination (Some [x7a])
    (run (H := Writer.impl)
       [OpChunk (repeat x61 5) 5; OpChunk (repeat x63 6) 6; OpCommit true false]
       (Writer.create true 11 true true true))
  = Some (repeat x61 5 ++ repeat x63 6) /\
  destination (Some [x7a])
    (run (H := Writer.impl)
       [OpChunk (repeat x61 5) 5; OpRollback; OpCommit true false]
       (Writer.create true 11 true true true))
  = Some [x7a].
Proof.
  split.
  - destruct (writer_commits_accepted_chunks true 11 true true true
                [OpChunk (repeat x61 5) 5; OpChunk (repeat x63 6) 6;
                 OpCommit true false] (Some [x7a])) as [Hc _]; [lia|].
    destruct (Hc eq_refl) as [Hd _]. exact Hd.
  - destruct (writer_commits_accepted_chunks true 11 true true true
                [OpChunk (repeat x61 5) 5; OpRollback; OpCommit true false]
                (Some [x7a])) as (_ & Hn & _); [lia|].
    exact (Hn eq_refl).
Defined.

End TransferContents.

Section ReaderFacts.
Import FileInTransfer.

Lemma reader_step o f :
  0 <= m_remainingBytes f ->
  (m_committed f = true -> m_remainingBytes f = 0) ->
  let r := apply (H := Reader.impl) o f in
  0 <= m_remainingBytes (snd r) /\
  (m_committed (snd r) = true -> m_remainingBytes (snd r) = 0) /\
  info_size (snd r) = info_size f /\
  m_remainingBytes (snd r)
  + match o with
    | OpChunk _ rd => if fst r then rd else 0
    | _ => 0
    end = m_remainingBytes f /\
  match o with
  | OpChunk _ rd => fst r = true -> 0 < rd <= MAX_CHUNK_SIZE
  | OpCommit _ _ => fst r = true -> m_remainingBytes f = 0
  | OpRollback => True
  end.
Proof.
  intros H0 Hc. destruct f as [v sz e ex' rem st c rb op tmp d]. cbn in *.
  destruct o as [buffer rd| a b |]; cbn [apply Reader.impl
    FileInTransfer.processNextDataChunk FileInTransfer.commit
    FileInTransfer.rollback].
  - unfold Reader.processNextDataChunk, MAX_CHUNK_SIZE. cbn.
    destruct e; cbn; [repeat split; try lia; try discriminate; auto|].
    destruct (Z.eqb_spec rem 0) as [Hz|Hnz]; cbn;
      [repeat split; try lia; try discriminate; auto|].
    destruct op; cbn; [|repeat split; try lia; try discriminate; auto].
    assert (Hnc : c = false) by (destruct c; [specialize (Hc eq_refl); lia|reflexivity]).
    subst c.
    destruct (Z.gtb_spec rem 8192) as [Hgt|Hle].
    + destruct (Z.eqb_spec rd 8192) as [->|Hne]; cbn;
        repeat split; try lia; discriminate.
    + destruct (Z.eqb_spec rd rem) as [->|Hne]; cbn;
        repeat split; try lia; discriminate.
  - unfold Reader.commit, Reader.rollback. cbn.
    destruct c; cbn; [repeat split; try lia; auto|].
    destruct e; cbn; [repeat split; try lia; discriminate|].
    destruct (Z.eqb_spec rem 0) as [Hz|Hnz]; cbn;
      [|repeat split; try lia; discriminate].
    destruct a; cbn; [|repeat split; try lia; discriminate].
    destruct b; cbn; repeat split; try lia; discriminate.
  - unfold Reader.rollback. cbn. destruct c; cbn; repeat split; try lia; auto.
Qed.

Lemma reader_run ops : forall f,
  0 <= m_remainingBytes f ->
  (m_committed f = true -> m_remainingBytes f = 0) ->
  let r := run (H := Reader.impl) ops f in
  0 <= m_remainingBytes r /\
  (m_committed r = true -> m_remainingBytes r = 0) /\
  info_size r = info_size f /\
  m_remainingBytes r + sent ops f = m_remainingBytes f /\
  0 <= sent ops f /\
  chunks_bounded ops f.
Proof.
  induction ops as [|o ops IH]; intros f H0 Hc.
  - cbn. repeat split; auto; lia.
  - rewrite run_cons. cbn [sent chunks_bounded].
    destruct (reader_step o f H0 Hc) as (H0' & Hc' & Hsz & Hsum & Hb).
    destruct (IH _ H0' Hc') as (I0 & Ic & Isz & Isum & Ipos & Ib).
    cbv zeta in *.
    split; [exact I0|]. split; [exact Ic|]. split; [congruence|].
    split; [lia|]. split.
    + destruct o as [buffer rd| |]; try lia.
      destruct (fst (apply (OpChunk buffer rd) f)) eqn:E; [|lia].
      specialize (Hb eq_refl). lia.
    + split; [|exact Ib]. destruct o; auto.
Qed.

(** X18: what the reader sends.  Whatever operations are applied to a
    freshly created reader for a file of [size] bytes, every chunk it reads
    with success has between 1 and [MAX_CHUNK_SIZE] bytes, the bytes read so
    far and the bytes that remain always add up to [size], and the reader is
    committed only when exactly [size] bytes have been read. *)
Theorem reader_sends_declared_size valid size ex updated openOk ops :
  0 <= size ->
  let r0 := Reader.create valid size ex updated openOk in
  let r := run (H := Reader.impl) ops r0 in
  chunks_bounded ops r0 /\
  0 <= m_remainingBytes r <= size /\
  sent ops r0 + m_remainingBytes r = size /\
  (m_committed r = true -> sent ops r0 = size) /\
  (forall atEnd upd, fst (Reader.commit atEnd upd r) = true ->
     sent ops r0 = size).
Proof.
  intros Hs r0 r.
  assert (Hrem : m_remainingBytes r0 = size /\ m_committed r0 = false).
  { unfold r0, Reader.create, init.
    destruct valid, updated, openOk; split; reflexivity. }
  destruct Hrem as [Hrem Hnc].
  destruct (reader_run ops r0) as (H0 & Hc & _ & Hsum & Hpos & Hb).
  - lia.
  - rewrite Hnc. discriminate.
  - fold r in H0, Hc, Hsum. rewrite Hrem in Hsum.
    split; [exact Hb|]. split; [lia|]. split; [lia|].
    split; [intros H; specialize (Hc H); lia|].
    intros atEnd upd Hcommit.
    destruct (reader_step (OpCommit atEnd upd) r H0 Hc) as (_ & _ & _ & _ & Hz).
    specialize (Hz Hcommit). lia.
Qed.

Lemma reader_sends_declared_size_witness :
  sent [OpChunk [] 8192; OpChunk [] 1808; OpCommit true false]
    (Reader.create true 10000 true false true) = 10000.
Proof.
  destruct (reader_sends_declared_size true 10000 true false true
              [OpChunk [] 8192; OpChunk [] 1808; OpCommit true false])
    as (_ & _ & _ & Hc & _); [lia|].
  apply Hc. reflexivity.
Defined.

End ReaderFacts.

(** ** The life of the discovery protocol *)

Section DiscoveryLifecycle.
Import Syfd.

Variable writeOk : nat -> bool.

Lemma start_online fuel :
  start writeOk fuel Online true false (create true) = Some started_online.
Proof. reflexivity. Qed.


Lemma setMode_datagram sd mode b q q' :
  (forall a a', sd a = Some a' ->
     m_valid a' = m_valid a /\ datagramValid a' = datagramValid a) ->
  setMode_ sd mode b q = Some q' ->
  m_valid q' = m_valid q /\ datagramValid q' = datagramValid q.
Proof.
  intros Hsd. unfold setMode_, sendQuitDatagram_.
  destruct (bool_decide _); [intros [= <-]; auto|].
  destruct mode.
  - destruct (_ && _).
    + destruct (sd q) as [a'|] eqn:Ea; [|discriminate].
      cbn [mbind option_bind]. destruct (Hsd _ _ Ea) as [A B].
      destruct b; intros [= <-]; cbn; auto.
    + cbn [mbind option_bind]. destruct b; intros [= <-]; cbn; auto.
  - destruct (bufferEmpty q); [intros [= <-]; cbn; auto|].
    destruct b; intros [= <-]; cbn; auto.
Qed.

Lemma sendDatagram_datagram f : forall a a',
  sendDatagram writeOk f a = Some a' ->
  m_valid a' = m_valid a /\ datagramValid a' = datagramValid a.
Proof.
  induction f as [|f IHf]; intros a a'; [discriminate|].
  cbn [sendDatagram]. destruct (negb _); [|intros [= <-]; cbn; auto].
  destruct (_ =? INT_MAX); [discriminate|].
  destruct (_ =? ERROR_THRESHOLD); [|intros [= <-]; cbn; auto].
  destruct (setMode_ _ _ _ _) as [a1|] eqn:Ea; [|discriminate].
  cbn [mbind option_bind]. intros [= <-].
  destruct (setMode_datagram _ _ _ _ _ IHf Ea) as [A B]. cbn in *. auto.
Qed.

Lemma timeout_datagram fuel q q' :
  timeout writeOk fuel q = Some q' ->
  m_valid q' = m_valid q /\ datagramValid q' = datagramValid q.
Proof.
  unfold timeout, sendBufferedDatagram, setMode.
  destruct (_ && _); [|intros [= <-]; auto].
  destruct (negb _).
  - apply sendDatagram_datagram.
  - apply setMode_datagram, sendDatagram_datagram.
Qed.

Lemma timeouts_datagram fuel n : forall q q',
  timeouts writeOk fuel n q = Some q' ->
  m_valid q' = m_valid q /\ datagramValid q' = datagramValid q.
Proof.
  induction n as [|n IH]; intros q q'.
  - intros [= <-]. auto.
  - cbn [timeouts]. destruct (timeout writeOk fuel q) as [q1|] eqn:E;
      [|discriminate].
    cbn [mbind option_bind]. intros H.
    destruct (IH _ _ H) as [A B]. destruct (timeout_datagram _ _ _ E) as [C D].
    split; congruence.
Qed.

Lemma stop_sending fuel p :
  (1 <= fuel)%nat -> m_valid p = true -> sending p -> datagramValid p = true ->
  exists p',
    stop writeOk fuel p = Some p' /\
    m_valid p' = true /\ m_status p' = Stopped /\ m_mode p' = Offline /\
    timerActive p' = false /\ m_errorCount p' = 0 /\
    writes p' = S (writes p) /\
    emitted p'
    = emitted p
      ++ (if writeOk (writes p) || (m_errorCount p + 1 <? ERROR_THRESHOLD)
          then [modeChanged Offline; stopped]
          else [modeChanged Offline; error; modeChanged Offline; stopped]).
Proof.
  intros Hfuel Hv (Hst & Hmode & Htimer & Hbuf & Hcount) Hdv.
  destruct fuel as [|fuel]; [lia|].
  destruct p as [v st mode tm dv be c w em]. cbn in *. subst.
  unfold stop, setMode, setMode_, sendQuitDatagram_. cbn.
  rewrite (bool_decide_eq_false_2 (Started = Stopped)) by discriminate.
  rewrite (bool_decide_eq_false_2 (Online = Offline)) by discriminate.
  unfold ERROR_THRESHOLD, INT_MAX in *.
  destruct (Z.ltb_spec c 3) as [_|]; [|lia]. cbn.
  destruct (writeOk w); cbn.
  - eexists. split; [reflexivity|]. cbn. rewrite <- app_assoc. auto 10.
  - destruct (Z.eqb_spec c 2147483647) as [|_]; [lia|].
    destruct (Z.eqb_spec (c + 1) 3) as [H3|H3].
    + unfold setMode_, sendQuitDatagram_, ERROR_THRESHOLD. cbn.
      rewrite (bool_decide_eq_false_2 (Online = Offline)) by discriminate.
      destruct (Z.ltb_spec (c + 1) 3) as [|_]; [lia|].
      cbn.
      eexists. split; [reflexivity|]. cbn. rewrite <- !app_assoc. auto 10.
    + destruct (Z.ltb_spec (c + 1) 3) as [_|]; [|lia]. cbn.
      eexists. split; [reflexivity|]. cbn. rewrite <- app_assoc. auto 10.
Qed.

(** X19: the life of the discovery protocol.  Started in online mode with
    a valid datagram, the protocol advertises the datagram at each of [n]
    intervals as long as fewer than three writes in a row fail, and [stop] then
    sends one more datagram, the quit one: [n + 1] writes in all.  It ends
    Stopped and Offline with the timer stopped, having emitted [started],
    [modeChanged(Online)], [modeChanged(Offline)] and [stopped]; when the write
    of the quit datagram is the third failure in a row, [error] and a second
    [modeChanged(Offline)] come before [stopped].  Once stopped, neither
    [stop] nor the timer does anything. *)
Theorem discovery_lifecycle fuel n :
  (1 <= fuel)%nat ->
  (forall k, (k <= n)%nat -> streak writeOk 0 0 k < ERROR_THRESHOLD) ->
  exists p1 p2 p3,
    start writeOk fuel Online true false (create true) = Some p1 /\
    timeouts writeOk fuel n p1 = Some p2 /\
    stop writeOk fuel p2 = Some p3 /\
    m_status p3 = Stopped /\ m_mode p3 = Offline /\ timerActive p3 = false /\
    writes p3 = S n /\
    emitted p3
    = [started; modeChanged Online]
      ++ (if writeOk n || (streak writeOk 0 0 n + 1 <? ERROR_THRESHOLD)
          then [modeChanged Offline; stopped]
          else [modeChanged Offline; error; modeChanged Offline; stopped]) /\
    stop writeOk fuel p3 = Some p3 /\
    timeout writeOk fuel p3 = Some p3.
Proof.
  intros Hfuel Hlow.
  assert (Hs : sending started_online).
  { unfold sending, ERROR_THRESHOLD. cbn. repeat split; auto; lia. }
  destruct (timeouts_sending writeOk fuel n started_online Hfuel Hs Hlow)
    as (p2 & H2 & Hs2 & Hc2 & Hw2 & He2).
  assert (Hv2 : m_valid p2 = true /\ datagramValid p2 = true).
  { destruct (timeouts_datagram fuel n _ _ H2) as [A B]. cbn in A, B. auto. }
  exists started_online, p2.
  destruct Hv2 as [Hv2 Hd2].
  destruct (stop_sending fuel p2 Hfuel Hv2 Hs2 Hd2)
    as (p3 & H3 & Hv3 & Hst3 & Hm3 & Ht3 & Hc3 & Hw3 & He3).
  exists p3. rewrite Hw2, Hc2, He2 in *. cbn [writes started_online m_errorCount
    emitted Nat.add] in *.
  split; [apply start_online|]. split; [exact H2|]. split; [exact H3|].
  split; [exact Hst3|]. split; [exact Hm3|]. split; [exact Ht3|].
  split; [exact Hw3|]. split; [exact He3|]. split.
  - unfold stop. rewrite Hv3, Hst3. reflexivity.
  - unfold timeout. rewrite Ht3. reflexivity.
Qed.

End DiscoveryLifecycle.

(** ** The states of the registry *)

Section RegistryStatesFacts.
Import Users PeersList.

Lemma loaded_registered k p : loaded k p -> registered k p.
Proof.
  intros (Hv & Ha & Hi). unfold registered. auto.
Qed.

Lemma incrementAge_registered k p :
  registered k p -> registered k (snd (Users.incrementAge p)).
Proof.
  intros (Hv & Hi & Ha). unfold Users.incrementAge.
  unfold AgeMax, AgeUnconfirmed in *.
  destruct (bool_decide_reflect (m_age p = 254)) as [He|Hne]; cbn [snd].
  - unfold registered. auto.
  - assert (Hw : wrap8 (m_age p + 1) = m_age p + 1)
      by (unfold wrap8; apply Z.mod_small; lia).
    cbn [m_age set_age]. rewrite Hw.
    destruct (Z.gtb_spec (m_age p + 1) 4); cbn [snd];
      unfold registered, AgeMax, AgeUnconfirmed; cbn; (split; [exact Hv|]);
      (split; [exact Hi|]); lia.
Qed.

Lemma incrementAge_well_kept l :
  well_kept l -> well_kept (PeersList.incrementAge l).
Proof.
  intros Hl k p. unfold PeersList.incrementAge. cbn [m_instances emit set_instances].
  rewrite lookup_fmap. destruct (m_instances l !! k) as [q|] eqn:E; [|discriminate].
  cbn. intros [= <-]. apply incrementAge_registered, Hl, E.
Qed.

Lemma update_well_kept freshUuid d l :
  d_valid d = true -> well_kept l ->
  exists l', PeersList.update freshUuid d l = Some l' /\ well_kept l'.
Proof.
  intros Hd Hl. unfold PeersList.update. rewrite Hd. cbn [negb].
  destruct (d_flagQuit d).
  - destruct (m_instances l !! d_uuid d) as [peer|] eqn:E; [|eauto].
    destruct (Hl _ _ E) as (Hv & Hi & Ha).
    unfold setUnconfirmed. destruct (negb _).
    + eexists. split; [reflexivity|]. intros k p. cbn [m_instances emit set_instances].
      destruct (decide (d_uuid d = k)) as [<-|Hne].
      * rewrite lookup_insert_eq. intros [= <-]. unfold registered. cbn. auto.
      * rewrite lookup_insert_ne by exact Hne. apply Hl.
    + eexists. split; [reflexivity|]. intros k p. cbn [m_instances set_instances].
      destruct (decide (d_uuid d = k)) as [<-|Hne].
      * rewrite lookup_insert_eq. intros [= <-]. unfold registered. auto.
      * rewrite lookup_insert_ne by exact Hne. apply Hl.
  - destruct (m_instances l !! d_uuid d) as [peer|] eqn:E.
    + destruct (Hl _ _ E) as (Hv & (info & Hi & Hu) & Ha).
      unfold Users.update. rewrite Hi. cbn [mbind option_bind].
      rewrite Hv, Hd, Hu, String.eqb_refl. cbn [negb orb].
      set (peer' := mkPeer _ _ _ _).
      assert (Hreg : registered (d_uuid d) peer').
      { unfold registered, peer', AgeMax. cbn. split; [reflexivity|].
        split; [eexists; split; reflexivity|]. lia. }
      assert (Hkept : forall sigs,
                well_kept (emit sigs (set_instances
                             (<[d_uuid d := peer']> (m_instances l)) l))).
      { intros sigs k p. cbn [m_instances emit set_instances].
        destruct (decide (d_uuid d = k)) as [<-|Hne].
        - rewrite lookup_insert_eq. intros [= <-]. exact Hreg.
        - rewrite lookup_insert_ne by exact Hne. apply Hl. }
      assert (Hv' : m_valid peer' = true) by reflexivity.
      rewrite Hv'. cbn [negb].
      match goal with |- context [if ?b then Some _ else Some _] =>
        destruct b end;
        match goal with |- context [if ?b then emit _ _ else _] =>
          destruct b end;
        (eexists; split; [reflexivity|]);
        intros k p; cbn [m_instances emit set_instances];
        apply (Hkept []).
    + destruct (String.eqb _ _); [eexists; split; [reflexivity|exact Hl]|].
      unfold PeerUser_of_datagram. rewrite Hd. cbn [negb m_valid].
      eexists. split; [reflexivity|].
      intros k p. cbn [m_instances emit set_instances uuid_of m_info from_option m_uuid].
      destruct (decide (d_uuid d = k)) as [<-|Hne].
      * rewrite lookup_insert_eq. intros [= <-].
        unfold registered, AgeMax. cbn. split; [reflexivity|].
        split; [eauto|lia].
      * rewrite lookup_insert_ne by exact Hne. apply Hl.
Qed.

Lemma run_well_kept events : forall l,
  Forall from_valid_datagram events -> well_kept l ->
  exists l', PeersList.run l events = Some l' /\ well_kept l'.
Proof.
  induction events as [|e events IH]; intros l Hev Hl.
  - exists l. auto.
  - apply Forall_cons in Hev as [He Hev]. cbn [run].
    destruct e as [freshUuid d|]; cbn [step].
    + destruct (update_well_kept freshUuid d l He Hl) as (l1 & H1 & Hl1).
      rewrite H1. cbn [mbind option_bind]. apply IH; assumption.
    + cbn [mbind option_bind]. apply IH; [assumption|].
      apply incrementAge_well_kept, Hl.
Qed.

Section Created.

Variable uuidIsNull : string -> bool.
Variable iconFromJson : string -> QJsonObject -> option string.
Variable preferencesFromJson : QJsonObject -> QJsonObject.

(** X20: whatever [peers.json] holds, the registry processes every sequence
    of valid datagrams and aging intervals without failing an assertion, and
    every instance it then stores is valid, is stored under its own UUID and
    is either confirmed with an age of at most [AgeMax] or unconfirmed: the
    local user is never among them. *)
Theorem registry_well_kept junkAge file uuid firstName lastName events :
  Forall from_valid_datagram events ->
  exists l,
    PeersList.run
      (PeersList.create uuidIsNull iconFromJson preferencesFromJson junkAge
         file uuid firstName lastName) events = Some l /\
    consistent l /\
    forall k p, m_instances l !! k = Some p ->
      m_valid p = true /\ localUser p = false /\
      (0 <= m_age p <= AgeMax \/ unconfirmed p = true).
Proof.
  intros Hev.
  destruct (run_well_kept events
              (PeersList.create uuidIsNull iconFromJson preferencesFromJson
                 junkAge file uuid firstName lastName) Hev)
    as (l & Hrun & Hl).
  { intros k p Hp. apply loaded_registered. eapply create_loaded, Hp. }
  exists l. split; [exact Hrun|]. split.
  - intros k p Hp. destruct (Hl _ _ Hp) as (_ & (info & Hi & Hu) & _).
    unfold uuid_of. rewrite Hi. exact Hu.
  - intros k p Hp. destruct (Hl _ _ Hp) as (Hv & _ & Ha).
    split; [exact Hv|]. unfold localUser, unconfirmed, AgeInfinity,
      AgeUnconfirmed, AgeMax in *. split.
    + apply bool_decide_eq_false_2. lia.
    + destruct Ha as [Ha|Ha]; [left; exact Ha|right].
      apply bool_decide_eq_true_2, Ha.
Qed.

End Created.

(** X21: a quit datagram of a confirmed peer makes its instance
    unconfirmed and emits [peerExpired] once, leaving what is known of the
    peer as it is; a second quit datagram, and a quit datagram of a peer the
    registry does not hold, change nothing; and the next advertisement of the
    peer confirms it again, with [peerAdded]. *)
Theorem quit_datagram_expires_once freshUuid d l p :
  well_kept l -> d_valid d = true -> d_flagQuit d = true ->
  let k := d_uuid d in
  (m_instances l !! k = None -> PeersList.update freshUuid d l = Some l) /\
  (m_instances l !! k = Some p -> unconfirmed p = true ->
   PeersList.update freshUuid d l = Some l) /\
  (m_instances l !! k = Some p -> unconfirmed p = false ->
   exists l',
     PeersList.update freshUuid d l = Some l' /\
     m_instances l' = <[k := set_age AgeUnconfirmed p]> (m_instances l) /\
     emitted l' = emitted l ++ [peerExpired k] /\
     PeersList.update freshUuid d l' = Some l' /\
     forall d', d_valid d' = true -> d_flagQuit d' = false -> d_uuid d' = k ->
       exists l'' p',
         PeersList.update freshUuid d' l' = Some l'' /\
         m_instances l'' !! k = Some p' /\ m_age p' = 0 /\
         exists before,
           emitted l''
           = emitted l' ++ before ++ [peerAdded k] ++ duplicatedName l p' /\
           (before = [] \/ before = [peerUpdated k])).
Proof.
  intros Hl Hd Hq k. split; [|split].
  - intros Hp. unfold PeersList.update. rewrite Hd, Hq. cbn [negb].
    fold k. rewrite Hp. reflexivity.
  - intros Hp Hu. unfold PeersList.update. rewrite Hd, Hq. cbn [negb].
    fold k. rewrite Hp. unfold setUnconfirmed, unconfirmed in *.
    rewrite Hu. cbn [negb]. rewrite insert_id by exact Hp.
    destruct l; reflexivity.
  - intros Hp Hu. unfold PeersList.update at 1. rewrite Hd, Hq. cbn [negb].
    fold k. rewrite Hp. unfold setUnconfirmed, unconfirmed in *.
    rewrite Hu. cbn [negb].
    eexists. split; [reflexivity|]. cbn [m_instances emit set_instances emitted].
    split; [reflexivity|]. split; [reflexivity|].
    destruct (Hl _ _ Hp) as (Hv & (info & Hi & Hk) & Ha).
    split.
    + unfold PeersList.update. rewrite Hd, Hq.
      cbn [negb m_instances emit set_instances]. fold k.
      rewrite lookup_insert_eq. unfold setUnconfirmed. cbn [m_age set_age].
      rewrite bool_decide_eq_true_2 by reflexivity. cbn [negb].
      cbn [set_instances m_instances me_uuid me_firstName me_lastName emitted
           peers_json]. rewrite insert_insert_eq. reflexivity.
    + intros d' Hd' Hq' Hk'.
      unfold PeersList.update. rewrite Hd', Hq', Hk'.
      cbn [negb m_instances emit set_instances].
      rewrite lookup_insert_eq. unfold Users.update.
      cbn [m_info set_age m_valid m_age]. rewrite Hi. cbn [mbind option_bind].
      rewrite Hv, Hd', Hk, Hk', String.eqb_refl. cbn [negb orb].
      rewrite (bool_decide_eq_true_2 (AgeUnconfirmed = AgeUnconfirmed))
        by reflexivity.
      cbn [orb]. unfold unconfirmed. cbn [m_age set_age m_valid].
      rewrite (bool_decide_eq_true_2 (AgeUnconfirmed = AgeUnconfirmed))
        by reflexivity.
      cbn [negb].
      match goal with |- context [if ?b then emit [peerUpdated k] _ else _] =>
        destruct b end.
      * eexists. eexists. split; [reflexivity|].
        cbn [m_instances emit set_instances emitted].
        rewrite lookup_insert_eq. split; [reflexivity|]. split; [reflexivity|].
        exists [peerUpdated k]. split; [|right; reflexivity].
        rewrite <- !app_assoc. reflexivity.
      * eexists. eexists. split; [reflexivity|].
        cbn [m_instances emit set_instances emitted].
        rewrite lookup_insert_eq. split; [reflexivity|]. split; [reflexivity|].
        exists []. split; [|left; reflexivity].
        rewrite <- !app_assoc. reflexivity.
Qed.

End RegistryStatesFacts.

Section RegistryStatesSamples.
Import Users PeersList RegistrySamples.
Local Open Scope string_scope.

Lemma confirmed_registry_well_kept : well_kept confirmed_registry.
Proof.
  intros k p Hp. cbn in Hp.
  apply lookup_singleton_Some in Hp as [<- <-].
  unfold registered, AgeMax. cbn. split; [reflexivity|].
  split; [eauto|lia].
Qed.

Lemma registry_well_kept_witness :
  exists l,
    PeersList.run second_run
      [Datagram "{new}" beacon; AgingTimeout; Datagram "{new}" farewell]
    = Some l /\
    consistent l /\
    forall k p, m_instances l !! k = Some p ->
      m_valid p = true /\ localUser p = false /\
      (0 <= m_age p <= AgeMax \/ unconfirmed p = true).
Proof.
  apply (registry_well_kept uuidIsNull iconFromJson preferencesFromJson 0
           (Some [stored]) "{me}" "Me" "Myself").
  repeat constructor.
Defined.

Lemma quit_datagram_expires_once_witness :
  exists l',
    PeersList.update "{new}" farewell confirmed_registry = Some l' /\
    m_instances l'
    = <["{p1}" := set_age AgeUnconfirmed fresh_peer]>
        (m_instances confirmed_registry) /\
    emitted l' = (emitted confirmed_registry ++ [peerExpired "{p1}"])%list /\
    PeersList.update "{new}" farewell l' = Some l'.
Proof.
  destruct (quit_datagram_expires_once "{new}" farewell confirmed_registry
              fresh_peer confirmed_registry_well_kept eq_refl eq_refl)
    as (_ & _ & H).
  destruct H as (l' & H1 & H2 & H3 & H4 & _);
    [vm_compute; reflexivity|reflexivity|].
  exists l'. auto.
Defined.

End RegistryStatesSamples.

Lemma discovery_lifecycle_witness :
  exists p1 p2 p3,
    Syfd.start always_fails 1 Syfd.Online true false (Syfd.create true)
    = Some p1 /\
    Syfd.timeouts always_fails 1 2 p1 = Some p2 /\
    Syfd.stop always_fails 1 p2 = Some p3 /\
    Syfd.writes p3 = 3%nat /\
    Syfd.emitted p3
    = [Syfd.started; Syfd.modeChanged Syfd.Online;
       Syfd.modeChanged Syfd.Offline; Syfd.error;
       Syfd.modeChanged Syfd.Offline; Syfd.stopped].
Proof.
  destruct (discovery_lifecycle always_fails 1 2 (le_n 1))
    as (p1 & p2 & p3 & H1 & H2 & H3 & _ & _ & _ & Hw & He & _).
  { intros k Hk. unfold Syfd.ERROR_THRESHOLD.
    destruct k as [|[|[|k]]]; cbn; lia. }
  exists p1, p2, p3. auto.
Defined.
